(** * Feen proxy gateway: a shallow embedding of the request-time core

    The development follows the TypeScript sources:
    - [lib/crypto]            (encrypt, decrypt, hash, generateAccessToken)
    - [lib/redis]             (checkRateLimit and the cache helpers)
    - [lib/routing]           (PROVIDER_ENDPOINTS, MODEL_PROVIDER_MAP,
                               getFastestProvider, recordLatency)
    - [lib/security/token-scopes]    (EndpointScopes, hasRequiredScope)
    - [lib/security/request-signing] (generateSignature, verifySignature)
    - [lib/security/two-factor]      (verifyTOTP, generateTOTP, base32Decode)
    - [lib/security/token-rotation]  (recordSuspiciousActivity, rotateToken)
    - [app/api/proxy/.../route]      (handleProxy)

    JavaScript strings and Buffers are byte strings here ([string] for text,
    [list ascii] for Buffers); a string is identified with its UTF-8
    encoding, so [String.length] is the byte length that [Buffer.from]
    produces and [js_length] the number of UTF-16 code units; where single
    code units matter ([secureCompare]) a string is the list of its code
    units.  Integers are [Z]: every number the modelled code computes
    with is an integer far below 2^53, where the double arithmetic of the
    source is exact.  Exceptions are explicit: a computation yields an
    [outcome], and stateful code is a function from the state to an outcome
    and the state it leaves behind (what was written before a [throw]
    stays written). *)

From Stdlib Require Import ZArith Lia Ascii String.
From stdpp Require Import gmap strings list fin_maps.

Open Scope Z_scope.

(* ===================================================================== *)
(** * Part I: definitions                                                  *)
(* ===================================================================== *)

(** ** Exceptions and outcomes *)

Inductive exn : Type :=
  | JsError (msg : string)      (* new Error(msg); a failed authentication in node:crypto *)
  | RangeError (msg : string)   (* timingSafeEqual on unequal lengths, a key of the wrong
                                   length, a status outside 200..599 *)
  | TypeError (msg : string)    (* property access on undefined / null, an empty nonce, a
                                   tag of the wrong length, a refused header value *)
  | RedisError                  (* ioredis: connection lost, retries exhausted *)
  | PrismaError (msg : string). (* record to update not found, ... *)

Inductive outcome (A : Type) : Type :=
  | Ok (a : A)
  | Throw (e : exn).
Arguments Ok {A} a.
Arguments Throw {A} e.

Definition is_ok {A} (o : outcome A) : bool :=
  match o with Ok _ => true | Throw _ => false end.

Definition outcome_map {A B} (f : A -> B) (o : outcome A) : outcome B :=
  match o with Ok a => Ok (f a) | Throw e => Throw e end.

(** ** Characters, digits and numbers as text *)

Definition byte_zero : ascii := Ascii false false false false false false false false.

Definition char_in (lo hi c : ascii) : bool :=
  (nat_of_ascii lo <=? nat_of_ascii c)%nat && (nat_of_ascii c <=? nat_of_ascii hi)%nat.

Definition is_digit (c : ascii) : bool := char_in "0" "9" c.

Definition digit_val (c : ascii) : Z := Z.of_nat (nat_of_ascii c) - 48.

Definition digit_char (d : Z) : ascii := ascii_of_nat (48 + Z.to_nat d).

(** Decimal digits of a non-negative integer, most significant first. *)
Fixpoint digits_fuel (fuel : nat) (n : Z) (acc : string) : string :=
  match fuel with
  | O => acc
  | S f =>
      let acc' := String (digit_char (n mod 10)) acc in
      if n / 10 =? 0 then acc' else digits_fuel f (n / 10) acc'
  end.

(** [Number.prototype.toString()] on an integer. *)
Definition toString (n : Z) : string :=
  if n <? 0 then String "-" (digits_fuel (S (Z.to_nat (Z.log2 (- n)))) (- n) "")
  else digits_fuel (S (Z.to_nat (Z.log2 n))) n "".

(** [String.prototype.padStart(n, c)] with a one-character filler. *)
Definition padStart (n : nat) (c : ascii) (s : string) : string :=
  string_of_list_ascii (replicate (n - String.length s) c) +:+ s.

Definition is_js_space (c : ascii) : bool :=
  match nat_of_ascii c with
  | 9%nat | 10%nat | 11%nat | 12%nat | 13%nat | 32%nat => true
  | _ => false
  end.

Fixpoint skip_space (s : string) : string :=
  match s with
  | String c s' => if is_js_space c then skip_space s' else s
  | EmptyString => s
  end.

Fixpoint parse_digits (s : string) (acc : option Z) : option Z :=
  match s with
  | String c s' =>
      if is_digit c then parse_digits s' (Some (10 * default 0 acc + digit_val c))
      else acc
  | EmptyString => acc
  end.

(** [parseInt(s, 10)]; [None] is NaN.  Leading white space is skipped, an
    optional sign is read, then the longest run of decimal digits. *)
Definition parseInt (s : string) : option Z :=
  match skip_space s with
  | String "-" r => Z.opp <$> parse_digits r None
  | String "+" r => parse_digits r None
  | r => parse_digits r None
  end.

Definition to_upper_char (c : ascii) : ascii :=
  if char_in "a" "z" c then ascii_of_nat (nat_of_ascii c - 32) else c.

Fixpoint toUpperCase (s : string) : string :=
  match s with
  | String c s' => String (to_upper_char c) (toUpperCase s')
  | EmptyString => EmptyString
  end.

(** [String.prototype.startsWith] and [String.prototype.includes]. *)
Definition startsWith (s pat : string) : bool := String.prefix pat s.

Fixpoint includes (s pat : string) : bool :=
  String.prefix pat s ||
  match s with
  | String _ s' => includes s' pat
  | EmptyString => false
  end.

(** [arr.join(sep)] *)
Fixpoint join (sep : string) (l : list string) : string :=
  match l with
  | [] => ""
  | [x] => x
  | x :: rest => x +:+ sep +:+ join sep rest
  end.

(** [s.length]: the number of UTF-16 code units of the text whose UTF-8
    bytes are [s].  A continuation byte counts for nothing, the lead byte of
    a four-byte sequence for two (a surrogate pair), every other byte for
    one. *)
Definition utf16_units (c : ascii) : nat :=
  let n := nat_of_ascii c in
  if (n <? 128)%nat then 1%nat
  else if (n <? 192)%nat then 0%nat
  else if (n <? 240)%nat then 1%nat
  else 2%nat.

Fixpoint js_length (s : string) : nat :=
  match s with
  | EmptyString => 0%nat
  | String c s' => (utf16_units c + js_length s')%nat
  end.

(** A text of ASCII characters: one byte and one code unit each. *)
Definition is_ascii_text (s : string) : bool :=
  forallb (fun c => (nat_of_ascii c <? 128)%nat) (list_ascii_of_string s).

(** ** Hexadecimal and base64 text of a Buffer *)

Definition hex_digit (n : nat) : ascii :=
  if (n <? 10)%nat then ascii_of_nat (48 + n) else ascii_of_nat (87 + n).

Fixpoint hex (bs : list ascii) : string :=
  match bs with
  | [] => ""
  | b :: rest =>
      String (hex_digit (nat_of_ascii b / 16))
        (String (hex_digit (nat_of_ascii b mod 16)) (hex rest))
  end.

(** A sextet is kept in the low six bits of a byte ([Ascii] lists the bits
    from the least significant one). *)
Definition sextet1 (x : ascii) : ascii :=
  let 'Ascii _ _ x2 x3 x4 x5 x6 x7 := x in Ascii x2 x3 x4 x5 x6 x7 false false.
Definition sextet2 (x y : ascii) : ascii :=
  let 'Ascii x0 x1 _ _ _ _ _ _ := x in
  let 'Ascii _ _ _ _ y4 y5 y6 y7 := y in Ascii y4 y5 y6 y7 x0 x1 false false.
Definition sextet3 (y z : ascii) : ascii :=
  let 'Ascii y0 y1 y2 y3 _ _ _ _ := y in
  let 'Ascii _ _ _ _ _ _ z6 z7 := z in Ascii z6 z7 y0 y1 y2 y3 false false.
Definition sextet4 (z : ascii) : ascii :=
  let 'Ascii z0 z1 z2 z3 z4 z5 _ _ := z in Ascii z0 z1 z2 z3 z4 z5 false false.

Definition base64_alphabet : list ascii :=
  list_ascii_of_string "ABCDEFGHIJKLMNOPQRSTUVWXYZabcdefghijklmnopqrstuvwxyz0123456789+/".
Definition base64url_alphabet : list ascii :=
  list_ascii_of_string "ABCDEFGHIJKLMNOPQRSTUVWXYZabcdefghijklmnopqrstuvwxyz0123456789-_".

Definition b64char (alphabet : list ascii) (s : ascii) : ascii :=
  nth (nat_of_ascii s) alphabet "="%char.

(** [buf.toString("base64")]: standard alphabet, padded with [=]. *)
Fixpoint base64_encode (bs : list ascii) : list ascii :=
  match bs with
  | x :: y :: z :: rest =>
      b64char base64_alphabet (sextet1 x) :: b64char base64_alphabet (sextet2 x y)
      :: b64char base64_alphabet (sextet3 y z) :: b64char base64_alphabet (sextet4 z)
      :: base64_encode rest
  | [x; y] =>
      [b64char base64_alphabet (sextet1 x); b64char base64_alphabet (sextet2 x y);
       b64char base64_alphabet (sextet3 y byte_zero); "="%char]
  | [x] =>
      [b64char base64_alphabet (sextet1 x); b64char base64_alphabet (sextet2 x byte_zero);
       "="%char; "="%char]
  | [] => []
  end.

(** [buf.toString("base64url")]: URL-safe alphabet, no padding. *)
Fixpoint base64url_encode (bs : list ascii) : list ascii :=
  match bs with
  | x :: y :: z :: rest =>
      b64char base64url_alphabet (sextet1 x) :: b64char base64url_alphabet (sextet2 x y)
      :: b64char base64url_alphabet (sextet3 y z) :: b64char base64url_alphabet (sextet4 z)
      :: base64url_encode rest
  | [x; y] =>
      [b64char base64url_alphabet (sextet1 x); b64char base64url_alphabet (sextet2 x y);
       b64char base64url_alphabet (sextet3 y byte_zero)]
  | [x] =>
      [b64char base64url_alphabet (sextet1 x); b64char base64url_alphabet (sextet2 x byte_zero)]
  | [] => []
  end.

(** Node's table [unbase64]: the value of a legal character of either
    alphabet, [None] for every other byte. *)
Definition unbase64 (c : ascii) : option ascii :=
  let n := nat_of_ascii c in
  if char_in "A" "Z" c then Some (ascii_of_nat (n - 65))
  else if char_in "a" "z" c then Some (ascii_of_nat (n - 71))
  else if char_in "0" "9" c then Some (ascii_of_nat (n + 4))
  else if (n =? 43)%nat || (n =? 45)%nat then Some (ascii_of_nat 62)
  else if (n =? 47)%nat || (n =? 95)%nat then Some (ascii_of_nat 63)
  else None.

(** The three bytes a group of four sextets carries:
    [((hi & 0x3F) << 2) | ((lo & 0x30) >> 4)],
    [((hi & 0x0F) << 4) | ((lo & 0x3C) >> 2)],
    [((hi & 0x03) << 6) | (lo & 0x3F)]. *)
Definition join1 (hi lo : ascii) : ascii :=
  let 'Ascii h0 h1 h2 h3 h4 h5 _ _ := hi in
  let 'Ascii _ _ _ _ l4 l5 _ _ := lo in Ascii l4 l5 h0 h1 h2 h3 h4 h5.
Definition join2 (hi lo : ascii) : ascii :=
  let 'Ascii h0 h1 h2 h3 _ _ _ _ := hi in
  let 'Ascii _ _ l2 l3 l4 l5 _ _ := lo in Ascii l2 l3 l4 l5 h0 h1 h2 h3.
Definition join3 (hi lo : ascii) : ascii :=
  let 'Ascii h0 h1 _ _ _ _ _ _ := hi in
  let 'Ascii l0 l1 l2 l3 l4 l5 _ _ := lo in Ascii l0 l1 l2 l3 l4 l5 h0 h1.

(** Position inside a group of four characters, with the previous sextet. *)
Inductive b64_group : Type :=
  | G0
  | G1 (hi : ascii)
  | G2 (hi : ascii)
  | G3 (hi : ascii).

(** [Buffer.from(s, "base64")], Node's forgiving decoder: a byte that is not
    in the table is skipped, [=] ends the decoding, the bits left over in an
    incomplete group are dropped without being looked at. *)
Fixpoint base64_decode_from (g : b64_group) (cs : list ascii) : list ascii :=
  match cs with
  | [] => []
  | c :: rest =>
      match unbase64 c with
      | Some lo =>
          match g with
          | G0 => base64_decode_from (G1 lo) rest
          | G1 hi => join1 hi lo :: base64_decode_from (G2 lo) rest
          | G2 hi => join2 hi lo :: base64_decode_from (G3 lo) rest
          | G3 hi => join3 hi lo :: base64_decode_from G0 rest
          end
      | None =>
          if Ascii.eqb c "=" then [] else base64_decode_from g rest
      end
  end.

Definition base64_decode (cs : list ascii) : list ascii := base64_decode_from G0 cs.

(** ** node:crypto

    The primitives of node:crypto are an interface: the digests, the
    password KDF, and the two halves of AES-256-GCM (the CTR key stream that
    is XOR-ed onto the data, and the authentication tag over nonce and
    ciphertext).  The laws are the output sizes the algorithms fix. *)

Class NodeCrypto : Type := {
  sha256 : list ascii -> list ascii;
  hmac_sha256 : list ascii -> list ascii -> list ascii;
  hmac_sha1 : list ascii -> list ascii -> list ascii;
  pbkdf2_sha256 : list ascii -> list ascii -> Z -> nat -> list ascii;
  aes256_ctr : list ascii -> list ascii -> nat -> list ascii;
  gcm_tag : list ascii -> list ascii -> list ascii -> list ascii;
  hmac_sha256_length : forall k m, length (hmac_sha256 k m) = 32%nat;
  pbkdf2_sha256_length : forall pw salt it n, length (pbkdf2_sha256 pw salt it n) = n;
  aes256_ctr_length : forall k iv n, length (aes256_ctr k iv n) = n;
  gcm_tag_length : forall k iv c, length (gcm_tag k iv c) = 16%nat;
}.

Definition xor_byte (a b : ascii) : ascii :=
  let 'Ascii a0 a1 a2 a3 a4 a5 a6 a7 := a in
  let 'Ascii b0 b1 b2 b3 b4 b5 b6 b7 := b in
  Ascii (xorb a0 b0) (xorb a1 b1) (xorb a2 b2) (xorb a3 b3)
        (xorb a4 b4) (xorb a5 b5) (xorb a6 b6) (xorb a7 b7).

Definition xor_bytes (a b : list ascii) : list ascii := zip_with xor_byte a b.

(** [crypto.timingSafeEqual(a, b)]: a RangeError when the byte lengths
    differ, the equality of the two buffers otherwise. *)
Definition timingSafeEqual (a b : list ascii) : outcome bool :=
  if (length a =? length b)%nat then Ok (bool_decide (a = b))
  else Throw (RangeError "Input buffers must have the same byte length").

(** ** lib/crypto *)

Definition IV_LENGTH : nat := 16.
Definition TAG_LENGTH : nat := 16.
Definition KEY_LENGTH : nat := 32.
Definition ITERATIONS : Z := 100000.

Section LibCrypto.
Context `{NodeCrypto}.

(** [env] is [process.env.ENCRYPTION_KEY].  The test [key.length === 32]
    counts UTF-16 code units while [Buffer.from(key)] yields the UTF-8
    bytes: a key of 32 characters that are not all ASCII comes back longer
    than 32 bytes. *)
Definition getEncryptionKey (env : option string) : outcome (list ascii) :=
  match env with
  | None | Some EmptyString =>
      Throw (JsError "ENCRYPTION_KEY environment variable is not set")
  | Some key =>
      if (js_length key =? 32)%nat then Ok (list_ascii_of_string key)
      else Ok (pbkdf2_sha256 (list_ascii_of_string key) (list_ascii_of_string "feen-salt")
                 ITERATIONS KEY_LENGTH)
  end.

(** [crypto.createCipheriv("aes-256-gcm", key, iv)] and
    [crypto.createDecipheriv]: an empty nonce is refused with a TypeError
    (GCM takes a nonce of any other length), a key that is not 32 bytes long
    with a RangeError. *)
Definition createCipheriv (key iv : list ascii) : outcome unit :=
  if (length iv =? 0)%nat then Throw (TypeError "Invalid initialization vector")
  else if negb (length key =? KEY_LENGTH)%nat then Throw (RangeError "Invalid key length")
  else Ok tt.

(** [iv] is the result of [crypto.randomBytes(IV_LENGTH)]. *)
Definition encrypt (env : option string) (iv : list ascii) (plaintext : string)
  : outcome string :=
  match getEncryptionKey env with
  | Throw e => Throw e
  | Ok key =>
      match createCipheriv key iv with
      | Throw e => Throw e
      | Ok _ =>
          let ct := xor_bytes (list_ascii_of_string plaintext)
                      (aes256_ctr key iv (String.length plaintext)) in
          let encrypted := base64_encode ct in
          let tag := gcm_tag key iv ct in
          let combined := iv ++ tag ++ base64_decode encrypted in
          Ok (string_of_list_ascii (base64_encode combined))
      end
  end.

(** Tag sizes [decipher.setAuthTag] accepts for GCM. *)
Definition valid_gcm_tag_length (n : nat) : bool :=
  (n =? 4)%nat || (n =? 8)%nat || ((12 <=? n)%nat && (n <=? 16)%nat).

(** [decipher.setAuthTag(tag)]: a TypeError for a tag of any other size. *)
Definition setAuthTag (tag : list ascii) : outcome unit :=
  if valid_gcm_tag_length (length tag) then Ok tt
  else Throw (TypeError ("Invalid authentication tag length: "
                         +:+ toString (Z.of_nat (length tag)))).

(** The decrypted bytes are returned as text: they are the UTF-8 bytes of
    the text that was encrypted whenever the tag is the one [encrypt]
    computed. *)
Definition decrypt (env : option string) (encryptedData : string) : outcome string :=
  match getEncryptionKey env with
  | Throw e => Throw e
  | Ok key =>
      let combined := base64_decode (list_ascii_of_string encryptedData) in
      let iv := take IV_LENGTH combined in
      let tag := take TAG_LENGTH (drop IV_LENGTH combined) in
      let encrypted := drop (IV_LENGTH + TAG_LENGTH) combined in
      match createCipheriv key iv with
      | Throw e => Throw e
      | Ok _ =>
          match setAuthTag tag with
          | Throw e => Throw e
          | Ok _ =>
              let decrypted := xor_bytes encrypted (aes256_ctr key iv (length encrypted)) in
              if bool_decide (tag = take (length tag) (gcm_tag key iv encrypted))
              then Ok (string_of_list_ascii decrypted)
              else Throw (JsError "Unsupported state or unable to authenticate data")
          end
      end
  end.

(** Creates a SHA-256 hash of a string, as lowercase hex. *)
Definition hash (data : string) : string := hex (sha256 (list_ascii_of_string data)).

(** [rnd] is the result of [crypto.randomBytes(24)]. *)
Definition generateAccessToken (prefix : string) (rnd : list ascii) : string :=
  prefix +:+ "_" +:+ string_of_list_ascii (base64url_encode rnd).

End LibCrypto.

(** A small stand-in for node:crypto on which the definitions can be run:
    digests are truncations, the key stream is zero. *)
Definition pad_to (n : nat) (l : list ascii) : list ascii :=
  take n (l ++ replicate n byte_zero).

Lemma pad_to_length n l : length (pad_to n l) = n.
Proof. unfold pad_to. rewrite length_take, length_app, length_replicate. lia. Qed.

#[local] Instance toy_crypto : NodeCrypto := {|
  sha256 := pad_to 32;
  hmac_sha256 := fun k m => pad_to 32 (m ++ k);
  hmac_sha1 := fun k m => pad_to 20 (m ++ k);
  pbkdf2_sha256 := fun pw salt _ n => pad_to n (pw ++ salt);
  aes256_ctr := fun _ _ n => replicate n byte_zero;
  gcm_tag := fun _ iv c => pad_to 16 (c ++ iv);
  hmac_sha256_length := fun k m => pad_to_length 32 _;
  pbkdf2_sha256_length := fun pw salt _ n => pad_to_length n _;
  aes256_ctr_length := fun _ _ n => length_replicate n byte_zero;
  gcm_tag_length := fun _ iv c => pad_to_length 16 _;
|}.

(** ** lib/security/token-scopes *)

Inductive TokenScope : Type :=
  | CHAT_READ | CHAT_WRITE | COMPLETIONS_READ | COMPLETIONS_WRITE
  | EMBEDDINGS_READ | EMBEDDINGS_WRITE
  | IMAGES_READ | IMAGES_WRITE | IMAGES_EDIT
  | AUDIO_TRANSCRIBE | AUDIO_TRANSLATE | AUDIO_SPEECH
  | MODELS_LIST | MODELS_READ
  | FILES_READ | FILES_WRITE | FILES_DELETE
  | FINETUNE_READ | FINETUNE_WRITE | FINETUNE_DELETE
  | ASSISTANTS_READ | ASSISTANTS_WRITE | ASSISTANTS_DELETE
  | ALL.

(** The string value of each enum member. *)
Definition scope_value (s : TokenScope) : string :=
  match s with
  | CHAT_READ => "chat:read" | CHAT_WRITE => "chat:write"
  | COMPLETIONS_READ => "completions:read" | COMPLETIONS_WRITE => "completions:write"
  | EMBEDDINGS_READ => "embeddings:read" | EMBEDDINGS_WRITE => "embeddings:write"
  | IMAGES_READ => "images:read" | IMAGES_WRITE => "images:write"
  | IMAGES_EDIT => "images:edit"
  | AUDIO_TRANSCRIBE => "audio:transcribe" | AUDIO_TRANSLATE => "audio:translate"
  | AUDIO_SPEECH => "audio:speech"
  | MODELS_LIST => "models:list" | MODELS_READ => "models:read"
  | FILES_READ => "files:read" | FILES_WRITE => "files:write" | FILES_DELETE => "files:delete"
  | FINETUNE_READ => "finetune:read" | FINETUNE_WRITE => "finetune:write"
  | FINETUNE_DELETE => "finetune:delete"
  | ASSISTANTS_READ => "assistants:read" | ASSISTANTS_WRITE => "assistants:write"
  | ASSISTANTS_DELETE => "assistants:delete"
  | ALL => "*"
  end.

(** Endpoint to scope mapping, in the order [Object.entries] yields it. *)
Definition EndpointScopes : list (string * list TokenScope) :=
  [ ("v1/chat/completions", [CHAT_WRITE; ALL]);
    ("v1/completions", [COMPLETIONS_WRITE; ALL]);
    ("v1/embeddings", [EMBEDDINGS_WRITE; ALL]);
    ("v1/images/generations", [IMAGES_WRITE; ALL]);
    ("v1/images/edits", [IMAGES_EDIT; ALL]);
    ("v1/images/variations", [IMAGES_WRITE; ALL]);
    ("v1/audio/transcriptions", [AUDIO_TRANSCRIBE; ALL]);
    ("v1/audio/translations", [AUDIO_TRANSLATE; ALL]);
    ("v1/audio/speech", [AUDIO_SPEECH; ALL]);
    ("v1/models", [MODELS_LIST; MODELS_READ; ALL]);
    ("v1/files", [FILES_READ; FILES_WRITE; ALL]);
    ("v1/fine_tuning/jobs", [FINETUNE_READ; FINETUNE_WRITE; ALL]);
    ("v1/assistants", [ASSISTANTS_READ; ASSISTANTS_WRITE; ALL]);
    ("v1/messages", [CHAT_WRITE; ALL]);
    ("v1/complete", [COMPLETIONS_WRITE; ALL]) ].

(** [s.replace(/^\//, "")] *)
Definition strip_leading_slash (s : string) : string :=
  match s with
  | String "/" s' => s'
  | _ => s
  end.

(** [s.split(sep)[0]] for a one-character separator. *)
Fixpoint split_head (sep : ascii) (s : string) : string :=
  match s with
  | String c s' => if Ascii.eqb c sep then "" else String c (split_head sep s')
  | EmptyString => ""
  end.

Definition normalizeEndpoint (endpoint : string) : string :=
  split_head "?" (strip_leading_slash endpoint).

(** The loop over [Object.entries(EndpointScopes)]: the scopes of the first
    pattern the endpoint starts with or contains, [[]] when there is none. *)
Fixpoint findRequiredScopes (table : list (string * list TokenScope))
    (normalizedEndpoint : string) : list TokenScope :=
  match table with
  | [] => []
  | (pattern, scopes) :: rest =>
      if startsWith normalizedEndpoint pattern || includes normalizedEndpoint pattern
      then scopes
      else findRequiredScopes rest normalizedEndpoint
  end.

(** [arr.includes(x)] on an array of strings. *)
Definition arr_includes (l : list string) (x : string) : bool := bool_decide (x ∈ l).

Record ScopeCheck : Type := {
  allowed : bool;
  requiredScopes : list TokenScope;
  missingScopes : list TokenScope;
}.

Definition is_ALL (s : TokenScope) : bool :=
  match s with ALL => true | _ => false end.

Definition hasRequiredScope (tokenScopes : list string) (endpoint method : string)
  : ScopeCheck :=
  let normalizedEndpoint := normalizeEndpoint endpoint in
  let required := findRequiredScopes EndpointScopes normalizedEndpoint in
  if (length required =? 0)%nat
  then {| allowed := true; requiredScopes := []; missingScopes := [] |}
  else
    let hasWildcard := arr_includes tokenScopes (scope_value ALL) in
    if hasWildcard
    then {| allowed := true; requiredScopes := required; missingScopes := [] |}
    else
      let hasMatchingScope :=
        existsb (fun scope => arr_includes tokenScopes (scope_value scope)) required in
      let missing :=
        if hasMatchingScope then [] else List.filter (fun s => negb (is_ALL s)) required in
      {| allowed := hasMatchingScope; requiredScopes := required; missingScopes := missing |}.

(** ** lib/security/request-signing *)

Definition SIGNATURE_VALIDITY_SECONDS : Z := 300.

Record SignaturePayload : Type := {
  sp_timestamp : Z;
  sp_nonce : string;
  sp_method : string;
  sp_path : string;
  sp_body : option string;
  sp_tokenId : string;
}.

(** The three signature headers, as [extractSignatureHeaders] hands them on. *)
Record SignatureHeaders : Type := {
  timestamp : string;
  signature : string;
  nonce : string;
}.

Record Verification : Type := {
  valid : bool;
  error : option string;
}.

(** [x || ""] on an optional string. *)
Definition or_empty (x : option string) : string := default "" x.

(** [Math.floor(Date.now() / 1000)] for a clock reading in milliseconds. *)
Definition unix_seconds (nowMs : Z) : Z := nowMs / 1000.

Section RequestSigning.
Context `{NodeCrypto}.

Definition generateSignature (payload : SignaturePayload) (secret : string) : string :=
  let signatureBase :=
    join (String "010" "")
      [ toString (sp_timestamp payload); sp_nonce payload;
        toUpperCase (sp_method payload); sp_path payload;
        or_empty (sp_body payload); sp_tokenId payload ] in
  hex (hmac_sha256 (list_ascii_of_string secret) (list_ascii_of_string signatureBase)).

(** Clean old nonces from cache: every entry whose stored timestamp is below
    [now - 2 * SIGNATURE_VALIDITY_SECONDS] is deleted. *)
Definition cleanOldNonces (nowMs : Z) (NONCE_CACHE : gmap string Z) : gmap string Z :=
  let now := unix_seconds nowMs in
  let cutoff := now - SIGNATURE_VALIDITY_SECONDS * 2 in
  filter (fun kv => ¬ (kv.2 < cutoff)) NONCE_CACHE.

(** The module-level [NONCE_CACHE] is threaded through: the function takes
    the cache it finds and returns the cache it leaves. *)
Definition verifySignature (NONCE_CACHE : gmap string Z) (nowMs : Z)
    (headers : SignatureHeaders) (method path : string) (body : option string)
    (tokenId secret : string) : outcome Verification * gmap string Z :=
  let now := unix_seconds nowMs in
  match parseInt (timestamp headers) with
  | None => (Ok {| valid := false; error := Some "Invalid timestamp" |}, NONCE_CACHE)
  | Some ts =>
      if Z.abs (now - ts) >? SIGNATURE_VALIDITY_SECONDS
      then (Ok {| valid := false;
                  error := Some ("Signature expired. Request timestamp: " +:+ toString ts
                                 +:+ ", Server time: " +:+ toString now) |},
            NONCE_CACHE)
      else
        let nonceKey := tokenId +:+ ":" +:+ nonce headers in
        if bool_decide (is_Some (NONCE_CACHE !! nonceKey))
        then (Ok {| valid := false;
                    error := Some "Nonce already used (replay attack detected)" |},
              NONCE_CACHE)
        else
          let cache1 := <[nonceKey := ts]> NONCE_CACHE in
          let cache2 := cleanOldNonces nowMs cache1 in
          let expectedSignature :=
            generateSignature
              {| sp_timestamp := ts; sp_nonce := nonce headers; sp_method := method;
                 sp_path := path; sp_body := body; sp_tokenId := tokenId |} secret in
          match timingSafeEqual (list_ascii_of_string (signature headers))
                  (list_ascii_of_string expectedSignature) with
          | Throw e => (Throw e, cache2)
          | Ok signatureValid =>
              if negb signatureValid
              then (Ok {| valid := false; error := Some "Invalid signature" |}, cache2)
              else (Ok {| valid := true; error := None |}, cache2)
          end
  end.

End RequestSigning.

(** One call of [verifySignature] with all its arguments. *)
Record VerifyCall : Type := {
  vc_now : Z;
  vc_headers : SignatureHeaders;
  vc_method : string;
  vc_path : string;
  vc_body : option string;
  vc_tokenId : string;
  vc_secret : string;
}.

Definition run_call `{NodeCrypto} (cache : gmap string Z) (c : VerifyCall) : gmap string Z :=
  (verifySignature cache (vc_now c) (vc_headers c) (vc_method c) (vc_path c)
     (vc_body c) (vc_tokenId c) (vc_secret c)).2.

Definition run_calls `{NodeCrypto} (cache : gmap string Z) (cs : list VerifyCall)
  : gmap string Z :=
  fold_left run_call cs cache.

(** ** lib/security/two-factor *)

Definition TOTP_STEP : Z := 30.
Definition TOTP_DIGITS : nat := 6.
Definition TOTP_WINDOW : Z := 1.

(** 32-bit views of a number, for [<<], [|] and [>>>]. *)
Definition to_int32 (z : Z) : Z := (z + 2 ^ 31) mod 2 ^ 32 - 2 ^ 31.
Definition to_uint32 (z : Z) : Z := z mod 2 ^ 32.

Definition is_base32_char (c : ascii) : bool := char_in "A" "Z" c || char_in "2" "7" c.

(** [alphabet.indexOf(char)] for ["ABCDEFGHIJKLMNOPQRSTUVWXYZ234567"]. *)
Definition base32_index (c : ascii) : Z :=
  if char_in "A" "Z" c then Z.of_nat (nat_of_ascii c) - 65
  else if char_in "2" "7" c then Z.of_nat (nat_of_ascii c) - 24
  else -1.

Fixpoint string_filter (p : ascii -> bool) (s : string) : string :=
  match s with
  | String c s' => if p c then String c (string_filter p s') else string_filter p s'
  | EmptyString => EmptyString
  end.

Fixpoint base32_loop (cs : string) (bits value : Z) : list ascii :=
  match cs with
  | EmptyString => []
  | String char rest =>
      let index := base32_index char in
      if index =? -1 then base32_loop rest bits value
      else
        let value := to_int32 (Z.lor (to_int32 (Z.shiftl value 5)) index) in
        let bits := bits + 5 in
        if bits >=? 8
        then ascii_of_nat (Z.to_nat (Z.land (Z.shiftr (to_uint32 value) (bits - 8)) 255))
             :: base32_loop rest (bits - 8) value
        else base32_loop rest bits value
  end.

Definition base32Decode (encoded : string) : list ascii :=
  let cleanedInput := string_filter is_base32_char (toUpperCase encoded) in
  base32_loop cleanedInput 0 0.

(** [buf[i]] as a number; beyond the end it is [undefined], which the
    bitwise operators read as 0. *)
Definition byte_at (buf : list ascii) (i : Z) : Z :=
  if i <? 0 then 0 else Z.of_nat (nat_of_ascii (nth (Z.to_nat i) buf byte_zero)).

(** [timeBuffer.writeBigInt64BE(BigInt(timeStep))]: eight bytes, most
    significant first. *)
Definition int64_be (z : Z) : list ascii :=
  map (fun i => ascii_of_nat (Z.to_nat ((z mod 2 ^ 64) / 2 ^ (8 * (7 - Z.of_nat i)) mod 256)))
      (seq 0 8).

Section TwoFactor.
Context `{NodeCrypto}.

Definition generateTOTP (secret : string) (timeStep : Z) : string :=
  let secretBuffer := base32Decode secret in
  let timeBuffer := int64_be timeStep in
  let hash := hmac_sha1 secretBuffer timeBuffer in
  let offset := Z.land (byte_at hash (Z.of_nat (length hash) - 1)) 15 in
  let binary :=
    Z.lor (Z.lor (Z.lor
      (Z.shiftl (Z.land (byte_at hash offset) 127) 24)
      (Z.shiftl (Z.land (byte_at hash (offset + 1)) 255) 16))
      (Z.shiftl (Z.land (byte_at hash (offset + 2)) 255) 8))
      (Z.land (byte_at hash (offset + 3)) 255) in
  let otp := Z.rem binary (10 ^ Z.of_nat TOTP_DIGITS) in
  padStart TOTP_DIGITS "0" (toString otp).

(** The loop [for (i = -TOTP_WINDOW; i <= TOTP_WINDOW; i++)] over the
    offsets still to try. *)
Fixpoint verifyTOTP_loop (now : Z) (secret code : string) (offsets : list Z)
  : outcome bool :=
  match offsets with
  | [] => Ok false
  | i :: rest =>
      let timeStep := now / TOTP_STEP + i in
      let expectedCode := generateTOTP secret timeStep in
      match timingSafeEqual (list_ascii_of_string code) (list_ascii_of_string expectedCode) with
      | Throw e => Throw e
      | Ok true => Ok true
      | Ok false => verifyTOTP_loop now secret code rest
      end
  end.

Definition verifyTOTP (nowMs : Z) (secret code : string) : outcome bool :=
  verifyTOTP_loop (unix_seconds nowMs) secret code [- TOTP_WINDOW; 0; TOTP_WINDOW].

End TwoFactor.

(** ** The stores

    The fast store (Redis) holds integers, strings and lists under string
    keys, with an optional deadline per key (milliseconds on the clock the
    callers pass); a key whose deadline has passed is gone for every
    command.  [rup] says whether the server can be reached: when it cannot,
    every command throws. *)

Inductive rvalue : Type :=
  | RInt (n : Z)
  | RString (s : string)
  | RList (l : list string).

Record redis_state : Type := {
  rdata : gmap string rvalue;
  rexpiry : gmap string Z;
  rup : bool;
}.

Inductive ApiProvider : Type :=
  | OPENAI | ANTHROPIC | GOOGLE | AZURE_OPENAI | COHERE | MISTRAL | GROQ
  | TOGETHER | REPLICATE | HUGGINGFACE | BYTEZ | CUSTOM.

#[global] Instance ApiProvider_eq_dec : EqDecision ApiProvider.
Proof. solve_decision. Defined.

Definition provider_name (p : ApiProvider) : string :=
  match p with
  | OPENAI => "OPENAI" | ANTHROPIC => "ANTHROPIC" | GOOGLE => "GOOGLE"
  | AZURE_OPENAI => "AZURE_OPENAI" | COHERE => "COHERE" | MISTRAL => "MISTRAL"
  | GROQ => "GROQ" | TOGETHER => "TOGETHER" | REPLICATE => "REPLICATE"
  | HUGGINGFACE => "HUGGINGFACE" | BYTEZ => "BYTEZ" | CUSTOM => "CUSTOM"
  end.

Record ApiKey : Type := {
  ak_id : string;
  ak_userId : string;
  ak_teamId : option string;
  ak_provider : ApiProvider;
  ak_encryptedKey : string;
  ak_isActive : bool;
  ak_lastUsedAt : option Z;
}.

Record SharedKey : Type := {
  sk_id : string;
  sk_apiKeyId : string;
  sk_ownerId : string;
  sk_accessToken : string;
  sk_tokenHash : string;
  sk_isActive : bool;
  sk_expiresAt : option Z;
  sk_maxUsage : option Z;
  sk_usageCount : Z;
  sk_allowedIPs : list string;
  sk_rateLimit : Z;
  sk_lastUsedAt : option Z;
  sk_updatedAt : Z;
}.

Record AuditLog : Type := {
  al_userId : string;
  al_action : string;
  al_resource : string;
  al_resourceId : string;
  al_details : list (string * string);
}.

Record UsageLog : Type := {
  ul_apiKeyId : string;
  ul_sharedKeyId : string;
  ul_userId : string;
  ul_provider : ApiProvider;
  ul_model : option string;
  ul_endpoint : string;
  ul_method : string;
  ul_statusCode : Z;
  ul_requestTokens : option Z;
  ul_responseTokens : option Z;
  ul_totalTokens : option Z;
  ul_latencyMs : Z;
  ul_ipAddress : string;
  ul_userAgent : option string;
}.

(** The tables, each in storage order; new rows go to the end. *)
Record database : Type := {
  sharedKeys : list SharedKey;
  apiKeys : list ApiKey;
  auditLogs : list AuditLog;
  usageLogs : list UsageLog;
}.

Record world : Type := {
  db : database;
  redis : redis_state;
}.

(** ** Stateful computations that may throw *)

Definition M (A : Type) : Type := world -> outcome A * world.

Definition ret {A} (a : A) : M A := fun w => (Ok a, w).
Definition throw {A} (e : exn) : M A := fun w => (Throw e, w).
Definition bind {A B} (m : M A) (k : A -> M B) : M B :=
  fun w => match m w with
           | (Ok a, w') => k a w'
           | (Throw e, w') => (Throw e, w')
           end.
(** [try { m } catch (error) { h error }] *)
Definition try_catch {A} (m : M A) (h : exn -> M A) : M A :=
  fun w => match m w with
           | (Ok a, w') => (Ok a, w')
           | (Throw e, w') => h e w'
           end.
Definition of_outcome {A} (o : outcome A) : M A := fun w => (o, w).

Notation "'let!' x ':=' m 'in' k" := (bind m (fun x => k))
  (at level 10, x pattern, m at level 100, k at level 200).
Notation "m ';;' k" := (bind m (fun _ => k))
  (at level 100, k at level 200, right associativity).

Definition get_db : M database := fun w => (Ok (db w), w).
Definition put_db (d : database) : M unit :=
  fun w => (Ok tt, {| db := d; redis := redis w |}).

(** ** Redis commands *)

Definition expired (nowMs : Z) (r : redis_state) (k : string) : bool :=
  match rexpiry r !! k with
  | Some deadline => deadline <=? nowMs
  | None => false
  end.

(** The value a command sees under a key. *)
Definition rlookup (nowMs : Z) (r : redis_state) (k : string) : option rvalue :=
  if expired nowMs r k then None else rdata r !! k.

(** The keys a command sees. *)
Definition live_keys (nowMs : Z) (r : redis_state) : list string :=
  List.filter (fun k => negb (expired nowMs r k)) (map fst (map_to_list (rdata r))).

Definition rwrite (r : redis_state) (k : string) (v : rvalue) (deadline : option Z)
  : redis_state :=
  {| rdata := <[k := v]> (rdata r);
     rexpiry := match deadline with
                | Some d => <[k := d]> (rexpiry r)
                | None => delete k (rexpiry r)
                end;
     rup := rup r |}.

(** The deadline a live key keeps when its value is rewritten in place. *)
Definition kept_deadline (nowMs : Z) (r : redis_state) (k : string) : option Z :=
  if expired nowMs r k then None else rexpiry r !! k.

(** Redis reads an integer only from its canonical decimal text. *)
Definition redis_integer (s : string) : option Z :=
  match parseInt s with
  | Some n => if String.eqb (toString n) s then Some n else None
  | None => None
  end.

Definition redis_cmd {A} (f : redis_state -> outcome A * redis_state) : M A :=
  fun w =>
    if rup (redis w)
    then let '(o, r') := f (redis w) in (o, {| db := db w; redis := r' |})
    else (Throw RedisError, w).

Definition wrongtype {A} : outcome A :=
  Throw (JsError "WRONGTYPE Operation against a key holding the wrong kind of value").

Definition redis_incr (nowMs : Z) (k : string) : M Z :=
  redis_cmd (fun r =>
    let store n := (Ok n, rwrite r k (RInt n) (kept_deadline nowMs r k)) in
    match rlookup nowMs r k with
    | None => store 1
    | Some (RInt n) => store (n + 1)
    | Some (RString s) =>
        match redis_integer s with
        | Some n => store (n + 1)
        | None => (Throw (JsError "ERR value is not an integer or out of range"), r)
        end
    | Some (RList _) => (wrongtype, r)
    end).

(** [EXPIRE key seconds]: 1 when the key exists, 0 otherwise. *)
Definition redis_expire (nowMs : Z) (k : string) (seconds : Z) : M Z :=
  redis_cmd (fun r =>
    match rlookup nowMs r k with
    | None => (Ok 0, r)
    | Some v => (Ok 1, rwrite r k v (Some (nowMs + seconds * 1000)))
    end).

Definition redis_get (nowMs : Z) (k : string) : M (option string) :=
  redis_cmd (fun r =>
    match rlookup nowMs r k with
    | None => (Ok None, r)
    | Some (RInt n) => (Ok (Some (toString n)), r)
    | Some (RString s) => (Ok (Some s), r)
    | Some (RList _) => (wrongtype, r)
    end).

(** [SET key value EX seconds] *)
Definition redis_set_ex (nowMs : Z) (k v : string) (seconds : Z) : M unit :=
  redis_cmd (fun r => (Ok tt, rwrite r k (RString v) (Some (nowMs + seconds * 1000)))).

(** [LPUSH key value]: the value goes to the head, the new length comes back. *)
Definition redis_lpush (nowMs : Z) (k v : string) : M Z :=
  redis_cmd (fun r =>
    match rlookup nowMs r k with
    | None => (Ok 1, rwrite r k (RList [v]) None)
    | Some (RList l) =>
        (Ok (Z.of_nat (length (v :: l))), rwrite r k (RList (v :: l)) (kept_deadline nowMs r k))
    | Some _ => (wrongtype, r)
    end).

Definition redis_llen (nowMs : Z) (k : string) : M Z :=
  redis_cmd (fun r =>
    match rlookup nowMs r k with
    | None => (Ok 0, r)
    | Some (RList l) => (Ok (Z.of_nat (length l)), r)
    | Some _ => (wrongtype, r)
    end).

(** [KEYS prefix*].  The only pattern the code uses is a literal prefix
    followed by a star; the prefix is built from a token id, an
    alphanumeric cuid, so no character of it is a glob operator. *)
Definition redis_keys_prefix (nowMs : Z) (pfx : string) : M (list string) :=
  redis_cmd (fun r => (Ok (List.filter (String.prefix pfx) (live_keys nowMs r)), r)).

Definition redis_del (nowMs : Z) (ks : list string) : M Z :=
  redis_cmd (fun r =>
    (Ok (Z.of_nat (length (List.filter (fun k => bool_decide (is_Some (rlookup nowMs r k))) ks))),
     {| rdata := foldr delete (rdata r) ks;
        rexpiry := foldr delete (rexpiry r) ks;
        rup := rup r |})).

(** ** lib/redis: rate limiting *)

Record RateLimitResult : Type := {
  rl_allowed : bool;
  remaining : Z;
  resetAt : Z;
}.

Definition windowKey (key : string) (now windowSeconds : Z) : string :=
  "ratelimit:" +:+ key +:+ ":" +:+ toString (now / windowSeconds).

Definition checkRateLimit (nowMs : Z) (key : string) (limit windowSeconds : Z)
  : M RateLimitResult :=
  let now := unix_seconds nowMs in
  let windowKey := windowKey key now windowSeconds in
  try_catch
    (let! current := redis_incr nowMs windowKey in
     let! _ := (if current =? 1
                then (redis_expire nowMs windowKey windowSeconds;; ret tt)
                else ret tt) in
     let allowed := current <=? limit in
     let remaining := Z.max 0 (limit - current) in
     let resetAt := (now / windowSeconds + 1) * windowSeconds in
     ret {| rl_allowed := allowed; remaining := remaining; resetAt := resetAt |})
    (fun error =>
       (* Fail open if Redis is unavailable *)
       ret {| rl_allowed := true; remaining := limit; resetAt := now + windowSeconds |}).

(** The number a counter key stands for: 0 when the key is absent. *)
Definition counter_at (nowMs : Z) (r : redis_state) (k : string) : option Z :=
  match rlookup nowMs r k with
  | None => Some 0
  | Some (RInt n) => Some n
  | Some (RString s) => redis_integer s
  | Some (RList _) => None
  end.

(** The rate-limit check as [handleProxy] issues it. *)
Definition proxyRateLimit (nowMs : Z) (sharedKey : SharedKey) : M RateLimitResult :=
  checkRateLimit nowMs ("shared:" +:+ sk_id sharedKey +:+ ":minute") (sk_rateLimit sharedKey) 60.

(** ** Sample data for evaluating the definitions *)

Definition empty_db : database :=
  {| sharedKeys := []; apiKeys := []; auditLogs := []; usageLogs := [] |}.

Definition empty_redis : redis_state := {| rdata := ∅; rexpiry := ∅; rup := true |}.

Definition sample_token : SharedKey :=
  {| sk_id := "tok1"; sk_apiKeyId := "key1"; sk_ownerId := "user1";
     sk_accessToken := "feen_old"; sk_tokenHash := hash (H := toy_crypto) "feen_old";
     sk_isActive := true; sk_expiresAt := None; sk_maxUsage := None; sk_usageCount := 0;
     sk_allowedIPs := []; sk_rateLimit := 2; sk_lastUsedAt := None; sk_updatedAt := 0 |}.

(** ** JSON text

    [JSON.stringify] on the values the modelled code writes.  Objects are
    written from their fields, values already serialized.  A string is
    quoted with the escapes of [QuoteJSONString]: the quote, the backslash
    and the control characters below U+0020.  (A lone surrogate, which is
    escaped as well, has no UTF-8 text and does not occur in the texts of
    this model.) *)

Definition dquote : string := String "034" "".
Definition backslash : string := String "092" "".

Definition json_escape (c : ascii) : string :=
  let n := nat_of_ascii c in
  if (n =? 8)%nat then backslash +:+ "b"
  else if (n =? 9)%nat then backslash +:+ "t"
  else if (n =? 10)%nat then backslash +:+ "n"
  else if (n =? 12)%nat then backslash +:+ "f"
  else if (n =? 13)%nat then backslash +:+ "r"
  else if (n =? 34)%nat then backslash +:+ dquote
  else if (n =? 92)%nat then backslash +:+ backslash
  else if (n <? 32)%nat then backslash +:+ "u00" +:+ hex [c]
  else String c "".

Fixpoint json_escape_string (s : string) : string :=
  match s with
  | String c s' => json_escape c +:+ json_escape_string s'
  | EmptyString => ""
  end.

Definition json_string (s : string) : string := dquote +:+ json_escape_string s +:+ dquote.

(** A text written with an apostrophe wherever it has a quote: a notation
    for the JSON texts of the examples. *)
Fixpoint quoted (s : string) : string :=
  match s with
  | String c s' => String (if Ascii.eqb c "'" then "034"%char else c) (quoted s')
  | EmptyString => ""
  end.

(** ** Dates

    A [Date] is its time value, the milliseconds since the epoch.
    [Date.prototype.toISOString] writes it in the proleptic Gregorian
    calendar as [YYYY-MM-DDTHH:mm:ss.sssZ], the year with a sign and six
    digits outside 0..9999. *)

(** Year, month and day of the day number [z], day 0 being 1970-01-01. *)
Definition civil_from_days (z : Z) : Z * Z * Z :=
  let z := z + 719468 in
  let era := z / 146097 in
  let doe := z - era * 146097 in
  let yoe := (doe - doe / 1460 + doe / 36524 - doe / 146096) / 365 in
  let y := yoe + era * 400 in
  let doy := doe - (365 * yoe + yoe / 4 - yoe / 100) in
  let mp := (5 * doy + 2) / 153 in
  let d := doy - (153 * mp + 2) / 5 + 1 in
  let m := if mp <? 10 then mp + 3 else mp - 9 in
  (if m <=? 2 then y + 1 else y, m, d).

Definition pad (n : nat) (v : Z) : string := padStart n "0" (toString v).

Definition iso_year (y : Z) : string :=
  if (0 <=? y) && (y <=? 9999) then pad 4 y
  else (if y <? 0 then "-" else "+") +:+ pad 6 (Z.abs y).

Definition toISOString (t : Z) : string :=
  let ms := t mod 86400000 in
  let '(y, m, d) := civil_from_days (t / 86400000) in
  iso_year y +:+ "-" +:+ pad 2 m +:+ "-" +:+ pad 2 d
  +:+ "T" +:+ pad 2 (ms / 3600000) +:+ ":" +:+ pad 2 (ms / 60000 mod 60)
  +:+ ":" +:+ pad 2 (ms / 1000 mod 60) +:+ "." +:+ pad 3 (ms mod 1000) +:+ "Z".

(** ** Objects

    An object with JSON values is the list of its own properties in the
    order [Object.keys] and [JSON.stringify] go through them: array indices
    first, in ascending order, then the other keys in the order of their
    creation. *)

(** The number of a key that is an array index: the canonical decimal text
    of an integer from 0 to 2^32 - 2. *)
Definition array_index (k : string) : option Z :=
  match parseInt k with
  | Some n =>
      if String.eqb (toString n) k && (0 <=? n) && (n <? 2 ^ 32 - 1) then Some n else None
  | None => None
  end.

Definition obj_get (k : string) (o : list (string * string)) : option string :=
  snd <$> List.find (fun kv => String.eqb kv.1 k) o.

(** A new array index goes before the first key that is no array index or
    a greater one. *)
Fixpoint obj_insert_index (n : Z) (k v : string) (o : list (string * string))
  : list (string * string) :=
  match o with
  | [] => [(k, v)]
  | kv :: rest =>
      match array_index kv.1 with
      | Some n' => if n' <? n then kv :: obj_insert_index n k v rest else (k, v) :: o
      | None => (k, v) :: o
      end
  end.

(** [o[k] = v]: a property that exists keeps its place. *)
Definition obj_set (k v : string) (o : list (string * string)) : list (string * string) :=
  if existsb (fun kv => String.eqb kv.1 k) o
  then map (fun kv => if String.eqb kv.1 k then (k, v) else kv) o
  else match array_index k with
       | Some n => obj_insert_index n k v o
       | None => o ++ [(k, v)]
       end.

(** [{ ...target, ...source }]: the properties of [source] are set on the
    object one after the other. *)
Definition obj_spread (target source : list (string * string)) : list (string * string) :=
  fold_left (fun o kv => obj_set kv.1 kv.2 o) source target.

Definition json_field (kv : string * string) : string :=
  json_string kv.1 +:+ ":" +:+ kv.2.

Definition json_object (fields : list (string * string)) : string :=
  "{" +:+ join "," (map json_field fields) +:+ "}".

(** [s.slice(0, n)] *)
Definition slice0 (n : nat) (s : string) : string := String.substring 0 n s.

(** ** Prisma calls used by the core *)

Definition sharedKey_findUnique (id : string) : M (option SharedKey) :=
  fun w => (Ok (List.find (fun s => String.eqb (sk_id s) id) (sharedKeys (db w))), w).

(** [db.sharedKey.update({ where: { id }, data })]: throws when no row has
    the id ([id] is the primary key, so at most one row is changed). *)
Definition sharedKey_update (id : string) (data : SharedKey -> SharedKey) : M unit :=
  fun w =>
    let d := db w in
    if existsb (fun s => String.eqb (sk_id s) id) (sharedKeys d)
    then (Ok tt,
          {| db := {| sharedKeys := map (fun s => if String.eqb (sk_id s) id then data s else s)
                                        (sharedKeys d);
                      apiKeys := apiKeys d; auditLogs := auditLogs d;
                      usageLogs := usageLogs d |};
             redis := redis w |})
    else (Throw (PrismaError "Record to update not found."), w).

Definition auditLog_create (entry : AuditLog) : M unit :=
  fun w =>
    let d := db w in
    (Ok tt,
     {| db := {| sharedKeys := sharedKeys d; apiKeys := apiKeys d;
                 auditLogs := auditLogs d ++ [entry]; usageLogs := usageLogs d |};
        redis := redis w |}).

(** ** lib/security/token-rotation *)

Inductive SuspiciousActivityType : Type :=
  | RATE_LIMIT_EXCEEDED | BURST_REQUESTS
  | GEOGRAPHIC_ANOMALY | MULTIPLE_LOCATIONS
  | INVALID_SIGNATURE | EXPIRED_TIMESTAMP | REPLAY_ATTACK
  | UNUSUAL_USAGE_PATTERN | HIGH_ERROR_RATE | UNUSUAL_MODELS
  | IP_BLACKLISTED | UNAUTHORIZED_SCOPE.

Definition activity_value (t : SuspiciousActivityType) : string :=
  match t with
  | RATE_LIMIT_EXCEEDED => "rate_limit_exceeded" | BURST_REQUESTS => "burst_requests"
  | GEOGRAPHIC_ANOMALY => "geographic_anomaly" | MULTIPLE_LOCATIONS => "multiple_locations"
  | INVALID_SIGNATURE => "invalid_signature" | EXPIRED_TIMESTAMP => "expired_timestamp"
  | REPLAY_ATTACK => "replay_attack"
  | UNUSUAL_USAGE_PATTERN => "unusual_usage_pattern" | HIGH_ERROR_RATE => "high_error_rate"
  | UNUSUAL_MODELS => "unusual_models"
  | IP_BLACKLISTED => "ip_blacklisted" | UNAUTHORIZED_SCOPE => "unauthorized_scope"
  end.

(** Thresholds for automatic rotation *)
Definition ROTATION_THRESHOLDS (t : SuspiciousActivityType) : Z :=
  match t with
  | RATE_LIMIT_EXCEEDED => 10
  | BURST_REQUESTS => 5
  | GEOGRAPHIC_ANOMALY => 3
  | MULTIPLE_LOCATIONS => 5
  | INVALID_SIGNATURE => 3
  | EXPIRED_TIMESTAMP => 5
  | REPLAY_ATTACK => 1
  | UNUSUAL_USAGE_PATTERN => 5
  | HIGH_ERROR_RATE => 10
  | UNUSUAL_MODELS => 3
  | IP_BLACKLISTED => 1
  | UNAUTHORIZED_SCOPE => 3
  end.

(** Time window for counting violations (in seconds) *)
Definition VIOLATION_WINDOW : Z := 3600.

(** The event without its time stamp, as callers pass it: an object with
    the properties of the interface, in the order the interface lists them.
    [ev_details] holds the properties of [details] that have a JSON value,
    in the order of the object, values serialized. *)
Record SuspiciousActivityEvent : Type := {
  ev_type : SuspiciousActivityType;
  ev_tokenId : string;
  ev_userId : string;
  ev_details : list (string * string);
}.

Record RotationOutcome : Type := {
  rotated : bool;
  newToken : option string;
}.

(** [JSON.stringify(fullEvent)] for [fullEvent = { ...event, timestamp }]
    with [timestamp] the [Date] of the time value [eventTime]: a [Date] is
    written as the text [toISOString] gives. *)
Definition stringify_event (eventTime : Z) (event : SuspiciousActivityEvent) : string :=
  json_object
    [ ("type", json_string (activity_value (ev_type event)));
      ("tokenId", json_string (ev_tokenId event));
      ("userId", json_string (ev_userId event));
      ("details", json_object (ev_details event));
      ("timestamp", json_string (toISOString eventTime)) ].

(** The clock readings of one rotation, in the order of the program:
    [new Date()] for [updatedAt], the clock of the store when the violation
    lists are listed and deleted, [new Date()] for the notification, and the
    clock of the store when the notification is queued. *)
Record RotationClock : Type := {
  updateTime : Z;
  clearTime : Z;
  noticeTime : Z;
  queueTime : Z;
}.

Definition suspicious_key (tokenId : string) (t : SuspiciousActivityType) : string :=
  "suspicious:" +:+ tokenId +:+ ":" +:+ activity_value t.

Section TokenRotation.
Context `{NodeCrypto}.

Definition queueRotationNotification (clock : RotationClock)
    (userId tokenId reason : string) : M unit :=
  let notificationData :=
    json_object
      [ ("type", json_string "token_rotated"); ("userId", json_string userId);
        ("tokenId", json_string tokenId); ("reason", json_string reason);
        ("timestamp", json_string (toISOString (noticeTime clock))) ] in
  redis_lpush (queueTime clock) "notifications:queue" notificationData;; ret tt.

(** The row [db.sharedKey.update] writes in place of [s] with
    [data: { accessToken, tokenHash, updatedAt }]. *)
Definition rotated_row (updatedAt : Z) (newAccessToken newTokenHash : string)
    (s : SharedKey) : SharedKey :=
  {| sk_id := sk_id s; sk_apiKeyId := sk_apiKeyId s; sk_ownerId := sk_ownerId s;
     sk_accessToken := newAccessToken; sk_tokenHash := newTokenHash;
     sk_isActive := sk_isActive s; sk_expiresAt := sk_expiresAt s;
     sk_maxUsage := sk_maxUsage s; sk_usageCount := sk_usageCount s;
     sk_allowedIPs := sk_allowedIPs s; sk_rateLimit := sk_rateLimit s;
     sk_lastUsedAt := sk_lastUsedAt s; sk_updatedAt := updatedAt |}.

(** [db.sharedKey.findFirst({ where: { tokenHash, isActive: true } })], the
    lookup of the proxy for a presented access token. *)
Definition sharedKey_findByToken (accessToken : string) (d : database) : option SharedKey :=
  List.find (fun s => String.eqb (sk_tokenHash s) (hash accessToken) && sk_isActive s)
    (sharedKeys d).

(** [rnd] is what [crypto.randomBytes(24)] returns inside
    [generateAccessToken]. *)
Definition rotateToken (clock : RotationClock) (rnd : list ascii)
    (tokenId userId reason : string) : M string :=
  (* Generate new token *)
  let newAccessToken := generateAccessToken "feen" rnd in
  let newTokenHash := hash newAccessToken in
  (* Get old token info *)
  let! oldToken := sharedKey_findUnique tokenId in
  (* Update token in database *)
  sharedKey_update tokenId (rotated_row (updateTime clock) newAccessToken newTokenHash);;
  (* Clear violation counts *)
  let! keys := redis_keys_prefix (clearTime clock) ("suspicious:" +:+ tokenId +:+ ":") in
  (if (0 <? length keys)%nat then (redis_del (clearTime clock) keys;; ret tt) else ret tt);;
  (* Log rotation *)
  auditLog_create
    {| al_userId := userId; al_action := "TOKEN_ROTATED"; al_resource := "sharedKey";
       al_resourceId := tokenId;
       al_details :=
         [ ("reason", json_string reason);
           ("oldTokenPrefix",
            json_string (match oldToken with
                         | Some t => slice0 12 (sk_accessToken t)
                         | None => "undefined"
                         end +:+ "..."));
           ("newTokenPrefix", json_string (slice0 12 newAccessToken +:+ "...")) ] |};;
  (* Queue notification to user *)
  queueRotationNotification clock userId tokenId reason;;
  ret newAccessToken.

(** [eventTime] is the [new Date()] of the event, [storeTime] the clock of
    the store at the three commands on the list of the event, [clock] the
    readings of the rotation, should there be one. *)
Definition recordSuspiciousActivity (eventTime storeTime : Z) (clock : RotationClock)
    (rnd : list ascii) (event : SuspiciousActivityEvent) : M RotationOutcome :=
  (* Store event in Redis *)
  let eventKey := suspicious_key (ev_tokenId event) (ev_type event) in
  redis_lpush storeTime eventKey (stringify_event eventTime event);;
  redis_expire storeTime eventKey VIOLATION_WINDOW;;
  (* Count recent violations *)
  let! violations := redis_llen storeTime eventKey in
  let threshold := ROTATION_THRESHOLDS (ev_type event) in
  (* Log to database *)
  auditLog_create
    {| al_userId := ev_userId event; al_action := "SUSPICIOUS_ACTIVITY";
       al_resource := "sharedKey"; al_resourceId := ev_tokenId event;
       al_details :=
         obj_spread
           [ ("type", json_string (activity_value (ev_type event)));
             ("violations", toString violations);
             ("threshold", toString threshold) ]
           (ev_details event) |};;
  (* Check if rotation is needed *)
  if violations >=? threshold
  then
    let! newToken := rotateToken clock rnd (ev_tokenId event) (ev_userId event)
                       (activity_value (ev_type event)) in
    ret {| rotated := true; newToken := Some newToken |}
  else ret {| rotated := false; newToken := None |}.

(** Manual token rotation request *)
Definition requestTokenRotation (clock : RotationClock) (rnd : list ascii)
    (tokenId userId : string) : M string :=
  let! d := get_db in
  match List.find (fun s => String.eqb (sk_id s) tokenId && String.eqb (sk_ownerId s) userId)
          (sharedKeys d) with
  | None => throw (JsError "Token not found or unauthorized")
  | Some _ => rotateToken clock rnd tokenId userId "manual_rotation"
  end.

End TokenRotation.

(** The list a key stands for: empty when the key is absent. *)
Definition list_at (nowMs : Z) (r : redis_state) (k : string) : option (list string) :=
  match rlookup nowMs r k with
  | None => Some []
  | Some (RList l) => Some l
  | Some _ => None
  end.

Definition sample_key : ApiKey :=
  {| ak_id := "key1"; ak_userId := "user1"; ak_teamId := None; ak_provider := OPENAI;
     ak_encryptedKey := ""; ak_isActive := true; ak_lastUsedAt := None |}.

Definition sample_db : database :=
  {| sharedKeys := [sample_token]; apiKeys := [sample_key]; auditLogs := []; usageLogs := [] |}.

Definition sample_world : world := {| db := sample_db; redis := empty_redis |}.

(** Twenty-four bytes standing for the output of the random generator. *)
Definition sample_random : list ascii := replicate 24 "A"%char.

(** What the three store commands at the head of [recordSuspiciousActivity]
    leave behind: the event at the head of the list, the deadline of the
    key one window ahead. *)
Definition with_event (nowMs : Z) (r : redis_state) (k v : string) (l : list string)
  : redis_state :=
  {| rdata := <[k := RList (v :: l)]> (rdata r);
     rexpiry := <[k := nowMs + VIOLATION_WINDOW * 1000]> (rexpiry r);
     rup := rup r |}.

Definition sample_event : SuspiciousActivityEvent :=
  {| ev_type := IP_BLACKLISTED; ev_tokenId := "tok1"; ev_userId := "user1";
     ev_details := [("ip", json_string "203.0.113.9")] |}.

(** A signature failure whose details repeat the name of a field of the
    audit entry. *)
Definition signature_event : SuspiciousActivityEvent :=
  {| ev_type := INVALID_SIGNATURE; ev_tokenId := "tok1"; ev_userId := "user1";
     ev_details := [("path", json_string "/v1/x"); ("type", json_string "hmac")] |}.

(** The readings of a rotation that follows an event of 2023-11-14. *)
Definition sample_rotation_clock : RotationClock :=
  {| updateTime := 1700000000020; clearTime := 1700000000030;
     noticeTime := 1700000000040; queueTime := 1700000000050 |}.

(** Two texts of the same length that differ in exactly one byte. *)
Definition differ_in_one_byte (a b : string) : Prop :=
  exists pre x y post,
    x <> y
    /\ a = string_of_list_ascii (pre ++ x :: post)
    /\ b = string_of_list_ascii (pre ++ y :: post).

(** A 32-character master key, used as it is. *)
Definition sample_env : option string := Some "0123456789abcdef0123456789abcdef".

Definition sample_iv : list ascii := replicate 16 "i"%char.

(** ** [Array.prototype.sort]

    The sort is stable and driven by the comparator alone.  It is modelled
    by insertion from the left into the sorted prefix: a new element goes in
    front of the first element the comparator puts it before (result below
    zero) and stays behind all others.  For a comparator that orders the
    elements consistently this is the list every conforming engine
    returns. *)

Fixpoint sort_insert {A} (cmp : A -> A -> Z) (x : A) (sorted : list A) : list A :=
  match sorted with
  | [] => [x]
  | y :: rest => if cmp x y <? 0 then x :: y :: rest else y :: sort_insert cmp x rest
  end.

Definition js_sort {A} (cmp : A -> A -> Z) (l : list A) : list A :=
  fold_left (fun sorted x => sort_insert cmp x sorted) l [].

(** ** lib/routing *)

Definition PROVIDER_ENDPOINTS (p : ApiProvider) : option string :=
  match p with
  | OPENAI => Some "https://api.openai.com"
  | ANTHROPIC => Some "https://api.anthropic.com"
  | GOOGLE => Some "https://generativelanguage.googleapis.com"
  | COHERE => Some "https://api.cohere.ai"
  | MISTRAL => Some "https://api.mistral.ai"
  | GROQ => Some "https://api.groq.com/openai"
  | TOGETHER => Some "https://api.together.xyz"
  | REPLICATE => Some "https://api.replicate.com"
  | HUGGINGFACE => Some "https://api-inference.huggingface.co"
  | BYTEZ => Some "https://api.bytez.ai/v2"
  | AZURE_OPENAI | CUSTOM => None
  end.

Definition MODEL_PROVIDER_MAP : list (string * list ApiProvider) :=
  [ ("gpt-3.5-turbo", [OPENAI; AZURE_OPENAI; TOGETHER]);
    ("gpt-4", [OPENAI; AZURE_OPENAI]);
    ("gpt-4-turbo", [OPENAI; AZURE_OPENAI]);
    ("gpt-4o", [OPENAI; AZURE_OPENAI]);
    ("claude-3-opus-20240229", [ANTHROPIC]);
    ("claude-3-sonnet-20240229", [ANTHROPIC]);
    ("claude-3-haiku-20240307", [ANTHROPIC]);
    ("mistral-large-latest", [MISTRAL; AZURE_OPENAI]);
    ("llama-3-70b-instruct", [TOGETHER; GROQ; MISTRAL]);
    ("llama-3-8b-instruct", [TOGETHER; GROQ; MISTRAL]) ].

(** The names every object inherits from [Object.prototype]: looked up in
    [MODEL_PROVIDER_MAP] they give a function or an object, not a list. *)
Definition inherited_properties : list string :=
  [ "constructor"; "hasOwnProperty"; "isPrototypeOf"; "propertyIsEnumerable";
    "toString"; "toLocaleString"; "valueOf"; "__proto__";
    "__defineGetter__"; "__defineSetter__"; "__lookupGetter__"; "__lookupSetter__" ].

(** [MODEL_PROVIDER_MAP[model] || []]; [None] when the lookup gives an
    inherited property, on which [includes] cannot be called. *)
Definition preferredProviders (model : string) : option (list ApiProvider) :=
  match List.find (fun e => String.eqb e.1 model) MODEL_PROVIDER_MAP with
  | Some e => Some e.2
  | None => if bool_decide (model ∈ inherited_properties) then None else Some []
  end.

(** A cached latency as [getFastestProvider] reads it. *)
Inductive Latency : Type :=
  | Finite (ms : Z)
  | Infinity
  | NaN.

(** [latency ? parseInt(latency) : Infinity] *)
Definition read_latency (latency : option string) : Latency :=
  match latency with
  | None | Some EmptyString => Infinity
  | Some s => match parseInt s with Some ms => Finite ms | None => NaN end
  end.

(** [a.latency - b.latency] as the sort reads it: a NaN difference counts
    as 0. *)
Definition latency_cmp (a b : ApiProvider * Latency) : Z :=
  match a.2, b.2 with
  | Finite x, Finite y => x - y
  | Finite _, Infinity => -1
  | Infinity, Finite _ => 1
  | _, _ => 0
  end.

Fixpoint read_scores (nowMs : Z) (candidates : list ApiProvider)
  : M (list (ApiProvider * Latency)) :=
  match candidates with
  | [] => ret []
  | p :: rest =>
      let! latency := redis_get nowMs ("latency:" +:+ provider_name p) in
      let! scores := read_scores nowMs rest in
      ret ((p, read_latency latency) :: scores)
  end.

Definition getFastestProvider (nowMs : Z) (model : string)
    (availableProviders : list ApiProvider) : M (option ApiProvider) :=
  match preferredProviders model, availableProviders with
  | None, _ :: _ => throw (TypeError "preferredProviders.includes is not a function")
  | None, [] => ret None
  | Some preferred, _ =>
      (* Intersection of available providers and preferred providers for this model *)
      let candidates :=
        List.filter (fun p => bool_decide (p ∈ preferred)) availableProviders in
      match candidates with
      | [] => ret (head availableProviders)
      | [p] => ret (Some p)
      | _ =>
          let! scores := read_scores nowMs candidates in
          let sorted := js_sort latency_cmp scores in
          ret (fst <$> head sorted)
      end
  end.

Definition recordLatency (nowMs : Z) (provider : ApiProvider) (latencyMs : Z) : M unit :=
  redis_set_ex nowMs ("latency:" +:+ provider_name provider) (toString latencyMs) 60.

(** ** HTTP messages *)

Definition to_lower_char (c : ascii) : ascii :=
  if char_in "A" "Z" c then ascii_of_nat (nat_of_ascii c + 32) else c.

Fixpoint toLowerCase (s : string) : string :=
  match s with
  | String c s' => String (to_lower_char c) (toLowerCase s')
  | EmptyString => EmptyString
  end.

(** A [Headers] object: names are kept in lower case, one value per name. *)
Definition Headers : Type := list (string * string).

Definition headers_get (name : string) (h : Headers) : option string :=
  snd <$> List.find (fun kv => String.eqb kv.1 (toLowerCase name)) h.

(** The list with the entry of [name] replaced by [value]. *)
Definition headers_put (name value : string) (h : Headers) : Headers :=
  List.filter (fun kv => negb (String.eqb kv.1 (toLowerCase name))) h
  ++ [(toLowerCase name, value)].

(** A text all of whose characters are code points up to U+00FF (a
    [ByteString]): in UTF-8 no byte is 0xC4 or above. *)
Definition is_byte_string (s : string) : bool :=
  forallb (fun c => (nat_of_ascii c <? 196)%nat) (list_ascii_of_string s).

(** HTTP whitespace: tab, line feed, carriage return, space. *)
Definition is_http_whitespace (c : ascii) : bool :=
  match nat_of_ascii c with
  | 9%nat | 10%nat | 13%nat | 32%nat => true
  | _ => false
  end.

Fixpoint strip_leading (l : list ascii) : list ascii :=
  match l with
  | c :: l' => if is_http_whitespace c then strip_leading l' else l
  | [] => []
  end.

(** Leading and trailing HTTP whitespace removed. *)
Definition normalize_header_value (value : string) : string :=
  string_of_list_ascii
    (rev (strip_leading (rev (strip_leading (list_ascii_of_string value))))).

(** A header name is a non-empty token. *)
Definition is_token_char (c : ascii) : bool :=
  char_in "0" "9" c || char_in "a" "z" c || char_in "A" "Z" c
  || existsb (Ascii.eqb c) (list_ascii_of_string "!#$%&'*+-.^_`|~").

Definition is_header_name (name : string) : bool :=
  negb (String.eqb name "") && forallb is_token_char (list_ascii_of_string name).

(** A normalized value is a header value when it holds no NUL, line feed or
    carriage return. *)
Definition is_header_value (value : string) : bool :=
  forallb (fun c => match nat_of_ascii c with
                    | 0%nat | 10%nat | 13%nat => false
                    | _ => true
                    end) (list_ascii_of_string value).

(** [headers.set(name, value)]: both arguments are converted to
    [ByteString]s, the value is normalized, then name and value are
    validated; each failure is a TypeError (the texts of the errors are the
    runtime's and stand for them here). *)
Definition headers_set (name value : string) (h : Headers) : outcome Headers :=
  if negb (is_byte_string name && is_byte_string value)
  then Throw (TypeError "Cannot convert argument to a ByteString")
  else
    let value := normalize_header_value value in
    if negb (is_header_name name) then Throw (TypeError "Invalid header name")
    else if negb (is_header_value value) then Throw (TypeError "Invalid header value")
    else Ok (headers_put name value h).

(** The values [set] takes, and those it stores as they are: byte strings
    without NUL, line feed or carriage return (once whitespace at the ends
    is gone, or with none there in the first place). *)
Definition header_accepted (value : string) : bool :=
  is_byte_string value && is_header_value (normalize_header_value value).

Definition header_safe (value : string) : bool :=
  is_byte_string value && is_header_value value
  && match list_ascii_of_string value with
     | c :: _ => negb (is_http_whitespace c)
     | [] => true
     end
  && match rev (list_ascii_of_string value) with
     | c :: _ => negb (is_http_whitespace c)
     | [] => true
     end.

(** A text that is not empty and does not start, or does not end, with
    whitespace. *)
Definition starts_clean (s : string) : bool :=
  match list_ascii_of_string s with
  | c :: _ => negb (is_http_whitespace c)
  | [] => false
  end.

Definition ends_clean (s : string) : bool :=
  match rev (list_ascii_of_string s) with
  | c :: _ => negb (is_http_whitespace c)
  | [] => false
  end.

(** A text of visible ASCII characters. *)
Definition plain_text (s : string) : bool :=
  forallb (char_in "!" "~") (list_ascii_of_string s).

(** Sequencing of computations that may throw. *)
Definition obind {A B} (o : outcome A) (k : A -> outcome B) : outcome B :=
  match o with
  | Ok a => k a
  | Throw e => Throw e
  end.

Notation "'let?' x ':=' o 'in' k" := (obind o (fun x => k))
  (at level 10, x pattern, o at level 100, k at level 200).

(** The body of a request as [JSON.parse] reads it, as far as the proxy
    looks: no JSON at all, the value [null], or any other value, with the
    text of its [model] property ([None] when there is none).  Requests
    whose [model] is neither absent nor a string are not covered. *)
Inductive ParsedBody : Type :=
  | NotJson
  | JsonNull
  | JsonValue (model : option string).

Record Request : Type := {
  req_method : string;
  req_headers : Headers;
  req_text : string;
  req_json : ParsedBody;
}.

Record Response : Type := {
  status : Z;
  statusText : string;
  res_headers : Headers;
  res_body : string;
}.

(** [response.ok] *)
Definition ok (r : Response) : bool := (200 <=? status r) && (status r <=? 299).

(** [NextResponse.json(fields, { status, headers })] *)
Definition json_response (st : Z) (fields : list (string * string)) (extra : Headers)
  : Response :=
  {| status := st; statusText := "";
     res_headers := extra ++ [("content-type", "application/json")];
     res_body := json_object fields |}.

Definition error_response (st : Z) (msg : string) : Response :=
  json_response st [("error", json_string msg)] [].

(** The [usage] object of a JSON response body. *)
Record Usage : Type := {
  prompt_tokens : option Z;
  input_tokens : option Z;
  completion_tokens : option Z;
  output_tokens : option Z;
  total_tokens : option Z;
}.

Record UpstreamRequest : Type := {
  up_url : string;
  up_method : string;
  up_headers : Headers;
  up_body : option string;
}.

(** What [await fetch(...)] comes to: a rejection (network error), or a
    response together with the [usage] of its body read as JSON, if any. *)
Inductive FetchResult : Type :=
  | NetworkError
  | Fetched (r : Response) (usage : option Usage).

(** [a || b] on optional numbers: [undefined] and 0 are falsy. *)
Definition js_or (a b : option Z) : option Z :=
  match a with
  | Some n => if n =? 0 then b else a
  | None => b
  end.

Definition truthy (a : option Z) : bool :=
  match a with Some n => negb (n =? 0) | None => false end.

(** ** app/api/proxy: handleProxy *)

(** [request.headers.get("x-forwarded-for")?.split(",")[0] || "unknown"] *)
Definition clientIP_of (request : Request) : string :=
  match headers_get "x-forwarded-for" (req_headers request) with
  | None => "unknown"
  | Some v =>
      match split_head "," v with
      | EmptyString => "unknown"
      | ip => ip
      end
  end.

(** [sharedKey.allowedIPs.length > 0 && !sharedKey.allowedIPs.includes(clientIP)] *)
Definition ip_rejected (sharedKey : SharedKey) (clientIP : string) : bool :=
  (0 <? length (sk_allowedIPs sharedKey))%nat
  && negb (arr_includes (sk_allowedIPs sharedKey) clientIP).

(** [sharedKey.expiresAt && sharedKey.expiresAt < new Date()] *)
Definition token_expired (nowMs : Z) (sharedKey : SharedKey) : bool :=
  match sk_expiresAt sharedKey with
  | Some t => t <? nowMs
  | None => false
  end.

(** [sharedKey.maxUsage && sharedKey.usageCount >= sharedKey.maxUsage] *)
Definition usage_exhausted (sharedKey : SharedKey) : bool :=
  match sk_maxUsage sharedKey with
  | Some m => negb (m =? 0) && (sk_usageCount sharedKey >=? m)
  | None => false
  end.

(** The sort callback of [handleProxy]: best provider first, then the key
    linked to the shared token. *)
Definition prefer (bestProvider : option ApiProvider) (apiKeyId : string) (a b : ApiKey) : Z :=
  if bool_decide (Some (ak_provider a) = bestProvider) then -1
  else if bool_decide (Some (ak_provider b) = bestProvider) then 1
  else if String.eqb (ak_id a) apiKeyId then -1
  else if String.eqb (ak_id b) apiKeyId then 1
  else 0.

Definition sortApiKeys (bestProvider : option ApiProvider) (apiKeyId : string)
    (availableApiKeys : list ApiKey) : list ApiKey :=
  js_sort (prefer bestProvider apiKeyId) availableApiKeys.

(** [db.apiKey.findMany]: the active keys of the owner or of the team of
    the linked key, in storage order. *)
Definition apiKey_findMany (ownerId : string) (teamId : option string) (d : database)
  : list ApiKey :=
  List.filter
    (fun k => (String.eqb (ak_userId k) ownerId || bool_decide (ak_teamId k = teamId))
              && ak_isActive k)
    (apiKeys d).

(** The three classes the sort callback tells apart: a key of the best
    provider, the key linked to the token (when it is not of the best
    provider), any other key. *)
Definition is_best (bestProvider : option ApiProvider) (k : ApiKey) : bool :=
  bool_decide (Some (ak_provider k) = bestProvider).
Definition is_linked (bestProvider : option ApiProvider) (apiKeyId : string) (k : ApiKey)
  : bool :=
  negb (is_best bestProvider k) && String.eqb (ak_id k) apiKeyId.
Definition is_other (bestProvider : option ApiProvider) (apiKeyId : string) (k : ApiKey)
  : bool :=
  negb (is_best bestProvider k) && negb (String.eqb (ak_id k) apiKeyId).

(** What comes out of the policy checks and the rate limiter. *)
Inductive Admission : Type :=
  | Reject (r : Response)
  | Pass (sharedKey : SharedKey) (clientIP : string) (rateLimitResult : RateLimitResult).

(** The clock of one call of [handleProxy].  The code reads the clock, or
    waits for a store that keeps its own, at nine places, each after the
    [await]s before it; the readings are listed in program order. *)
Record ProxyClock : Type := {
  startTime : Z;      (* const startTime = Date.now() *)
  expiryTime : Z;     (* new Date() of the expiry check *)
  limitTime : Z;      (* Date.now() and the store commands inside checkRateLimit *)
  retryTime : Z;      (* Date.now() of retryAfter *)
  routeTime : Z;      (* the store reads of getFastestProvider *)
  endTime : Z;        (* Date.now() after the fallback loop *)
  recordTime : Z;     (* the store write of recordLatency *)
  tokenUsedTime : Z;  (* new Date() of sharedKey.update *)
  keyUsedTime : Z;    (* new Date() of apiKey.update *)
}.

Section Proxy.
Context `{NodeCrypto}.

(** The environment of one call: the master key, the clock, and what each
    call of [fetch] comes to (the n-th call of this request, with the
    request it sends). *)
Variable env : option string.
Variable clock : ProxyClock.
Variable fetch : nat -> UpstreamRequest -> FetchResult.

(** The first part of [handleProxy]: bearer token, lookup, expiry, usage
    cap, IP allow-list, rate limit. *)
Definition authorize (request : Request) : M Admission :=
  (* Extract the access token from Authorization header *)
  match headers_get "authorization" (req_headers request) with
  | None => ret (Reject (error_response 401 "Missing or invalid authorization header"))
  | Some authHeader =>
  if negb (startsWith authHeader "Bearer ")
  then ret (Reject (error_response 401 "Missing or invalid authorization header"))
  else
  let accessToken := String.substring 7 (String.length authHeader - 7) authHeader in
  (* Validate it's a Feen token *)
  if negb (startsWith accessToken "feen_")
  then ret (Reject (error_response 401 "Invalid token format"))
  else
  (* Find the shared key *)
  let! d := get_db in
  match sharedKey_findByToken accessToken d with
  | None => ret (Reject (error_response 401 "Invalid or expired access token"))
  | Some sharedKey =>
  (* Check if token is expired *)
  if token_expired (expiryTime clock) sharedKey
  then ret (Reject (error_response 401 "Access token has expired"))
  (* Check max usage *)
  else if usage_exhausted sharedKey
  then ret (Reject (error_response 429 "Access token usage limit exceeded"))
  else
  (* Check IP allowlist *)
  let clientIP := clientIP_of request in
  if ip_rejected sharedKey clientIP
  then ret (Reject (error_response 403 "IP address not allowed"))
  else
  (* Check rate limits *)
  let! rateLimitResult := proxyRateLimit (limitTime clock) sharedKey in
  if negb (rl_allowed rateLimitResult)
  then ret (Reject
    (json_response 429
       [ ("error", json_string "Rate limit exceeded");
         ("retryAfter",
          toString (resetAt rateLimitResult - unix_seconds (retryTime clock))) ]
       [ ("x-ratelimit-limit", toString (sk_rateLimit sharedKey));
         ("x-ratelimit-remaining", toString (remaining rateLimitResult));
         ("x-ratelimit-reset", toString (resetAt rateLimitResult)) ]))
  else ret (Pass sharedKey clientIP rateLimitResult)
  end end.

(** The request sent upstream for one candidate key; the headers are set
    one by one on a new [Headers] object, and each [set] may refuse its
    value. *)
Definition upstream_request (request : Request) (path : list string) (baseUrl : string)
    (finalProvider : ApiProvider) (actualApiKey : string) : outcome UpstreamRequest :=
  let proxyPath := join "/" path in
  let? headers := headers_set "Authorization" ("Bearer " +:+ actualApiKey) [] in
  let? headers :=
    headers_set "Content-Type"
      (match headers_get "content-type" (req_headers request) with
       | None | Some EmptyString => "application/json"
       | Some ct => ct
       end) headers in
  let? headers :=
    if bool_decide (finalProvider = ANTHROPIC)
    then (let? headers := headers_set "x-api-key" actualApiKey headers in
          headers_set "anthropic-version" "2023-06-01" headers)
    else Ok headers in
  let? headers :=
    if bool_decide (finalProvider = BYTEZ)
    then match headers_get "provider-key" (req_headers request) with
         | None | Some EmptyString => Ok headers
         | Some providerKey => headers_set "Provider-Key" providerKey headers
         end
    else Ok headers in
  Ok {| up_url := baseUrl +:+ "/" +:+ proxyPath;
        up_method := req_method request;
        up_headers := headers;
        up_body := if negb (String.eqb (req_method request) "GET")
                      && negb (String.eqb (req_method request) "HEAD")
                   then Some (req_text request) else None |}.

(** The state of the fallback loop: the last response received, the key and
    the number of [fetch] calls made so far. *)
Record LoopState : Type := {
  proxyResponse : option (Response * option Usage);
  selectedApiKey : ApiKey;
  calls : nat;
}.

(** Try providers in order (Fallback Logic): the loop
    [for (const apiKey of sortedApiKeys)] over the keys still to try.
    [decrypt] and the [set] calls are outside the inner [try]: what they
    throw leaves the loop. *)
Fixpoint tryProviders (request : Request) (path : list string)
    (keys : list ApiKey) (st : LoopState) : outcome LoopState :=
  match keys with
  | [] => Ok st
  | apiKey :: rest =>
      let st := {| proxyResponse := proxyResponse st; selectedApiKey := apiKey;
                   calls := calls st |} in
      match PROVIDER_ENDPOINTS (ak_provider apiKey) with
      | None => tryProviders request path rest st
      | Some baseUrl =>
          match decrypt env (ak_encryptedKey apiKey) with
          | Throw e => Throw e
          | Ok actualApiKey =>
              match upstream_request request path baseUrl (ak_provider apiKey)
                      actualApiKey with
              | Throw e => Throw e
              | Ok upstream =>
                  match fetch (calls st) upstream with
                  | Fetched r usage =>
                      let st := {| proxyResponse := Some (r, usage);
                                   selectedApiKey := apiKey; calls := S (calls st) |} in
                      if ok r then Ok st (* Success! *)
                      else tryProviders request path rest st
                  | NetworkError =>
                      tryProviders request path rest
                        {| proxyResponse := proxyResponse st; selectedApiKey := apiKey;
                           calls := S (calls st) |}
                  end
              end
          end
      end
  end.

(** The router: the requested model, the available keys, the best
    provider, the order in which the keys are tried.  [linked] is
    [sharedKey.apiKey], the row the token refers to; [nowMs] is the clock
    of the store when [getFastestProvider] reads it. *)
Definition candidateOrder (nowMs : Z) (request : Request) (sharedKey : SharedKey)
    (linked : option ApiKey) : M (list ApiKey * option string) :=
  let! requestedModel :=
    match req_json request with
    | NotJson => ret None
    | JsonNull => throw (TypeError "Cannot read properties of null (reading 'model')")
    | JsonValue model => ret model
    end in
  match linked with
  | None => throw (TypeError "Cannot read properties of null (reading 'teamId')")
  | Some linked =>
      (* Find all active API keys available to this user/team *)
      let! d := get_db in
      let availableApiKeys := apiKey_findMany (sk_ownerId sharedKey) (ak_teamId linked) d in
      (* Determine the best provider based on latency *)
      let availableProviders := map ak_provider availableApiKeys in
      let! bestProvider :=
        match requestedModel with
        | None | Some EmptyString => ret (Some (ak_provider linked))
        | Some model => getFastestProvider nowMs model availableProviders
        end in
      (* Sort API keys by preference *)
      ret (sortApiKeys bestProvider (sk_apiKeyId sharedKey) availableApiKeys, requestedModel)
  end.

(** The logging after the response is in: the usage row and the two
    [update]s, none of which is awaited or can fail the request.
    [tokenUsed] and [keyUsed] are the two readings of [new Date()]. *)
Definition log_usage (tokenUsed keyUsed : Z) (entry : UsageLog)
    (sharedKeyId apiKeyId : string) : M unit :=
  fun w =>
    let d := db w in
    (Ok tt,
     {| db := {| sharedKeys :=
                   map (fun s => if String.eqb (sk_id s) sharedKeyId
                                 then {| sk_id := sk_id s; sk_apiKeyId := sk_apiKeyId s;
                                         sk_ownerId := sk_ownerId s;
                                         sk_accessToken := sk_accessToken s;
                                         sk_tokenHash := sk_tokenHash s;
                                         sk_isActive := sk_isActive s;
                                         sk_expiresAt := sk_expiresAt s;
                                         sk_maxUsage := sk_maxUsage s;
                                         sk_usageCount := sk_usageCount s + 1;
                                         sk_allowedIPs := sk_allowedIPs s;
                                         sk_rateLimit := sk_rateLimit s;
                                         sk_lastUsedAt := Some tokenUsed;
                                         sk_updatedAt := sk_updatedAt s |}
                                 else s) (sharedKeys d);
                 apiKeys :=
                   map (fun k => if String.eqb (ak_id k) apiKeyId
                                 then {| ak_id := ak_id k; ak_userId := ak_userId k;
                                         ak_teamId := ak_teamId k; ak_provider := ak_provider k;
                                         ak_encryptedKey := ak_encryptedKey k;
                                         ak_isActive := ak_isActive k;
                                         ak_lastUsedAt := Some keyUsed |}
                                 else k) (apiKeys d);
                 auditLogs := auditLogs d;
                 usageLogs := usageLogs d ++ [entry] |};
        redis := redis w |}).

(** A reason phrase: tabs, spaces, visible ASCII characters and the code
    points U+0080 to U+00FF (in UTF-8, for a byte string, the bytes from
    0x80 on). *)
Definition is_reason_phrase (s : string) : bool :=
  forallb (fun c => let n := nat_of_ascii c in
                    (n =? 9)%nat || ((32 <=? n)%nat && (n <=? 126)%nat) || (128 <=? n)%nat)
    (list_ascii_of_string s).

(** The [Response] constructor takes status and reason phrase of [r]: the
    phrase is a byte string, the status as an unsigned short lies in
    200..599, and the phrase is a reason phrase. *)
Definition presentable (r : Response) : bool :=
  is_byte_string (statusText r)
  && (200 <=? status r mod 65536) && (status r mod 65536 <=? 599)
  && is_reason_phrase (statusText r).

(** The response handed back to the client for the upstream response [r]:
    four headers are set on a copy of its headers, then
    [new NextResponse(body, { status, statusText, headers })] is built.
    The constructor converts [statusText] to a byte string and [status] to
    an unsigned short, throws a RangeError for a status outside 200..599
    and a TypeError for a text that is no reason phrase. *)
Definition forwarded_response (r : Response) (latencyMs : Z) (finalProvider : ApiProvider)
    (sharedKey : SharedKey) (rateLimitResult : RateLimitResult) : outcome Response :=
  let? responseHeaders := headers_set "X-Feen-Latency" (toString latencyMs) (res_headers r) in
  let? responseHeaders :=
    headers_set "X-Feen-Provider" (provider_name finalProvider) responseHeaders in
  let? responseHeaders :=
    headers_set "X-RateLimit-Limit" (toString (sk_rateLimit sharedKey)) responseHeaders in
  let? responseHeaders :=
    headers_set "X-RateLimit-Remaining" (toString (remaining rateLimitResult))
      responseHeaders in
  if negb (is_byte_string (statusText r))
  then Throw (TypeError "Cannot convert argument to a ByteString")
  else
    let status := status r mod 65536 in
    if negb ((200 <=? status) && (status <=? 599))
    then Throw (RangeError "The status provided is outside the range [200, 599]")
    else if negb (is_reason_phrase (statusText r))
    then Throw (TypeError "Invalid statusText")
    else Ok {| status := status;
               statusText := statusText r;
               res_headers := responseHeaders;
               res_body := res_body r |}.

(** What [handleProxy] does with the state the loop ends in. *)
Definition respond (request : Request) (path : list string) (sharedKey : SharedKey)
    (clientIP : string) (rateLimitResult : RateLimitResult)
    (requestedModel : option string) (st : LoopState) : M Response :=
  match proxyResponse st with
  | None => ret (error_response 502 "All available providers failed")
  | Some (r, usage) =>
      let selected := selectedApiKey st in
      let finalProvider := ak_provider selected in
      let latencyMs := endTime clock - startTime clock in
      (* Record latency for the selected provider *)
      (if ok r then recordLatency (recordTime clock) finalProvider latencyMs else ret tt);;
      (* Parse response for token counting (if applicable) *)
      let counted := if ok r then usage else None in
      let requestTokens :=
        match counted with
        | Some u => js_or (prompt_tokens u) (input_tokens u)
        | None => None
        end in
      let responseTokens :=
        match counted with
        | Some u => js_or (completion_tokens u) (output_tokens u)
        | None => None
        end in
      let totalTokens :=
        match counted with
        | Some u =>
            js_or (total_tokens u)
              (if truthy requestTokens && truthy responseTokens
               then Some (default 0 requestTokens + default 0 responseTokens)
               else None)
        | None => None
        end in
      (* Log usage asynchronously, update usage count and last used *)
      log_usage (tokenUsedTime clock) (keyUsedTime clock)
        {| ul_apiKeyId := ak_id selected; ul_sharedKeyId := sk_id sharedKey;
           ul_userId := sk_ownerId sharedKey; ul_provider := finalProvider;
           ul_model := requestedModel; ul_endpoint := join "/" path;
           ul_method := req_method request; ul_statusCode := status r;
           ul_requestTokens := requestTokens; ul_responseTokens := responseTokens;
           ul_totalTokens := totalTokens; ul_latencyMs := latencyMs;
           ul_ipAddress := clientIP;
           ul_userAgent := headers_get "user-agent" (req_headers request) |}
        (sk_id sharedKey) (ak_id selected);;
      (* Forward the response *)
      of_outcome (forwarded_response r latencyMs finalProvider sharedKey rateLimitResult)
  end.

(** The second part of [handleProxy]: routing, the fallback loop, metering
    and the response. *)
Definition forward (request : Request) (path : list string) (sharedKey : SharedKey)
    (clientIP : string) (rateLimitResult : RateLimitResult) : M Response :=
  let! d := get_db in
  let linked := List.find (fun k => String.eqb (ak_id k) (sk_apiKeyId sharedKey)) (apiKeys d) in
  let! routed := candidateOrder (routeTime clock) request sharedKey linked in
  let sortedApiKeys := routed.1 in
  let requestedModel := routed.2 in
  match sortedApiKeys with
  | [] => throw (TypeError "Cannot read properties of undefined (reading 'provider')")
  | first :: _ =>
      let! st := of_outcome
                   (tryProviders request path sortedApiKeys
                      {| proxyResponse := None; selectedApiKey := first; calls := O |}) in
      respond request path sharedKey clientIP rateLimitResult requestedModel st
  end.

Definition handleProxy (request : Request) (path : list string) : M Response :=
  try_catch
    (let! admission := authorize request in
     match admission with
     | Reject r => ret r
     | Pass sharedKey clientIP rateLimitResult =>
         forward request path sharedKey clientIP rateLimitResult
     end)
    (fun error => ret (error_response 500 "Internal proxy error")).

(** One pass of the loop body, seen from outside: the key has no endpoint
    and is skipped, its stored credential cannot be read, the credential
    (or a header of the client that goes with it) is refused as a header
    value, the call fails in transport, or the upstream answers. *)
Inductive Attempt : Type :=
  | Skipped
  | KeyUnreadable (e : exn)
  | HeaderRefused (e : exn)
  | Unreachable
  | Answered (r : Response) (usage : option Usage).

Definition attempt (request : Request) (path : list string) (n : nat) (apiKey : ApiKey)
  : Attempt :=
  match PROVIDER_ENDPOINTS (ak_provider apiKey) with
  | None => Skipped
  | Some baseUrl =>
      match decrypt env (ak_encryptedKey apiKey) with
      | Throw e => KeyUnreadable e
      | Ok actualApiKey =>
          match upstream_request request path baseUrl (ak_provider apiKey) actualApiKey with
          | Throw e => HeaderRefused e
          | Ok upstream =>
              match fetch n upstream with
              | NetworkError => Unreachable
              | Fetched r usage => Answered r usage
              end
          end
      end
  end.

Definition fetched (a : Attempt) : bool :=
  match a with Unreachable | Answered _ _ => true | _ => false end.

(** What each key of the list would come to if the loop got to it, the
    first with [n] calls of [fetch] before it. *)
Fixpoint attempts_from (request : Request) (path : list string) (n : nat)
    (keys : list ApiKey) : list (ApiKey * Attempt) :=
  match keys with
  | [] => []
  | k :: rest =>
      let a := attempt request path n k in
      (k, a) :: attempts_from request path (if fetched a then S n else n) rest
  end.

End Proxy.

(** The loop goes on to the next key after this attempt. *)
Definition fell_through (ka : ApiKey * Attempt) : Prop :=
  match ka.2 with
  | Skipped | Unreachable => True
  | Answered r _ => ok r = false
  | KeyUnreadable _ | HeaderRefused _ => False
  end.

(** The exception of an attempt that ends the request. *)
Definition refused (a : Attempt) : option exn :=
  match a with
  | KeyUnreadable e | HeaderRefused e => Some e
  | _ => None
  end.

Definition fetch_count (l : list (ApiKey * Attempt)) : nat :=
  length (List.filter (fun ka => fetched ka.2) l).

(** The response of the last attempt that was answered, [init] if none was. *)
Definition last_answer (l : list (ApiKey * Attempt)) (init : option (Response * option Usage))
  : option (Response * option Usage) :=
  fold_left (fun acc ka => match ka.2 with Answered r u => Some (r, u) | _ => acc end) l init.

(** The key of the last attempt, [init] if there was none. *)
Definition last_key (l : list (ApiKey * Attempt)) (init : ApiKey) : ApiKey :=
  fold_left (fun _ ka => ka.1) l init.

(** What the client is handed for the answer [r] of the key [k], when it is
    handed one: status (as an unsigned short: the status itself, for the
    three digits of an HTTP response), reason and body of the answer, and
    the provider and the latency in two headers of their own. *)
Definition handed (clock : ProxyClock) (resp r : Response) (k : ApiKey) : Prop :=
  status resp = status r mod 65536
  /\ (0 <= status r < 65536 -> status resp = status r)
  /\ statusText resp = statusText r
  /\ res_body resp = res_body r
  /\ headers_get "X-Feen-Provider" (res_headers resp) = Some (provider_name (ak_provider k))
  /\ headers_get "X-Feen-Latency" (res_headers resp)
     = Some (toString (endTime clock - startTime clock)).

(** The readings of a call in which the clock stands at [t0] up to the
    upstream calls and at [t1] after them. *)
Definition sample_clock (t0 t1 : Z) : ProxyClock :=
  {| startTime := t0; expiryTime := t0; limitTime := t0; retryTime := t0; routeTime := t0;
     endTime := t1; recordTime := t1; tokenUsedTime := t1; keyUsedTime := t1 |}.

(** ** Sample data for the proxy *)

(** The blob [encrypt] gives for ["sk-test"] under [toy_crypto],
    [sample_env] and [sample_iv]. *)
Definition sample_blob : string := "aWlpaWlpaWlpaWlpaWlpaXNrLXRlc3RpaWlpaWlpaWlzay10ZXN0".

Definition openai_key : ApiKey :=
  {| ak_id := "key1"; ak_userId := "user1"; ak_teamId := Some "team1"; ak_provider := OPENAI;
     ak_encryptedKey := sample_blob; ak_isActive := true; ak_lastUsedAt := None |}.

Definition anthropic_key : ApiKey :=
  {| ak_id := "key2"; ak_userId := "user1"; ak_teamId := Some "team1";
     ak_provider := ANTHROPIC;
     ak_encryptedKey := sample_blob; ak_isActive := true; ak_lastUsedAt := None |}.

(** A token like [sample_token] with given allow-list, expiry and linked key. *)
Definition token_with (ips : list string) (expiresAt : option Z) (apiKeyId : string)
  : SharedKey :=
  {| sk_id := "tok1"; sk_apiKeyId := apiKeyId; sk_ownerId := "user1";
     sk_accessToken := "feen_old"; sk_tokenHash := hash (H := toy_crypto) "feen_old";
     sk_isActive := true; sk_expiresAt := expiresAt; sk_maxUsage := None; sk_usageCount := 0;
     sk_allowedIPs := ips; sk_rateLimit := 2; sk_lastUsedAt := None; sk_updatedAt := 0 |}.

Definition world_with (t : SharedKey) (keys : list ApiKey) : world :=
  {| db := {| sharedKeys := [t]; apiKeys := keys; auditLogs := []; usageLogs := [] |};
     redis := empty_redis |}.

Definition request_from (ip : string) (body : ParsedBody) : Request :=
  {| req_method := "POST";
     req_headers := [("authorization", "Bearer feen_old"); ("x-forwarded-for", ip)];
     req_text := "{}"; req_json := body |}.

Definition upstream_reply (st : Z) : FetchResult :=
  Fetched {| status := st; statusText := ""; res_headers := []; res_body := "upstream" |} None.

(** The first call answers 404, every later one 200. *)
Definition fetch_404_then_200 (n : nat) (_ : UpstreamRequest) : FetchResult :=
  match n with O => upstream_reply 404 | _ => upstream_reply 200 end.

(** Every call answers 500. *)
Definition fetch_always_500 (n : nat) (_ : UpstreamRequest) : FetchResult :=
  upstream_reply 500.

(** Every call fails in transport. *)
Definition fetch_unreachable (n : nat) (_ : UpstreamRequest) : FetchResult := NetworkError.

(** ** The allow-list match in the words of the specification

    "If non-empty, the client IP must match one of its entries (literal or
    CIDR)": an entry matches an address when it is the same text, or when
    it is [a.b.c.d/len] and the address has the same leading [len] bits. *)

Fixpoint split_on (sep : ascii) (s : string) : list string :=
  match s with
  | EmptyString => [""]
  | String c s' =>
      if Ascii.eqb c sep then "" :: split_on sep s'
      else match split_on sep s' with
           | h :: t => String c h :: t
           | [] => [String c ""]
           end
  end.

Fixpoint all_digits (s : string) : bool :=
  match s with
  | EmptyString => true
  | String c s' => is_digit c && all_digits s'
  end.

Definition parse_number_upto (bound : Z) (s : string) : option Z :=
  if all_digits s
  then match parse_digits s None with
       | Some n => if n <=? bound then Some n else None
       | None => None
       end
  else None.

Definition parse_ipv4 (s : string) : option Z :=
  match split_on "." s with
  | [a; b; c; d] =>
      match parse_number_upto 255 a, parse_number_upto 255 b,
            parse_number_upto 255 c, parse_number_upto 255 d with
      | Some a, Some b, Some c, Some d => Some (((a * 256 + b) * 256 + c) * 256 + d)
      | _, _, _, _ => None
      end
  | _ => None
  end.

Definition spec_entry_matches (clientIP entry : string) : bool :=
  String.eqb clientIP entry
  || match split_on "/" entry with
     | [net; len] =>
         match parse_ipv4 clientIP, parse_ipv4 net, parse_number_upto 32 len with
         | Some a, Some n, Some l => a / 2 ^ (32 - l) =? n / 2 ^ (32 - l)
         | _, _, _ => false
         end
     | _ => false
     end.

Definition spec_ip_allowed (allowedIPs : list string) (clientIP : string) : bool :=
  (length allowedIPs =? 0)%nat || existsb (spec_entry_matches clientIP) allowedIPs.

(** ** lib/crypto: display prefix and comparison *)

(** [s.slice(-n)]: the last [n] characters; [slice(-0)] is [slice(0)], the
    whole string.  Characters are counted as bytes here and in
    [generateKeyPrefix]: the text is taken to be ASCII, as provider keys
    are. *)
Definition slice_last (n : nat) (s : string) : string :=
  match n with
  | O => s
  | _ => String.substring (String.length s - n) n s
  end.

(** Generates a key prefix for display (e.g., "sk-...abc") *)
Definition generateKeyPrefix (key : string) (visibleChars : nat) : string :=
  if (String.length key <=? visibleChars * 2)%nat then "****"
  else slice0 visibleChars key +:+ "..." +:+ slice_last visibleChars key.

(** ** Texts as UTF-16 code units

    A JavaScript string is a sequence of 16-bit code units; [Buffer.from]
    writes it in UTF-8, a surrogate pair as the four bytes of its code point
    and a surrogate without its partner as the three bytes of U+FFFD. *)

Definition byte_from (z : Z) : ascii := ascii_of_N (Z.to_N z).
Definition Z_of_byte (b : ascii) : Z := Z.of_N (N_of_ascii b).

Definition is_high_surrogate (u : Z) : bool := (55296 <=? u) && (u <? 56320).
Definition is_low_surrogate (u : Z) : bool := (56320 <=? u) && (u <? 57344).

(** The bytes of a code point. *)
Definition utf8_bytes (cp : Z) : list ascii :=
  if cp <? 128 then [byte_from cp]
  else if cp <? 2048 then [byte_from (192 + cp / 64); byte_from (128 + cp mod 64)]
  else if cp <? 65536
  then [byte_from (224 + cp / 4096); byte_from (128 + cp / 64 mod 64);
        byte_from (128 + cp mod 64)]
  else [byte_from (240 + cp / 262144); byte_from (128 + cp / 4096 mod 64);
        byte_from (128 + cp / 64 mod 64); byte_from (128 + cp mod 64)].

(** [Buffer.from(s)] for the string of the code units [s]. *)
Fixpoint utf8_encode (s : list Z) : list ascii :=
  match s with
  | [] => []
  | u :: rest =>
      if is_high_surrogate u
      then match rest with
           | v :: rest' =>
               if is_low_surrogate v
               then utf8_bytes (65536 + (u - 55296) * 1024 + (v - 56320)) ++ utf8_encode rest'
               else utf8_bytes 65533 ++ utf8_encode rest
           | [] => utf8_bytes 65533
           end
      else if is_low_surrogate u then utf8_bytes 65533 ++ utf8_encode rest
      else utf8_bytes u ++ utf8_encode rest
  end.

(** Code units that form a text without a lone surrogate. *)
Fixpoint well_formed (s : list Z) : bool :=
  match s with
  | [] => true
  | u :: rest =>
      if is_high_surrogate u
      then match rest with
           | v :: rest' => is_low_surrogate v && well_formed rest'
           | [] => false
           end
      else negb (is_low_surrogate u) && (0 <=? u) && (u <? 65536) && well_formed rest
  end.

(** Reading UTF-8 back into code units: the inverse of [utf8_encode] on
    well-formed text, by which two such texts with the same bytes are
    shown to be the same. *)
Fixpoint utf8_decode (bs : list ascii) : list Z :=
  match bs with
  | [] => []
  | b1 :: r1 =>
      let v1 := Z_of_byte b1 in
      if v1 <? 128 then v1 :: utf8_decode r1
      else
        match r1 with
        | [] => []
        | b2 :: r2 =>
            let v2 := Z_of_byte b2 - 128 in
            if v1 <? 224 then ((v1 - 192) * 64 + v2) :: utf8_decode r2
            else
              match r2 with
              | [] => []
              | b3 :: r3 =>
                  let v3 := Z_of_byte b3 - 128 in
                  if v1 <? 240 then ((v1 - 224) * 4096 + v2 * 64 + v3) :: utf8_decode r3
                  else
                    match r3 with
                    | [] => []
                    | b4 :: r4 =>
                        let v4 := Z_of_byte b4 - 128 in
                        let cp := (v1 - 240) * 262144 + v2 * 4096 + v3 * 64 + v4 - 65536 in
                        (55296 + cp / 1024) :: (56320 + cp mod 1024) :: utf8_decode r4
                    end
              end
        end
  end.

(** Compares two strings in constant time to prevent timing attacks.  The
    strings are taken as their code units, so that [a.length] is the length
    of the list and a surrogate without its partner can be told from the
    text [Buffer.from] makes of it. *)
Definition secureCompare (a b : list Z) : outcome bool :=
  if negb (length a =? length b)%nat then Ok false
  else timingSafeEqual (utf8_encode a) (utf8_encode b).

(** The code units of a text of ASCII characters. *)
Definition code_units (s : string) : list Z := map Z_of_byte (list_ascii_of_string s).

(** ** lib/security/request-signing: the client side *)

Section RequestSigningClient.
Context `{NodeCrypto}.

(** Generate signed request headers; [rnd] is [crypto.randomBytes(16)]. *)
Definition signRequest (nowMs : Z) (rnd : list ascii) (method path : string)
    (body : option string) (tokenId secret : string) : SignatureHeaders :=
  let ts := unix_seconds nowMs in
  let nonce := hex rnd in
  let sig :=
    generateSignature
      {| sp_timestamp := ts; sp_nonce := nonce; sp_method := method; sp_path := path;
         sp_body := body; sp_tokenId := tokenId |} secret in
  {| timestamp := toString ts; signature := sig; nonce := nonce |}.

(** Extract signature headers from request (a [Headers] object): [None]
    when one of the three is missing or empty. *)
Definition extractSignatureHeaders (headers : Headers) : option SignatureHeaders :=
  match headers_get "X-Feen-Timestamp" headers,
        headers_get "X-Feen-Signature" headers,
        headers_get "X-Feen-Nonce" headers with
  | Some (String t0 t as ts), Some (String s0 s as sg), Some (String n0 n as nc) =>
      Some {| timestamp := ts; signature := sg; nonce := nc |}
  | _, _, _ => None
  end.

(** Middleware helper to verify signed requests; [pathname] is
    [new URL(request.url).pathname]. *)
Definition verifySignedRequest (NONCE_CACHE : gmap string Z) (nowMs : Z)
    (request : Request) (pathname : string) (tokenId secret : string)
  : outcome Verification * gmap string Z :=
  match extractSignatureHeaders (req_headers request) with
  | None => (Ok {| valid := false; error := Some "Missing signature headers" |}, NONCE_CACHE)
  | Some signatureHeaders =>
      let body :=
        if negb (String.eqb (req_method request) "GET")
           && negb (String.eqb (req_method request) "HEAD")
        then Some (req_text request) else None in
      verifySignature NONCE_CACHE nowMs signatureHeaders (req_method request) pathname body
        tokenId secret
  end.

End RequestSigningClient.

(** ** Runs of the rate limiter *)

(** Successive calls of [checkRateLimit] for one key, one at each of the
    given clock readings. *)
Fixpoint checkRateLimit_calls (times : list Z) (key : string) (limit windowSeconds : Z)
  : M (list RateLimitResult) :=
  match times with
  | [] => ret []
  | t :: rest =>
      let! r := checkRateLimit t key limit windowSeconds in
      let! rs := checkRateLimit_calls rest key limit windowSeconds in
      ret (r :: rs)
  end.

(** What the [i]-th call inside window number [W] is answered. *)
Definition window_answer (limit windowSeconds W : Z) (i : nat) : RateLimitResult :=
  {| rl_allowed := Z.of_nat i <=? limit;
     remaining := Z.max 0 (limit - Z.of_nat i);
     resetAt := (W + 1) * windowSeconds |}.

(** ** Cached latencies *)

(** The latency [getFastestProvider] reads for a provider at [nowMs];
    [None] when [GET] fails on what the key holds. *)
Definition cached_latency (nowMs : Z) (r : redis_state) (p : ApiProvider) : option Latency :=
  match rlookup nowMs r ("latency:" +:+ provider_name p) with
  | None => Some Infinity
  | Some (RInt n) => Some (read_latency (Some (toString n)))
  | Some (RString s) => Some (read_latency (Some s))
  | Some (RList _) => None
  end.

(** The order of latencies the sort goes by: finite ones by size, all of
    them before [Infinity]. *)
Definition latency_leb (a b : Latency) : bool :=
  match a, b with
  | Finite x, Finite y => x <=? y
  | Finite _, Infinity => true
  | Infinity, Infinity => true
  | _, _ => false
  end.

(** The head of the list is a least element of it. *)
Definition least_first (sorted : list (ApiProvider * Latency)) : Prop :=
  match sorted with
  | [] => True
  | h :: _ => Forall (fun z => latency_leb h.2 z.2 = true) sorted
  end.

(** Every call answers 200. *)
Definition fetch_always_200 (n : nat) (_ : UpstreamRequest) : FetchResult :=
  upstream_reply 200.

(** The same world with the fast store unreachable. *)
Definition store_down (w : world) : world :=
  {| db := db w;
     redis := {| rdata := rdata (redis w); rexpiry := rexpiry (redis w); rup := false |} |}.

(** The header names [handleProxy] sets on an upstream request. *)
Definition upstream_header_names : list string :=
  ["authorization"; "content-type"; "x-api-key"; "anthropic-version"; "provider-key"].

(** ** SigningSDK: the headers of a signed fetch *)

(** [Object.entries(signatureHeaders).forEach(([key, value]) =>
    headers.set(key, value))] on the headers the caller passed. *)
Definition signed_headers (h : SignatureHeaders) (headers : Headers) : outcome Headers :=
  let? headers := headers_set "X-Feen-Timestamp" (timestamp h) headers in
  let? headers := headers_set "X-Feen-Signature" (signature h) headers in
  headers_set "X-Feen-Nonce" (nonce h) headers.

(** ** More Redis commands *)

(** [SET key value]: the previous value and its deadline are dropped. *)
Definition redis_set (k v : string) : M unit :=
  redis_cmd (fun r => (Ok tt, rwrite r k (RString v) None)).

(** [EXPIREAT key seconds]: 1 when the key exists, 0 otherwise.  A deadline
    that has passed leaves the key expired, which is how every later
    command sees a deleted key. *)
Definition redis_expireat (nowMs : Z) (k : string) (seconds : Z) : M Z :=
  redis_cmd (fun r =>
    match rlookup nowMs r k with
    | None => (Ok 0, r)
    | Some v => (Ok 1, rwrite r k v (Some (seconds * 1000)))
    end).

(** ** lib/security/two-factor: the stored secret and bypass tokens *)

Section TwoFactorStore.
Context `{NodeCrypto}.

(** Check if user has 2FA enabled *)
Definition isTwoFactorEnabled (nowMs : Z) (userId : string) : M bool :=
  let! secret := redis_get nowMs ("2fa:secret:" +:+ userId) in
  ret (bool_decide (secret <> None)).

(** Enable 2FA for a user *)
Definition enableTwoFactor (nowMs : Z) (userId secret code : string) : M Verification :=
  (* Verify the code first *)
  let! accepted := of_outcome (verifyTOTP nowMs secret code) in
  if negb accepted
  then ret {| valid := false; error := Some "Invalid verification code" |}
  else
    (* Store secret *)
    redis_set ("2fa:secret:" +:+ userId) secret;;
    (* Log the action *)
    auditLog_create
      {| al_userId := userId; al_action := "2FA_ENABLED"; al_resource := "user";
         al_resourceId := userId; al_details := [] |};;
    ret {| valid := true; error := None |}.

(** Disable 2FA for a user *)
Definition disableTwoFactor (nowMs : Z) (userId code : string) : M Verification :=
  let! secret := redis_get nowMs ("2fa:secret:" +:+ userId) in
  match secret with
  | None | Some EmptyString => ret {| valid := false; error := Some "2FA is not enabled" |}
  | Some secret =>
      (* Verify the code *)
      let! accepted := of_outcome (verifyTOTP nowMs secret code) in
      if negb accepted
      then ret {| valid := false; error := Some "Invalid verification code" |}
      else
        (* Remove secret and backup codes *)
        redis_del nowMs ["2fa:secret:" +:+ userId];;
        redis_del nowMs ["2fa:backup:" +:+ userId];;
        (* Log the action *)
        auditLog_create
          {| al_userId := userId; al_action := "2FA_DISABLED"; al_resource := "user";
             al_resourceId := userId; al_details := [] |};;
        ret {| valid := true; error := None |}
  end.

End TwoFactorStore.

(** Generate a temporary 2FA bypass token (for recovery); [rnd] is
    [crypto.randomBytes(32)]. *)
Definition generateBypassToken (nowMs : Z) (rnd : list ascii) (userId : string) : M string :=
  let token := hex rnd in
  (* Store with 15 minute expiration *)
  redis_set_ex nowMs ("2fa:bypass:" +:+ token) userId 900;;
  ret token.

(** Verify and consume a bypass token *)
Definition verifyBypassToken (nowMs : Z) (token : string) : M (option string) :=
  let! userId := redis_get nowMs ("2fa:bypass:" +:+ token) in
  match userId with
  | None | Some EmptyString => ret None
  | Some userId => redis_del nowMs ["2fa:bypass:" +:+ token];; ret (Some userId)
  end.

(** ** lib/security/token-rotation: bursts and scheduled rotation *)

(** Detect burst requests (many requests in short time) *)
Definition detectBurstRequests (nowMs : Z) (tokenId : string) (windowSeconds threshold : Z)
  : M bool :=
  let key := "burst:" +:+ tokenId in
  let! count := redis_incr nowMs key in
  (if count =? 1 then (redis_expire nowMs key windowSeconds;; ret tt) else ret tt);;
  ret (count >? threshold).

(** Successive calls of [detectBurstRequests] for one token. *)
Fixpoint detectBurstRequests_calls (times : list Z) (tokenId : string)
    (windowSeconds threshold : Z) : M (list bool) :=
  match times with
  | [] => ret []
  | t :: rest =>
      let! b := detectBurstRequests t tokenId windowSeconds threshold in
      let! bs := detectBurstRequests_calls rest tokenId windowSeconds threshold in
      ret (b :: bs)
  end.

Section ScheduledRotation.

(** [new Date(text).getTime()], [None] for an invalid date. *)
Variable parseDate : string -> option Z.

(** Schedule automatic rotation; [rotateAt] is the time value of the date
    (a valid one), [nowMs] the clock of the store at [EXPIREAT]. *)
Definition scheduleRotation (nowMs : Z) (tokenId : string) (rotateAt : Z) : M unit :=
  let scheduleKey := "rotation:scheduled:" +:+ tokenId in
  redis_set scheduleKey (toISOString rotateAt);;
  redis_expireat nowMs scheduleKey (rotateAt / 1000);;
  ret tt.

(** Check if token needs scheduled rotation.  [getTime] is the clock of the
    store when it answers [GET], [nowMs] the [new Date()] read after the
    answer has come. *)
Definition checkScheduledRotation (getTime nowMs : Z) (tokenId : string) : M bool :=
  let scheduleKey := "rotation:scheduled:" +:+ tokenId in
  let! scheduledTime := redis_get getTime scheduleKey in
  match scheduledTime with
  | None | Some EmptyString => ret false
  | Some scheduledTime =>
      match parseDate scheduledTime with
      | Some rotateAt => ret (nowMs >=? rotateAt)
      | None => ret false
      end
  end.

End ScheduledRotation.

(** ** app/api/user/2fa/disable *)

(** The body of the request as [request.json()] and the schema see it: no
    JSON, JSON whose [code] is missing or no string, or JSON with the text
    of [code]. *)
Inductive DisableBody : Type :=
  | BodyNotJson
  | BodyNoCode
  | BodyCode (code : string).

(** [disableSchema.parse(body)] with [code: z.string().min(6).max(10)];
    [None] is a ZodError. *)
Definition disableSchema_parse (body : DisableBody) : option string :=
  match body with
  | BodyCode code =>
      if (6 <=? js_length code)%nat && (js_length code <=? 10)%nat then Some code else None
  | _ => None
  end.

Section DisableRoute.
Context `{NodeCrypto}.

(** The message of the first issue of the ZodError for a body. *)
Variable zod_message : DisableBody -> string.

(** POST - Disable 2FA; [session] is [session?.user?.id]. *)
Definition disable_POST (nowMs : Z) (session : option string) (body : DisableBody)
  : M Response :=
  try_catch
    (match session with
     | None | Some EmptyString => ret (error_response 401 "Unauthorized")
     | Some userId =>
         match body with
         | BodyNotJson => throw (JsError "SyntaxError: Unexpected end of JSON input")
         | _ =>
             match disableSchema_parse body with
             | None => ret (error_response 400 (zod_message body))
             | Some code =>
                 let! result := disableTwoFactor nowMs userId code in
                 if negb (valid result)
                 then ret (json_response 400
                             match error result with
                             | Some e => [("error", json_string e)]
                             | None => []
                             end [])
                 else ret (json_response 200
                             [ ("message", json_string "2FA disabled successfully");
                               ("enabled", "false") ] [])
             end
         end
     end)
    (fun error => ret (error_response 500 "Failed to disable 2FA")).

End DisableRoute.

(** ** lib/crypto: passwords *)

Definition SALT_LENGTH : nat := 32.

(** Node's [unhex]: the value of a hexadecimal digit of either case. *)
Definition unhex (c : ascii) : option nat :=
  let n := nat_of_ascii c in
  if char_in "0" "9" c then Some (n - 48)%nat
  else if char_in "a" "f" c then Some (n - 87)%nat
  else if char_in "A" "F" c then Some (n - 55)%nat
  else None.

(** [Buffer.from(s, "hex")]: the bytes of the pairs of hexadecimal digits,
    up to the first pair that is not one; an odd last character is dropped. *)
Fixpoint hex_decode (s : string) : list ascii :=
  match s with
  | String a (String b rest) =>
      match unhex a, unhex b with
      | Some x, Some y => ascii_of_nat (16 * x + y) :: hex_decode rest
      | _, _ => []
      end
  | _ => []
  end.

Section Passwords.

(** [crypto.pbkdf2Sync(password, salt, iterations, keylen, "sha512")] *)
Variable pbkdf2_sha512 : list ascii -> list ascii -> Z -> nat -> list ascii.

(** Generates a secure password hash; [salt] is
    [crypto.randomBytes(SALT_LENGTH)]. *)
Definition hashPassword (salt : list ascii) (password : string) : string :=
  let hash := pbkdf2_sha512 (list_ascii_of_string password) salt ITERATIONS KEY_LENGTH in
  hex salt +:+ ":" +:+ hex hash.

(** Verifies a password against a hash *)
Definition verifyPassword (password storedHash : string) : outcome bool :=
  match split_on ":" storedHash with
  | String s0 s :: String h0 h :: _ =>
      let salt := hex_decode (String s0 s) in
      let hash := hex_decode (String h0 h) in
      let inputHash :=
        pbkdf2_sha512 (list_ascii_of_string password) salt ITERATIONS KEY_LENGTH in
      timingSafeEqual hash inputHash
  | _ => Ok false
  end.

End Passwords.

(** ** lib/security/two-factor: base32Encode *)

Definition base32_alphabet : list ascii :=
  list_ascii_of_string "ABCDEFGHIJKLMNOPQRSTUVWXYZ234567".

(** [alphabet[i]] *)
Definition base32_char (i : Z) : ascii := nth (Z.to_nat i) base32_alphabet "?"%char.

(** The loop [while (bits >= 5)]: the characters it appends and the [bits]
    it leaves.  It runs [bits / 5] times, so [bits] rounds are enough. *)
Fixpoint base32_emit (fuel : nat) (bits value : Z) : string * Z :=
  match fuel with
  | O => (EmptyString, bits)
  | S fuel' =>
      if bits >=? 5
      then
        let c := base32_char (Z.land (Z.shiftr (to_uint32 value) (bits - 5)) 31) in
        let '(cs, bits') := base32_emit fuel' (bits - 5) value in
        (String c cs, bits')
      else (EmptyString, bits)
  end.

(** The loop [for (const byte of buffer)] over the bytes still to come,
    followed by the last, partial group. *)
Fixpoint base32_encode_loop (buffer : list ascii) (bits value : Z) : string :=
  match buffer with
  | [] =>
      if bits >? 0
      then String (base32_char (Z.land (to_int32 (Z.shiftl value (5 - bits))) 31)) EmptyString
      else EmptyString
  | byte :: rest =>
      let value := to_int32 (Z.lor (to_int32 (Z.shiftl value 8)) (Z.of_nat (nat_of_ascii byte))) in
      let bits := bits + 8 in
      let '(cs, bits') := base32_emit (Z.to_nat bits) bits value in
      cs +:+ base32_encode_loop rest bits' value
  end.

(** Base32 encoding (RFC 4648) *)
Definition base32Encode (buffer : list ascii) : string := base32_encode_loop buffer 0 0.

(** The byte that is split between the two loops when the encoder holds
    [be] bits that it has not written yet: its upper bits are the
    [8 - be] bits the decoder is holding, its lower bits the encoder's. *)
Definition pending_ok (be ve vd : Z) (last : ascii) : Prop :=
  let B := Z.of_nat (nat_of_ascii last) in
  vd mod 2 ^ (8 - be) = B / 2 ^ be /\ ve mod 2 ^ be = B mod 2 ^ be.

(** A character the cleaning step of [base32Decode] leaves as it is. *)
Definition base32_clean (c : ascii) : Prop :=
  is_base32_char c = true /\ to_upper_char c = c.

(** ** lib/redis: cache and session helpers *)

Section Cache.

(** The values that are cached, with [JSON.stringify] and [JSON.parse]
    (which throws a SyntaxError on text that is no JSON). *)
Variable J : Type.
Variable stringify : J -> string.
Variable parse : string -> outcome J.

Definition getCache (nowMs : Z) (key : string) : M (option J) :=
  try_catch
    (let! data := redis_get nowMs key in
     match data with
     | None | Some EmptyString => ret None
     | Some data => let! value := of_outcome (parse data) in ret (Some value)
     end)
    (fun error => ret None).

Definition setCache (nowMs : Z) (key : string) (value : J) (ttlSeconds : Z) : M unit :=
  try_catch (redis_set_ex nowMs key (stringify value) ttlSeconds) (fun error => ret tt).

Definition deleteCache (nowMs : Z) (key : string) : M unit :=
  try_catch (redis_del nowMs [key];; ret tt) (fun error => ret tt).

(** Session helpers *)
Definition setSession (nowMs : Z) (sessionId : string) (data : J) (ttlSeconds : Z) : M unit :=
  setCache nowMs ("session:" +:+ sessionId) data ttlSeconds.

Definition getSession (nowMs : Z) (sessionId : string) : M (option J) :=
  getCache nowMs ("session:" +:+ sessionId).

Definition deleteSession (nowMs : Z) (sessionId : string) : M unit :=
  deleteCache nowMs ("session:" +:+ sessionId).

End Cache.

(* ===================================================================== *)
(** * Part II: properties                                                  *)
(* ===================================================================== *)

Example toString_ex : toString 1700000000 = "1700000000" /\ toString (-5) = "-5" /\ toString 0 = "0".
Proof. vm_compute. auto. Qed.

Example parseInt_ex : parseInt " 42abc" = Some 42 /\ parseInt "x" = None /\ parseInt "-7" = Some (-7).
Proof. vm_compute. auto. Qed.

Example base64_ex :
  string_of_list_ascii (base64_encode (list_ascii_of_string "A")) = "QQ=="
  /\ base64_decode (list_ascii_of_string "QR==") = list_ascii_of_string "A"
  /\ string_of_list_ascii (base64_encode (list_ascii_of_string "hello!")) = "aGVsbG8h"
  /\ hex (list_ascii_of_string "Az") = "417a".
Proof. vm_compute. auto. Qed.

(** ** Base64 *)

Lemma unbase64_b64char b0 b1 b2 b3 b4 b5 :
  unbase64 (b64char base64_alphabet (Ascii b0 b1 b2 b3 b4 b5 false false))
  = Some (Ascii b0 b1 b2 b3 b4 b5 false false).
Proof. destruct b0, b1, b2, b3, b4, b5; reflexivity. Qed.

Lemma unbase64_pad : unbase64 "="%char = None.
Proof. reflexivity. Qed.

Lemma base64_decode_group x y z rest :
  base64_decode_from G0
    (b64char base64_alphabet (sextet1 x) :: b64char base64_alphabet (sextet2 x y)
     :: b64char base64_alphabet (sextet3 y z) :: b64char base64_alphabet (sextet4 z) :: rest)
  = x :: y :: z :: base64_decode_from G0 rest.
Proof.
  destruct x as [x0 x1 x2 x3 x4 x5 x6 x7], y as [y0 y1 y2 y3 y4 y5 y6 y7],
    z as [z0 z1 z2 z3 z4 z5 z6 z7].
  unfold sextet1, sextet2, sextet3, sextet4.
  cbn [base64_decode_from]. rewrite !unbase64_b64char. reflexivity.
Qed.

Lemma base64_decode_encode bs : base64_decode (base64_encode bs) = bs.
Proof.
  unfold base64_decode.
  induction bs as [bs IH] using (induction_ltof1 _ (@length ascii)); unfold ltof in IH.
  destruct bs as [|x [|y [|z rest]]].
  - reflexivity.
  - destruct x as [x0 x1 x2 x3 x4 x5 x6 x7].
    cbn [base64_encode base64_decode_from sextet1 sextet2 byte_zero].
    rewrite !unbase64_b64char, unbase64_pad. reflexivity.
  - destruct x as [x0 x1 x2 x3 x4 x5 x6 x7], y as [y0 y1 y2 y3 y4 y5 y6 y7].
    cbn [base64_encode base64_decode_from sextet1 sextet2 sextet3 byte_zero].
    rewrite !unbase64_b64char, unbase64_pad. reflexivity.
  - cbn [base64_encode]. rewrite base64_decode_group. f_equal. f_equal. f_equal.
    apply IH. cbn [length]. lia.
Qed.

(** ** Token scopes *)

Example hasRequiredScope_ex :
  allowed (hasRequiredScope ["chat:write"] "/v1/chat/completions?stream=1" "POST") = true
  /\ allowed (hasRequiredScope ["chat:read"] "/v1/chat/completions" "POST") = false
  /\ allowed (hasRequiredScope [] "/v2/unknown" "GET") = true
  /\ allowed (hasRequiredScope ["*"] "v1/files/abc" "GET") = true
  /\ normalizeEndpoint "/v1/models?limit=3" = "v1/models".
Proof. vm_compute. auto. Qed.

Lemma startsWith_includes s pat : startsWith s pat = true -> includes s pat = true.
Proof. unfold startsWith. destruct s; cbn; intros ->; reflexivity. Qed.

Lemma matches_pattern s pat : startsWith s pat || includes s pat = includes s pat.
Proof.
  destruct (startsWith s pat) eqn:E; [|reflexivity].
  cbn. symmetry. by apply startsWith_includes.
Qed.

(** With no empty scope list in the table, the lookup comes back empty
    exactly when no pattern occurs in the endpoint. *)
Lemma findRequiredScopes_nil table n :
  Forall (fun e => e.2 <> []) table ->
  findRequiredScopes table n = [] <-> Forall (fun e => includes n e.1 = false) table.
Proof.
  induction 1 as [|[p sc] rest Hne Hrest IH]; cbn.
  - split; auto.
  - rewrite matches_pattern. destruct (includes n p) eqn:E.
    + split; [intros ->; by cbn in Hne|]. intros HF. inversion HF; subst. cbn in *. congruence.
    + rewrite IH. split; [by constructor|]. intros HF. by inversion HF.
Qed.

(** The lookup returns the entry of the first pattern that occurs. *)
Lemma findRequiredScopes_first table n before p sc after :
  table = before ++ (p, sc) :: after ->
  Forall (fun e => includes n e.1 = false) before ->
  includes n p = true ->
  findRequiredScopes table n = sc.
Proof.
  intros -> HF Hp. induction HF as [|[q sq] rest Hq _ IH]; cbn.
  - by rewrite matches_pattern, Hp.
  - rewrite matches_pattern. cbn in Hq. by rewrite Hq.
Qed.

Lemma EndpointScopes_nonempty : Forall (fun e => e.2 <> []) EndpointScopes.
Proof. unfold EndpointScopes. repeat constructor; discriminate. Qed.

Lemma normalizeEndpoint_no_query endpoint :
  includes (normalizeEndpoint endpoint) "?" = false.
Proof.
  unfold normalizeEndpoint. generalize (strip_leading_slash endpoint) as s.
  induction s as [|c s IH]; [reflexivity|].
  cbn [split_head]. destruct (Ascii.eqb c "?") eqn:E; [reflexivity|].
  cbn [includes String.prefix]. rewrite IH.
  destruct (ascii_dec "?" c) as [<-|]; [|reflexivity]. by rewrite Ascii.eqb_refl in E.
Qed.

Lemma split_head_prefix sep s : String.prefix (split_head sep s) s = true.
Proof.
  induction s as [|c s IH]; [done|]. cbn [split_head].
  destruct (Ascii.eqb c sep); [done|]. cbn [String.prefix].
  by destruct (ascii_dec c c).
Qed.

(** [startsWith] and [includes] say that the pattern is at the head of the
    text, or somewhere in it. *)
Lemma startsWith_spec s pat : startsWith s pat = true <-> exists b, s = pat +:+ b.
Proof.
  unfold startsWith. revert s. induction pat as [|c pat IH]; intros s.
  - split; [intros _; by exists s|intros _; by destruct s].
  - destruct s as [|d s]; cbn [String.prefix].
    + split; [done|intros [b Hb]; discriminate].
    + destruct (ascii_dec c d) as [->|Hne].
      * rewrite IH. split; intros [b Hb]; exists b.
        -- by rewrite Hb.
        -- by injection Hb.
      * split; [done|]. intros [b Hb]. injection Hb as Hc _. congruence.
Qed.

Lemma includes_spec s pat : includes s pat = true <-> exists a b, s = a +:+ pat +:+ b.
Proof.
  induction s as [|c s IH]; cbn [includes].
  - rewrite orb_false_r. change (String.prefix pat "") with (startsWith "" pat).
    rewrite startsWith_spec. split.
    + intros [b Hb]. by exists "", b.
    + intros ([|c a] & b & Hab); [by exists b|discriminate].
  - rewrite orb_true_iff, IH. change (String.prefix pat (String c s)) with
      (startsWith (String c s) pat). rewrite startsWith_spec. split.
    + intros [[b Hb]|(a & b & Hab)].
      * by exists "", b.
      * exists (String c a), b. by rewrite Hab.
    + intros ([|d a] & b & Hab).
      * left. by exists b.
      * right. injection Hab as _ Hab. by exists a, b.
Qed.

(** The text before the first [?]: what [split("?")[0]] leaves of a text
    that goes on, if at all, with a [?]. *)
Lemma split_head_app p query :
  includes p "?" = false ->
  query = "" \/ startsWith query "?" = true ->
  split_head "?" (p +:+ query) = p.
Proof.
  intros Hp Hq. induction p as [|c p IH].
  - change ("" +:+ query) with query.
    destruct Hq as [->|Hq]; [done|]. apply startsWith_spec in Hq as [b ->]. done.
  - cbn [includes String.prefix] in Hp. apply orb_false_elim in Hp as [Hc Hp].
    change (String c p +:+ query) with (String c (p +:+ query)). cbn [split_head].
    destruct (Ascii.eqb_spec c "?") as [->|Hne]; [by destruct p|]. by rewrite IH.
Qed.

Lemma split_head_rest s :
  exists query, s = split_head "?" s +:+ query
                /\ (query = "" \/ startsWith query "?" = true).
Proof.
  induction s as [|c s (query & Hs & Hq)]; [exists ""; auto|]. cbn [split_head].
  destruct (Ascii.eqb_spec c "?") as [->|Hne].
  - exists (String "?" s). split; [done|]. right. apply startsWith_spec. by exists s.
  - exists query. split; [|done].
    change (String c (split_head "?" s) +:+ query)
      with (String c (split_head "?" s +:+ query)). by rewrite <- Hs.
Qed.

(** One leading slash is removed, and with it the text from the first [?]. *)
Lemma normalizeEndpoint_parts (slash : bool) p query :
  includes p "?" = false ->
  (slash = false -> startsWith p "/" = false) ->
  query = "" \/ startsWith query "?" = true ->
  normalizeEndpoint ((if slash then "/" else "") +:+ p +:+ query) = p.
Proof.
  intros Hp Hslash Hq. unfold normalizeEndpoint. destruct slash.
  - change ("/" +:+ p +:+ query) with (String "/" (p +:+ query)).
    cbn [strip_leading_slash]. by apply split_head_app.
  - change ("" +:+ p +:+ query) with (p +:+ query).
    assert (strip_leading_slash (p +:+ query) = p +:+ query) as ->;
      [|by apply split_head_app].
    specialize (Hslash eq_refl). destruct p as [|c p].
    + change ("" +:+ query) with query.
      destruct Hq as [->|Hq]; [done|]. apply startsWith_spec in Hq as [b ->]. done.
    + change (String c p +:+ query) with (String c (p +:+ query)).
      cbn [strip_leading_slash]. unfold startsWith in Hslash. cbn in Hslash.
      destruct (ascii_dec "/" c) as [<-|Hne]; [by destruct p|].
      destruct c as [[] [] [] [] [] [] [] []]; try reflexivity. by destruct Hne.
Qed.

(** Every endpoint is an optional slash, a text without [?], and nothing
    more or a query that starts with [?]. *)
Lemma normalizeEndpoint_decompose endpoint :
  exists (slash : bool) query,
    endpoint = (if slash then "/" else "") +:+ normalizeEndpoint endpoint +:+ query
    /\ includes (normalizeEndpoint endpoint) "?" = false
    /\ (slash = false -> startsWith (normalizeEndpoint endpoint) "/" = false)
    /\ (query = "" \/ startsWith query "?" = true).
Proof.
  unfold normalizeEndpoint.
  destruct (split_head_rest (strip_leading_slash endpoint)) as (query & Hs & Hq).
  pose proof (normalizeEndpoint_no_query endpoint) as Hno. unfold normalizeEndpoint in Hno.
  destruct endpoint as [|c e].
  { exists false, query. cbn in *. done. }
  destruct (ascii_dec c "/") as [->|Hne].
  - exists true, query. cbn [strip_leading_slash] in *.
    change ("/" +:+ split_head "?" e +:+ query) with (String "/" (split_head "?" e +:+ query)).
    rewrite <- Hs. done.
  - assert (strip_leading_slash (String c e) = String c e) as Hstrip.
    { destruct c as [[] [] [] [] [] [] [] []]; try reflexivity. by destruct Hne. }
    rewrite Hstrip in *. exists false, query.
    change ("" +:+ split_head "?" (String c e) +:+ query)
      with (split_head "?" (String c e) +:+ query).
    split; [done|]. split; [done|]. split; [|done]. intros _.
    unfold startsWith. cbn [split_head].
    destruct (Ascii.eqb c "?"); [done|]. cbn [String.prefix].
    destruct (ascii_dec "/" c) as [<-|]; [congruence|reflexivity].
Qed.

(** The loop is a search for the first entry whose pattern occurs. *)
Lemma findRequiredScopes_find table n :
  findRequiredScopes table n
  = match List.find (fun e => includes n e.1) table with
    | Some e => e.2
    | None => []
    end.
Proof.
  induction table as [|[pat sc] rest IH]; [done|]. cbn [findRequiredScopes List.find fst].
  rewrite matches_pattern. by destruct (includes n pat).
Qed.

(** C8. For every scope list and path, [hasRequiredScope] normalizes the
    path and looks it up in [EndpointScopes].  The normalized path is the
    path without one leading slash and without the text from the first [?]
    on: the path is an optional slash, the normalized path, and a query that
    is empty or starts with [?]; and for every way of writing the path as a
    slash or none, a text [p] without [?], and such a query, the normalized
    path is [p].  The lookup gives the scopes of the first entry, in the
    order of the table, whose pattern occurs somewhere in the normalized
    path, and no scope when there is none; these are the required scopes
    reported.  The call is allowed exactly when the lookup gives no required
    scope, or the token holds the wildcard, or it holds one of the required
    scopes; and the lookup gives no required scope exactly when no pattern
    of the table occurs in the normalized path. *)
Theorem hasRequiredScope_correct (tokenScopes : list string) (endpoint method : string) :
  let normalized := normalizeEndpoint endpoint in
  let required := match List.find (fun e => includes normalized e.1) EndpointScopes with
                  | Some e => e.2
                  | None => []
                  end in
  (exists (slash : bool) query,
     endpoint = (if slash then "/" else "") +:+ normalized +:+ query
     /\ includes normalized "?" = false
     /\ (slash = false -> startsWith normalized "/" = false)
     /\ (query = "" \/ startsWith query "?" = true))
  /\ (forall (slash : bool) p query,
        endpoint = (if slash then "/" else "") +:+ p +:+ query ->
        includes p "?" = false ->
        (slash = false -> startsWith p "/" = false) ->
        query = "" \/ startsWith query "?" = true ->
        normalized = p)
  /\ (forall pat, includes normalized pat = true <-> exists a b, normalized = a +:+ pat +:+ b)
  /\ findRequiredScopes EndpointScopes normalized = required
  /\ requiredScopes (hasRequiredScope tokenScopes endpoint method) = required
  /\ (allowed (hasRequiredScope tokenScopes endpoint method) = true <->
      required = []
      \/ "*" ∈ tokenScopes
      \/ exists s, s ∈ required /\ scope_value s ∈ tokenScopes)
  /\ (required = [] <->
      Forall (fun e => includes normalized e.1 = false) EndpointScopes).
Proof.
  intros normalized required.
  assert (findRequiredScopes EndpointScopes normalized = required) as Hreq
    by apply findRequiredScopes_find.
  split; [apply normalizeEndpoint_decompose|].
  split; [intros slash p query -> Hp Hs Hq; by apply normalizeEndpoint_parts|].
  split; [intros pat; apply includes_spec|]. split; [exact Hreq|].
  clearbody required. subst required. split; [|split].
  - unfold hasRequiredScope. fold normalized.
    destruct (findRequiredScopes EndpointScopes normalized) as [|r0 rs]; [done|].
    cbn [length Nat.eqb]. by destruct (arr_includes tokenScopes (scope_value ALL)).
  - unfold hasRequiredScope. fold normalized.
    destruct (findRequiredScopes EndpointScopes normalized) as [|r0 rs] eqn:Hfind;
      cbn [length Nat.eqb allowed].
    { split; auto. }
    unfold arr_includes. cbn [scope_value].
    destruct (bool_decide ("*" ∈ tokenScopes)) eqn:Hw; cbn [allowed].
    { apply bool_decide_eq_true in Hw. split; auto. }
    apply bool_decide_eq_false in Hw.
    rewrite existsb_exists. split.
    + intros (s & Hin & Hs). right; right. exists s.
      apply bool_decide_eq_true in Hs. split; [by apply list_elem_of_In|done].
    + intros [Hnil|[Hwild|(s & Hin & Hs)]]; [discriminate|contradiction|].
      exists s. split; [by apply list_elem_of_In|by apply bool_decide_eq_true].
  - apply findRequiredScopes_nil, EndpointScopes_nonempty.
Qed.

(** The path of a chat call with a query: the slash and the query go, the
    first entry of the table is found, and a token with [chat:write] may
    call it while a token with [chat:read] may not. *)
Lemma hasRequiredScope_correct_witness :
  normalizeEndpoint "/v1/chat/completions?stream=1" = "v1/chat/completions"
  /\ requiredScopes (hasRequiredScope ["chat:write"] "/v1/chat/completions?stream=1" "POST")
     = [CHAT_WRITE; ALL]
  /\ allowed (hasRequiredScope ["chat:write"] "/v1/chat/completions?stream=1" "POST") = true
  /\ allowed (hasRequiredScope ["chat:read"] "/v1/chat/completions?stream=1" "POST") <> true.
Proof.
  destruct (hasRequiredScope_correct ["chat:write"] "/v1/chat/completions?stream=1" "POST")
    as (_ & Hnorm & _ & _ & Hreq & Hallowed & _).
  pose proof (Hnorm true "v1/chat/completions" "?stream=1" eq_refl eq_refl
                ltac:(discriminate) (or_intror eq_refl)) as Hn.
  split; [exact Hn|]. rewrite Hn in Hreq, Hallowed. split; [exact Hreq|]. split.
  - apply Hallowed. right; right. exists CHAT_WRITE. split; [left|left].
  - vm_compute. discriminate.
Defined.

(** ** Request signing and TOTP *)

Example base32Decode_ex :
  base32Decode "JBSWY3DPEHPK3PXP" = list_ascii_of_string ("Hello!" +:+ String "222" (String "173" (String "190" (String "239" "")))).
Proof. vm_compute. reflexivity. Qed.

Example int64_be_ex : hex (int64_be 59) = "000000000000003b".
Proof. vm_compute. reflexivity. Qed.

Lemma length_list_ascii_of_string s : length (list_ascii_of_string s) = String.length s.
Proof. induction s as [|c s IH]; cbn; congruence. Qed.

Lemma string_length_of_list l : String.length (string_of_list_ascii l) = length l.
Proof. induction l as [|c l IH]; [done|]. simpl. by rewrite IH. Qed.

Lemma string_length_app s t : String.length (s +:+ t) = (String.length s + String.length t)%nat.
Proof. induction s as [|c s IH]; [done|]. simpl. by rewrite IH. Qed.

Lemma hex_length bs : String.length (hex bs) = (2 * length bs)%nat.
Proof. induction bs as [|b bs IH]; cbn [hex String.length length]; lia. Qed.

Lemma digits_fuel_length fuel : forall (k : nat) n acc,
  (1 <= k)%nat -> 0 <= n < 10 ^ Z.of_nat k ->
  (String.length (digits_fuel fuel n acc) <= k + String.length acc)%nat.
Proof.
  induction fuel as [|f IH]; intros k n acc Hk Hn; cbn [digits_fuel].
  - lia.
  - destruct (n / 10 =? 0) eqn:E.
    + cbn [String.length]. lia.
    + apply Z.eqb_neq in E.
      destruct k as [|[|k]]; [lia| |].
      * exfalso. apply E. apply Z.div_small. change (10 ^ Z.of_nat 1) with 10 in Hn. lia.
      * specialize (IH (S k) (n / 10) (String (digit_char (n mod 10)) acc)).
        cbn [String.length] in IH.
        assert (0 <= n / 10 < 10 ^ Z.of_nat (S k)).
        { replace (Z.of_nat (S (S k))) with (Z.succ (Z.of_nat (S k))) in Hn by lia.
          rewrite Z.pow_succ_r in Hn by lia.
          split; [apply Z.div_pos; lia|apply Z.div_lt_upper_bound; lia]. }
        specialize (IH ltac:(lia) ltac:(assumption)). lia.
Qed.

Lemma toString_length_bound (k : nat) n :
  (1 <= k)%nat -> 0 <= n < 10 ^ Z.of_nat k -> (String.length (toString n) <= k)%nat.
Proof.
  intros Hk Hn. unfold toString.
  destruct (n <? 0) eqn:E; [apply Z.ltb_lt in E; lia|].
  pose proof (digits_fuel_length (S (Z.to_nat (Z.log2 n))) k n "" Hk Hn) as Hlen.
  cbn [String.length] in Hlen. lia.
Qed.

Lemma padStart_length n c s :
  (String.length s <= n)%nat -> String.length (padStart n c s) = n.
Proof.
  intros Hs. unfold padStart.
  rewrite string_length_app, string_length_of_list, length_replicate. lia.
Qed.

Section SigningFacts.
Context `{NodeCrypto}.

(** The expected signature is the hex text of a 32-byte digest. *)
Lemma generateSignature_length payload secret :
  String.length (generateSignature payload secret) = 64%nat.
Proof. unfold generateSignature. rewrite hex_length, hmac_sha256_length. reflexivity. Qed.

(** The expected TOTP code always has [TOTP_DIGITS] characters. *)
Lemma generateTOTP_length secret timeStep :
  String.length (generateTOTP secret timeStep) = 6%nat.
Proof.
  unfold generateTOTP. apply padStart_length.
  apply toString_length_bound; [unfold TOTP_DIGITS; lia|].
  apply Z.rem_bound_pos; [|unfold TOTP_DIGITS; lia].
  repeat (apply Z.lor_nonneg; split);
    try apply Z.shiftl_nonneg; apply Z.land_nonneg; right; lia.
Qed.

Lemma cleanOldNonces_lookup nowMs cache k ts :
  cache !! k = Some ts -> unix_seconds nowMs - 600 <= ts ->
  cleanOldNonces nowMs cache !! k = Some ts.
Proof.
  intros Hk Hts. unfold cleanOldNonces.
  apply map_lookup_filter_Some. split; [done|].
  cbn. unfold SIGNATURE_VALIDITY_SECONDS. lia.
Qed.

(** A call leaves an entry in place as long as the entry is not older than
    the cleanup cutoff of that call. *)
Lemma verifySignature_keeps cache nowMs headers method path body tokenId secret k ts :
  cache !! k = Some ts -> unix_seconds nowMs - 600 <= ts ->
  (verifySignature cache nowMs headers method path body tokenId secret).2 !! k = Some ts.
Proof.
  intros Hk Hts. unfold verifySignature.
  destruct (parseInt (timestamp headers)) as [t|]; [|done].
  destruct (Z.abs _ >? _); [done|].
  case_bool_decide as Hseen; [done|].
  assert (tokenId +:+ ":" +:+ nonce headers <> k) as Hne.
  { intros Heq. subst k. apply Hseen. by rewrite Hk. }
  assert (cleanOldNonces nowMs (<[tokenId +:+ ":" +:+ nonce headers:=t]> cache) !! k = Some ts).
  { apply cleanOldNonces_lookup; [|done]. by rewrite lookup_insert_ne. }
  destruct (timingSafeEqual _ _) as [[|]|]; done.
Qed.

Lemma run_calls_keeps calls : forall cache k ts,
  cache !! k = Some ts ->
  Forall (fun c => unix_seconds (vc_now c) - 600 <= ts) calls ->
  run_calls cache calls !! k = Some ts.
Proof.
  induction calls as [|c calls IH]; intros cache k ts Hk HF; [done|].
  inversion HF; subst. cbn. apply IH; [|done].
  by apply verifySignature_keeps.
Qed.

(** A call whose time stamp is fresh and whose nonce is in the cache is
    answered with the replay error, whatever signature it carries. *)
Lemma verifySignature_replay cache nowMs headers method path body tokenId secret t ts :
  parseInt (timestamp headers) = Some t ->
  Z.abs (unix_seconds nowMs - t) <= 300 ->
  cache !! (tokenId +:+ ":" +:+ nonce headers) = Some ts ->
  verifySignature cache nowMs headers method path body tokenId secret
  = (Ok {| valid := false; error := Some "Nonce already used (replay attack detected)" |},
     cache).
Proof.
  intros Ht Hfresh Hk. unfold verifySignature. rewrite Ht.
  unfold SIGNATURE_VALIDITY_SECONDS.
  destruct (Z.abs _ >? 300) eqn:E; [apply Z.gtb_lt in E; lia|].
  rewrite Hk. by rewrite bool_decide_eq_true_2.
Qed.

(** When a call gets as far as the comparison, its nonce is in the cache it
    leaves, with the time stamp of the request. *)
Lemma verifySignature_compared cache nowMs headers method path body tokenId secret r cache' :
  verifySignature cache nowMs headers method path body tokenId secret = (r, cache') ->
  r = Ok {| valid := false; error := Some "Invalid signature" |}
  \/ r = Ok {| valid := true; error := None |} \/ (exists m, r = Throw (RangeError m)) ->
  exists ts, parseInt (timestamp headers) = Some ts
    /\ Z.abs (unix_seconds nowMs - ts) <= 300
    /\ cache !! (tokenId +:+ ":" +:+ nonce headers) = None
    /\ cache' !! (tokenId +:+ ":" +:+ nonce headers) = Some ts.
Proof.
  unfold verifySignature.
  destruct (parseInt (timestamp headers)) as [t|];
    [|intros [= <- <-] [?|[?|[? ?]]]; discriminate].
  unfold SIGNATURE_VALIDITY_SECONDS.
  destruct (Z.abs _ >? 300) eqn:E;
    [intros [= <- <-] [?|[?|[? ?]]]; discriminate|].
  case_bool_decide as Hseen; [intros [= <- <-] [?|[?|[? ?]]]; discriminate|].
  intros Heq _. exists t. split; [done|].
  assert (Z.abs (unix_seconds nowMs - t) <= 300) as Hfresh.
  { destruct (Z.gtb_spec (Z.abs (unix_seconds nowMs - t)) 300); [discriminate|lia]. }
  split; [done|]. split.
  { destruct (cache !! _) eqn:E'; [|done]. exfalso. apply Hseen. eauto. }
  assert (cache' = cleanOldNonces nowMs (<[tokenId +:+ ":" +:+ nonce headers:=t]> cache)) as ->.
  { destruct (timingSafeEqual _ _) as [[|]|]; by inversion Heq. }
  apply cleanOldNonces_lookup; [by rewrite lookup_insert_eq|lia].
Qed.

End SigningFacts.

Section SigningClaims.
Context `{NodeCrypto}.


(** C10. The supplied signature and the expected 64-character hex digest go
    to [timingSafeEqual] as they are: with a signature whose byte length is
    not 64, [verifySignature] never answers "Invalid signature" (nor
    accepts), and whenever it gets as far as the comparison (fresh time
    stamp, unseen nonce) it throws.  [verifyTOTP] throws for every code
    whose byte length is not 6. *)
Theorem length_mismatch_throws :
  (forall (cache : gmap string Z) nowMs headers method path body tokenId secret,
     String.length (signature headers) <> 64%nat ->
     let r := verifySignature cache nowMs headers method path body tokenId secret in
     r.1 <> Ok {| valid := false; error := Some "Invalid signature" |}
     /\ r.1 <> Ok {| valid := true; error := None |}
     /\ (forall ts, parseInt (timestamp headers) = Some ts ->
           Z.abs (unix_seconds nowMs - ts) <= 300 ->
           cache !! (tokenId +:+ ":" +:+ nonce headers) = None ->
           r.1 = Throw (RangeError "Input buffers must have the same byte length")))
  /\ (forall nowMs secret code,
        String.length code <> 6%nat ->
        verifyTOTP nowMs secret code
        = Throw (RangeError "Input buffers must have the same byte length")).
Proof.
  split.
  - intros cache nowMs headers method path body tokenId secret Hlen r. subst r.
    unfold verifySignature.
    destruct (parseInt (timestamp headers)) as [t|]; cbn [fst];
      [|repeat split; [discriminate..|intros; discriminate]].
    unfold SIGNATURE_VALIDITY_SECONDS.
    destruct (Z.gtb_spec (Z.abs (unix_seconds nowMs - t)) 300); cbn [fst].
    { repeat split; [discriminate..|intros ts [= <-]; lia]. }
    case_bool_decide as Hseen; cbn [fst].
    { repeat split; [discriminate..|]. intros ts _ _ Hnone. destruct Hseen as [x Hx]. congruence. }
    unfold timingSafeEqual.
    rewrite !length_list_ascii_of_string, generateSignature_length.
    destruct (Nat.eqb_spec (String.length (signature headers)) 64); [contradiction|].
    cbn [fst]. repeat split; [discriminate..|done].
  - intros nowMs secret code Hlen. unfold verifyTOTP. cbn [verifyTOTP_loop].
    unfold timingSafeEqual.
    rewrite !length_list_ascii_of_string, generateTOTP_length.
    by destruct (Nat.eqb_spec (String.length code) 6).
Qed.

End SigningClaims.

Definition bad_signature_headers : SignatureHeaders :=
  {| timestamp := "1000";
     signature := "ffffffffffffffffffffffffffffffffffffffffffffffffffffffffffffffff";
     nonce := "n1" |}.

Definition good_signature_headers : SignatureHeaders :=
  {| timestamp := "1000";
     signature := generateSignature (H := toy_crypto)
                    {| sp_timestamp := 1000; sp_nonce := "n1"; sp_method := "POST";
                       sp_path := "/v1/x"; sp_body := None; sp_tokenId := "tok" |} "s";
     nonce := "n1" |}.



(** The retry with the signature [generateSignature] computes for the very
    same request is rejected as a replay; once a later call has run the
    cleanup past the cutoff, the pair is accepted again. *)
Example correct_signature_after_failed_attempt :
  let good := {| timestamp := "1000";
                 signature := generateSignature (H := toy_crypto)
                   {| sp_timestamp := 1000; sp_nonce := "n1"; sp_method := "POST";
                      sp_path := "/v1/x"; sp_body := None; sp_tokenId := "tok" |} "s";
                 nonce := "n1" |} in
  (verifySignature (H := toy_crypto) ∅ 1000000 good "POST" "/v1/x" None "tok" "s").1
  = Ok {| valid := true; error := None |}
  /\ (verifySignature (H := toy_crypto) {["tok:n1" := 1000]} 1000000 good
        "POST" "/v1/x" None "tok" "s").1
     = Ok {| valid := false; error := Some "Nonce already used (replay attack detected)" |}
  /\ cleanOldNonces 1601000 {["tok:n1" := 1000]} = ∅.
Proof. vm_compute. auto. Qed.

Lemma length_mismatch_throws_witness :
  (verifySignature (H := toy_crypto) ∅ 1000000
     {| timestamp := "1000"; signature := "abc"; nonce := "n1" |}
     "POST" "/v1/x" None "tok" "s").1
  = Throw (RangeError "Input buffers must have the same byte length")
  /\ verifyTOTP (H := toy_crypto) 1000000 "JBSWY3DPEHPK3PXP" "12345"
     = Throw (RangeError "Input buffers must have the same byte length").
Proof.
  destruct (length_mismatch_throws (H := toy_crypto)) as [Hsig Htotp]. split.
  - apply (Hsig ∅ 1000000 {| timestamp := "1000"; signature := "abc"; nonce := "n1" |}
             "POST" "/v1/x" None "tok" "s") with (ts := 1000);
      [vm_compute; discriminate|vm_compute; reflexivity|vm_compute; discriminate|reflexivity].
  - apply Htotp. vm_compute. discriminate.
Defined.

(** ** The rate limiter *)

Lemma rlookup_rwrite_same nowMs r k v :
  rlookup nowMs (rwrite r k v (kept_deadline nowMs r k)) k = Some v.
Proof.
  unfold rlookup, expired, rwrite, kept_deadline; cbn.
  unfold expired. destruct (rexpiry r !! k) as [d|] eqn:E.
  - destruct (d <=? nowMs) eqn:Ed.
    + by rewrite lookup_delete_eq, lookup_insert_eq.
    + by rewrite lookup_insert_eq, Ed, lookup_insert_eq.
  - by rewrite lookup_delete_eq, lookup_insert_eq.
Qed.

Lemma redis_incr_ok w nowMs k c0 :
  rup (redis w) = true ->
  counter_at nowMs (redis w) k = Some c0 ->
  redis_incr nowMs k w
  = (Ok (c0 + 1),
     {| db := db w;
        redis := rwrite (redis w) k (RInt (c0 + 1)) (kept_deadline nowMs (redis w) k) |}).
Proof.
  intros Hup Hc. unfold redis_incr, redis_cmd. rewrite Hup.
  unfold counter_at in Hc.
  destruct (rlookup nowMs (redis w) k) as [[n|s|l]|]; simplify_eq; try done.
  by rewrite Hc.
Qed.

Lemma redis_down {A} (f : redis_state -> outcome A * redis_state) w :
  rup (redis w) = false -> redis_cmd f w = (Throw RedisError, w).
Proof. intros Hdown. unfold redis_cmd. by rewrite Hdown. Qed.

Lemma checkRateLimit_up w nowMs key limit windowSeconds c0 :
  rup (redis w) = true ->
  counter_at nowMs (redis w) (windowKey key (unix_seconds nowMs) windowSeconds) = Some c0 ->
  let K := windowKey key (unix_seconds nowMs) windowSeconds in
  checkRateLimit nowMs key limit windowSeconds w
  = (Ok {| rl_allowed := c0 + 1 <=? limit;
           remaining := Z.max 0 (limit - (c0 + 1));
           resetAt := (unix_seconds nowMs / windowSeconds + 1) * windowSeconds |},
     {| db := db w;
        redis := {| rdata := <[K := RInt (c0 + 1)]> (rdata (redis w));
                    rexpiry := if c0 + 1 =? 1
                               then <[K := nowMs + windowSeconds * 1000]> (rexpiry (redis w))
                               else rexpiry (redis w);
                    rup := true |} |}).
Proof.
  intros Hup Hc K. unfold checkRateLimit, try_catch, bind.
  rewrite (redis_incr_ok _ _ _ _ Hup Hc). fold K; fold K in Hc.
  destruct (c0 + 1 =? 1) eqn:E1.
  - unfold redis_expire, redis_cmd, ret; cbn [redis db rup rwrite].
    rewrite Hup, rlookup_rwrite_same. unfold rwrite; cbn [rdata rexpiry rup].
    rewrite insert_insert_eq, Hup.
    do 3 f_equal.
    unfold kept_deadline. destruct (expired nowMs (redis w) K).
    + by rewrite insert_delete_eq.
    + destruct (rexpiry (redis w) !! K); [by rewrite insert_insert_eq|by rewrite insert_delete_eq].
  - unfold ret, rwrite. rewrite Hup. do 3 f_equal.
    unfold counter_at, rlookup, kept_deadline in *.
    destruct (expired nowMs (redis w) K) eqn:Eexp.
    { simplify_eq. }
    destruct (rexpiry (redis w) !! K) eqn:Ed; [by apply insert_id|by apply delete_id].
Qed.

Lemma checkRateLimit_down w nowMs key limit windowSeconds :
  rup (redis w) = false ->
  checkRateLimit nowMs key limit windowSeconds w
  = (Ok {| rl_allowed := true; remaining := limit;
           resetAt := unix_seconds nowMs + windowSeconds |}, w).
Proof.
  intros Hdown. unfold checkRateLimit, try_catch, bind, redis_incr.
  by rewrite redis_down.
Qed.

Lemma string_app_assoc (a b c : string) : (a +:+ b) +:+ c = a +:+ (b +:+ c).
Proof.
  induction a as [|x a IH]; [done|].
  change (String x ((a +:+ b) +:+ c) = String x (a +:+ b +:+ c)). by rewrite IH.
Qed.

Lemma proxy_windowKey id now :
  windowKey ("shared:" +:+ id +:+ ":minute") now 60
  = "ratelimit:shared:" +:+ id +:+ ":minute:" +:+ toString (now / 60).
Proof.
  unfold windowKey. by rewrite !string_app_assoc.
Qed.

Example rate_limit_S1 :
  let w0 := {| db := empty_db; redis := empty_redis |} in
  let '(r1, w1) := proxyRateLimit 125000 sample_token w0 in
  let '(r2, w2) := proxyRateLimit 130000 sample_token w1 in
  let '(r3, w3) := proxyRateLimit 135000 sample_token w2 in
  r1 = Ok {| rl_allowed := true; remaining := 1; resetAt := 180 |}
  /\ r2 = Ok {| rl_allowed := true; remaining := 0; resetAt := 180 |}
  /\ r3 = Ok {| rl_allowed := false; remaining := 0; resetAt := 180 |}
  /\ rexpiry (redis w3) !! "ratelimit:shared:tok1:minute:2" = Some 185000.
Proof. vm_compute. auto. Qed.

(** C5, as stated, fails on the key: the check [handleProxy] issues for
    token [tok1] at time 0 leaves [ratelimit:shared:tok1:0] absent; the
    counter it has incremented is [ratelimit:shared:tok1:minute:0]. *)
Lemma rate_limit_key_counterexample :
  let w1 := (proxyRateLimit 0 sample_token {| db := empty_db; redis := empty_redis |}).2 in
  rdata (redis w1) !! "ratelimit:shared:tok1:0" = None
  /\ rdata (redis w1) !! "ratelimit:shared:tok1:minute:0" = Some (RInt 1).
Proof. vm_compute. auto. Qed.

(** C5, amended.  For a token with limit L, the check increments the
    counter under [ratelimit:shared:<token_id>:minute:<floor(now/60)>],
    sets the deadline of that key 60 seconds ahead exactly when the counter
    has become 1, and returns allowed iff the counter after the increment
    is at most L, remaining = max(0, L - counter) and
    reset_at = (floor(now/60)+1)*60; every other key and the database are
    untouched.  When the store cannot be reached it fails open: allowed,
    remaining = L, reset_at = now + 60, nothing written. *)
Theorem proxyRateLimit_correct (w : world) (nowMs : Z) (sharedKey : SharedKey) :
  let L := sk_rateLimit sharedKey in
  let now := unix_seconds nowMs in
  let K := "ratelimit:shared:" +:+ sk_id sharedKey +:+ ":minute:" +:+ toString (now / 60) in
  (rup (redis w) = false ->
   proxyRateLimit nowMs sharedKey w
   = (Ok {| rl_allowed := true; remaining := L; resetAt := now + 60 |}, w))
  /\ (forall c0,
        rup (redis w) = true ->
        counter_at nowMs (redis w) K = Some c0 ->
        exists w',
          proxyRateLimit nowMs sharedKey w
          = (Ok {| rl_allowed := c0 + 1 <=? L;
                   remaining := Z.max 0 (L - (c0 + 1));
                   resetAt := (now / 60 + 1) * 60 |}, w')
          /\ db w' = db w
          /\ rdata (redis w') = <[K := RInt (c0 + 1)]> (rdata (redis w))
          /\ counter_at nowMs (redis w') K = Some (c0 + 1)
          /\ (c0 + 1 = 1 -> rexpiry (redis w') = <[K := nowMs + 60 * 1000]> (rexpiry (redis w)))
          /\ (c0 + 1 <> 1 -> rexpiry (redis w') = rexpiry (redis w))).
Proof.
  intros L now K. split.
  - intros Hdown. unfold proxyRateLimit. exact (checkRateLimit_down _ _ _ _ _ Hdown).
  - intros c0 Hup Hc. unfold proxyRateLimit.
    assert (windowKey ("shared:" +:+ sk_id sharedKey +:+ ":minute") (unix_seconds nowMs) 60 = K)
      as HK by apply proxy_windowKey.
    rewrite <- HK in Hc.
    rewrite (checkRateLimit_up _ _ _ _ _ _ Hup Hc), HK. fold L now.
    eexists. split; [reflexivity|]. cbn [db redis rdata rexpiry].
    repeat split.
    + unfold counter_at, rlookup, expired; cbn [rdata rexpiry].
      rewrite HK in Hc.
      destruct (c0 + 1 =? 1) eqn:E1.
      * rewrite lookup_insert_eq.
        destruct (Z.leb_spec (nowMs + 60 * 1000) nowMs); [lia|].
        by rewrite lookup_insert_eq.
      * unfold counter_at, rlookup, expired in Hc.
        destruct (rexpiry (redis w) !! K) as [d|]; [|by rewrite lookup_insert_eq].
        destruct (d <=? nowMs); [|by rewrite lookup_insert_eq].
        simplify_eq.
    + intros H1. apply Z.eqb_eq in H1. by rewrite H1.
    + intros H1. apply Z.eqb_neq in H1. by rewrite H1.
Qed.

Lemma proxyRateLimit_correct_witness :
  let w0 := {| db := empty_db; redis := empty_redis |} in
  exists w',
    proxyRateLimit 125000 sample_token w0
    = (Ok {| rl_allowed := true; remaining := 1; resetAt := 180 |}, w')
    /\ db w' = db w0
    /\ rdata (redis w') = <["ratelimit:shared:tok1:minute:2" := RInt 1]> (rdata (redis w0))
    /\ counter_at 125000 (redis w') "ratelimit:shared:tok1:minute:2" = Some 1
    /\ (0 + 1 = 1 ->
        rexpiry (redis w') = <["ratelimit:shared:tok1:minute:2" := 185000]> (rexpiry (redis w0)))
    /\ (0 + 1 <> 1 -> rexpiry (redis w') = rexpiry (redis w0)).
Proof.
  intros w0.
  apply (proj2 (proxyRateLimit_correct w0 125000 sample_token) 0); reflexivity.
Defined.

(** ** Suspicious activity and rotation *)

Example toISOString_ex :
  map toISOString
    [0; 1700000000000; -1; 951782400000; 253402300799999; 253402300800000;
     -62167219200000; -62198755200000; 8640000000000000; -8640000000000000]
  = [ "1970-01-01T00:00:00.000Z"; "2023-11-14T22:13:20.000Z"; "1969-12-31T23:59:59.999Z";
      "2000-02-29T00:00:00.000Z"; "9999-12-31T23:59:59.999Z"; "+010000-01-01T00:00:00.000Z";
      "0000-01-01T00:00:00.000Z"; "-000001-01-01T00:00:00.000Z";
      "+275760-09-13T00:00:00.000Z"; "-271821-04-20T00:00:00.000Z" ].
Proof. vm_compute. reflexivity. Qed.

Example json_string_ex :
  json_string "plain text" = quoted "'plain text'"
  /\ json_string (quoted "say 'hi'") = dquote +:+ "say " +:+ backslash +:+ dquote +:+ "hi"
                                        +:+ backslash +:+ dquote +:+ dquote
  /\ json_string (String "010" (String "001" backslash))
     = dquote +:+ backslash +:+ "n" +:+ backslash +:+ "u0001" +:+ backslash +:+ backslash
       +:+ dquote.
Proof. vm_compute. auto. Qed.

(** Spreading an object over another: a key that is there keeps its place
    and takes the new value, an array index goes to the front, every other
    key to the end. *)
Example obj_spread_ex :
  obj_spread [("type", "1"); ("violations", "2"); ("threshold", "3")]
    [("x", "9"); ("type", "7"); ("10", "a"); ("2", "b")]
  = [("2", "b"); ("10", "a"); ("type", "7"); ("violations", "2"); ("threshold", "3"); ("x", "9")].
Proof. vm_compute. reflexivity. Qed.

Example recordSuspiciousActivity_ex :
  let ev := {| ev_type := INVALID_SIGNATURE; ev_tokenId := "tok1"; ev_userId := "user1";
               ev_details := [] |} in
  let '(r1, w1) := recordSuspiciousActivity (H := toy_crypto) 990 1000 sample_rotation_clock
                     sample_random ev sample_world in
  let '(r2, w2) := recordSuspiciousActivity (H := toy_crypto) 1990 2000 sample_rotation_clock
                     sample_random ev w1 in
  let '(r3, w3) := recordSuspiciousActivity (H := toy_crypto) 2990 3000
                     {| updateTime := 3010; clearTime := 3020; noticeTime := 3030;
                        queueTime := 3040 |} sample_random ev w2 in
  r1 = Ok {| rotated := false; newToken := None |}
  /\ r2 = Ok {| rotated := false; newToken := None |}
  /\ r3 = Ok {| rotated := true; newToken := Some "feen_QUFBQUFBQUFBQUFBQUFBQUFBQUFBQUFB" |}
  /\ list_at 2500 (redis w2) "suspicious:tok1:invalid_signature"
     = Some [ quoted ("{'type':'invalid_signature','tokenId':'tok1','userId':'user1',"
                      +:+ "'details':{},'timestamp':'1970-01-01T00:00:01.990Z'}");
              quoted ("{'type':'invalid_signature','tokenId':'tok1','userId':'user1',"
                      +:+ "'details':{},'timestamp':'1970-01-01T00:00:00.990Z'}") ]
  /\ rexpiry (redis w2) !! "suspicious:tok1:invalid_signature" = Some 3602000
  /\ rdata (redis w3) !! "suspicious:tok1:invalid_signature" = None
  /\ map sk_accessToken (sharedKeys (db w3)) = ["feen_QUFBQUFBQUFBQUFBQUFBQUFBQUFBQUFB"]
  /\ map sk_updatedAt (sharedKeys (db w3)) = [3010]
  /\ map al_action (auditLogs (db w3))
     = ["SUSPICIOUS_ACTIVITY"; "SUSPICIOUS_ACTIVITY"; "SUSPICIOUS_ACTIVITY"; "TOKEN_ROTATED"]
  /\ rdata (redis w3) !! "notifications:queue"
     = Some (RList [ quoted ("{'type':'token_rotated','userId':'user1','tokenId':'tok1',"
                             +:+ "'reason':'invalid_signature',"
                             +:+ "'timestamp':'1970-01-01T00:00:03.030Z'}") ]).
Proof. vm_compute. repeat split; eauto. Qed.

Lemma bind_ok {A B} (m : M A) (k : A -> M B) w a w1 :
  m w = (Ok a, w1) -> bind m k w = k a w1.
Proof. intros Hm. unfold bind. by rewrite Hm. Qed.

Lemma bind_assoc {A B C} (m : M A) (k1 : A -> M B) (k2 : B -> M C) w :
  bind (bind m k1) k2 w = bind m (fun a => bind (k1 a) k2) w.
Proof. unfold bind. by destruct (m w) as [[a|e] w']. Qed.

Lemma bind3 {A B C D} (a : M A) (b : M B) (c : M C) (k : C -> M D) w :
  (a;; b;; let! x := c in k x) w = (let! x := (a;; b;; c) in k x) w.
Proof.
  unfold bind. destruct (a w) as [[?|?] w1]; [|done]. by destruct (b w1) as [[?|?] w2].
Qed.

Lemma world_eta w : {| db := db w; redis := redis w |} = w.
Proof. by destruct w. Qed.

Lemma live_keys_spec nowMs r k :
  k ∈ live_keys nowMs r <-> is_Some (rdata r !! k) /\ expired nowMs r k = false.
Proof.
  unfold live_keys. rewrite list_elem_of_In, filter_In, in_map_iff, negb_true_iff.
  split.
  - intros [((k' & v) & Hk & Hin) Hexp]. cbn in Hk. subst k'. split; [|done].
    apply list_elem_of_In, elem_of_map_to_list in Hin. eauto.
  - intros [[v Hv] Hexp]. split; [|done]. exists (k, v). split; [done|].
    by apply list_elem_of_In, elem_of_map_to_list.
Qed.

Lemma redis_lpush_ok w nowMs k v l :
  rup (redis w) = true ->
  list_at nowMs (redis w) k = Some l ->
  exists deadline,
    redis_lpush nowMs k v w
    = (Ok (Z.of_nat (length (v :: l))),
       {| db := db w; redis := rwrite (redis w) k (RList (v :: l)) deadline |})
    /\ (forall d, deadline = Some d -> nowMs < d).
Proof.
  intros Hup Hl. unfold redis_lpush, redis_cmd. rewrite Hup.
  unfold list_at in Hl.
  destruct (rlookup nowMs (redis w) k) as [[n|s|l']|] eqn:E; simplify_eq.
  - eexists. split; [reflexivity|].
    unfold kept_deadline, rlookup in *. unfold expired in *.
    destruct (rexpiry (redis w) !! k) as [d0|]; [|done].
    destruct (Z.leb_spec d0 nowMs); [done|]. intros d [= <-]. lia.
  - eexists. split; [reflexivity|]. done.
Qed.

Lemma redis_expire_ok w nowMs k seconds v :
  rup (redis w) = true ->
  rlookup nowMs (redis w) k = Some v ->
  redis_expire nowMs k seconds w
  = (Ok 1, {| db := db w; redis := rwrite (redis w) k v (Some (nowMs + seconds * 1000)) |}).
Proof. intros Hup Hv. unfold redis_expire, redis_cmd. by rewrite Hup, Hv. Qed.

Lemma rlookup_rwrite_eq nowMs r k v deadline :
  (forall d, deadline = Some d -> nowMs < d) ->
  rlookup nowMs (rwrite r k v deadline) k = Some v.
Proof.
  intros Hd. unfold rlookup, expired, rwrite; cbn.
  destruct deadline as [d|].
  - rewrite lookup_insert_eq. specialize (Hd d eq_refl).
    destruct (Z.leb_spec d nowMs); [lia|]. by rewrite lookup_insert_eq.
  - by rewrite lookup_delete_eq, lookup_insert_eq.
Qed.

Lemma rlookup_rwrite_ne nowMs r k k' v deadline :
  k <> k' -> rlookup nowMs (rwrite r k v deadline) k' = rlookup nowMs r k'.
Proof.
  intros Hne. unfold rlookup, expired, rwrite; cbn.
  rewrite lookup_insert_ne by done.
  destruct deadline; [by rewrite lookup_insert_ne|by rewrite lookup_delete_ne].
Qed.

Lemma push_expire_len w nowMs k v l :
  rup (redis w) = true ->
  list_at nowMs (redis w) k = Some l ->
  (redis_lpush nowMs k v;; redis_expire nowMs k VIOLATION_WINDOW;; redis_llen nowMs k) w
  = (Ok (Z.of_nat (length (v :: l))),
     {| db := db w; redis := with_event nowMs (redis w) k v l |}).
Proof.
  intros Hup Hl.
  destruct (redis_lpush_ok w nowMs k v l Hup Hl) as (deadline & Hpush & Hd).
  rewrite (bind_ok _ _ _ _ _ Hpush).
  erewrite bind_ok; [|apply redis_expire_ok; [done|by apply rlookup_rwrite_eq]].
  cbn [redis db]. unfold redis_llen, redis_cmd. cbn [redis db].
  rewrite rlookup_rwrite_eq by (intros d [= <-]; unfold VIOLATION_WINDOW; lia).
  unfold with_event, rwrite; cbn [rdata rexpiry rup]. rewrite Hup.
  rewrite insert_insert_eq. do 3 f_equal.
  destruct deadline; [by rewrite insert_insert_eq|by rewrite insert_delete_eq].
Qed.

Lemma rlookup_live nowMs r k :
  rlookup nowMs r k = None <-> k ∉ live_keys nowMs r.
Proof.
  rewrite live_keys_spec. unfold rlookup.
  destruct (expired nowMs r k); [split; [intros _ [_ ?]; done|done]|].
  destruct (rdata r !! k) eqn:E; [|split; [intros _ [[? ?] _]; done|done]].
  split; [done|]. intros Hn. exfalso. apply Hn. eauto.
Qed.

Lemma rlookup_deleted nowMs r ks k u :
  rlookup nowMs {| rdata := foldr delete (rdata r) ks;
                   rexpiry := foldr delete (rexpiry r) ks; rup := u |} k
  = if bool_decide (k ∈ ks) then None else rlookup nowMs r k.
Proof.
  unfold rlookup, expired; cbn [rdata rexpiry].
  case_bool_decide as Hin.
  - rewrite !lookup_foldr_delete by done. done.
  - by rewrite !lookup_foldr_delete_not_elem_of by done.
Qed.

(** A key that is gone stays gone as the clock goes on. *)
Lemma rlookup_none_mono t1 t2 r k :
  rlookup t1 r k = None -> t1 <= t2 -> rlookup t2 r k = None.
Proof.
  unfold rlookup, expired. intros Hk Ht.
  destruct (rexpiry r !! k) as [d|]; [|done].
  destruct (Z.leb_spec d t1), (Z.leb_spec d t2); try done. lia.
Qed.

(** The step of [rotateToken] that clears the violation lists: from the
    instant of the command on no key with the prefix is there, and the
    other keys are as they were. *)
Lemma clear_violations_ok w nowMs pfx :
  rup (redis w) = true ->
  exists r2,
    (let! keys := redis_keys_prefix nowMs pfx in
     (if (0 <? length keys)%nat then (redis_del nowMs keys;; ret tt) else ret tt)) w
    = (Ok tt, {| db := db w; redis := r2 |})
    /\ rup r2 = true
    /\ (forall t k, nowMs <= t -> String.prefix pfx k = true -> rlookup t r2 k = None)
    /\ (forall t k, String.prefix pfx k = false -> rlookup t r2 k = rlookup t (redis w) k).
Proof.
  intros Hup. unfold bind, redis_keys_prefix, redis_cmd. rewrite Hup. cbn [redis db].
  set (keys := List.filter (String.prefix pfx) (live_keys nowMs (redis w))).
  assert (forall k, k ∈ keys <-> String.prefix pfx k = true /\ k ∈ live_keys nowMs (redis w))
    as Hkeys.
  { intros k. unfold keys. rewrite list_elem_of_In, filter_In, <- list_elem_of_In. tauto. }
  destruct (0 <? length keys)%nat eqn:Elen.
  - unfold redis_del, redis_cmd, ret. cbn [redis db]. rewrite Hup.
    eexists. split; [reflexivity|]. split; [done|]. split.
    + intros t k Ht Hp. rewrite rlookup_deleted. case_bool_decide as Hin; [done|].
      apply (rlookup_none_mono nowMs); [|done].
      apply rlookup_live. intros Hl. apply Hin, Hkeys. done.
    + intros t k Hp. rewrite rlookup_deleted. case_bool_decide as Hin; [|done].
      apply Hkeys in Hin as [Hp' _]. congruence.
  - unfold ret. exists (redis w). split; [done|]. split; [done|].
    apply Nat.ltb_ge in Elen. assert (keys = []) as Hnil by (destruct keys; [done|cbn in Elen; lia]).
    split; [|done]. intros t k Ht Hp. apply (rlookup_none_mono nowMs); [|done].
    apply rlookup_live. intros Hl.
    assert (k ∈ keys) as Hin by (by apply Hkeys). rewrite Hnil in Hin. by apply elem_of_nil in Hin.
Qed.

Lemma find_existsb {A} (f : A -> bool) l x :
  List.find f l = Some x -> existsb f l = true.
Proof.
  intros Hf. apply find_some in Hf as [Hin Hx]. apply existsb_exists. eauto.
Qed.

Lemma not_suspicious_prefix tokenId :
  String.prefix ("suspicious:" +:+ tokenId +:+ ":") "notifications:queue" = false.
Proof. reflexivity. Qed.

Section RotationFacts.
Context `{NodeCrypto}.

Lemma rotateToken_ok w clock rnd tokenId userId reason old q :
  rup (redis w) = true ->
  List.find (fun s => String.eqb (sk_id s) tokenId) (sharedKeys (db w)) = Some old ->
  list_at (queueTime clock) (redis w) "notifications:queue" = Some q ->
  let new := generateAccessToken "feen" rnd in
  let note :=
    json_object
      [ ("type", json_string "token_rotated"); ("userId", json_string userId);
        ("tokenId", json_string tokenId); ("reason", json_string reason);
        ("timestamp", json_string (toISOString (noticeTime clock))) ] in
  exists w',
    rotateToken clock rnd tokenId userId reason w = (Ok new, w')
    /\ sharedKeys (db w')
       = map (fun s => if String.eqb (sk_id s) tokenId
                       then rotated_row (updateTime clock) new (hash new) s else s)
           (sharedKeys (db w))
    /\ apiKeys (db w') = apiKeys (db w)
    /\ usageLogs (db w') = usageLogs (db w)
    /\ auditLogs (db w')
       = auditLogs (db w) ++
         [ {| al_userId := userId; al_action := "TOKEN_ROTATED"; al_resource := "sharedKey";
              al_resourceId := tokenId;
              al_details :=
                [ ("reason", json_string reason);
                  ("oldTokenPrefix", json_string (slice0 12 (sk_accessToken old) +:+ "..."));
                  ("newTokenPrefix", json_string (slice0 12 new +:+ "...")) ] |} ]
    /\ rup (redis w') = true
    /\ (forall t k, clearTime clock <= t ->
          String.prefix ("suspicious:" +:+ tokenId +:+ ":") k = true ->
          rlookup t (redis w') k = None)
    /\ (forall t k, String.prefix ("suspicious:" +:+ tokenId +:+ ":") k = false ->
          k <> "notifications:queue" ->
          rlookup t (redis w') k = rlookup t (redis w) k)
    /\ list_at (queueTime clock) (redis w') "notifications:queue" = Some (note :: q).
Proof.
  intros Hup Hold Hq new note. unfold rotateToken. fold new.
  erewrite bind_ok; [|reflexivity]. rewrite Hold.
  erewrite bind_ok; [|unfold sharedKey_update; rewrite (find_existsb _ _ _ Hold); reflexivity].
  match goal with |- context [bind ?m _ ?w1] => set (w1' := w1) end.
  destruct (clear_violations_ok w1' (clearTime clock) ("suspicious:" +:+ tokenId +:+ ":") Hup)
    as (r2 & Hclear & Hup2 & Hgone & Hkept).
  rewrite <- bind_assoc, (bind_ok _ _ _ _ _ Hclear).
  erewrite bind_ok; [|reflexivity].
  unfold queueRotationNotification. fold note.
  assert (list_at (queueTime clock) r2 "notifications:queue" = Some q) as Hq2.
  { unfold list_at. rewrite Hkept by apply not_suspicious_prefix. exact Hq. }
  match goal with |- context [bind _ _ ?w4] => set (w4' := w4) end.
  destruct (redis_lpush_ok w4' (queueTime clock) "notifications:queue" note q Hup2 Hq2)
    as (deadline & Hpush & Hd).
  unfold bind. rewrite Hpush. unfold ret.
  eexists. split; [reflexivity|]. cbn [db redis sharedKeys apiKeys usageLogs auditLogs].
  repeat split; try done.
  - intros t k Ht Hp. rewrite rlookup_rwrite_ne; [by apply Hgone|].
    intros <-. by rewrite not_suspicious_prefix in Hp.
  - intros t k Hp Hne. rewrite rlookup_rwrite_ne by done. by apply Hkept.
  - unfold list_at. by rewrite rlookup_rwrite_eq.
Qed.

End RotationFacts.

Lemma rlookup_with_event_eq nowMs r k v l :
  rlookup nowMs (with_event nowMs r k v l) k = Some (RList (v :: l)).
Proof.
  unfold rlookup, expired, with_event; cbn. rewrite lookup_insert_eq.
  unfold VIOLATION_WINDOW. destruct (Z.leb_spec (nowMs + 3600 * 1000) nowMs); [lia|].
  by rewrite lookup_insert_eq.
Qed.

Lemma rlookup_with_event_ne t nowMs r k k' v l :
  k <> k' -> rlookup t (with_event nowMs r k v l) k' = rlookup t r k'.
Proof.
  intros Hne. unfold rlookup, expired, with_event; cbn.
  by rewrite !lookup_insert_ne by done.
Qed.

Lemma suspicious_key_not_queue tokenId t : suspicious_key tokenId t <> "notifications:queue".
Proof. unfold suspicious_key. discriminate. Qed.

(** Reading a property after a write, and after a spread: the value the
    source has under the key (the last one, should the list repeat the key,
    which an object cannot), the value of the target otherwise. *)
Lemma obj_get_app k o1 o2 :
  obj_get k (o1 ++ o2)
  = match obj_get k o1 with Some v => Some v | None => obj_get k o2 end.
Proof.
  unfold obj_get. induction o1 as [|kv o1 IH]; [done|]. cbn [app List.find].
  by destruct (String.eqb kv.1 k).
Qed.

Lemma obj_get_absent k o :
  existsb (fun kv => String.eqb kv.1 k) o = false -> obj_get k o = None.
Proof.
  unfold obj_get. induction o as [|kv o IH]; [done|]. cbn [existsb List.find].
  intros [-> Ho]%orb_false_elim. by apply IH.
Qed.

Lemma obj_get_insert_index n k' v o k :
  existsb (fun kv => String.eqb kv.1 k') o = false ->
  obj_get k (obj_insert_index n k' v o)
  = if String.eqb k' k then Some v else obj_get k o.
Proof.
  induction o as [|kv o IH]; intros Hno.
  - unfold obj_get. cbn. by destruct (String.eqb k' k).
  - cbn [existsb] in Hno. apply orb_false_elim in Hno as [Hkv Ho].
    cbn [obj_insert_index].
    assert (obj_get k ((k', v) :: kv :: o)
            = if String.eqb k' k then Some v else obj_get k (kv :: o)) as Hfront.
    { unfold obj_get. cbn [List.find fst]. by destruct (String.eqb k' k). }
    destruct (array_index kv.1) as [n'|]; [|exact Hfront].
    destruct (n' <? n); [|exact Hfront].
    unfold obj_get in *. cbn [List.find].
    destruct (String.eqb_spec kv.1 k) as [Hk|Hk].
    + destruct (String.eqb_spec k' k) as [Hk'|Hk']; [|done].
      subst k'. rewrite <- Hk, String.eqb_refl in Hkv. discriminate.
    + by apply IH.
Qed.

Lemma obj_get_set k' v o k :
  obj_get k (obj_set k' v o) = if String.eqb k' k then Some v else obj_get k o.
Proof.
  unfold obj_set. destruct (existsb (fun kv => String.eqb kv.1 k') o) eqn:Hex.
  - unfold obj_get. destruct (String.eqb_spec k' k) as [<-|Hne].
    + induction o as [|kv o IH]; [done|]. cbn [existsb map List.find] in *.
      destruct (String.eqb kv.1 k') eqn:Hkv; cbn [fst].
      * by rewrite String.eqb_refl.
      * rewrite Hkv. by apply IH.
    + clear Hex. induction o as [|kv o IH]; [done|]. cbn [map List.find].
      destruct (String.eqb_spec kv.1 k') as [Hkv|Hkv]; cbn [fst].
      * destruct (String.eqb_spec k' k) as [?|_]; [done|].
        destruct (String.eqb_spec kv.1 k) as [?|_]; [congruence|]. exact IH.
      * destruct (String.eqb kv.1 k); [done|exact IH].
  - destruct (array_index k') as [n|]; [by apply obj_get_insert_index|].
    rewrite obj_get_app. unfold obj_get at 2. cbn [List.find fst].
    destruct (String.eqb_spec k' k) as [<-|Hk].
    + by rewrite (obj_get_absent k' o Hex).
    + by destruct (obj_get k o).
Qed.

Lemma obj_get_spread k source : forall target,
  obj_get k (obj_spread target source)
  = match obj_get k (rev source) with
    | Some v => Some v
    | None => obj_get k target
    end.
Proof.
  unfold obj_spread. induction source as [|kv source IH]; intros target; [done|].
  cbn [fold_left rev]. rewrite IH, obj_get_app, obj_get_set.
  destruct (obj_get k (rev source)); [done|].
  unfold obj_get. cbn [List.find]. by destruct (String.eqb kv.1 k).
Qed.

Section RotationClaims.
Context `{NodeCrypto}.

Lemma generateAccessToken_prefix rnd :
  String.prefix "feen_" (generateAccessToken "feen" rnd) = true.
Proof.
  unfold generateAccessToken.
  by destruct (string_of_list_ascii (base64url_encode rnd)).
Qed.

(** Looking up the old and the new access token among the rows rotation
    has rewritten. *)
Lemma findByToken_after_rotation (rows : list SharedKey) tokenId updatedAt new oldTok old :
  List.find (fun s => String.eqb (sk_id s) tokenId) rows = Some old ->
  hash new <> hash oldTok ->
  (forall s, s ∈ rows -> sk_tokenHash s = hash oldTok -> sk_id s = tokenId) ->
  (forall s, s ∈ rows -> sk_tokenHash s <> hash new) ->
  sk_isActive old = true ->
  let rows' := map (fun s => if String.eqb (sk_id s) tokenId
                             then rotated_row updatedAt new (hash new) s else s) rows in
  List.find (fun s => String.eqb (sk_tokenHash s) (hash oldTok) && sk_isActive s) rows' = None
  /\ List.find (fun s => String.eqb (sk_tokenHash s) (hash new) && sk_isActive s) rows'
     = Some (rotated_row updatedAt new (hash new) old).
Proof.
  intros Hfind Hne Huniq Hfresh Hact rows'. subst rows'. split.
  - clear Hfind Hfresh Hact old. induction rows as [|s rows IH]; [done|].
    cbn [map List.find].
    assert ((String.eqb (sk_tokenHash
               (if String.eqb (sk_id s) tokenId
                then rotated_row updatedAt new (hash new) s else s))
               (hash oldTok)) = false) as ->.
    { apply String.eqb_neq. destruct (String.eqb_spec (sk_id s) tokenId) as [Hid|Hid]; [done|].
      intros Heq. apply Hid, Huniq; [left|done]. }
    cbn [andb]. apply IH. intros s' Hin. apply Huniq. by right.
  - induction rows as [|s rows IH]; [done|].
    cbn [map List.find] in *.
    destruct (String.eqb_spec (sk_id s) tokenId) as [Hid|Hid].
    + injection Hfind as ->. cbn [rotated_row sk_tokenHash sk_isActive].
      by rewrite String.eqb_refl, Hact.
    + assert (String.eqb (sk_tokenHash s) (hash new) = false) as ->.
      { apply String.eqb_neq, Hfresh. left. }
      cbn [andb]. apply IH; [done|..]; intros s' Hin; [apply Huniq|apply Hfresh]; by right.
Qed.


End RotationClaims.


(** ** The vault: encrypt and decrypt *)

Lemma xor_byte_involutive a b : xor_byte (xor_byte a b) b = a.
Proof.
  destruct a as [a0 a1 a2 a3 a4 a5 a6 a7], b as [b0 b1 b2 b3 b4 b5 b6 b7]. cbn.
  f_equal; match goal with |- xorb (xorb ?x ?y) ?y = ?x => by destruct x, y end.
Qed.

Lemma xor_bytes_length a b : length b = length a -> length (xor_bytes a b) = length a.
Proof. intros Hlen. unfold xor_bytes. rewrite length_zip_with. lia. Qed.

Lemma xor_bytes_involutive a : forall b,
  length b = length a -> xor_bytes (xor_bytes a b) b = a.
Proof.
  unfold xor_bytes. induction a as [|x a IH]; intros [|y b] Hlen; try done.
  cbn. rewrite xor_byte_involutive, IH; [done|]. cbn in Hlen. lia.
Qed.

Lemma base64_encode_app (n : nat) : forall bs rest,
  length bs = (3 * n)%nat ->
  base64_encode (bs ++ rest) = base64_encode bs ++ base64_encode rest.
Proof.
  induction n as [|n IH]; intros bs rest Hlen.
  - destruct bs; [done|cbn in Hlen; lia].
  - destruct bs as [|x [|y [|z bs]]]; cbn in Hlen; try lia.
    cbn [app base64_encode]. rewrite IH by lia. reflexivity.
Qed.

Lemma base64_decode_app (n : nat) : forall bs rest,
  length bs = (3 * n)%nat ->
  base64_decode (base64_encode bs ++ rest) = bs ++ base64_decode rest.
Proof.
  unfold base64_decode. induction n as [|n IH]; intros bs rest Hlen.
  - destruct bs; [done|cbn in Hlen; lia].
  - destruct bs as [|x [|y [|z bs]]]; cbn in Hlen; try lia.
    cbn [app base64_encode]. rewrite base64_decode_group, IH by lia. reflexivity.
Qed.

(** The third character of a final group of two bytes carries two bits that
    no byte is made of: with the lowest one set the text is another one, and
    it decodes to the same two bytes. *)
Lemma base64_unused_bits x y :
  exists c c',
    c <> c'
    /\ base64_encode [x; y]
       = [b64char base64_alphabet (sextet1 x); b64char base64_alphabet (sextet2 x y); c; "="%char]
    /\ base64_decode
         [b64char base64_alphabet (sextet1 x); b64char base64_alphabet (sextet2 x y); c'; "="%char]
       = [x; y].
Proof.
  destruct x as [x0 x1 x2 x3 x4 x5 x6 x7], y as [y0 y1 y2 y3 y4 y5 y6 y7].
  exists (b64char base64_alphabet (Ascii false false y0 y1 y2 y3 false false)),
         (b64char base64_alphabet (Ascii true false y0 y1 y2 y3 false false)).
  split; [|split].
  - intros Heq. apply (f_equal unbase64) in Heq. rewrite !unbase64_b64char in Heq. discriminate.
  - reflexivity.
  - unfold base64_decode, sextet1, sextet2. cbn [base64_decode_from].
    rewrite !unbase64_b64char, unbase64_pad. reflexivity.
Qed.

(** Every encoding of [3n + 2] bytes has a neighbour, one byte away, that
    decodes to the same bytes. *)
Lemma base64_decode_not_injective (bs : list ascii) (n : nat) :
  length bs = (3 * n + 2)%nat ->
  exists text',
    differ_in_one_byte (string_of_list_ascii (base64_encode bs)) text'
    /\ base64_decode (list_ascii_of_string text') = bs.
Proof.
  intros Hlen.
  assert (exists x y, bs = take (3 * n) bs ++ [x; y]) as (x & y & Hbs).
  { pose proof (take_drop (3 * n) bs) as Htd.
    pose proof (length_drop bs (3 * n)) as Hd.
    destruct (drop (3 * n) bs) as [|x [|y [|z rest]]]; cbn in Hd; try lia.
    exists x, y. by symmetry. }
  assert (length (take (3 * n) bs) = (3 * n)%nat) as Htake by (rewrite length_take; lia).
  destruct (base64_unused_bits x y) as (c & c' & Hne & Henc & Hdec).
  exists (string_of_list_ascii
            (base64_encode (take (3 * n) bs)
             ++ [b64char base64_alphabet (sextet1 x); b64char base64_alphabet (sextet2 x y)]
             ++ c' :: ["="%char])).
  split.
  - exists (base64_encode (take (3 * n) bs)
            ++ [b64char base64_alphabet (sextet1 x); b64char base64_alphabet (sextet2 x y)]),
      c, c', ["="%char].
    split; [done|]. rewrite <- !app_assoc. split; [|done].
    rewrite Hbs at 1. rewrite (base64_encode_app n) by done. by rewrite Henc.
  - rewrite list_ascii_of_string_of_list_ascii. cbn [app].
    rewrite (base64_decode_app n) by done. rewrite Hdec. by rewrite <- Hbs.
Qed.

Section VaultFacts.
Context `{NodeCrypto}.

(** The key has 32 bytes, unless the configured text has 32 characters that
    take more than 32 bytes. *)
Lemma getEncryptionKey_length env key :
  getEncryptionKey env = Ok key ->
  length key = 32%nat
  \/ exists k, env = Some k /\ js_length k = 32%nat /\ String.length k <> 32%nat
               /\ key = list_ascii_of_string k.
Proof.
  unfold getEncryptionKey. destruct env as [[|c k]|]; [done| |done].
  destruct (Nat.eqb_spec (js_length (String c k)) 32) as [Hj|Hj]; intros [= <-].
  - destruct (decide (String.length (String c k) = 32%nat)) as [Hl|Hl].
    + left. rewrite <- Hl. exact (length_list_ascii_of_string (String c k)).
    + right. by exists (String c k).
  - left. apply pbkdf2_sha256_length.
Qed.

(** [decrypt] reads the blob through the decoder only. *)
Lemma decrypt_decoded env blob blob' :
  base64_decode (list_ascii_of_string blob) = base64_decode (list_ascii_of_string blob') ->
  decrypt env blob = decrypt env blob'.
Proof. intros Heq. unfold decrypt. by rewrite Heq. Qed.

Lemma decrypt_combined env key iv tag ct blob :
  getEncryptionKey env = Ok key ->
  length key = 32%nat ->
  base64_decode (list_ascii_of_string blob) = iv ++ tag ++ ct ->
  length iv = 16%nat -> length tag = 16%nat ->
  decrypt env blob
  = if bool_decide (tag = gcm_tag key iv ct)
    then Ok (string_of_list_ascii (xor_bytes ct (aes256_ctr key iv (length ct))))
    else Throw (JsError "Unsupported state or unable to authenticate data").
Proof.
  intros Hkey Hkl Hdec Hiv Htag. unfold decrypt. rewrite Hkey, Hdec.
  unfold IV_LENGTH, TAG_LENGTH.
  rewrite (take_app_length' iv _ 16) by done.
  rewrite (drop_app_length' iv _ 16) by done.
  rewrite (take_app_length' tag _ 16) by done.
  replace (16 + 16)%nat with (length (iv ++ tag)) by (rewrite length_app; lia).
  rewrite app_assoc, drop_app_length.
  unfold createCipheriv, setAuthTag, KEY_LENGTH.
  rewrite Hiv, Htag, Hkl. cbn [Nat.eqb valid_gcm_tag_length negb orb andb Nat.leb].
  rewrite take_ge by (rewrite gcm_tag_length; lia). reflexivity.
Qed.

Lemma encrypt_blob env key iv plaintext :
  getEncryptionKey env = Ok key ->
  length key = 32%nat ->
  length iv = 16%nat ->
  let ct := xor_bytes (list_ascii_of_string plaintext)
              (aes256_ctr key iv (String.length plaintext)) in
  encrypt env iv plaintext
  = Ok (string_of_list_ascii (base64_encode (iv ++ gcm_tag key iv ct ++ ct))).
Proof.
  intros Hkey Hkl Hiv ct. unfold encrypt, createCipheriv, KEY_LENGTH.
  rewrite Hkey, Hiv, Hkl. cbn [Nat.eqb negb]. fold ct.
  by rewrite base64_decode_encode.
Qed.

(** What [decrypt] throws, by what the blob decodes to. *)
Lemma decrypt_throws env key blob e :
  getEncryptionKey env = Ok key ->
  length key = 32%nat ->
  decrypt env blob = Throw e ->
  let combined := base64_decode (list_ascii_of_string blob) in
  let tag := take 16 (drop 16 combined) in
  (combined = [] /\ e = TypeError "Invalid initialization vector")
  \/ (combined <> [] /\ valid_gcm_tag_length (length tag) = false
      /\ e = TypeError ("Invalid authentication tag length: "
                        +:+ toString (Z.of_nat (length tag))))
  \/ (valid_gcm_tag_length (length tag) = true
      /\ e = JsError "Unsupported state or unable to authenticate data").
Proof.
  intros Hkey Hkl. unfold decrypt. rewrite Hkey. cbv zeta.
  unfold createCipheriv, setAuthTag, KEY_LENGTH, IV_LENGTH, TAG_LENGTH. rewrite Hkl.
  generalize (base64_decode (list_ascii_of_string blob)). intros combined.
  destruct combined as [|b0 combined]; [intros [= <-]; by left|].
  cbn [take length Nat.eqb negb].
  destruct (valid_gcm_tag_length _) eqn:Ev.
  - case_bool_decide; [done|]. intros [= <-]. right; right. done.
  - intros [= <-]. right; left. done.
Qed.

End VaultFacts.

Section VaultClaims.
Context `{NodeCrypto}.

(** Whatever the cipher, the blob of the empty plaintext has a neighbour one
    byte away that [decrypt] accepts. *)
Lemma decrypt_survives_tampering env key iv :
  getEncryptionKey env = Ok key -> length key = 32%nat -> length iv = 16%nat ->
  exists blob blob',
    encrypt env iv "" = Ok blob
    /\ differ_in_one_byte blob blob'
    /\ decrypt env blob' = Ok "".
Proof.
  intros Hkey Hkl Hiv.
  pose proof (encrypt_blob env key iv "" Hkey Hkl Hiv) as Henc. cbn in Henc.
  set (tag := gcm_tag key iv []) in *.
  assert (length (iv ++ tag ++ []) = (3 * 10 + 2)%nat) as Hlen.
  { subst tag. rewrite !length_app, gcm_tag_length, Hiv. reflexivity. }
  destruct (base64_decode_not_injective _ 10 Hlen) as (blob' & Hdiff & Hdec).
  eexists _, blob'. split; [exact Henc|]. split; [exact Hdiff|].
  rewrite (decrypt_combined env key iv tag [] blob' Hkey Hkl Hdec Hiv) by apply gcm_tag_length.
  by rewrite bool_decide_eq_true_2.
Qed.

(** C7, amended.  With the master key configured and a 16-byte nonce: when
    the key in use has 32 bytes, the blob [encrypt] returns is the base64
    text of nonce, tag and ciphertext in this order, and [decrypt] gives the
    plaintext (a text without lone surrogates, read as its UTF-8 bytes)
    back; so does [decrypt] on any other text that decodes to the same
    bytes.  A blob whose tag field differs from the tag of its nonce and
    ciphertext makes [decrypt] throw a plain [Error]; a blob that decodes to
    nothing, or whose tag field has a length GCM does not take (every blob
    of fewer than 20 bytes), makes it throw a [TypeError]; nothing else is
    thrown.  The key in use has 32 bytes unless the configured text has 32
    characters that are not all ASCII: then [encrypt] throws a [RangeError]
    for every plaintext and [decrypt] throws for every blob. *)
Theorem decrypt_encrypt (env : option string) (key iv : list ascii) (plaintext : string) :
  getEncryptionKey env = Ok key ->
  length iv = 16%nat ->
  let ct := xor_bytes (list_ascii_of_string plaintext)
              (aes256_ctr key iv (String.length plaintext)) in
  let tag := gcm_tag key iv ct in
  let blob := string_of_list_ascii (base64_encode (iv ++ tag ++ ct)) in
  (length key = 32%nat ->
   encrypt env iv plaintext = Ok blob
   /\ decrypt env blob = Ok plaintext
   /\ (forall blob',
         base64_decode (list_ascii_of_string blob') = base64_decode (list_ascii_of_string blob) ->
         decrypt env blob' = Ok plaintext)
   /\ (forall tag' blob',
         length tag' = 16%nat -> tag' <> tag ->
         base64_decode (list_ascii_of_string blob') = iv ++ tag' ++ ct ->
         decrypt env blob'
         = Throw (JsError "Unsupported state or unable to authenticate data"))
   /\ (forall blob' e,
         decrypt env blob' = Throw e ->
         let combined := base64_decode (list_ascii_of_string blob') in
         let tag' := take 16 (drop 16 combined) in
         (combined = [] /\ e = TypeError "Invalid initialization vector")
         \/ (combined <> [] /\ valid_gcm_tag_length (length tag') = false
             /\ e = TypeError ("Invalid authentication tag length: "
                               +:+ toString (Z.of_nat (length tag'))))
         \/ (valid_gcm_tag_length (length tag') = true
             /\ e = JsError "Unsupported state or unable to authenticate data"))
   /\ (forall blob',
         (length (base64_decode (list_ascii_of_string blob')) < 20)%nat ->
         exists msg, decrypt env blob' = Throw (TypeError msg)))
  /\ (length key <> 32%nat ->
      (exists k, env = Some k /\ js_length k = 32%nat /\ String.length k <> 32%nat)
      /\ encrypt env iv plaintext = Throw (RangeError "Invalid key length")
      /\ (forall blob',
            decrypt env blob'
            = if bool_decide (base64_decode (list_ascii_of_string blob') = [])
              then Throw (TypeError "Invalid initialization vector")
              else Throw (RangeError "Invalid key length"))).
Proof.
  intros Hkey Hiv ct tag blob. split.
  - intros Hkl.
    assert (length ct = String.length plaintext) as Hct.
    { subst ct. rewrite xor_bytes_length; rewrite ?aes256_ctr_length;
        by rewrite length_list_ascii_of_string. }
    assert (decrypt env blob = Ok plaintext) as Hround.
    { rewrite (decrypt_combined env key iv tag ct blob Hkey Hkl); [| |done|apply gcm_tag_length].
      - rewrite bool_decide_eq_true_2 by done. f_equal. subst ct. rewrite Hct.
        rewrite xor_bytes_involutive
          by (by rewrite aes256_ctr_length, length_list_ascii_of_string).
        apply string_of_list_ascii_of_string.
      - subst blob. by rewrite list_ascii_of_string_of_list_ascii, base64_decode_encode. }
    split; [by apply encrypt_blob|]. split; [exact Hround|]. split; [|split; [|split]].
    + intros blob' Hdec. by rewrite (decrypt_decoded env blob' blob Hdec).
    + intros tag' blob' Htag' Hne Hdec.
      rewrite (decrypt_combined env key iv tag' ct blob' Hkey Hkl Hdec Hiv Htag').
      by rewrite bool_decide_eq_false_2.
    + intros blob' e He. by apply (decrypt_throws env key blob' e Hkey Hkl).
    + intros blob' Hshort. unfold decrypt. rewrite Hkey. cbv zeta.
      unfold createCipheriv, setAuthTag, KEY_LENGTH, IV_LENGTH, TAG_LENGTH. rewrite Hkl.
      revert Hshort. generalize (base64_decode (list_ascii_of_string blob')). intros combined Hshort.
      destruct combined as [|b0 combined]; [by eexists|].
      cbn [take length Nat.eqb negb].
      assert (valid_gcm_tag_length (length (take 16 (drop 16 (b0 :: combined)))) = false) as ->.
      { rewrite length_take, length_drop. cbn [length] in *.
        generalize dependent (length combined). intros m Hm.
        do 19 (destruct m as [|m]; [reflexivity|]). lia. }
      by eexists.
  - intros Hkl.
    destruct (getEncryptionKey_length env key Hkey) as [?|(k & Henv & Hj & Hl & _)]; [done|].
    split; [by exists k|]. split.
    + unfold encrypt, createCipheriv, KEY_LENGTH. rewrite Hkey, Hiv.
      cbn [Nat.eqb]. by destruct (Nat.eqb_spec (length key) 32).
    + intros blob'. unfold decrypt. rewrite Hkey. cbv zeta.
      unfold createCipheriv, KEY_LENGTH, IV_LENGTH.
      generalize (base64_decode (list_ascii_of_string blob')). intros combined.
      destruct combined as [|b0 combined]; [done|].
      cbn [take length Nat.eqb].
      rewrite (bool_decide_eq_false_2 (b0 :: combined = [])) by done.
      by destruct (Nat.eqb_spec (length key) 32).
Qed.

End VaultClaims.

Lemma decrypt_encrypt_witness :
  encrypt (H := toy_crypto) sample_env sample_iv "sk-test" = Ok "aWlpaWlpaWlpaWlpaWlpaXNrLXRlc3RpaWlpaWlpaWlzay10ZXN0"
  /\ decrypt (H := toy_crypto) sample_env "aWlpaWlpaWlpaWlpaWlpaXNrLXRlc3RpaWlpaWlpaWlzay10ZXN0"
     = Ok "sk-test"
  /\ (exists msg, decrypt (H := toy_crypto) sample_env "aWlpaWlpaWlpaWlpaWlpaQ=="
                  = Throw (TypeError msg)).
Proof.
  pose proof (proj1 (decrypt_encrypt (H := toy_crypto) sample_env
                       (list_ascii_of_string "0123456789abcdef0123456789abcdef") sample_iv
                       "sk-test" eq_refl eq_refl) eq_refl)
    as (Henc & Hdec & _ & _ & _ & Hshort).
  split; [exact Henc|]. split; [exact Hdec|].
  apply Hshort. vm_compute. lia.
Defined.

(** C7, as stated, fails on tampering: it is not the case that every blob
    one byte away from an encrypted blob makes [decrypt] fail.  The blob of
    the empty plaintext ends in a group of two bytes; the two spare bits of
    its third character can be set without changing what the blob decodes
    to ([decrypt_survives_tampering] shows this for every cipher). *)
Lemma decrypt_tamper_counterexample :
  ~ (forall (C : NodeCrypto) env iv plaintext blob blob',
       length iv = 16%nat ->
       encrypt env iv plaintext = Ok blob ->
       differ_in_one_byte blob blob' ->
       exists e, decrypt env blob' = Throw e).
Proof.
  intros Hclaim.
  destruct (decrypt_survives_tampering (H := toy_crypto) sample_env _ sample_iv
              eq_refl eq_refl eq_refl)
    as (blob & blob' & Henc & Hdiff & Hdec).
  destruct (Hclaim toy_crypto sample_env sample_iv "" blob blob' eq_refl Henc Hdiff) as [e He].
  congruence.
Qed.

(** The three ways [decrypt] fails, and the key of 32 characters that is not
    32 bytes long (its first character is U+00E9). *)
Example decrypt_failures :
  let long_env := Some (String "195" (String "169" "123456789abcdef0123456789abcdef")) in
  decrypt (H := toy_crypto) sample_env "" = Throw (TypeError "Invalid initialization vector")
  /\ decrypt (H := toy_crypto) sample_env "aWlpaWlpaWlpaWlpaWlpaQ=="
     = Throw (TypeError "Invalid authentication tag length: 0")
  /\ decrypt (H := toy_crypto) sample_env "aWlpaWlpaWlpaWlpaWlpaXNrLXRlc3RpaWlpaWlpaWl6ay10ZXN0"
     = Throw (JsError "Unsupported state or unable to authenticate data")
  /\ encrypt (H := toy_crypto) long_env sample_iv "sk-test"
     = Throw (RangeError "Invalid key length")
  /\ decrypt (H := toy_crypto) long_env sample_blob = Throw (RangeError "Invalid key length").
Proof. vm_compute. auto 10. Qed.

Example decrypt_tampered_blob :
  encrypt (H := toy_crypto) sample_env sample_iv "" = Ok "aWlpaWlpaWlpaWlpaWlpaWlpaWlpaWlpaWlpaWlpaWk="
  /\ decrypt (H := toy_crypto) sample_env "aWlpaWlpaWlpaWlpaWlpaWlpaWlpaWlpaWlpaWlpaWl="
     = Ok ""
  /\ decrypt (H := toy_crypto) sample_env "aWlpaWlpaWlpaWlpaWlpaWlpaWlpaWlpaWlpaWlpaWk=" = Ok "".
Proof. vm_compute. auto. Qed.

(** ** The proxy *)

Example handleProxy_S3 :
  let w := world_with (token_with ["10.0.0.0/24"] None "key1") [openai_key] in
  let '(r, w') := handleProxy (H := toy_crypto) sample_env (sample_clock 0 5) fetch_404_then_200
                    (request_from "10.0.1.5" NotJson) ["v1"; "chat"; "completions"] w in
  outcome_map status r = Ok 403 /\ w' = w.
Proof. vm_compute. auto. Qed.

Example handleProxy_fallback :
  let w := world_with (token_with [] None "key1") [openai_key; anthropic_key] in
  let run fetch := (handleProxy (H := toy_crypto) sample_env (sample_clock 0 5) fetch
                      (request_from "10.0.1.5" NotJson) ["v1"; "chat"; "completions"] w).1 in
  outcome_map status (run fetch_404_then_200) = Ok 200
  /\ outcome_map status (run fetch_always_500) = Ok 500
  /\ run fetch_unreachable = Ok (error_response 502 "All available providers failed").
Proof. vm_compute. auto. Qed.

(** *** Header values *)

Lemma find_app_none {A} (f : A -> bool) l1 l2 :
  List.find f l1 = None -> List.find f (l1 ++ l2) = List.find f l2.
Proof.
  induction l1 as [|x l1 IH]; [done|]. cbn [List.find app].
  destruct (f x); [done|]. exact IH.
Qed.

Lemma find_app_some {A} (f : A -> bool) l1 l2 x :
  List.find f l1 = Some x -> List.find f (l1 ++ l2) = Some x.
Proof.
  induction l1 as [|y l1 IH]; [done|]. cbn [List.find app].
  destruct (f y); [done|]. exact IH.
Qed.

Lemma find_filter_out {A} (f : A -> bool) l : List.find f (List.filter (fun a => negb (f a)) l) = None.
Proof.
  induction l as [|x l IH]; [done|]. cbn [List.filter].
  destruct (f x) eqn:E; cbn [negb]; [done|]. cbn [List.find]. by rewrite E.
Qed.

Lemma find_filter_keep {A} (f g : A -> bool) l :
  (forall a, f a = true -> g a = true) ->
  List.find f (List.filter g l) = List.find f l.
Proof.
  intros Hfg. induction l as [|x l IH]; [done|]. cbn [List.filter List.find].
  destruct (f x) eqn:E.
  - rewrite (Hfg x E). cbn [List.find]. by rewrite E.
  - destruct (g x); [|done]. cbn [List.find]. by rewrite E.
Qed.

Lemma headers_get_put_eq name value h : headers_get name (headers_put name value h) = Some value.
Proof.
  unfold headers_get, headers_put. rewrite find_app_none by apply find_filter_out.
  cbn [List.find fst]. by rewrite String.eqb_refl.
Qed.

Lemma headers_get_put_ne name other value h :
  toLowerCase name <> toLowerCase other ->
  headers_get name (headers_put other value h) = headers_get name h.
Proof.
  intros Hne. unfold headers_get, headers_put.
  assert (List.find (fun kv : string * string => String.eqb kv.1 (toLowerCase name))
            (List.filter (fun kv => negb (String.eqb kv.1 (toLowerCase other))) h)
          = List.find (fun kv => String.eqb kv.1 (toLowerCase name)) h) as Hkeep.
  { apply find_filter_keep. intros kv Hkv. apply String.eqb_eq in Hkv.
    apply negb_true_iff, String.eqb_neq. congruence. }
  destruct (List.find _ h) as [kv|] eqn:E.
  - by rewrite (find_app_some _ _ _ _ Hkeep).
  - rewrite (find_app_none _ _ _ Hkeep). cbn [List.find fst].
    destruct (String.eqb_spec (toLowerCase other) (toLowerCase name)); [congruence|done].
Qed.

Lemma strip_leading_clean l :
  match l with c :: _ => negb (is_http_whitespace c) | [] => true end = true ->
  strip_leading l = l.
Proof. destruct l as [|c l]; [done|]. cbn. by intros ->%negb_true_iff. Qed.

Lemma normalize_header_value_safe value :
  header_safe value = true -> normalize_header_value value = value.
Proof.
  unfold header_safe, normalize_header_value.
  intros [[_ Hstart]%andb_prop Hend]%andb_prop.
  rewrite (strip_leading_clean _ Hstart), (strip_leading_clean _ Hend), rev_involutive.
  apply string_of_list_ascii_of_string.
Qed.

Lemma header_safe_accepted value : header_safe value = true -> header_accepted value = true.
Proof.
  intros Hs. unfold header_accepted. rewrite (normalize_header_value_safe _ Hs).
  unfold header_safe in Hs.
  apply andb_prop in Hs as [[[-> ->]%andb_prop _]%andb_prop _]. done.
Qed.

(** [set] with a name written in the code: the value decides. *)
Lemma headers_set_literal name value h :
  is_byte_string name = true -> is_header_name name = true ->
  headers_set name value h
  = if header_accepted value
    then Ok (headers_put name (normalize_header_value value) h)
    else Throw (TypeError (if is_byte_string value then "Invalid header value"
                           else "Cannot convert argument to a ByteString")).
Proof.
  intros Hb Hn. unfold headers_set, header_accepted. rewrite Hb, Hn.
  destruct (is_byte_string value); cbn [andb negb]; [|done].
  by destruct (is_header_value _).
Qed.

Lemma headers_set_safe name value h :
  is_byte_string name = true -> is_header_name name = true -> header_safe value = true ->
  headers_set name value h = Ok (headers_put name value h).
Proof.
  intros Hb Hn Hs. rewrite headers_set_literal by done.
  by rewrite (header_safe_accepted _ Hs), (normalize_header_value_safe _ Hs).
Qed.

Lemma headers_set_throws name value h e :
  headers_set name value h = Throw e -> exists msg, e = TypeError msg.
Proof. unfold headers_set. repeat case_match; intros [= <-]; eauto. Qed.

Lemma plain_char_facts c :
  char_in "!" "~" c = true ->
  (nat_of_ascii c <? 196)%nat = true
  /\ is_http_whitespace c = false
  /\ match nat_of_ascii c with 0%nat | 10%nat | 13%nat => false | _ => true end = true.
Proof.
  unfold char_in, is_http_whitespace. change (nat_of_ascii "!") with 33%nat.
  change (nat_of_ascii "~") with 126%nat.
  generalize (nat_of_ascii c). intros n [Hlo%Nat.leb_le Hhi%Nat.leb_le]%andb_prop.
  split; [apply Nat.ltb_lt; lia|].
  do 33 (destruct n as [|n]; [lia|]). done.
Qed.

Lemma plain_text_safe s : plain_text s = true -> header_safe s = true.
Proof.
  unfold plain_text, header_safe, is_byte_string, is_header_value. intros Hp.
  assert (forall c, In c (list_ascii_of_string s) -> char_in "!" "~" c = true) as Hall.
  { by apply forallb_forall. }
  repeat (apply andb_true_intro; split).
  - apply forallb_forall. intros c Hc. by apply (plain_char_facts c), Hall.
  - apply forallb_forall. intros c Hc. by apply (plain_char_facts c), Hall.
  - destruct (list_ascii_of_string s) as [|c l]; [done|].
    apply negb_true_iff, (plain_char_facts c), Hall. by left.
  - destruct (rev (list_ascii_of_string s)) as [|c l] eqn:E; [done|].
    apply negb_true_iff, (plain_char_facts c), Hall.
    apply in_rev. rewrite E. by left.
Qed.

Lemma is_digit_plain c : is_digit c = true -> char_in "!" "~" c = true.
Proof.
  unfold is_digit, char_in. change (nat_of_ascii "0") with 48%nat.
  change (nat_of_ascii "9") with 57%nat. change (nat_of_ascii "!") with 33%nat.
  change (nat_of_ascii "~") with 126%nat.
  intros [Hlo%Nat.leb_le Hhi%Nat.leb_le]%andb_prop.
  apply andb_true_intro. split; apply Nat.leb_le; lia.
Qed.

Lemma digit_char_digit d : 0 <= d < 10 -> is_digit (digit_char d) = true.
Proof.
  intros Hd. assert (d = 0 \/ d = 1 \/ d = 2 \/ d = 3 \/ d = 4 \/ d = 5 \/ d = 6 \/ d = 7
                     \/ d = 8 \/ d = 9) as Hcases by lia.
  by repeat destruct Hcases as [->|Hcases]; [..|subst d].
Qed.

Lemma digits_fuel_plain fuel : forall n acc,
  0 <= n -> plain_text acc = true -> plain_text (digits_fuel fuel n acc) = true.
Proof.
  induction fuel as [|f IH]; intros n acc Hn Hacc; cbn [digits_fuel]; [done|].
  assert (plain_text (String (digit_char (n mod 10)) acc) = true) as Hacc'.
  { unfold plain_text in *. cbn [list_ascii_of_string forallb]. rewrite Hacc, andb_true_r.
    apply is_digit_plain, digit_char_digit, Z.mod_pos_bound. lia. }
  destruct (n / 10 =? 0); [done|]. apply IH; [|done]. apply Z.div_pos; lia.
Qed.

(** A number written out is stored as it is. *)
Lemma toString_plain n : plain_text (toString n) = true.
Proof.
  unfold toString. destruct (Z.ltb_spec n 0).
  - change (plain_text (String "-" ?s)) with (plain_text s).
    apply digits_fuel_plain; [lia|done].
  - by apply digits_fuel_plain.
Qed.

Lemma hex_digit_plain n : (n < 16)%nat -> char_in "!" "~" (hex_digit n) = true.
Proof. intros Hn. do 16 (destruct n as [|n]; [reflexivity|]). lia. Qed.

Lemma hex_plain bs : plain_text (hex bs) = true.
Proof.
  unfold plain_text. induction bs as [|b bs IH]; [done|].
  cbn [hex list_ascii_of_string forallb]. rewrite IH.
  rewrite !hex_digit_plain; [done|apply Nat.mod_upper_bound; lia|].
  apply Nat.Div0.div_lt_upper_bound. pose proof (nat_ascii_bounded b). lia.
Qed.

Lemma provider_name_plain p : plain_text (provider_name p) = true.
Proof. by destruct p. Qed.

(** The response the client is handed for an upstream answer whose status
    the [Response] constructor takes. *)
Lemma forwarded_response_sets r latencyMs finalProvider sharedKey rateLimitResult :
  forwarded_response r latencyMs finalProvider sharedKey rateLimitResult
  = if negb (is_byte_string (statusText r))
    then Throw (TypeError "Cannot convert argument to a ByteString")
    else if negb ((200 <=? status r mod 65536) && (status r mod 65536 <=? 599))
    then Throw (RangeError "The status provided is outside the range [200, 599]")
    else if negb (is_reason_phrase (statusText r))
    then Throw (TypeError "Invalid statusText")
    else Ok {| status := status r mod 65536; statusText := statusText r;
               res_headers :=
                 headers_put "X-RateLimit-Remaining" (toString (remaining rateLimitResult))
                   (headers_put "X-RateLimit-Limit" (toString (sk_rateLimit sharedKey))
                      (headers_put "X-Feen-Provider" (provider_name finalProvider)
                         (headers_put "X-Feen-Latency" (toString latencyMs) (res_headers r))));
               res_body := res_body r |}.
Proof.
  unfold forwarded_response.
  rewrite (headers_set_safe "X-Feen-Latency") by (try done; apply plain_text_safe, toString_plain).
  cbn [obind].
  rewrite (headers_set_safe "X-Feen-Provider")
    by (try done; apply plain_text_safe, provider_name_plain).
  cbn [obind].
  rewrite (headers_set_safe "X-RateLimit-Limit")
    by (try done; apply plain_text_safe, toString_plain).
  cbn [obind].
  by rewrite (headers_set_safe "X-RateLimit-Remaining")
    by (try done; apply plain_text_safe, toString_plain).
Qed.

Lemma forwarded_response_ok r latencyMs finalProvider sharedKey rateLimitResult :
  presentable r = true ->
  forwarded_response r latencyMs finalProvider sharedKey rateLimitResult
  = Ok {| status := status r mod 65536; statusText := statusText r;
          res_headers :=
            headers_put "X-RateLimit-Remaining" (toString (remaining rateLimitResult))
              (headers_put "X-RateLimit-Limit" (toString (sk_rateLimit sharedKey))
                 (headers_put "X-Feen-Provider" (provider_name finalProvider)
                    (headers_put "X-Feen-Latency" (toString latencyMs) (res_headers r))));
          res_body := res_body r |}.
Proof.
  intros Hp. rewrite forwarded_response_sets. unfold presentable in Hp.
  apply andb_prop in Hp as [Hp ->]. apply andb_prop in Hp as [Hp ->].
  by apply andb_prop in Hp as [-> ->].
Qed.

(** What the constructor refuses is thrown: a RangeError for the status, a
    TypeError for the reason phrase. *)
Lemma forwarded_response_refused r latencyMs finalProvider sharedKey rateLimitResult :
  presentable r = false ->
  exists msg,
    forwarded_response r latencyMs finalProvider sharedKey rateLimitResult
    = Throw (if is_byte_string (statusText r)
                && negb ((200 <=? status r mod 65536) && (status r mod 65536 <=? 599))
             then RangeError msg else TypeError msg).
Proof.
  intros Hp. rewrite forwarded_response_sets. unfold presentable in Hp.
  destruct (is_byte_string (statusText r)); cbn [negb andb] in *; [|by eexists].
  destruct ((200 <=? status r mod 65536) && (status r mod 65536 <=? 599)) eqn:Hst;
    cbn [negb]; [|by eexists].
  cbn [andb] in Hp. rewrite Hp. by eexists.
Qed.

Lemma forwarded_response_handed clock r k sharedKey rateLimitResult :
  presentable r = true ->
  exists resp,
    forwarded_response r (endTime clock - startTime clock) (ak_provider k) sharedKey
      rateLimitResult = Ok resp
    /\ handed clock resp r k.
Proof.
  intros Hst. rewrite forwarded_response_ok by done.
  eexists. split; [reflexivity|]. unfold handed. cbn [status statusText res_body res_headers].
  split; [done|]. split; [intros Hr; by apply Z.mod_small|].
  repeat split.
  - rewrite (headers_get_put_ne "X-Feen-Provider" "X-RateLimit-Remaining") by discriminate.
    rewrite (headers_get_put_ne "X-Feen-Provider" "X-RateLimit-Limit") by discriminate.
    apply headers_get_put_eq.
  - rewrite (headers_get_put_ne "X-Feen-Latency" "X-RateLimit-Remaining") by discriminate.
    rewrite (headers_get_put_ne "X-Feen-Latency" "X-RateLimit-Limit") by discriminate.
    rewrite (headers_get_put_ne "X-Feen-Latency" "X-Feen-Provider") by discriminate.
    apply headers_get_put_eq.
Qed.

Lemma ok_in_range r : ok r = true -> 200 <= status r <= 599.
Proof. unfold ok. intros [?%Z.leb_le ?%Z.leb_le]%andb_prop. lia. Qed.

(** For a 2xx answer only the reason phrase is in question. *)
Lemma ok_presentable r :
  ok r = true ->
  presentable r = is_byte_string (statusText r) && is_reason_phrase (statusText r).
Proof.
  intros Hok%ok_in_range. unfold presentable. rewrite Z.mod_small by lia.
  destruct (Z.leb_spec 200 (status r)); [|lia].
  destruct (Z.leb_spec (status r) 599); [|lia]. by rewrite !andb_true_r.
Qed.

Lemma substring_all s : String.substring 0 (String.length s) s = s.
Proof. induction s as [|c s IH]; [done|]. simpl. by rewrite IH. Qed.

Lemma bearer_token tok :
  String.substring 7 (String.length ("Bearer " +:+ tok) - 7) ("Bearer " +:+ tok) = tok.
Proof.
  change (String.length ("Bearer " +:+ tok) - 7)%nat with (String.length tok - 0)%nat.
  rewrite Nat.sub_0_r. apply substring_all.
Qed.

Lemma bearer_prefix tok : startsWith ("Bearer " +:+ tok) "Bearer " = true.
Proof. unfold startsWith. by destruct tok. Qed.

(** The allow-list check of the code is membership of the text. *)
Lemma ip_rejected_literal sharedKey clientIP :
  ip_rejected sharedKey clientIP = false <->
  sk_allowedIPs sharedKey = [] \/ clientIP ∈ sk_allowedIPs sharedKey.
Proof.
  unfold ip_rejected, arr_includes. destruct (sk_allowedIPs sharedKey) as [|ip ips] eqn:E.
  - cbn. tauto.
  - cbn [length Nat.ltb Nat.leb andb]. rewrite negb_false_iff, bool_decide_eq_true.
    split; [by right|]. intros [?|?]; done.
Qed.

Lemma clientIP_unknown request :
  headers_get "x-forwarded-for" (req_headers request) = None ->
  clientIP_of request = "unknown".
Proof. intros Hh. unfold clientIP_of. by rewrite Hh. Qed.

Section PolicyClaims.
Context `{NodeCrypto}.
Variable env : option string.
Variable clock : ProxyClock.
Variable fetch : nat -> UpstreamRequest -> FetchResult.

(** The checks of [authorize] up to the rate limiter, for a request whose
    bearer token is found. *)
Lemma authorize_found request tok sharedKey w :
  headers_get "authorization" (req_headers request) = Some ("Bearer " +:+ tok) ->
  startsWith tok "feen_" = true ->
  sharedKey_findByToken tok (db w) = Some sharedKey ->
  authorize clock request w =
  if token_expired (expiryTime clock) sharedKey
  then (Ok (Reject (error_response 401 "Access token has expired")), w)
  else if usage_exhausted sharedKey
  then (Ok (Reject (error_response 429 "Access token usage limit exceeded")), w)
  else if ip_rejected sharedKey (clientIP_of request)
  then (Ok (Reject (error_response 403 "IP address not allowed")), w)
  else
    (let! rateLimitResult := proxyRateLimit (limitTime clock) sharedKey in
     if negb (rl_allowed rateLimitResult)
     then ret (Reject
       (json_response 429
          [ ("error", json_string "Rate limit exceeded");
            ("retryAfter",
             toString (resetAt rateLimitResult - unix_seconds (retryTime clock))) ]
          [ ("x-ratelimit-limit", toString (sk_rateLimit sharedKey));
            ("x-ratelimit-remaining", toString (remaining rateLimitResult));
            ("x-ratelimit-reset", toString (resetAt rateLimitResult)) ]))
     else ret (Pass sharedKey (clientIP_of request) rateLimitResult)) w.
Proof.
  intros Hauth Hfeen Hfound. unfold authorize.
  rewrite Hauth, bearer_prefix, bearer_token, Hfeen. cbn [negb].
  unfold bind at 1, get_db. rewrite Hfound.
  by repeat case_match.
Qed.

Lemma handleProxy_reject request path w r w' :
  authorize clock request w = (Ok (Reject r), w') ->
  handleProxy env clock fetch request path w = (Ok r, w').
Proof. intros Ha. unfold handleProxy, try_catch, bind. by rewrite Ha. Qed.

(** C2, amended.  No policy failure of the proxy records a suspicious
    event.  For a request whose bearer token is found: an expired token is
    answered 401, an exhausted usage cap 429, an address off the allow-list
    403, each time with the database and the fast store left exactly as
    they were.  (The proxy makes no scope or signature check at all.) *)
Theorem policy_failure_records_nothing
    (request : Request) (path : list string) (tok : string) (sharedKey : SharedKey)
    (w : world) :
  headers_get "authorization" (req_headers request) = Some ("Bearer " +:+ tok) ->
  startsWith tok "feen_" = true ->
  sharedKey_findByToken tok (db w) = Some sharedKey ->
  (token_expired (expiryTime clock) sharedKey = true ->
   handleProxy env clock fetch request path w
   = (Ok (error_response 401 "Access token has expired"), w))
  /\ (token_expired (expiryTime clock) sharedKey = false ->
      usage_exhausted sharedKey = true ->
      handleProxy env clock fetch request path w
      = (Ok (error_response 429 "Access token usage limit exceeded"), w))
  /\ (token_expired (expiryTime clock) sharedKey = false ->
      usage_exhausted sharedKey = false ->
      ip_rejected sharedKey (clientIP_of request) = true ->
      handleProxy env clock fetch request path w
      = (Ok (error_response 403 "IP address not allowed"), w)).
Proof.
  intros Hauth Hfeen Hfound.
  pose proof (authorize_found request tok sharedKey w Hauth Hfeen Hfound) as Ha.
  repeat split.
  - intros He. rewrite He in Ha. by apply handleProxy_reject.
  - intros He Hu. rewrite He, Hu in Ha. by apply handleProxy_reject.
  - intros He Hu Hi. rewrite He, Hu, Hi in Ha. by apply handleProxy_reject.
Qed.

End PolicyClaims.

(** C2, as stated, fails: a request with an expired token is answered 401
    and nothing is recorded; the fast store is as empty as before and the
    audit log has no entry. *)
Lemma expired_token_counterexample :
  let w := world_with (token_with [] (Some 500) "key1") [openai_key] in
  let '(r, w') := handleProxy (H := toy_crypto) sample_env (sample_clock 1000 1005)
                    fetch_unreachable
                    (request_from "10.0.1.5" NotJson) ["v1"; "chat"; "completions"] w in
  r = Ok (error_response 401 "Access token has expired")
  /\ rdata (redis w') = ∅
  /\ auditLogs (db w') = [].
Proof. vm_compute. auto. Qed.

Lemma policy_failure_records_nothing_witness :
  let w := world_with (token_with ["10.0.0.0/24"] (Some 500) "key1") [openai_key] in
  handleProxy (H := toy_crypto) sample_env (sample_clock 1000 1005) fetch_unreachable
    (request_from "10.0.1.5" NotJson) ["v1"; "chat"; "completions"] w
  = (Ok (error_response 401 "Access token has expired"), w).
Proof.
  intros w.
  apply (policy_failure_records_nothing (H := toy_crypto) sample_env (sample_clock 1000 1005)
           fetch_unreachable
           (request_from "10.0.1.5" NotJson) ["v1"; "chat"; "completions"] "feen_old"
           (token_with ["10.0.0.0/24"] (Some 500) "key1") w); reflexivity.
Defined.

(** C3: the entry [10.0.0.0/24] covers the address [10.0.0.5] in the words
    of the specification, and the request from that address is answered
    403 all the same: the code compares the address with the text of each
    entry and nothing else.  The two other parts of C3 hold: an address
    that cannot be determined reads as [unknown], and a miss is a 403. *)
Theorem allowlist_cidr_entry_rejected :
  let w := world_with (token_with ["10.0.0.0/24"] None "key1") [openai_key] in
  spec_ip_allowed ["10.0.0.0/24"] "10.0.0.5" = true
  /\ ip_rejected (token_with ["10.0.0.0/24"] None "key1") "10.0.0.5" = true
  /\ handleProxy (H := toy_crypto) sample_env (sample_clock 0 5) fetch_404_then_200
       (request_from "10.0.0.5" NotJson) ["v1"; "chat"; "completions"] w
     = (Ok (error_response 403 "IP address not allowed"), w)
  /\ spec_ip_allowed ["10.0.0.0/24"] "10.0.1.5" = false
  /\ clientIP_of {| req_method := "GET"; req_headers := []; req_text := "";
                    req_json := NotJson |} = "unknown".
Proof. vm_compute. auto. Qed.

(** ** The router *)

Lemma sort_insert_end {A} (cmp : A -> A -> Z) x l :
  Forall (fun y => (cmp x y <? 0) = false) l -> sort_insert cmp x l = l ++ [x].
Proof. induction 1 as [|y l Hy _ IH]; [done|]. cbn. by rewrite Hy, IH. Qed.

Lemma sort_insert_before {A} (cmp : A -> A -> Z) x pre y post :
  Forall (fun z => (cmp x z <? 0) = false) pre ->
  (cmp x y <? 0) = true ->
  sort_insert cmp x (pre ++ y :: post) = pre ++ x :: y :: post.
Proof.
  intros Hpre Hy. induction Hpre as [|z pre Hz _ IH]; cbn; [by rewrite Hy|].
  by rewrite Hz, IH.
Qed.

Lemma sort_insert_front {A} (cmp : A -> A -> Z) x l :
  Forall (fun y => (cmp x y <? 0) = true) l -> sort_insert cmp x l = x :: l.
Proof. destruct 1 as [|y l Hy _]; [done|]. cbn. by rewrite Hy. Qed.

Lemma is_linked_not_best best id k : is_linked best id k = true -> is_best best k = false.
Proof. unfold is_linked. intros [Hb _]%andb_true_iff. by apply negb_true_iff. Qed.

Lemma is_other_not_best best id k : is_other best id k = true -> is_best best k = false.
Proof. unfold is_other. intros [Hb _]%andb_true_iff. by apply negb_true_iff. Qed.

Section SortApiKeys.
Variable bestProvider : option ApiProvider.
Variable apiKeyId : string.

Local Abbreviation is_best := (is_best bestProvider).
Local Abbreviation is_linked := (is_linked bestProvider apiKeyId).
Local Abbreviation is_other := (is_other bestProvider apiKeyId).

Lemma prefer_best a b : is_best a = true -> (prefer bestProvider apiKeyId a b <? 0) = true.
Proof. unfold is_best, prefer. by intros ->. Qed.

Lemma prefer_after_best a b :
  is_best a = false -> is_best b = true -> (prefer bestProvider apiKeyId a b <? 0) = false.
Proof. unfold is_best, prefer. by intros -> ->. Qed.

Lemma prefer_linked_other a b :
  is_linked a = true -> is_other b = true -> (prefer bestProvider apiKeyId a b <? 0) = true.
Proof.
  unfold is_linked, is_other, is_best, prefer.
  intros [Ha1 Ha2]%andb_true_iff [Hb1 Hb2]%andb_true_iff.
  apply negb_true_iff in Ha1, Hb1. by rewrite Ha1, Hb1, Ha2.
Qed.

Lemma prefer_other a b :
  is_other a = true -> is_best b = false -> (prefer bestProvider apiKeyId a b <? 0) = false.
Proof.
  unfold is_other, is_best, prefer.
  intros [Ha1 Ha2]%andb_true_iff Hb.
  apply negb_true_iff in Ha1, Ha2. rewrite Ha1, Hb, Ha2. by case_match.
Qed.

Lemma rank_cases k :
  (is_best k = true /\ is_linked k = false /\ is_other k = false)
  \/ (is_best k = false /\ is_linked k = true /\ is_other k = false)
  \/ (is_best k = false /\ is_linked k = false /\ is_other k = true).
Proof.
  unfold is_linked, is_other. destruct (is_best k), (String.eqb (ak_id k) apiKeyId); cbn; tauto.
Qed.

Lemma filter_snoc {A} (f : A -> bool) l x :
  List.filter f (l ++ [x]) = List.filter f l ++ (if f x then [x] else []).
Proof. by rewrite List.filter_app. Qed.

Lemma filter_empty_of_length {A} (f : A -> bool) seen x todo :
  (length (List.filter f (seen ++ x :: todo)) <= 1)%nat -> f x = true ->
  List.filter f seen = [].
Proof.
  rewrite List.filter_app, length_app. cbn [List.filter]. intros Hlen Hx.
  rewrite Hx in Hlen. cbn [length] in Hlen. destruct (List.filter f seen); [done|cbn in Hlen; lia].
Qed.

Lemma Forall_filter_pred {A} (f : A -> bool) l : Forall (fun y => f y = true) (List.filter f l).
Proof.
  apply Forall_forall. intros y Hy. apply list_elem_of_In, filter_In in Hy. tauto.
Qed.

(** With at most one key of the best provider and at most one linked key
    beside it, the comparator orders the keys, and the sorted list is: the
    key of the best provider, the linked key, the others as they came. *)
Lemma sortApiKeys_ranked_from todo : forall seen,
  (length (List.filter is_best (seen ++ todo)) <= 1)%nat ->
  (length (List.filter is_linked (seen ++ todo)) <= 1)%nat ->
  fold_left (fun sorted x => sort_insert (prefer bestProvider apiKeyId) x sorted) todo
    (List.filter is_best seen ++ List.filter is_linked seen ++ List.filter is_other seen)
  = List.filter is_best (seen ++ todo) ++ List.filter is_linked (seen ++ todo)
    ++ List.filter is_other (seen ++ todo).
Proof.
  induction todo as [|x todo IH]; intros seen Hb Hl.
  - by rewrite !app_nil_r.
  - cbn [fold_left].
    replace (seen ++ x :: todo) with ((seen ++ [x]) ++ todo) in * by (by rewrite <- app_assoc).
    rewrite <- IH by done. f_equal. clear IH.
    rewrite <- app_assoc in Hb, Hl. cbn [app] in Hb, Hl.
    rewrite !filter_snoc.
    destruct (rank_cases x) as [(Hx & Hxl & Hxo)|[(Hxb & Hx & Hxo)|(Hxb & Hxl & Hx)]].
    + rewrite Hx, Hxl, Hxo, !app_nil_r, (filter_empty_of_length _ _ _ _ Hb Hx). cbn [app].
      apply sort_insert_front, Forall_forall. intros y _. by apply prefer_best.
    + rewrite Hxb, Hx, Hxo, !app_nil_r, (filter_empty_of_length _ _ _ _ Hl Hx). cbn [app].
      destruct (List.filter is_other seen) as [|y ys] eqn:Eo.
      * rewrite !app_nil_r. apply sort_insert_end.
        eapply Forall_impl; [apply Forall_filter_pred|].
        cbn. intros y Hy. by apply prefer_after_best.
      * apply sort_insert_before.
        -- eapply Forall_impl; [apply Forall_filter_pred|].
           cbn. intros z Hz. by apply prefer_after_best.
        -- apply prefer_linked_other; [done|].
           assert (In y (List.filter is_other seen)) as Hy by (rewrite Eo; by left).
           apply filter_In in Hy. tauto.
    + rewrite Hxb, Hxl, Hx, !app_nil_r, !app_assoc. apply sort_insert_end.
      rewrite <- app_assoc. apply Forall_app. split; [|apply Forall_app; split].
      * eapply Forall_impl; [apply Forall_filter_pred|]. cbn. intros y Hy.
        by apply prefer_after_best.
      * apply Forall_forall. intros y Hy. apply list_elem_of_In, filter_In in Hy as [_ Hy].
        apply prefer_other; [done|]. by eapply is_linked_not_best.
      * apply Forall_forall. intros y Hy. apply list_elem_of_In, filter_In in Hy as [_ Hy].
        apply prefer_other; [done|]. by eapply is_other_not_best.
Qed.

Lemma sortApiKeys_ranked keys :
  (length (List.filter is_best keys) <= 1)%nat ->
  (length (List.filter is_linked keys) <= 1)%nat ->
  sortApiKeys bestProvider apiKeyId keys
  = List.filter is_best keys ++ List.filter is_linked keys ++ List.filter is_other keys.
Proof. intros Hb Hl. exact (sortApiKeys_ranked_from keys [] Hb Hl). Qed.

End SortApiKeys.

Lemma filter_id_at_most_one (l : list ApiKey) (id : string) :
  NoDup (map ak_id l) ->
  (length (List.filter (fun k => String.eqb (ak_id k) id) l) <= 1)%nat.
Proof.
  induction l as [|k l IH]; intros Hnd; [cbn; lia|].
  cbn [map] in Hnd. apply NoDup_cons in Hnd as [Hk Hnd]. cbn [List.filter].
  destruct (String.eqb_spec (ak_id k) id) as [Hid|Hid]; [|by apply IH].
  assert (List.filter (fun k0 => String.eqb (ak_id k0) id) l = []) as ->; [|cbn; lia].
  destruct (List.filter _ l) as [|k' ?] eqn:E; [done|]. exfalso. apply Hk.
  assert (In k' (List.filter (fun k0 => String.eqb (ak_id k0) id) l)) as Hin
    by (rewrite E; by left).
  apply filter_In in Hin as [Hin Heq]. apply String.eqb_eq in Heq.
  apply list_elem_of_In, in_map_iff. exists k'. split; [congruence|done].
Qed.




(** ** The fallback loop *)

Lemma last_answer_not_ok l : forall init r u,
  Forall fell_through l ->
  last_answer l init = Some (r, u) ->
  (forall r0 u0, init = Some (r0, u0) -> ok r0 = false) ->
  ok r = false.
Proof.
  unfold last_answer. induction l as [|[k a] l IH]; intros init r u Hall Hlast Hinit.
  - cbn in Hlast. by eapply Hinit.
  - apply Forall_cons in Hall as [Hk Hall]. cbn [fold_left snd] in Hlast.
    eapply IH; [done|exact Hlast|]. unfold fell_through in Hk. cbn [snd] in Hk.
    destruct a as [|e|e| |ra ua]; try done. by intros r0 u0 [= <- <-].
Qed.

(** Every run of the loop is of one of three kinds: all attempts fall
    through, or the first that does not is a 2xx answer, or it is a key
    that cannot be read or sent. *)
Lemma attempts_cases (tried : list (ApiKey * Attempt)) :
  Forall fell_through tried
  \/ (exists pre k r u post,
        tried = pre ++ (k, Answered r u) :: post /\ Forall fell_through pre /\ ok r = true)
  \/ (exists pre k a e post,
        tried = pre ++ (k, a) :: post /\ Forall fell_through pre /\ refused a = Some e).
Proof.
  induction tried as [|[k a] tried IH]; [by left|].
  assert (fell_through (k, a)
          \/ (exists r u, a = Answered r u /\ ok r = true)
          \/ (exists e, refused a = Some e)) as [Hft|[(r & u & -> & Hok)|[e He]]].
  { unfold fell_through. destruct a as [|e|e| |r u]; cbn; eauto.
    destruct (ok r) eqn:E; eauto 10. }
  - destruct IH as [Hall|[(pre & k' & r & u & post & -> & Hpre & Hok)
                         |(pre & k' & a' & e & post & -> & Hpre & He)]].
    + left. by constructor.
    + right; left. exists ((k, a) :: pre), k', r, u, post. split; [done|]. split; [|done].
      by constructor.
    + right; right. exists ((k, a) :: pre), k', a', e, post. split; [done|]. split; [|done].
      by constructor.
  - right; left. exists [], k, r, u, tried. by repeat split.
  - right; right. exists [], k, a, e, tried. by repeat split.
Qed.

Section FallbackClaims.
Context `{NodeCrypto}.
Variable env : option string.
Variable clock : ProxyClock.
Variable fetch : nat -> UpstreamRequest -> FetchResult.
Variable request : Request.
Variable path : list string.

Local Abbreviation tryProviders := (tryProviders env fetch request path).
Local Abbreviation attempts_from := (attempts_from env fetch request path).
Local Abbreviation attempt := (attempt env fetch request path).

(** One pass of the loop, by what the attempt comes to. *)
Lemma tryProviders_cons apiKey rest st :
  tryProviders (apiKey :: rest) st =
  match attempt (calls st) apiKey with
  | Skipped =>
      tryProviders rest {| proxyResponse := proxyResponse st; selectedApiKey := apiKey;
                           calls := calls st |}
  | KeyUnreadable e | HeaderRefused e => Throw e
  | Unreachable =>
      tryProviders rest {| proxyResponse := proxyResponse st; selectedApiKey := apiKey;
                           calls := S (calls st) |}
  | Answered r usage =>
      let st' := {| proxyResponse := Some (r, usage); selectedApiKey := apiKey;
                    calls := S (calls st) |} in
      if ok r then Ok st' else tryProviders rest st'
  end.
Proof.
  cbn [tryProviders]. unfold attempt. cbn [calls].
  destruct (PROVIDER_ENDPOINTS (ak_provider apiKey)); [|done].
  destruct (decrypt env (ak_encryptedKey apiKey)); [|done].
  destruct (upstream_request _ _ _ _ _); [|done].
  by destruct (fetch _ _).
Qed.

(** When every attempt falls through, the loop runs to the end of the list
    and keeps the last response it was given. *)
Lemma tryProviders_fall_through keys : forall st,
  Forall fell_through (attempts_from (calls st) keys) ->
  tryProviders keys st
  = Ok {| proxyResponse := last_answer (attempts_from (calls st) keys) (proxyResponse st);
          selectedApiKey := last_key (attempts_from (calls st) keys) (selectedApiKey st);
          calls := calls st + fetch_count (attempts_from (calls st) keys) |}.
Proof.
  induction keys as [|k keys IH]; intros st Hall.
  - cbn. rewrite Nat.add_0_r. by destruct st.
  - rewrite tryProviders_cons. cbn [attempts_from] in *.
    apply Forall_cons in Hall as [Hk Hall]. unfold fell_through in Hk. cbn [snd] in Hk.
    unfold last_answer, last_key, fetch_count. cbn [fold_left List.filter fst snd].
    destruct (attempt (calls st) k) as [|e|e| |r u]; cbn [fetched] in *; try done.
    + rewrite IH by done. cbn [calls proxyResponse selectedApiKey]. done.
    + rewrite IH by done. cbn [calls proxyResponse selectedApiKey length].
      unfold last_answer, last_key, fetch_count. do 2 f_equal. lia.
    + rewrite Hk. rewrite IH by done. cbn [calls proxyResponse selectedApiKey length].
      unfold last_answer, last_key, fetch_count. do 2 f_equal. lia.
Qed.

(** The first attempt that is answered 2xx ends the loop; no key after it
    is tried. *)
Lemma tryProviders_commit pre : forall keys st k r u post,
  attempts_from (calls st) keys = pre ++ (k, Answered r u) :: post ->
  Forall fell_through pre ->
  ok r = true ->
  tryProviders keys st
  = Ok {| proxyResponse := Some (r, u); selectedApiKey := k;
          calls := calls st + fetch_count pre + 1 |}.
Proof.
  induction pre as [|[k' a'] pre IH]; intros keys st k r u post Has Hpre Hok.
  - destruct keys as [|k1 keys]; [done|]. cbn [attempts_from app] in Has.
    injection Has as -> Ha _. rewrite tryProviders_cons, Ha. cbn zeta. rewrite Hok.
    unfold fetch_count. cbn. do 2 f_equal. lia.
  - destruct keys as [|k1 keys]; [done|]. cbn [attempts_from app] in Has.
    injection Has as -> Ha Hrest. apply Forall_cons in Hpre as [Hk Hpre].
    unfold fell_through in Hk. cbn [snd] in Hk.
    rewrite tryProviders_cons, Ha. rewrite Ha in Hrest.
    unfold fetch_count. cbn [List.filter snd].
    destruct a' as [|e|e| |r' u']; cbn [fetched] in *; try done.
    + erewrite IH; [|exact Hrest|done|done]. done.
    + erewrite IH; [|exact Hrest|done|done]. cbn [calls length].
      unfold fetch_count. do 2 f_equal. lia.
    + cbn zeta. rewrite Hk. erewrite IH; [|exact Hrest|done|done]. cbn [calls length].
      unfold fetch_count. do 2 f_equal. lia.
Qed.

(** A stored credential that cannot be decrypted, or that [set] refuses,
    ends the loop with the exception ([handleProxy] turns it into a 500). *)
Lemma tryProviders_refused pre : forall keys st k a e post,
  attempts_from (calls st) keys = pre ++ (k, a) :: post ->
  Forall fell_through pre ->
  refused a = Some e ->
  tryProviders keys st = Throw e.
Proof.
  induction pre as [|[k' a'] pre IH]; intros keys st k a e post Has Hpre He.
  - destruct keys as [|k1 keys]; [done|]. cbn [attempts_from app] in Has.
    injection Has as -> Ha _. rewrite tryProviders_cons, Ha.
    destruct a; cbn in He; try discriminate; by injection He as ->.
  - destruct keys as [|k1 keys]; [done|]. cbn [attempts_from app] in Has.
    injection Has as -> Ha Hrest. apply Forall_cons in Hpre as [Hk Hpre].
    unfold fell_through in Hk. cbn [snd] in Hk.
    rewrite tryProviders_cons, Ha. rewrite Ha in Hrest.
    destruct a' as [|e'|e'| |r' u']; cbn [fetched] in *; try done.
    + by erewrite IH.
    + by erewrite IH.
    + cbn zeta. rewrite Hk. by erewrite IH.
Qed.

Variable sharedKey : SharedKey.
Variable clientIP : string.
Variable rateLimitResult : RateLimitResult.
Variable requestedModel : option string.

Local Abbreviation respond :=
  (respond clock request path sharedKey clientIP rateLimitResult requestedModel).

Lemma respond_nothing st w :
  proxyResponse st = None ->
  respond st w = (Ok (error_response 502 "All available providers failed"), w).
Proof. intros Hn. unfold respond. by rewrite Hn. Qed.

(** With the fast store down a 2xx answer is lost where its latency is to
    be recorded. *)
Lemma respond_store_down st w r u :
  proxyResponse st = Some (r, u) -> ok r = true -> rup (redis w) = false ->
  respond st w = (Throw RedisError, w).
Proof.
  intros Hs Hok Hdown. unfold respond. rewrite Hs, Hok.
  unfold bind at 1, recordLatency, redis_set_ex. by rewrite redis_down.
Qed.

(** Otherwise the answer is metered and handed to the [Response]
    constructor. *)
Lemma respond_forwards st w r u :
  proxyResponse st = Some (r, u) ->
  ok r = false \/ rup (redis w) = true ->
  exists w',
    respond st w
    = (forwarded_response r (endTime clock - startTime clock) (ak_provider (selectedApiKey st))
         sharedKey rateLimitResult, w').
Proof.
  intros Hs Hcase. unfold respond. rewrite Hs.
  destruct (ok r) eqn:Hok.
  - destruct Hcase as [?|Hup]; [done|].
    unfold bind at 1, recordLatency, redis_set_ex, redis_cmd. rewrite Hup.
    unfold bind, log_usage, of_outcome. eauto.
  - unfold bind, log_usage, of_outcome, ret. eauto.
Qed.

Local Abbreviation handed := (handed clock).

Lemma respond_handed st w r u :
  proxyResponse st = Some (r, u) ->
  ok r = false \/ rup (redis w) = true ->
  presentable r = true ->
  exists resp w', respond st w = (Ok resp, w') /\ handed resp r (selectedApiKey st).
Proof.
  intros Hs Hcase Hst. destruct (respond_forwards st w r u Hs Hcase) as [w' Hrun].
  destruct (forwarded_response_handed clock r (selectedApiKey st) sharedKey rateLimitResult Hst)
    as (resp & Hresp & Hhanded).
  rewrite Hresp in Hrun. by exists resp, w'.
Qed.

Lemma respond_refused st w r u :
  proxyResponse st = Some (r, u) ->
  ok r = false \/ rup (redis w) = true ->
  presentable r = false ->
  exists e w', respond st w = (Throw e, w').
Proof.
  intros Hs Hcase Hst.
  destruct (respond_forwards st w r u Hs Hcase) as [w' Hrun].
  destruct (forwarded_response_refused r (endTime clock - startTime clock)
              (ak_provider (selectedApiKey st)) sharedKey rateLimitResult Hst) as [msg Hmsg].
  rewrite Hmsg in Hrun. eauto.
Qed.

(** How the parts of [handleProxy] fit: for a request that passes the answer
    is what [respond] makes of the state the loop ends in, and an exception
    anywhere becomes a 500. *)
Lemma handleProxy_admitted k ks st w w1 w2 :
  authorize clock request w = (Ok (Pass sharedKey clientIP rateLimitResult), w1) ->
  candidateOrder (routeTime clock) request sharedKey
    (List.find (fun a => String.eqb (ak_id a) (sk_apiKeyId sharedKey)) (apiKeys (db w1))) w1
  = (Ok (k :: ks, requestedModel), w2) ->
  tryProviders (k :: ks) {| proxyResponse := None; selectedApiKey := k; calls := O |} = Ok st ->
  handleProxy env clock fetch request path w
  = match respond st w2 with
    | (Ok r, w') => (Ok r, w')
    | (Throw _, w') => (Ok (error_response 500 "Internal proxy error"), w')
    end.
Proof.
  intros Hadmit Horder Hloop. unfold handleProxy, try_catch.
  rewrite (bind_ok _ _ _ _ _ Hadmit). unfold forward.
  erewrite bind_ok; [|reflexivity]. rewrite (bind_ok _ _ _ _ _ Horder). cbn [fst snd].
  unfold of_outcome at 1, bind at 1. rewrite Hloop.
  by destruct (respond _ _) as [[r|e] w'].
Qed.

Lemma handleProxy_loop_throws k ks e w w1 w2 :
  authorize clock request w = (Ok (Pass sharedKey clientIP rateLimitResult), w1) ->
  candidateOrder (routeTime clock) request sharedKey
    (List.find (fun a => String.eqb (ak_id a) (sk_apiKeyId sharedKey)) (apiKeys (db w1))) w1
  = (Ok (k :: ks, requestedModel), w2) ->
  tryProviders (k :: ks) {| proxyResponse := None; selectedApiKey := k; calls := O |}
  = Throw e ->
  handleProxy env clock fetch request path w
  = (Ok (error_response 500 "Internal proxy error"), w2).
Proof.
  intros Hadmit Horder Hloop. unfold handleProxy, try_catch.
  rewrite (bind_ok _ _ _ _ _ Hadmit). unfold forward.
  erewrite bind_ok; [|reflexivity]. rewrite (bind_ok _ _ _ _ _ Horder). cbn [fst snd].
  unfold of_outcome at 1, bind at 1. by rewrite Hloop.
Qed.

(** C1, amended.  For a request that reaches the transport (it passes the
    checks, and the router finds a candidate key) the keys are tried in
    order, and the run is of one of three kinds.

    (1) The first attempt that does not fall through is a 2xx answer: it is
    committed, no later key is tried, and the client is handed its status
    and body; unless the fast store is down, where the latency of the 2xx
    answer cannot be recorded, or the [Response] constructor does not take
    its reason phrase: then the client gets 500.

    (2) The first attempt that does not fall through is a key whose stored
    text cannot be decrypted, or that [Headers.set] refuses: the client
    gets 500 at once, whatever was answered before.

    (3) Every attempt falls through, which covers a key without endpoint, a
    transport error, and every answer that is not 2xx, 4xx as well as 5xx:
    all keys are tried; the client is handed the last answer the loop was
    given, status unchanged (500 when the [Response] constructor does not
    take its status, one outside 200..599, or its reason phrase), and gets
    502 with body [{"error":"All available providers failed"}] only when no
    attempt was answered at all. *)
Theorem fallback_loop_correct (k0 : ApiKey) (ks : list ApiKey) (w w1 w2 : world) :
  authorize clock request w = (Ok (Pass sharedKey clientIP rateLimitResult), w1) ->
  candidateOrder (routeTime clock) request sharedKey
    (List.find (fun a => String.eqb (ak_id a) (sk_apiKeyId sharedKey)) (apiKeys (db w1))) w1
  = (Ok (k0 :: ks, requestedModel), w2) ->
  let st0 := {| proxyResponse := None; selectedApiKey := k0; calls := O |} in
  let tried := attempts_from O (k0 :: ks) in
  let answer := (handleProxy env clock fetch request path w).1 in
  let failed := Ok (error_response 500 "Internal proxy error") in
  (Forall fell_through tried
   \/ (exists pre k r u post,
         tried = pre ++ (k, Answered r u) :: post /\ Forall fell_through pre /\ ok r = true)
   \/ (exists pre k a e post,
         tried = pre ++ (k, a) :: post /\ Forall fell_through pre /\ refused a = Some e))
  /\ (forall pre k r u post,
        tried = pre ++ (k, Answered r u) :: post ->
        Forall fell_through pre ->
        ok r = true ->
        (exists st,
           tryProviders (k0 :: ks) st0 = Ok st
           /\ selectedApiKey st = k
           /\ calls st = (fetch_count pre + 1)%nat)
        /\ (rup (redis w2) = true -> presentable r = true ->
            exists resp, answer = Ok resp /\ handed resp r k)
        /\ (rup (redis w2) = false \/ presentable r = false -> answer = failed))
  /\ (forall pre k a e post,
        tried = pre ++ (k, a) :: post ->
        Forall fell_through pre ->
        refused a = Some e ->
        tryProviders (k0 :: ks) st0 = Throw e /\ answer = failed)
  /\ (Forall fell_through tried ->
      (exists st,
         tryProviders (k0 :: ks) st0 = Ok st
         /\ proxyResponse st = last_answer tried None
         /\ calls st = fetch_count tried)
      /\ (last_answer tried None = None ->
          answer = Ok (error_response 502 "All available providers failed"))
      /\ (forall r u,
            last_answer tried None = Some (r, u) ->
            ok r = false
            /\ (presentable r = true ->
                exists resp, answer = Ok resp /\ handed resp r (last_key tried k0))
            /\ (presentable r = false -> answer = failed))).
Proof.
  intros Hadmit Horder st0 tried answer failed.
  split; [apply attempts_cases|]. split; [|split].
  - intros pre k r u post Htried Hpre Hok.
    pose proof (tryProviders_commit pre (k0 :: ks) st0 k r u post Htried Hpre Hok) as Hrun.
    cbn [calls st0] in Hrun.
    split; [eexists; split; [exact Hrun|]; cbn [selectedApiKey calls]; split; [done|lia]|].
    subst answer. rewrite (handleProxy_admitted k0 ks _ w w1 w2 Hadmit Horder Hrun). split.
    + intros Hup Hst.
      destruct (respond_handed
                  {| proxyResponse := Some (r, u); selectedApiKey := k;
                     calls := (0 + fetch_count pre + 1)%nat |} w2 r u eq_refl (or_intror Hup)
                  Hst) as (resp & w' & Hw' & Hresp).
      rewrite Hw'. by exists resp.
    + intros Hcase. destruct (rup (redis w2)) eqn:Hup.
      * destruct Hcase as [?|Hst]; [done|].
        destruct (respond_refused
                    {| proxyResponse := Some (r, u); selectedApiKey := k;
                       calls := (0 + fetch_count pre + 1)%nat |} w2 r u eq_refl
                    (or_intror Hup) Hst) as (e & w' & Hw').
        by rewrite Hw'.
      * by rewrite (respond_store_down
                      {| proxyResponse := Some (r, u); selectedApiKey := k;
                         calls := (0 + fetch_count pre + 1)%nat |} w2 r u eq_refl Hok Hup).
  - intros pre k a e post Htried Hpre He.
    pose proof (tryProviders_refused pre (k0 :: ks) st0 k a e post Htried Hpre He) as Hrun.
    split; [exact Hrun|]. subst answer.
    by rewrite (handleProxy_loop_throws k0 ks e w w1 w2 Hadmit Horder Hrun).
  - intros Hall.
    pose proof (tryProviders_fall_through (k0 :: ks) st0 Hall) as Hrun.
    cbn [calls proxyResponse selectedApiKey st0] in Hrun. fold tried in Hrun.
    split; [eexists; split; [exact Hrun|]; by cbn [proxyResponse calls]|].
    subst answer. rewrite (handleProxy_admitted k0 ks _ w w1 w2 Hadmit Horder Hrun). split.
    + intros Hnone. by rewrite respond_nothing.
    + intros r u Hlast.
      assert (ok r = false) as Hok
        by (eapply last_answer_not_ok; [exact Hall|exact Hlast|done]).
      split; [exact Hok|]. split.
      * intros Hst.
        destruct (respond_handed
                    {| proxyResponse := last_answer tried None;
                       selectedApiKey := last_key tried k0;
                       calls := (0 + fetch_count tried)%nat |} w2 r u Hlast (or_introl Hok) Hst)
          as (resp & w' & Hw' & Hresp).
        rewrite Hw'. by exists resp.
      * intros Hst.
        destruct (respond_refused
                    {| proxyResponse := last_answer tried None;
                       selectedApiKey := last_key tried k0;
                       calls := (0 + fetch_count tried)%nat |} w2 r u Hlast (or_introl Hok) Hst)
          as (e & w' & Hw').
        by rewrite Hw'.
Qed.

End FallbackClaims.

(** C1, as stated, fails twice.  The first candidate answers 404 and the
    second 200: the client gets the 200, not the 404.  Every candidate
    answers 500: the client gets 500, not 502. *)
Lemma fallback_counterexample :
  let w := world_with (token_with [] None "key1") [openai_key; anthropic_key] in
  let run fetch := (handleProxy (H := toy_crypto) sample_env (sample_clock 0 5) fetch
                      (request_from "10.0.1.5" NotJson) ["v1"; "chat"; "completions"] w).1 in
  map snd (attempts_from (H := toy_crypto) sample_env fetch_404_then_200
             (request_from "10.0.1.5" NotJson) ["v1"; "chat"; "completions"] 0
             [openai_key; anthropic_key])
  = [ Answered {| status := 404; statusText := ""; res_headers := []; res_body := "upstream" |}
        None;
      Answered {| status := 200; statusText := ""; res_headers := []; res_body := "upstream" |}
        None ]
  /\ outcome_map status (run fetch_404_then_200) = Ok 200
  /\ outcome_map status (run fetch_always_500) = Ok 500.
Proof. vm_compute. auto. Qed.

(** Both candidates answer 500: the client is handed the second 500. *)
Lemma fallback_loop_correct_witness :
  let w := world_with (token_with [] None "key1") [openai_key; anthropic_key] in
  exists resp,
    (handleProxy (H := toy_crypto) sample_env (sample_clock 0 5) fetch_always_500
       (request_from "10.0.1.5" NotJson) ["v1"; "chat"; "completions"] w).1 = Ok resp
    /\ status resp = 500
    /\ res_body resp = "upstream"
    /\ headers_get "X-Feen-Provider" (res_headers resp) = Some "ANTHROPIC".
Proof.
  intros w.
  edestruct (fallback_loop_correct (H := toy_crypto) sample_env (sample_clock 0 5)
               fetch_always_500 (request_from "10.0.1.5" NotJson)
               ["v1"; "chat"; "completions"] (token_with [] None "key1") "10.0.1.5"
               {| rl_allowed := true; remaining := 1; resetAt := 60 |} None
               openai_key [anthropic_key] w)
    as (_ & _ & _ & Hall); [vm_compute; reflexivity|vm_compute; reflexivity|].
  destruct Hall as (_ & _ & Hlast); [vm_compute; repeat constructor|].
  destruct (Hlast {| status := 500; statusText := ""; res_headers := []; res_body := "upstream" |}
              None eq_refl) as (_ & Hin & _).
  destruct (Hin eq_refl) as (resp & Hresp & Hst & _ & _ & Hbody & Hprov & _).
  exists resp. split; [exact Hresp|]. split; [exact Hst|]. split; [exact Hbody|exact Hprov].
Defined.

(* ===================================================================== *)
(** * Part III: further properties of the code                            *)
(* ===================================================================== *)

(** ** Numbers as text and back *)

Lemma digit_char_is_digit d : 0 <= d < 10 -> is_digit (digit_char d) = true.
Proof.
  intros Hd. assert (d = 0 \/ d = 1 \/ d = 2 \/ d = 3 \/ d = 4 \/ d = 5 \/ d = 6 \/ d = 7
                     \/ d = 8 \/ d = 9) as Hcases by lia.
  by destruct Hcases as [->|[->|[->|[->|[->|[->|[->|[->|[->| ->]]]]]]]]].
Qed.

Lemma digit_val_char d : 0 <= d < 10 -> digit_val (digit_char d) = d.
Proof.
  intros Hd. assert (d = 0 \/ d = 1 \/ d = 2 \/ d = 3 \/ d = 4 \/ d = 5 \/ d = 6 \/ d = 7
                     \/ d = 8 \/ d = 9) as Hcases by lia.
  by destruct Hcases as [->|[->|[->|[->|[->|[->|[->|[->|[->| ->]]]]]]]]].
Qed.

(** Reading the digits written in front of [acc] gives the number back. *)
Lemma parse_digits_fuel f : forall n acc a,
  0 <= n < 2 ^ Z.of_nat (S f) ->
  default 0 a = 0 ->
  parse_digits (digits_fuel (S f) n acc) a = parse_digits acc (Some n).
Proof.
  induction f as [|f IH]; intros n acc a Hn Ha.
  - cbn [digits_fuel]. change (2 ^ Z.of_nat 1) with 2 in Hn.
    assert (n / 10 = 0) as -> by (apply Z.div_small; lia). cbn [Z.eqb parse_digits].
    rewrite Z.mod_small by lia.
    rewrite digit_char_is_digit, digit_val_char, Ha by lia. do 2 f_equal; lia.
  - remember (S f) as f' eqn:Hf'. cbn [digits_fuel].
    destruct (Z.eqb_spec (n / 10) 0) as [Hz|Hnz].
    + cbn [parse_digits]. assert (0 <= n < 10) as Hsmall.
      { split; [lia|]. destruct (Z_lt_le_dec n 10) as [?|Hge]; [done|].
        assert (1 <= n / 10) by (apply Z.div_le_lower_bound; lia). lia. }
      rewrite Z.mod_small by lia.
      rewrite digit_char_is_digit, digit_val_char, Ha by lia. do 2 f_equal; lia.
    + subst f'. rewrite IH; [| |done].
      * cbn [parse_digits].
        pose proof (Z.mod_pos_bound n 10 ltac:(lia)) as Hm.
        rewrite digit_char_is_digit, digit_val_char by lia. cbn [default]. unfold id. pose proof (Z.div_mod n 10 ltac:(lia)). do 2 f_equal; lia.
      * split; [apply Z.div_pos; lia|].
        apply Z.div_lt_upper_bound; [lia|].
        replace (Z.of_nat (S (S f))) with (Z.succ (Z.of_nat (S f))) in Hn by lia.
        rewrite Z.pow_succ_r in Hn by lia. lia.
Qed.

Lemma digits_start fuel n acc :
  0 <= n ->
  exists c rest, digits_fuel (S fuel) n acc = String c rest /\ is_digit c = true.
Proof.
  revert n acc. induction fuel as [|f IH]; intros n acc Hn.
  - cbn [digits_fuel]. destruct (n / 10 =? 0);
      (eexists _, _; split; [reflexivity|]);
      apply digit_char_is_digit, Z.mod_pos_bound; lia.
  - remember (S f) as f'. cbn [digits_fuel]. destruct (n / 10 =? 0).
    + eexists _, _. split; [reflexivity|]. apply digit_char_is_digit, Z.mod_pos_bound; lia.
    + subst f'. apply IH. apply Z.div_pos; lia.
Qed.

Lemma log2_fuel n : 0 <= n -> 0 <= n < 2 ^ Z.of_nat (S (Z.to_nat (Z.log2 n))).
Proof.
  intros Hn. split; [done|].
  destruct (Z.eq_dec n 0) as [->|Hnz]; [done|].
  pose proof (Z.log2_spec n ltac:(lia)) as [_ Hhi].
  pose proof (Z.log2_nonneg n).
  replace (Z.of_nat (S (Z.to_nat (Z.log2 n)))) with (Z.succ (Z.log2 n)) by lia. done.
Qed.

Lemma parseInt_digits c rest :
  is_digit c = true -> parseInt (String c rest) = parse_digits (String c rest) None.
Proof.
  intros Hc. unfold parseInt.
  destruct c as [[] [] [] [] [] [] [] []]; try discriminate; reflexivity.
Qed.

Lemma parseInt_minus digits :
  parseInt (String "-" digits) = Z.opp <$> parse_digits digits None.
Proof. reflexivity. Qed.

(** [parseInt(n.toString(), 10)] is [n], for every integer. *)
Lemma parseInt_toString (n : Z) : parseInt (toString n) = Some n.
Proof.
  unfold toString. destruct (Z.ltb_spec n 0) as [Hneg|Hpos].
  - rewrite parseInt_minus.
    rewrite parse_digits_fuel; [|apply log2_fuel; lia|done].
    cbn [parse_digits fmap option_fmap option_map]. f_equal. lia.
  - destruct (digits_start (Z.to_nat (Z.log2 n)) n "" Hpos) as (c & rest & Heq & Hc).
    rewrite Heq, parseInt_digits by done. rewrite <- Heq.
    rewrite parse_digits_fuel; [done|by apply log2_fuel|done].
Qed.

(** ** Request signing: client and server together *)

Section SigningExtras.
Context `{NodeCrypto}.

(** X1. A request signed by [signRequest] is accepted by [verifySignature]
    for the same method, path, body, token and secret, whenever the server
    clock is within 300 seconds of the signing time and the nonce has not
    been seen; its nonce is then in the cache, and presenting the same
    headers again within the window is answered with the replay error. *)
Theorem signed_request_verifies
    (cache : gmap string Z) (nowMs nowMs' nowMs'' : Z) (rnd : list ascii)
    (method path : string) (body : option string) (tokenId secret : string) :
  let h := signRequest nowMs rnd method path body tokenId secret in
  let cache' :=
    cleanOldNonces nowMs' (<[tokenId +:+ ":" +:+ hex rnd := unix_seconds nowMs]> cache) in
  Z.abs (unix_seconds nowMs' - unix_seconds nowMs) <= 300 ->
  Z.abs (unix_seconds nowMs'' - unix_seconds nowMs) <= 300 ->
  cache !! (tokenId +:+ ":" +:+ hex rnd) = None ->
  verifySignature cache nowMs' h method path body tokenId secret
  = (Ok {| valid := true; error := None |}, cache')
  /\ verifySignature cache' nowMs'' h method path body tokenId secret
     = (Ok {| valid := false; error := Some "Nonce already used (replay attack detected)" |},
        cache').
Proof.
  intros h cache' Hfresh Hfresh' Hnew. split.
  - unfold verifySignature. cbn [timestamp signature nonce h signRequest].
    rewrite parseInt_toString. unfold SIGNATURE_VALIDITY_SECONDS.
    destruct (Z.gtb_spec (Z.abs (unix_seconds nowMs' - unix_seconds nowMs)) 300); [lia|].
    rewrite Hnew. rewrite bool_decide_eq_false_2 by (by intros [? ?]).
    unfold timingSafeEqual. rewrite Nat.eqb_refl, bool_decide_eq_true_2 by done.
    reflexivity.
  - eapply verifySignature_replay.
    + cbn [timestamp h signRequest]. apply parseInt_toString.
    + done.
    + cbn [nonce h signRequest]. subst cache'. apply cleanOldNonces_lookup.
      * by rewrite lookup_insert_eq.
      * lia.
Qed.


End SigningExtras.

Lemma signed_request_verifies_witness :
  let h := signRequest (H := toy_crypto) 1000000 sample_iv "post" "/v1/x" (Some "{}") "tok" "s" in
  (verifySignature (H := toy_crypto) ∅ 1200000 h "post" "/v1/x" (Some "{}") "tok" "s").1
  = Ok {| valid := true; error := None |}.
Proof.
  intros h. subst h.
  rewrite (proj1 (signed_request_verifies (H := toy_crypto) ∅ 1000000 1200000 1200000 sample_iv
                    "post" "/v1/x" (Some "{}") "tok" "s"
                    ltac:(vm_compute; discriminate) ltac:(vm_compute; discriminate) eq_refl)).
  reflexivity.
Defined.

(** ** lib/crypto: comparison and display prefix *)

Lemma list_ascii_of_string_inj a b :
  list_ascii_of_string a = list_ascii_of_string b -> a = b.
Proof.
  intros Heq. rewrite <- (string_of_list_ascii_of_string a), Heq.
  apply string_of_list_ascii_of_string.
Qed.

Lemma js_length_ascii s : is_ascii_text s = true -> js_length s = String.length s.
Proof.
  unfold is_ascii_text. induction s as [|c s IH]; [done|].
  cbn [list_ascii_of_string forallb js_length String.length].
  intros [Hc Hs]%andb_prop. rewrite (IH Hs). unfold utf16_units. by rewrite Hc.
Qed.

Lemma Z_of_byte_from z : 0 <= z < 256 -> Z_of_byte (byte_from z) = z.
Proof.
  intros Hz. unfold Z_of_byte, byte_from. rewrite N_ascii_embedding by lia. lia.
Qed.

Lemma utf8_decode_bytes1 u rest :
  0 <= u < 128 -> utf8_decode (utf8_bytes u ++ rest) = u :: utf8_decode rest.
Proof.
  intros Hu. unfold utf8_bytes. destruct (Z.ltb_spec u 128); [|lia].
  cbn [app utf8_decode]. rewrite Z_of_byte_from by lia.
  by destruct (Z.ltb_spec u 128); [|lia].
Qed.

Lemma utf8_decode_bytes2 u rest :
  128 <= u < 2048 -> utf8_decode (utf8_bytes u ++ rest) = u :: utf8_decode rest.
Proof.
  intros Hu. unfold utf8_bytes. destruct (Z.ltb_spec u 128); [lia|].
  destruct (Z.ltb_spec u 2048); [|lia].
  pose proof (Z.div_pos u 64). pose proof (Z.div_lt_upper_bound u 64 32).
  pose proof (Z.mod_pos_bound u 64). pose proof (Z.div_mod u 64).
  cbn [app utf8_decode]. rewrite !Z_of_byte_from by lia.
  destruct (Z.ltb_spec (192 + u / 64) 128); [lia|].
  destruct (Z.ltb_spec (192 + u / 64) 224); [|lia].
  f_equal. lia.
Qed.

Lemma utf8_decode_bytes3 u rest :
  2048 <= u < 65536 -> utf8_decode (utf8_bytes u ++ rest) = u :: utf8_decode rest.
Proof.
  intros Hu. unfold utf8_bytes. destruct (Z.ltb_spec u 128); [lia|].
  destruct (Z.ltb_spec u 2048); [lia|]. destruct (Z.ltb_spec u 65536); [|lia].
  pose proof (Z.div_pos u 4096). pose proof (Z.div_lt_upper_bound u 4096 16).
  pose proof (Z.mod_pos_bound u 64). pose proof (Z.mod_pos_bound (u / 64) 64).
  pose proof (Z.div_mod u 64). pose proof (Z.div_mod (u / 64) 64).
  assert (u / 64 / 64 = u / 4096) by (rewrite Z.div_div by lia; done).
  cbn [app utf8_decode]. rewrite !Z_of_byte_from by lia.
  destruct (Z.ltb_spec (224 + u / 4096) 128); [lia|].
  destruct (Z.ltb_spec (224 + u / 4096) 224); [lia|].
  destruct (Z.ltb_spec (224 + u / 4096) 240); [|lia].
  f_equal. lia.
Qed.

Lemma utf8_decode_bytes4 h l rest :
  55296 <= h < 56320 -> 56320 <= l < 57344 ->
  utf8_decode (utf8_bytes (65536 + (h - 55296) * 1024 + (l - 56320)) ++ rest)
  = h :: l :: utf8_decode rest.
Proof.
  intros Hh Hl. set (cp := 65536 + (h - 55296) * 1024 + (l - 56320)).
  assert (65536 <= cp < 1114112) as Hcp by (subst cp; lia).
  unfold utf8_bytes. destruct (Z.ltb_spec cp 128); [lia|].
  destruct (Z.ltb_spec cp 2048); [lia|]. destruct (Z.ltb_spec cp 65536); [lia|].
  pose proof (Z.div_pos cp 262144). pose proof (Z.div_lt_upper_bound cp 262144 5).
  pose proof (Z.mod_pos_bound cp 64). pose proof (Z.mod_pos_bound (cp / 64) 64).
  pose proof (Z.mod_pos_bound (cp / 4096) 64).
  pose proof (Z.div_mod cp 64). pose proof (Z.div_mod (cp / 64) 64).
  pose proof (Z.div_mod (cp / 4096) 64).
  assert (cp / 64 / 64 = cp / 4096) by (rewrite Z.div_div by lia; done).
  assert (cp / 4096 / 64 = cp / 262144) by (rewrite Z.div_div by lia; done).
  cbn [app utf8_decode]. rewrite !Z_of_byte_from by lia.
  destruct (Z.ltb_spec (240 + cp / 262144) 128); [lia|].
  destruct (Z.ltb_spec (240 + cp / 262144) 224); [lia|].
  destruct (Z.ltb_spec (240 + cp / 262144) 240); [lia|].
  assert ((240 + cp / 262144 - 240) * 262144 + (128 + cp / 4096 mod 64 - 128) * 4096
          + (128 + cp / 64 mod 64 - 128) * 64 + (128 + cp mod 64 - 128) - 65536
          = (h - 55296) * 1024 + (l - 56320)) as -> by lia.
  rewrite <- (Z.div_unique_pos _ 1024 (h - 55296) (l - 56320)) by lia.
  rewrite <- (Z.mod_unique_pos _ 1024 (h - 55296) (l - 56320)) by lia.
  f_equal; [lia|]. f_equal. lia.
Qed.

Lemma utf8_decode_encode_fuel n : forall s,
  (length s <= n)%nat -> well_formed s = true -> utf8_decode (utf8_encode s) = s.
Proof.
  induction n as [|n IH]; intros [|u rest] Hlen Hwf; try done; [cbn in Hlen; lia|].
  cbn [length] in Hlen. cbn [well_formed utf8_encode] in *.
  destruct (is_high_surrogate u) eqn:Hhigh.
  - destruct rest as [|v rest']; [done|]. apply andb_prop in Hwf as [Hlow Hwf].
    rewrite Hlow. unfold is_high_surrogate, is_low_surrogate in *.
    rewrite utf8_decode_bytes4 by lia. rewrite IH; [done| |done]. cbn [length] in Hlen. lia.
  - apply andb_prop in Hwf as [Hwf Hrest]. apply andb_prop in Hwf as [Hwf Hlt].
    apply andb_prop in Hwf as [Hlow Hge]. apply negb_true_iff in Hlow. rewrite Hlow.
    assert (utf8_decode (utf8_bytes u ++ utf8_encode rest) = u :: utf8_decode (utf8_encode rest))
      as ->.
    { destruct (Z.ltb_spec u 128); [apply utf8_decode_bytes1; lia|].
      destruct (Z.ltb_spec u 2048); [apply utf8_decode_bytes2; lia|].
      apply utf8_decode_bytes3; lia. }
    rewrite IH; [done|lia|done].
Qed.

Lemma utf8_encode_inj a b :
  well_formed a = true -> well_formed b = true -> utf8_encode a = utf8_encode b -> a = b.
Proof.
  intros Ha Hb Heq.
  rewrite <- (utf8_decode_encode_fuel (length a) a), <- (utf8_decode_encode_fuel (length b) b)
    by done.
  by rewrite Heq.
Qed.

Lemma utf8_encode_ascii s :
  Forall (fun u => 0 <= u < 128) s -> utf8_encode s = map byte_from s.
Proof.
  induction 1 as [|u rest Hu _ IH]; [done|]. cbn [utf8_encode map].
  unfold is_high_surrogate, is_low_surrogate.
  destruct (Z.leb_spec 55296 u); [lia|]. destruct (Z.leb_spec 56320 u); [lia|].
  cbn [andb]. unfold utf8_bytes. destruct (Z.ltb_spec u 128); [|lia]. by rewrite IH.
Qed.

Lemma utf8_encode_ascii_inj a b :
  Forall (fun u => 0 <= u < 128) a -> Forall (fun u => 0 <= u < 128) b ->
  utf8_encode a = utf8_encode b -> a = b.
Proof.
  intros Ha Hb. rewrite !utf8_encode_ascii by done. revert b Hb.
  induction Ha as [|u a Hu _ IH]; intros [|v b] Hb Heq; try done.
  inversion Hb; subst. cbn [map] in Heq. injection Heq as Huv Hrest.
  f_equal; [|by apply IH].
  apply (f_equal Z_of_byte) in Huv. by rewrite !Z_of_byte_from in Huv by lia.
Qed.

(** X3. [secureCompare] answers true for a string and itself, and for
    two strings without lone surrogates only if they are the same; on ASCII
    strings it answers whether they are equal and never throws.  It is not
    total: the length check counts code units and [timingSafeEqual] bytes,
    so it throws the RangeError of [timingSafeEqual] exactly when the
    strings have the same number of code units and different numbers of
    UTF-8 bytes, as for an accented letter and a plain one.  And it does
    not tell surrogates without a partner apart: [Buffer.from] writes each
    as U+FFFD, so two different such strings compare equal. *)
Theorem secureCompare_correct (a b : list Z) :
  secureCompare a a = Ok true
  /\ secureCompare a b
     = (if (length a =? length b)%nat
           && negb (length (utf8_encode a) =? length (utf8_encode b))%nat
        then Throw (RangeError "Input buffers must have the same byte length")
        else Ok (bool_decide (length a = length b /\ utf8_encode a = utf8_encode b)))
  /\ (well_formed a = true -> well_formed b = true ->
      secureCompare a b = Ok true -> a = b)
  /\ (Forall (fun u => 0 <= u < 128) a -> Forall (fun u => 0 <= u < 128) b ->
      secureCompare a b = Ok (bool_decide (a = b)))
  /\ secureCompare [55296] [56320] = Ok true
  /\ secureCompare [55296] [65533] = Ok true
  /\ secureCompare [233] [101]
     = Throw (RangeError "Input buffers must have the same byte length").
Proof.
  assert (secureCompare a b
          = (if (length a =? length b)%nat
                && negb (length (utf8_encode a) =? length (utf8_encode b))%nat
             then Throw (RangeError "Input buffers must have the same byte length")
             else Ok (bool_decide (length a = length b /\ utf8_encode a = utf8_encode b))))
    as Hgen.
  { unfold secureCompare, timingSafeEqual.
    destruct (Nat.eqb_spec (length a) (length b)) as [Hl|Hl]; cbn [negb andb].
    - destruct (Nat.eqb_spec (length (utf8_encode a)) (length (utf8_encode b))); cbn [negb];
        [|done].
      f_equal. apply bool_decide_ext. tauto.
    - rewrite bool_decide_eq_false_2; [done|]. tauto. }
  split; [|split; [exact Hgen|split; [|split]]].
  - unfold secureCompare, timingSafeEqual. rewrite !Nat.eqb_refl. cbn [negb].
    by rewrite bool_decide_eq_true_2.
  - intros Ha Hb. rewrite Hgen.
    destruct (_ && _); [done|]. intros [= [_ Heq]%bool_decide_eq_true].
    by apply utf8_encode_inj.
  - intros Ha Hb. rewrite Hgen, !utf8_encode_ascii, !length_map by done.
    destruct (Nat.eqb_spec (length a) (length b)) as [Hl|Hl]; cbn [negb andb].
    + f_equal. apply bool_decide_ext. split.
      * intros [_ Heq]. apply utf8_encode_ascii_inj; [done..|].
        by rewrite !utf8_encode_ascii.
      * by intros ->.
    + f_equal. apply bool_decide_ext. split; [tauto|]. by intros ->.
  - repeat split; reflexivity.
Qed.

Lemma secureCompare_correct_witness :
  secureCompare (code_units "feen_abc") (code_units "feen_abd") = Ok false
  /\ secureCompare (code_units "feen_abc") (code_units "feen_abc") = Ok true
  /\ (secureCompare [55357; 56832] [55357; 56833] = Ok true -> False).
Proof.
  pose proof (secureCompare_correct (code_units "feen_abc") (code_units "feen_abd"))
    as (Hsame & _ & _ & Hascii & _).
  split; [|split].
  - rewrite Hascii; [reflexivity|..]; repeat (constructor; [by vm_compute|]); constructor.
  - exact Hsame.
  - intros Heq.
    pose proof (secureCompare_correct [55357; 56832] [55357; 56833]) as (_ & _ & Hwf & _).
    specialize (Hwf eq_refl eq_refl Heq). discriminate.
Defined.

Lemma substring_length s : forall n m,
  (n + m <= String.length s)%nat -> String.length (String.substring n m s) = m.
Proof.
  induction s as [|c s IH]; intros n m Hlen; cbn in Hlen.
  - assert (n = O /\ m = O) as [-> ->] by lia. done.
  - destruct n as [|n]; simpl.
    + destruct m as [|m]; [done|]. simpl. rewrite IH; [done|lia].
    + apply IH. lia.
Qed.

(** X4. The display prefix of an ASCII key.  A key of at most [2 * visibleChars]
    characters is shown as [****].  A longer one is shown as its first and
    last [visibleChars] characters around three dots, [2 * visibleChars + 3]
    characters in all, for every [visibleChars] above 0; with
    [visibleChars = 0] the output is the three dots followed by the whole
    key. *)
Theorem generateKeyPrefix_shape (key : string) (visibleChars : nat) :
  is_ascii_text key = true ->
  ((String.length key <= visibleChars * 2)%nat -> generateKeyPrefix key visibleChars = "****")
  /\ ((visibleChars * 2 < String.length key)%nat -> (0 < visibleChars)%nat ->
      generateKeyPrefix key visibleChars
      = String.substring 0 visibleChars key +:+ "..."
        +:+ String.substring (String.length key - visibleChars) visibleChars key
      /\ String.length (generateKeyPrefix key visibleChars) = (2 * visibleChars + 3)%nat)
  /\ ((0 < String.length key)%nat -> generateKeyPrefix key 0 = "..." +:+ key).
Proof.
  intros _. unfold generateKeyPrefix. split; [|split].
  - intros Hlen. by destruct (Nat.leb_spec (String.length key) (visibleChars * 2)); [|lia].
  - intros Hlen Hpos.
    destruct (Nat.leb_spec (String.length key) (visibleChars * 2)); [lia|].
    unfold slice0, slice_last. destruct visibleChars as [|v]; [lia|]. split; [done|].
    rewrite !string_length_app, !substring_length by lia. cbn [String.length]. lia.
  - intros Hlen. destruct (Nat.leb_spec (String.length key) (0 * 2)); [cbn in *; lia|].
    unfold slice0, slice_last. by destruct key.
Qed.

Lemma generateKeyPrefix_shape_witness :
  generateKeyPrefix "sk-abcdefghijklmnop" 4 = "sk-a...mnop"
  /\ generateKeyPrefix "sk-abcdefghijklmnop" 0 = "...sk-abcdefghijklmnop".
Proof.
  split.
  - rewrite (proj1 (proj1 (proj2 (generateKeyPrefix_shape "sk-abcdefghijklmnop" 4 eq_refl))
                      ltac:(cbn; lia) ltac:(lia))).
    reflexivity.
  - apply (proj2 (proj2 (generateKeyPrefix_shape "sk-abcdefghijklmnop" 0 eq_refl))). cbn. lia.
Defined.

(** ** Two-factor codes *)

Lemma timingSafeEqual_same_length (a b : list ascii) :
  length a = length b -> timingSafeEqual a b = Ok (bool_decide (a = b)).
Proof. intros Hl. unfold timingSafeEqual. by rewrite Hl, Nat.eqb_refl. Qed.

Lemma list_ascii_of_string_app s t :
  list_ascii_of_string (s +:+ t) = list_ascii_of_string s ++ list_ascii_of_string t.
Proof.
  induction s as [|c s IH]; [done|].
  change (c :: list_ascii_of_string (s +:+ t) = c :: (list_ascii_of_string s ++ list_ascii_of_string t)).
  by rewrite IH.
Qed.

Lemma digits_fuel_digits fuel : forall n acc,
  0 <= n ->
  Forall (fun c => is_digit c = true) (list_ascii_of_string acc) ->
  Forall (fun c => is_digit c = true) (list_ascii_of_string (digits_fuel fuel n acc)).
Proof.
  induction fuel as [|f IH]; intros n acc Hn Hacc; cbn [digits_fuel]; [done|].
  assert (Forall (fun c => is_digit c = true)
            (list_ascii_of_string (String (digit_char (n mod 10)) acc))) as Hacc'.
  { cbn [list_ascii_of_string]. constructor; [|done].
    apply digit_char_is_digit. apply Z.mod_pos_bound. lia. }
  destruct (n / 10 =? 0); [done|]. apply IH; [|done]. apply Z.div_pos; lia.
Qed.

Section TwoFactorExtras.
Context `{NodeCrypto}.

(** X5. A code of [generateTOTP] is six decimal digits, whatever the secret
    and the time step. *)
Theorem generateTOTP_six_digits (secret : string) (timeStep : Z) :
  String.length (generateTOTP secret timeStep) = 6%nat
  /\ Forall (fun c => is_digit c = true) (list_ascii_of_string (generateTOTP secret timeStep)).
Proof.
  assert (forall x y z t,
            0 <= Z.lor (Z.lor (Z.lor (Z.shiftl (Z.land x 127) 24) (Z.shiftl (Z.land y 255) 16))
                         (Z.shiftl (Z.land z 255) 8)) (Z.land t 255)) as Hnonneg.
  { intros. repeat (apply Z.lor_nonneg; split);
      try apply Z.shiftl_nonneg; apply Z.land_nonneg; right; lia. }
  unfold generateTOTP. split.
  - apply padStart_length. apply toString_length_bound; [unfold TOTP_DIGITS; lia|].
    apply Z.rem_bound_pos; [apply Hnonneg|unfold TOTP_DIGITS; lia].
  - unfold padStart. rewrite list_ascii_of_string_app, list_ascii_of_string_of_list_ascii.
    apply Forall_app. split.
    + by apply Forall_replicate.
    + unfold toString.
      match goal with |- context [Z.rem ?b ?m] =>
        assert (0 <= Z.rem b m) as Hr by (apply Z.rem_nonneg; [lia|apply Hnonneg]) end.
      match goal with |- context [?x <? 0] => destruct (Z.ltb_spec x 0) end; [lia|].
      apply digits_fuel_digits; [done|constructor].
Qed.

Lemma verifyTOTP_six (nowMs : Z) (secret code : string) :
  String.length code = 6%nat ->
  let step := unix_seconds nowMs / 30 in
  verifyTOTP nowMs secret code
  = Ok (bool_decide (code ∈ [ generateTOTP secret (step - 1); generateTOTP secret step;
                              generateTOTP secret (step + 1) ])).
Proof.
  intros Hlen step. unfold verifyTOTP, TOTP_WINDOW. cbn [verifyTOTP_loop Z.opp].
  unfold TOTP_STEP. fold step.
  replace (step + -1) with (step - 1) by lia. replace (step + 0) with step by lia.
  rewrite !timingSafeEqual_same_length
    by (rewrite !length_list_ascii_of_string, generateTOTP_length; exact Hlen).
  set (g1 := generateTOTP secret (step - 1)). set (g2 := generateTOTP secret step).
  set (g3 := generateTOTP secret (step + 1)).
  destruct (decide (code = g1)) as [E1|N1].
  { rewrite (bool_decide_eq_true_2 _ (f_equal list_ascii_of_string E1)).
    rewrite bool_decide_eq_true_2; [done|]. rewrite E1. apply elem_of_cons. by left. }
  rewrite (bool_decide_eq_false_2 (list_ascii_of_string code = list_ascii_of_string g1))
    by (by intros ?%list_ascii_of_string_inj).
  destruct (decide (code = g2)) as [E2|N2].
  { rewrite (bool_decide_eq_true_2 _ (f_equal list_ascii_of_string E2)).
    rewrite bool_decide_eq_true_2; [done|]. rewrite E2.
    apply elem_of_cons. right. apply elem_of_cons. by left. }
  rewrite (bool_decide_eq_false_2 (list_ascii_of_string code = list_ascii_of_string g2))
    by (by intros ?%list_ascii_of_string_inj).
  destruct (decide (code = g3)) as [E3|N3].
  { rewrite (bool_decide_eq_true_2 _ (f_equal list_ascii_of_string E3)).
    rewrite bool_decide_eq_true_2; [done|]. rewrite E3.
    apply elem_of_cons. right. apply elem_of_cons. right. apply elem_of_cons. by left. }
  rewrite (bool_decide_eq_false_2 (list_ascii_of_string code = list_ascii_of_string g3))
    by (by intros ?%list_ascii_of_string_inj).
  rewrite bool_decide_eq_false_2; [done|].
  intros Hin. apply elem_of_cons in Hin as [?|Hin]; [done|].
  apply elem_of_cons in Hin as [?|Hin]; [done|].
  apply elem_of_cons in Hin as [?|Hin]; [done|]. by apply elem_of_nil in Hin.
Qed.

(** X6. [verifyTOTP] on a six-character code never throws: it answers true
    exactly when the code is the one of the current 30-second step, of the
    step before or of the step after. *)
Theorem verifyTOTP_window (nowMs : Z) (secret code : string) :
  String.length code = 6%nat ->
  let step := unix_seconds nowMs / 30 in
  verifyTOTP nowMs secret code
  = Ok (bool_decide (code ∈ [ generateTOTP secret (step - 1); generateTOTP secret step;
                              generateTOTP secret (step + 1) ])).
Proof. exact (verifyTOTP_six nowMs secret code). Qed.

Lemma verifyTOTP_other_length (nowMs : Z) (secret code : string) :
  String.length code <> 6%nat ->
  verifyTOTP nowMs secret code
  = Throw (RangeError "Input buffers must have the same byte length").
Proof.
  intros Hlen. unfold verifyTOTP. cbn [verifyTOTP_loop]. unfold timingSafeEqual.
  rewrite !length_list_ascii_of_string, generateTOTP_length.
  by destruct (Nat.eqb_spec (String.length code) 6).
Qed.

End TwoFactorExtras.

Lemma verifyTOTP_window_witness :
  verifyTOTP (H := toy_crypto) 90000 "JBSWY3DP"
    (generateTOTP (H := toy_crypto) "JBSWY3DP" 4) = Ok true.
Proof.
  rewrite (verifyTOTP_window (H := toy_crypto) 90000 "JBSWY3DP"
             (generateTOTP (H := toy_crypto) "JBSWY3DP" 4) ltac:(vm_compute; reflexivity)).
  vm_compute. reflexivity.
Defined.

(** ** The rate limiter over a whole window *)

Lemma redis_cmd_db {A} (f : redis_state -> outcome A * redis_state) w :
  db (redis_cmd f w).2 = db w.
Proof. unfold redis_cmd. destruct (rup (redis w)); [|done]. by destruct (f (redis w)). Qed.

(** X7. [checkRateLimit] never throws and never touches the database.  It
    fails open not only when the store is down: when the counter key holds
    something that is no integer (a list, any other text) every call is
    answered allowed with the full limit remaining, and nothing is
    written. *)
Theorem checkRateLimit_never_throws
    (nowMs : Z) (key : string) (limit windowSeconds : Z) (w : world) :
  (exists r w', checkRateLimit nowMs key limit windowSeconds w = (Ok r, w') /\ db w' = db w)
  /\ (counter_at nowMs (redis w) (windowKey key (unix_seconds nowMs) windowSeconds) = None ->
      checkRateLimit nowMs key limit windowSeconds w
      = (Ok {| rl_allowed := true; remaining := limit;
               resetAt := unix_seconds nowMs + windowSeconds |}, w)).
Proof.
  split.
  - unfold checkRateLimit, try_catch, bind.
    pose proof (redis_cmd_db (A := Z)) as Hdb. unfold redis_incr, redis_expire.
    match goal with |- context [redis_cmd ?f w] =>
      specialize (Hdb f w); destruct (redis_cmd f w) as [[current|e] w1] end; cbn [snd] in Hdb.
    + destruct (current =? 1).
      * pose proof (redis_cmd_db (A := Z)) as Hdb'.
        match goal with |- context [redis_cmd ?f w1] =>
          specialize (Hdb' f w1); destruct (redis_cmd f w1) as [[x|e] w2] end; cbn [snd] in Hdb'.
        -- unfold ret. eexists _, _. split; [reflexivity|congruence].
        -- unfold ret. eexists _, _. split; [reflexivity|congruence].
      * unfold ret. eexists _, _. split; [reflexivity|congruence].
    + unfold ret. eexists _, _. split; [reflexivity|congruence].
  - intros Hc. destruct (rup (redis w)) eqn:Hup; [|by apply checkRateLimit_down].
    unfold checkRateLimit, try_catch, bind, redis_incr, redis_cmd. rewrite Hup.
    unfold counter_at in Hc.
    destruct (rlookup nowMs (redis w) _) as [[n|s|l]|]; simplify_eq.
    + rewrite Hc. unfold ret. by rewrite world_eta.
    + unfold ret, wrongtype. by rewrite world_eta.
Qed.

Lemma checkRateLimit_never_throws_witness :
  let w := {| db := empty_db;
              redis := {| rdata := {[ "ratelimit:k:0" := RList ["x"] ]}; rexpiry := ∅;
                          rup := true |} |} in
  checkRateLimit 5000 "k" 2 60 w
  = (Ok {| rl_allowed := true; remaining := 2; resetAt := 65 |}, w).
Proof.
  intros w. apply (proj2 (checkRateLimit_never_throws 5000 "k" 2 60 w)). reflexivity.
Defined.

Lemma same_window_before_deadline (t t1 windowSeconds W : Z) :
  0 < windowSeconds ->
  unix_seconds t / windowSeconds = W -> unix_seconds t1 / windowSeconds = W ->
  t < t1 + windowSeconds * 1000.
Proof.
  unfold unix_seconds. intros Hw Ht Ht1.
  pose proof (Z.div_mod t 1000 ltac:(lia)). pose proof (Z.mod_pos_bound t 1000 ltac:(lia)).
  pose proof (Z.div_mod t1 1000 ltac:(lia)). pose proof (Z.mod_pos_bound t1 1000 ltac:(lia)).
  pose proof (Z.div_mod (t / 1000) windowSeconds ltac:(lia)).
  pose proof (Z.mod_pos_bound (t / 1000) windowSeconds ltac:(lia)).
  pose proof (Z.div_mod (t1 / 1000) windowSeconds ltac:(lia)).
  pose proof (Z.mod_pos_bound (t1 / 1000) windowSeconds ltac:(lia)).
  rewrite Ht in *. rewrite Ht1 in *. nia.
Qed.

(** Calls after the first of a window: the counter is at [c], its deadline
    lies ahead of every call to come. *)
Lemma checkRateLimit_calls_running key limit windowSeconds W times : forall w (c : nat) D,
  rup (redis w) = true ->
  (1 <= c)%nat ->
  rdata (redis w) !! ("ratelimit:" +:+ key +:+ ":" +:+ toString W) = Some (RInt (Z.of_nat c)) ->
  rexpiry (redis w) !! ("ratelimit:" +:+ key +:+ ":" +:+ toString W) = Some D ->
  Forall (fun t => unix_seconds t / windowSeconds = W /\ t < D) times ->
  (checkRateLimit_calls times key limit windowSeconds w).1
  = Ok (map (window_answer limit windowSeconds W) (seq (S c) (length times))).
Proof.
  induction times as [|t times IH]; intros w c D Hup Hc Hdata Hdl Hall; [done|].
  apply Forall_cons in Hall as [[Ht HtD] Hall].
  cbn [checkRateLimit_calls length seq map].
  assert (counter_at t (redis w) (windowKey key (unix_seconds t) windowSeconds)
          = Some (Z.of_nat c)) as Hcnt.
  { unfold windowKey. rewrite Ht. unfold counter_at, rlookup, expired. rewrite Hdl.
    destruct (Z.leb_spec D t); [lia|]. by rewrite Hdata. }
  unfold bind at 1. rewrite (checkRateLimit_up _ _ _ _ _ _ Hup Hcnt).
  unfold windowKey. rewrite Ht.
  destruct (Z.eqb_spec (Z.of_nat c + 1) 1); [lia|].
  unfold bind at 1.
  match goal with |- context [checkRateLimit_calls times key limit windowSeconds ?w1] =>
    specialize (IH w1 (S c) D) end.
  cbn [redis rup rdata rexpiry] in IH.
  rewrite lookup_insert_eq in IH.
  replace (Z.of_nat c + 1) with (Z.of_nat (S c)) in * by lia.
  specialize (IH eq_refl ltac:(lia) eq_refl Hdl Hall).
  destruct (checkRateLimit_calls times key limit windowSeconds _) as [[rs|e] w2];
    cbn [fst] in IH; [|done].
  injection IH as ->. unfold ret. cbn [fst]. do 2 f_equal.
Qed.

(** X8. The limiter admits exactly the first [limit] calls of a window.
    Starting from a counter that is absent (or expired, or zero), of any
    number of calls whose clock readings fall in the same window the [i]-th
    is answered allowed iff [i <= limit], with [max(0, limit - i)] remaining
    and the end of the window as reset time: the counter set up by the
    first call does not expire before the window ends. *)
Theorem rate_limit_window
    (key : string) (limit windowSeconds W : Z) (t1 : Z) (times : list Z) (w : world) :
  0 < windowSeconds ->
  rup (redis w) = true ->
  Forall (fun t => unix_seconds t / windowSeconds = W) (t1 :: times) ->
  counter_at t1 (redis w) (windowKey key (unix_seconds t1) windowSeconds) = Some 0 ->
  (checkRateLimit_calls (t1 :: times) key limit windowSeconds w).1
  = Ok (map (window_answer limit windowSeconds W) (seq 1 (S (length times)))).
Proof.
  intros Hw Hup Hall Hcnt. apply Forall_cons in Hall as [Ht1 Hall].
  cbn [checkRateLimit_calls seq map].
  unfold bind at 1. rewrite (checkRateLimit_up _ _ _ _ _ _ Hup Hcnt).
  unfold windowKey. rewrite Ht1. change (0 + 1) with 1. change (1 =? 1) with true. cbn iota.
  unfold bind at 1.
  match goal with |- context [checkRateLimit_calls times key limit windowSeconds ?w1] =>
    pose proof (checkRateLimit_calls_running key limit windowSeconds W times w1 1
                  (t1 + windowSeconds * 1000)) as Hrest end.
  cbn [redis rup rdata rexpiry] in Hrest. rewrite !lookup_insert_eq in Hrest.
  specialize (Hrest eq_refl ltac:(lia) eq_refl eq_refl).
  assert (Forall (fun t => unix_seconds t / windowSeconds = W /\ t < t1 + windowSeconds * 1000)
            times) as Hall'.
  { eapply Forall_impl; [exact Hall|]. intros t Ht. split; [done|].
    exact (same_window_before_deadline t t1 windowSeconds W Hw Ht Ht1). }
  specialize (Hrest Hall').
  destruct (checkRateLimit_calls times key limit windowSeconds _) as [[rs|e] w2];
    cbn [fst] in Hrest; [|done].
  injection Hrest as ->. reflexivity.
Qed.

Lemma rate_limit_window_witness :
  (checkRateLimit_calls [125000; 130000; 179999] "k" 2 60
     {| db := empty_db; redis := empty_redis |}).1
  = Ok [ {| rl_allowed := true; remaining := 1; resetAt := 180 |};
         {| rl_allowed := true; remaining := 0; resetAt := 180 |};
         {| rl_allowed := false; remaining := 0; resetAt := 180 |} ].
Proof.
  rewrite (rate_limit_window "k" 2 60 2 125000 [130000; 179999]
             {| db := empty_db; redis := empty_redis |}
             ltac:(lia) eq_refl ltac:(repeat constructor) eq_refl).
  reflexivity.
Defined.

(** ** The router: which provider, which keys *)

Lemma sort_insert_Permutation {A} (cmp : A -> A -> Z) x l : sort_insert cmp x l ≡ₚ x :: l.
Proof.
  induction l as [|y l IH]; [done|]. cbn [sort_insert].
  destruct (cmp x y <? 0); [done|]. rewrite IH. apply Permutation_swap.
Qed.

Lemma js_sort_from_Permutation {A} (cmp : A -> A -> Z) l : forall acc,
  fold_left (fun sorted x => sort_insert cmp x sorted) l acc ≡ₚ acc ++ l.
Proof.
  induction l as [|x l IH]; intros acc; cbn [fold_left].
  - by rewrite app_nil_r.
  - rewrite IH, sort_insert_Permutation. exact (Permutation_middle acc l x).
Qed.

Lemma js_sort_Permutation {A} (cmp : A -> A -> Z) l : js_sort cmp l ≡ₚ l.
Proof. unfold js_sort. by rewrite js_sort_from_Permutation. Qed.

Lemma redis_get_ro nowMs k w : (redis_get nowMs k w).2 = w.
Proof.
  unfold redis_get, redis_cmd. destruct (rup (redis w)); [|done].
  destruct (rlookup nowMs (redis w) k) as [[n|s|l]|]; cbn [snd]; apply world_eta.
Qed.

Lemma read_scores_ro nowMs l : forall w, (read_scores nowMs l w).2 = w.
Proof.
  induction l as [|p l IH]; intros w; [done|]. cbn [read_scores]. unfold bind.
  pose proof (redis_get_ro nowMs ("latency:" +:+ provider_name p) w) as Hg.
  destruct (redis_get nowMs _ w) as [[o|e] w1]; cbn [snd] in Hg; subst w1; [|done].
  pose proof (IH w) as Hr.
  destruct (read_scores nowMs l w) as [[scores|e] w2]; cbn [snd] in Hr; subst w2; done.
Qed.

Lemma read_scores_fst nowMs l : forall w scores w',
  read_scores nowMs l w = (Ok scores, w') -> map fst scores = l.
Proof.
  induction l as [|p l IH]; intros w scores w'; cbn [read_scores].
  - by intros [= <- _].
  - unfold bind.
    destruct (redis_get nowMs _ w) as [[o|e] w1]; [|done].
    destruct (read_scores nowMs l w1) as [[rest|e] w2] eqn:E; [|done].
    intros [= <- _]. cbn [map fst]. f_equal. by eapply IH.
Qed.

Lemma read_scores_ok nowMs l : forall w,
  rup (redis w) = true ->
  Forall (fun q => is_Some (cached_latency nowMs (redis w) q)) l ->
  read_scores nowMs l w
  = (Ok (map (fun q => (q, default Infinity (cached_latency nowMs (redis w) q))) l), w).
Proof.
  induction l as [|p l IH]; intros w Hup Hall; [done|].
  apply Forall_cons in Hall as [Hp Hall]. cbn [read_scores map].
  unfold bind at 1, redis_get, redis_cmd. rewrite Hup. unfold cached_latency in *.
  destruct (rlookup nowMs (redis w) ("latency:" +:+ provider_name p)) as [[n|s|l0]|];
    [| |by destruct Hp|]; rewrite world_eta; unfold bind; rewrite (IH w Hup Hall); done.
Qed.

Lemma getFastestProvider_ro nowMs model avail w : (getFastestProvider nowMs model avail w).2 = w.
Proof.
  unfold getFastestProvider. destruct (preferredProviders model) as [preferred|].
  - destruct (List.filter _ avail) as [|c1 [|c2 cs]]; [done|done|].
    unfold bind. pose proof (read_scores_ro nowMs (c1 :: c2 :: cs) w) as Hr.
    destruct (read_scores nowMs (c1 :: c2 :: cs) w) as [[scores|e] w1]; cbn [snd] in Hr;
      by subst w1.
  - by destruct avail.
Qed.

(** X9. The provider [getFastestProvider] picks is one for which a key is
    available, and a preferred one of the model whenever a preferred one is
    available; it picks none only when nothing is available.  The call
    changes nothing in the stores. *)
Theorem getFastestProvider_sound
    (nowMs : Z) (model : string) (availableProviders : list ApiProvider) (w w' : world)
    (best : option ApiProvider) :
  getFastestProvider nowMs model availableProviders w = (Ok best, w') ->
  w' = w
  /\ (best = None -> availableProviders = [])
  /\ (forall p, best = Some p ->
        p ∈ availableProviders
        /\ forall preferred q,
             preferredProviders model = Some preferred ->
             q ∈ availableProviders -> q ∈ preferred -> p ∈ preferred).
Proof.
  intros Hrun. split.
  { pose proof (getFastestProvider_ro nowMs model availableProviders w) as Hro.
    by rewrite Hrun in Hro. }
  unfold getFastestProvider in Hrun.
  destruct (preferredProviders model) as [preferred|] eqn:Hpref.
  2:{ destruct availableProviders; [|done]. by injection Hrun as <- _. }
  set (candidates := List.filter (fun p => bool_decide (p ∈ preferred)) availableProviders) in *.
  assert (forall p, p ∈ candidates -> p ∈ availableProviders /\ p ∈ preferred) as Hcand.
  { intros p Hp. apply list_elem_of_In, filter_In in Hp as [Hin Hb].
    split; [by apply list_elem_of_In|by apply bool_decide_eq_true in Hb]. }
  assert (forall q, q ∈ availableProviders -> q ∈ preferred -> q ∈ candidates) as Hin.
  { intros q Hq Hp. apply list_elem_of_In, filter_In. split; [by apply list_elem_of_In|].
    by apply bool_decide_eq_true_2. }
  destruct candidates as [|c1 [|c2 cs]] eqn:Ec.
  - injection Hrun as <- _. split.
    + by destruct availableProviders.
    + intros p Hp. split; [by apply head_Some_elem_of|].
      intros preferred' q [= <-] Hq Hqp. by apply Hin, elem_of_nil in Hqp.
  - injection Hrun as <- _. split; [done|]. intros p [= <-].
    destruct (Hcand c1) as [Ha Hp]; [by left|]. split; [done|].
    by intros preferred' q [= <-] _ _.
  - unfold bind in Hrun.
    destruct (read_scores nowMs (c1 :: c2 :: cs) w) as [[scores|e] w1] eqn:Hs; [|done].
    injection Hrun as <- _. split.
    + pose proof (read_scores_fst _ _ _ _ _ Hs) as Hfst.
      pose proof (js_sort_Permutation latency_cmp scores) as Hperm.
      destruct (js_sort latency_cmp scores) as [|h t]; [|done].
      apply Permutation_nil_l in Hperm. by subst scores.
    + intros p Hp. apply fmap_Some in Hp as (h & Hh & ->).
      apply head_Some_elem_of in Hh. rewrite js_sort_Permutation in Hh.
      assert (h.1 ∈ c1 :: c2 :: cs) as Hc.
      { rewrite <- (read_scores_fst _ _ _ _ _ Hs). by apply list_elem_of_fmap_2. }
      destruct (Hcand _ Hc) as [Ha Hpp]. split; [done|].
      by intros preferred' q [= <-] _ _.
Qed.

Lemma getFastestProvider_sound_witness :
  OPENAI ∈ [TOGETHER; OPENAI] /\ OPENAI ∈ [OPENAI; AZURE_OPENAI].
Proof.
  destruct (proj2 (proj2 (getFastestProvider_sound 0 "gpt-4" [TOGETHER; OPENAI]
                            {| db := empty_db; redis := empty_redis |}
                            {| db := empty_db; redis := empty_redis |} (Some OPENAI) eq_refl))
              OPENAI eq_refl) as [Havail Hpref].
  split; [exact Havail|].
  apply (Hpref [OPENAI; AZURE_OPENAI] OPENAI eq_refl).
  - apply elem_of_cons. right. apply elem_of_cons. by left.
  - apply elem_of_cons. by left.
Defined.

Lemma latency_leb_refl a : a <> NaN -> latency_leb a a = true.
Proof. destruct a; [intros _; apply Z.leb_refl|done|done]. Qed.

Lemma latency_leb_trans a b c :
  latency_leb a b = true -> latency_leb b c = true -> latency_leb a c = true.
Proof.
  destruct a, b, c; cbn; try done. rewrite !Z.leb_le. lia.
Qed.

Lemma latency_cmp_lt x y : (latency_cmp x y <? 0) = true -> latency_leb x.2 y.2 = true.
Proof.
  unfold latency_cmp. destruct (x.2), (y.2); cbn; try done. rewrite Z.ltb_lt, Z.leb_le. lia.
Qed.

Lemma latency_cmp_ge x y :
  (latency_cmp x y <? 0) = false -> x.2 <> NaN -> y.2 <> NaN -> latency_leb y.2 x.2 = true.
Proof.
  unfold latency_cmp. destruct (x.2), (y.2); cbn; try done. rewrite Z.ltb_ge, Z.leb_le. lia.
Qed.

Lemma sort_insert_least_first x sorted :
  x.2 <> NaN -> Forall (fun z => z.2 <> NaN) sorted ->
  least_first sorted -> least_first (sort_insert latency_cmp x sorted).
Proof.
  intros Hx Hall Hleast. destruct sorted as [|y rest]; cbn [sort_insert].
  - cbn. constructor; [by apply latency_leb_refl|constructor].
  - destruct (latency_cmp x y <? 0) eqn:E; cbn [least_first] in *.
    + constructor; [by apply latency_leb_refl|].
      eapply Forall_impl; [exact Hleast|]. intros z Hz. cbn beta in Hz.
      eapply latency_leb_trans; [|exact Hz]. by apply latency_cmp_lt.
    + apply Forall_cons in Hleast as [Hy Hrest]. constructor; [done|].
      rewrite sort_insert_Permutation. constructor; [|done].
      apply latency_cmp_ge; [done|done|]. by apply Forall_cons in Hall as [? _].
Qed.

Lemma js_sort_least_first l : forall acc,
  Forall (fun z => z.2 <> NaN) acc -> Forall (fun z => z.2 <> NaN) l ->
  least_first acc ->
  least_first (fold_left (fun sorted x => sort_insert latency_cmp x sorted) l acc).
Proof.
  induction l as [|x l IH]; intros acc Hacc Hl Hleast; [done|].
  apply Forall_cons in Hl as [Hx Hl]. cbn [fold_left]. apply IH; [|done|].
  - rewrite sort_insert_Permutation. by constructor.
  - by apply sort_insert_least_first.
Qed.

Lemma toString_nonempty n : toString n <> "".
Proof.
  unfold toString. destruct (Z.ltb_spec n 0) as [Hneg|Hpos]; [done|].
  destruct (digits_start (Z.to_nat (Z.log2 n)) n "" Hpos) as (c & rest & Heq & _).
  by rewrite Heq.
Qed.

Lemma read_latency_toString ms : read_latency (Some (toString ms)) = Finite ms.
Proof.
  unfold read_latency. pose proof (toString_nonempty ms) as Hne.
  destruct (toString ms) eqn:E; [done|]. by rewrite <- E, parseInt_toString.
Qed.

(** X10. With two or more candidates, the store up and every candidate's
    latency key either absent (or expired) or holding a number written by
    [recordLatency], [getFastestProvider] returns a candidate whose cached
    latency is the least: no candidate has a smaller one, and a candidate
    without a cached latency counts as slower than every one with. *)
Theorem getFastestProvider_fastest
    (nowMs : Z) (model : string) (availableProviders preferred : list ApiProvider)
    (w : world) :
  let candidates := List.filter (fun p => bool_decide (p ∈ preferred)) availableProviders in
  preferredProviders model = Some preferred ->
  (2 <= length candidates)%nat ->
  rup (redis w) = true ->
  (forall q, q ∈ candidates ->
     rlookup nowMs (redis w) ("latency:" +:+ provider_name q) = None
     \/ exists ms, rlookup nowMs (redis w) ("latency:" +:+ provider_name q)
                   = Some (RString (toString ms))) ->
  exists p lp,
    getFastestProvider nowMs model availableProviders w = (Ok (Some p), w)
    /\ p ∈ candidates
    /\ cached_latency nowMs (redis w) p = Some lp
    /\ forall q, q ∈ candidates ->
         exists lq, cached_latency nowMs (redis w) q = Some lq /\ latency_leb lp lq = true.
Proof.
  intros candidates Hpref Hlen Hup Hwritten.
  assert (forall q, q ∈ candidates ->
            exists lq, cached_latency nowMs (redis w) q = Some lq /\ lq <> NaN) as Hlat.
  { intros q Hq. unfold cached_latency. destruct (Hwritten q Hq) as [->|[ms ->]].
    - by exists Infinity.
    - exists (Finite ms). by rewrite read_latency_toString. }
  set (score := fun q => (q, default Infinity (cached_latency nowMs (redis w) q))).
  assert (read_scores nowMs candidates w = (Ok (map score candidates), w)) as Hscores.
  { apply read_scores_ok; [done|]. apply Forall_forall. intros q Hq.
    destruct (Hlat q Hq) as (lq & -> & _). by eexists. }
  assert (Forall (fun z : ApiProvider * Latency => z.2 <> NaN) (map score candidates)) as Hnn.
  { apply Forall_fmap, Forall_forall. intros q Hq. cbn.
    destruct (Hlat q Hq) as (lq & -> & Hne). done. }
  pose proof (js_sort_least_first (map score candidates) [] (Forall_nil_2 _) Hnn I) as Hleast.
  pose proof (js_sort_Permutation latency_cmp (map score candidates)) as Hperm.
  fold (js_sort latency_cmp (map score candidates)) in Hleast.
  unfold getFastestProvider. rewrite Hpref. fold candidates.
  destruct candidates as [|c1 [|c2 cs]] eqn:Ec; [cbn in Hlen; lia|cbn in Hlen; lia|].
  unfold bind. rewrite Hscores.
  destruct (js_sort latency_cmp (map score (c1 :: c2 :: cs))) as [|h t] eqn:Es.
  { by apply Permutation_nil_l in Hperm. }
  assert (h ∈ map score (c1 :: c2 :: cs)) as Hh.
  { rewrite <- Hperm. by left. }
  apply list_elem_of_fmap in Hh as (p & -> & Hp).
  destruct (Hlat p Hp) as (lp & Hlp & _).
  exists p, lp. repeat split; [done|done|].
  intros q Hq. destruct (Hlat q Hq) as (lq & Hlq & _). exists lq. split; [done|].
  cbn [least_first] in Hleast. rewrite Hperm in Hleast.
  rewrite Forall_forall in Hleast.
  apply (list_elem_of_fmap_2 score) in Hq. specialize (Hleast _ Hq).
  unfold score in Hleast. cbn [snd] in Hleast. by rewrite Hlp, Hlq in Hleast.
Qed.

Lemma provider_name_inj p q : provider_name p = provider_name q -> p = q.
Proof. destruct p, q; cbn; intros Heq; try reflexivity; discriminate Heq. Qed.

Lemma latency_key_inj p q :
  "latency:" +:+ provider_name p = "latency:" +:+ provider_name q -> p = q.
Proof. intros Heq. apply provider_name_inj. by injection Heq. Qed.

(** X11. A latency written by [recordLatency] is read back as that number
    for the next 60 seconds and counts as unknown afterwards; the cached
    latency of every other provider is as before. *)
Theorem recordLatency_cached
    (nowMs later : Z) (provider : ApiProvider) (latencyMs : Z) (w : world) :
  rup (redis w) = true ->
  exists w',
    recordLatency nowMs provider latencyMs w = (Ok tt, w')
    /\ db w' = db w
    /\ (later < nowMs + 60000 ->
        cached_latency later (redis w') provider = Some (Finite latencyMs))
    /\ (nowMs + 60000 <= later -> cached_latency later (redis w') provider = Some Infinity)
    /\ (forall q, q <> provider ->
          cached_latency later (redis w') q = cached_latency later (redis w) q).
Proof.
  intros Hup. unfold recordLatency, redis_set_ex, redis_cmd. rewrite Hup.
  eexists. split; [reflexivity|]. cbn [db redis]. split; [done|].
  unfold cached_latency, rlookup, expired, rwrite; cbn [rdata rexpiry].
  repeat split.
  - intros Hl. rewrite !lookup_insert_eq.
    destruct (Z.leb_spec (nowMs + 60 * 1000) later); [lia|].
    by rewrite read_latency_toString.
  - intros Hl. rewrite !lookup_insert_eq.
    by destruct (Z.leb_spec (nowMs + 60 * 1000) later); [|lia].
  - intros q Hq.
    rewrite !lookup_insert_ne by (intros Heq; by apply latency_key_inj in Heq). done.
Qed.

Lemma getFastestProvider_fastest_witness :
  exists w1 w2,
    recordLatency 1000 OPENAI 250 {| db := empty_db; redis := empty_redis |} = (Ok tt, w1)
    /\ recordLatency 2000 AZURE_OPENAI 90 w1 = (Ok tt, w2)
    /\ getFastestProvider 3000 "gpt-4" [OPENAI; AZURE_OPENAI] w2 = (Ok (Some AZURE_OPENAI), w2).
Proof.
  eexists _, _. split; [reflexivity|]. split; [reflexivity|].
  match goal with |- getFastestProvider _ _ _ ?w2 = _ =>
    destruct (getFastestProvider_fastest 3000 "gpt-4" [OPENAI; AZURE_OPENAI]
                [OPENAI; AZURE_OPENAI] w2 eq_refl ltac:(vm_compute; lia) eq_refl)
      as (p & lp & Hrun & _)
  end.
  - intros q Hq. right.
    apply elem_of_cons in Hq as [->|Hq]; [by exists 250|].
    apply elem_of_cons in Hq as [->|Hq]; [by exists 90|]. by apply elem_of_nil in Hq.
  - rewrite Hrun. vm_compute in Hrun. by injection Hrun as <-.
Defined.

Lemma recordLatency_cached_witness :
  exists w',
    recordLatency 1000 OPENAI 250 {| db := empty_db; redis := empty_redis |} = (Ok tt, w')
    /\ cached_latency 60999 (redis w') OPENAI = Some (Finite 250)
    /\ cached_latency 61000 (redis w') OPENAI = Some Infinity.
Proof.
  destruct (recordLatency_cached 1000 60999 OPENAI 250
              {| db := empty_db; redis := empty_redis |} eq_refl)
    as (w' & Hrun & _ & Hin & _ & _).
  exists w'. split; [exact Hrun|]. split; [apply Hin; lia|].
  vm_compute in Hrun. injection Hrun as <-. reflexivity.
Defined.

(** X12. The keys the router hands to the fallback loop are exactly the
    active keys whose user is the token owner or whose team field equals
    that of the linked key, each once: sorting drops and adds nothing.  When
    the linked key belongs to no team the second condition holds for every
    key that belongs to no team, so the active personal keys of all users
    are among the candidates.  Routing writes to no store. *)
Theorem candidateOrder_keys
    (startTime : Z) (request : Request) (sharedKey : SharedKey) (linked : ApiKey)
    (w w' : world) (keys : list ApiKey) (requestedModel : option string) :
  candidateOrder startTime request sharedKey (Some linked) w = (Ok (keys, requestedModel), w') ->
  w' = w
  /\ keys ≡ₚ apiKey_findMany (sk_ownerId sharedKey) (ak_teamId linked) (db w)
  /\ Forall (fun k => ak_isActive k = true
                      /\ (ak_userId k = sk_ownerId sharedKey \/ ak_teamId k = ak_teamId linked))
       keys
  /\ (ak_teamId linked = None ->
      forall k, k ∈ apiKeys (db w) -> ak_isActive k = true -> ak_teamId k = None -> k ∈ keys).
Proof.
  intros Hrun.
  assert (w' = w /\ keys ≡ₚ apiKey_findMany (sk_ownerId sharedKey) (ak_teamId linked) (db w))
    as [-> Hperm].
  { unfold candidateOrder, bind, get_db, ret, throw in Hrun.
    destruct (req_json request) as [| |[[|c model]|]]; try done.
    - injection Hrun as <- _ <-. split; [done|]. apply js_sort_Permutation.
    - injection Hrun as <- _ <-. split; [done|]. apply js_sort_Permutation.
    - pose proof (getFastestProvider_ro startTime (String c model)
                    (map ak_provider
                       (apiKey_findMany (sk_ownerId sharedKey) (ak_teamId linked) (db w))) w)
        as Hro.
      destruct (getFastestProvider _ _ _ w) as [[best|e] w1]; cbn [snd] in Hro; subst w1;
        [|done].
      injection Hrun as <- _ <-. split; [done|]. apply js_sort_Permutation.
    - injection Hrun as <- _ <-. split; [done|]. apply js_sort_Permutation. }
  split; [done|]. split; [done|]. split.
  - rewrite Hperm. unfold apiKey_findMany. apply Forall_forall. intros k Hk.
    apply list_elem_of_In, filter_In in Hk as [_ Hk]. apply andb_prop in Hk as [Hwho Hact].
    split; [done|]. apply orb_prop in Hwho as [Hu|Ht].
    + left. by apply String.eqb_eq.
    + right. by apply bool_decide_eq_true in Ht.
  - intros Hnone k Hk Hact Hteam. rewrite Hperm. unfold apiKey_findMany.
    apply list_elem_of_In, filter_In. split; [by apply list_elem_of_In|].
    rewrite Hact, Hnone, (bool_decide_eq_true_2 _ Hteam). by rewrite orb_true_r.
Qed.

Lemma candidateOrder_keys_witness :
  let personal := {| ak_id := "key9"; ak_userId := "someone-else"; ak_teamId := None;
                     ak_provider := GROQ; ak_encryptedKey := sample_blob; ak_isActive := true;
                     ak_lastUsedAt := None |} in
  let w := world_with sample_token [sample_key; personal] in
  candidateOrder 0 (request_from "10.0.1.5" NotJson) sample_token (Some sample_key) w
  = (Ok ([sample_key; personal], None), w)
  /\ personal ∈ [sample_key; personal].
Proof.
  intros personal w. split; [reflexivity|].
  apply (proj2 (proj2 (proj2 (candidateOrder_keys 0 (request_from "10.0.1.5" NotJson)
                                sample_token sample_key w w [sample_key; personal] None
                                eq_refl))) eq_refl personal).
  - apply elem_of_cons. right. apply elem_of_cons. by left.
  - reflexivity.
  - reflexivity.
Defined.

(** ** The proxy: requests that are turned away *)

Lemma find_none_of {A} (f : A -> bool) (l : list A) :
  (forall x, x ∈ l -> f x = false) -> List.find f l = None.
Proof.
  induction l as [|x l IH]; intros Hall; [done|]. cbn [List.find].
  rewrite (Hall x) by (by left). apply IH. intros y Hy. apply Hall. by right.
Qed.

Section TurnedAway.
Context `{NodeCrypto}.
Variable env : option string.
Variable clock : ProxyClock.
Variable fetch : nat -> UpstreamRequest -> FetchResult.

(** X13. A request without a usable bearer token is answered 401 and
    changes nothing: no header, a header that does not start with
    [Bearer ], a token that does not start with [feen_], and a token whose
    hash belongs to no active row, be it unknown or deactivated.  No
    rate-limit counter is touched and no upstream call is made. *)
Theorem handleProxy_unauthenticated (request : Request) (path : list string) (w : world) :
  (headers_get "authorization" (req_headers request) = None ->
   handleProxy env clock fetch request path w
   = (Ok (error_response 401 "Missing or invalid authorization header"), w))
  /\ (forall h,
        headers_get "authorization" (req_headers request) = Some h ->
        startsWith h "Bearer " = false ->
        handleProxy env clock fetch request path w
        = (Ok (error_response 401 "Missing or invalid authorization header"), w))
  /\ (forall tok,
        headers_get "authorization" (req_headers request) = Some ("Bearer " +:+ tok) ->
        startsWith tok "feen_" = false ->
        handleProxy env clock fetch request path w
        = (Ok (error_response 401 "Invalid token format"), w))
  /\ (forall tok,
        headers_get "authorization" (req_headers request) = Some ("Bearer " +:+ tok) ->
        startsWith tok "feen_" = true ->
        (forall s, s ∈ sharedKeys (db w) -> sk_tokenHash s = hash tok -> sk_isActive s = false) ->
        handleProxy env clock fetch request path w
        = (Ok (error_response 401 "Invalid or expired access token"), w)).
Proof.
  repeat split.
  - intros Hh. apply handleProxy_reject. unfold authorize. by rewrite Hh.
  - intros h Hh Hb. apply handleProxy_reject. unfold authorize. by rewrite Hh, Hb.
  - intros tok Hh Hf. apply handleProxy_reject. unfold authorize.
    by rewrite Hh, bearer_prefix, bearer_token, Hf.
  - intros tok Hh Hf Hnone. apply handleProxy_reject. unfold authorize.
    rewrite Hh, bearer_prefix, bearer_token, Hf. cbn [negb]. unfold bind, get_db.
    unfold sharedKey_findByToken. rewrite find_none_of; [done|].
    intros s Hs. destruct (String.eqb_spec (sk_tokenHash s) (hash tok)) as [Heq|]; [|done].
    by rewrite (Hnone s Hs Heq).
Qed.

(** X14. A request over the limit is answered 429 with the headers
    [X-RateLimit-Limit], [X-RateLimit-Remaining: 0] and [X-RateLimit-Reset];
    the call is counted all the same, the database is left as it was and no
    upstream call is made.  [retryAfter] is the end of the window the
    limiter counted in, less the second at which the clock is read again
    for the answer: at most 60, and at least 1 as long as that reading
    still falls into the window; when the window has ended in between it is
    0 or negative. *)
Theorem handleProxy_rate_limited
    (request : Request) (path : list string) (tok : string) (sharedKey : SharedKey)
    (w : world) (c0 : Z) :
  let now := unix_seconds (limitTime clock) in
  let K := windowKey ("shared:" +:+ sk_id sharedKey +:+ ":minute") now 60 in
  let windowEnd := (now / 60 + 1) * 60 in
  let retryAfter := windowEnd - unix_seconds (retryTime clock) in
  headers_get "authorization" (req_headers request) = Some ("Bearer " +:+ tok) ->
  startsWith tok "feen_" = true ->
  sharedKey_findByToken tok (db w) = Some sharedKey ->
  token_expired (expiryTime clock) sharedKey = false ->
  usage_exhausted sharedKey = false ->
  ip_rejected sharedKey (clientIP_of request) = false ->
  rup (redis w) = true ->
  counter_at (limitTime clock) (redis w) K = Some c0 ->
  sk_rateLimit sharedKey < c0 + 1 ->
  exists w',
    handleProxy env clock fetch request path w
    = (Ok (json_response 429
             [ ("error", json_string "Rate limit exceeded");
               ("retryAfter", toString retryAfter) ]
             [ ("x-ratelimit-limit", toString (sk_rateLimit sharedKey));
               ("x-ratelimit-remaining", "0");
               ("x-ratelimit-reset", toString windowEnd) ]), w')
    /\ (limitTime clock <= retryTime clock -> retryAfter <= 60)
    /\ (unix_seconds (retryTime clock) < windowEnd -> 1 <= retryAfter)
    /\ (windowEnd <= unix_seconds (retryTime clock) -> retryAfter <= 0)
    /\ db w' = db w
    /\ rdata (redis w') !! K = Some (RInt (c0 + 1)).
Proof.
  intros now K windowEnd retryAfter Hauth Hfeen Hfound Hexp Huse Hip Hup Hcnt Hover.
  pose proof (authorize_found clock request tok sharedKey w Hauth Hfeen Hfound) as Ha.
  rewrite Hexp, Huse, Hip in Ha. unfold bind, proxyRateLimit in Ha.
  rewrite (checkRateLimit_up _ _ _ _ _ _ Hup Hcnt) in Ha. cbn [rl_allowed remaining resetAt] in Ha.
  destruct (Z.leb_spec (c0 + 1) (sk_rateLimit sharedKey)); [lia|]. cbn [negb] in Ha.
  rewrite Z.max_l in Ha by lia. fold now in Ha. fold windowEnd in Ha. fold retryAfter in Ha.
  eexists. split; [apply handleProxy_reject; exact Ha|]. cbn [db redis rdata].
  assert (windowEnd - now <= 60) as Hwin.
  { unfold windowEnd. pose proof (Z.div_mod now 60 ltac:(lia)).
    pose proof (Z.mod_pos_bound now 60 ltac:(lia)). lia. }
  split; [|split; [|split; [|split; [done|by rewrite lookup_insert_eq]]]].
  - intros Hlater. unfold retryAfter.
    assert (now <= unix_seconds (retryTime clock)); [|lia].
    unfold now, unix_seconds. apply Z.div_le_mono; lia.
  - unfold retryAfter. lia.
  - unfold retryAfter. lia.
Qed.

End TurnedAway.

Lemma handleProxy_unauthenticated_witness :
  handleProxy (H := toy_crypto) sample_env (sample_clock 0 5) fetch_always_200
    {| req_method := "POST"; req_headers := [("authorization", "Bearer feen_gone")];
       req_text := "{}"; req_json := NotJson |} ["v1"; "models"] sample_world
  = (Ok (error_response 401 "Invalid or expired access token"), sample_world).
Proof.
  apply (proj2 (proj2 (proj2 (handleProxy_unauthenticated (H := toy_crypto) sample_env
                                (sample_clock 0 5) fetch_always_200
                                {| req_method := "POST";
                                   req_headers := [("authorization", "Bearer feen_gone")];
                                   req_text := "{}"; req_json := NotJson |}
                                ["v1"; "models"] sample_world))) "feen_gone" eq_refl eq_refl).
  intros s Hs. apply list_elem_of_singleton in Hs. subst s. vm_compute. discriminate.
Defined.

(** The limiter counts at second 179, in the window that ends at 180; the
    answer is made up when the clock has reached 180: [retryAfter] is 0. *)
Lemma handleProxy_rate_limited_witness :
  let w := {| db := sample_db;
              redis := {| rdata := {[ "ratelimit:shared:tok1:minute:2" := RInt 2 ]};
                          rexpiry := ∅; rup := true |} |} in
  let clock := {| startTime := 179990; expiryTime := 179991; limitTime := 179995;
                  retryTime := 180002; routeTime := 180002; endTime := 180002;
                  recordTime := 180002; tokenUsedTime := 180002; keyUsedTime := 180002 |} in
  exists w',
    handleProxy (H := toy_crypto) sample_env clock fetch_always_200
      (request_from "10.0.1.5" NotJson) ["v1"; "models"] w
    = (Ok (json_response 429
             [ ("error", json_string "Rate limit exceeded"); ("retryAfter", "0") ]
             [ ("x-ratelimit-limit", "2"); ("x-ratelimit-remaining", "0");
               ("x-ratelimit-reset", "180") ]), w')
    /\ db w' = sample_db.
Proof.
  intros w clock.
  destruct (handleProxy_rate_limited (H := toy_crypto) sample_env clock fetch_always_200
              (request_from "10.0.1.5" NotJson) ["v1"; "models"] "feen_old" sample_token w 2
              eq_refl eq_refl eq_refl eq_refl eq_refl eq_refl eq_refl eq_refl ltac:(cbn; lia))
    as (w' & Hrun & _ & _ & _ & Hdb & _).
  exists w'. split; [exact Hrun|exact Hdb].
Defined.


(** ** The proxy: metering, and the fast store going down *)

Lemma candidateOrder_ro startTime request sharedKey linked w :
  (candidateOrder startTime request sharedKey linked w).2 = w.
Proof.
  unfold candidateOrder, bind, get_db, ret, throw.
  destruct (req_json request) as [| |[[|c model]|]]; destruct linked as [linked|]; try done.
  pose proof (getFastestProvider_ro startTime (String c model)
                (map ak_provider
                   (apiKey_findMany (sk_ownerId sharedKey) (ak_teamId linked) (db w))) w) as Hro.
  destruct (getFastestProvider _ _ _ w) as [[best|e] w1]; cbn [snd] in Hro; by subst w1.
Qed.

Section Metering.
Context `{NodeCrypto}.
Variable env : option string.
Variable clock : ProxyClock.
Variable fetch : nat -> UpstreamRequest -> FetchResult.
Variable request : Request.
Variable path : list string.

(** X15. Every answer received from upstream is metered, whatever its
    status, with one exception: a 2xx answer while the fast store is down,
    whose latency cannot be recorded, is lost with nothing written (the
    call throws).  In every other case exactly one usage row is added,
    with the status of the answer, the token, the key last tried and the
    measured latency, and the usage count of the token goes up by one, for
    a 4xx or 5xx answer as well; the audit log is not written.  Only a 2xx
    answer has its token counts read and its latency cached for the
    provider; any other answer leaves the fast store as it was.  The client
    is handed the answer when the [Response] constructor takes its status
    and reason phrase; an answer with a status outside 200..599 is metered
    and then fails in the constructor with a RangeError, one with a reason
    phrase the constructor does not take with a TypeError. *)
Theorem answered_request_is_metered
    (sharedKey : SharedKey) (clientIP : string) (rateLimitResult : RateLimitResult)
    (requestedModel : option string) (st : LoopState) (w : world)
    (r : Response) (u : option Usage) :
  proxyResponse st = Some (r, u) ->
  let run := respond clock request path sharedKey clientIP rateLimitResult requestedModel
               st w in
  let latency := endTime clock - startTime clock in
  let k := selectedApiKey st in
  (ok r = true -> rup (redis w) = false -> run = (Throw RedisError, w))
  /\ (ok r = false \/ rup (redis w) = true ->
      exists e,
        usageLogs (db run.2) = usageLogs (db w) ++ [e]
        /\ ul_statusCode e = status r
        /\ ul_sharedKeyId e = sk_id sharedKey
        /\ ul_apiKeyId e = ak_id k
        /\ ul_latencyMs e = latency
        /\ map sk_usageCount (sharedKeys (db run.2))
           = map (fun s => if String.eqb (sk_id s) (sk_id sharedKey)
                           then sk_usageCount s + 1 else sk_usageCount s) (sharedKeys (db w))
        /\ auditLogs (db run.2) = auditLogs (db w)
        /\ (presentable r = true -> exists resp, run.1 = Ok resp /\ handed clock resp r k)
        /\ (presentable r = false ->
            exists msg,
              run.1 = Throw (if is_byte_string (statusText r)
                                && negb ((200 <=? status r mod 65536)
                                         && (status r mod 65536 <=? 599))
                             then RangeError msg else TypeError msg))
        /\ (ok r = false -> redis run.2 = redis w /\ ul_totalTokens e = None)
        /\ (ok r = true ->
            cached_latency (recordTime clock) (redis run.2) (ak_provider k)
            = Some (Finite latency))).
Proof.
  intros Hs run latency k. split.
  { intros Hok Hdown. subst run. by apply (respond_store_down clock request path) with r u. }
  intros Hcase.
  assert (forall l : list SharedKey,
            map sk_usageCount
              (map (fun s => if String.eqb (sk_id s) (sk_id sharedKey)
                             then {| sk_id := sk_id s; sk_apiKeyId := sk_apiKeyId s;
                                     sk_ownerId := sk_ownerId s;
                                     sk_accessToken := sk_accessToken s;
                                     sk_tokenHash := sk_tokenHash s;
                                     sk_isActive := sk_isActive s;
                                     sk_expiresAt := sk_expiresAt s;
                                     sk_maxUsage := sk_maxUsage s;
                                     sk_usageCount := sk_usageCount s + 1;
                                     sk_allowedIPs := sk_allowedIPs s;
                                     sk_rateLimit := sk_rateLimit s;
                                     sk_lastUsedAt := Some (tokenUsedTime clock);
                                     sk_updatedAt := sk_updatedAt s |}
                             else s) l)
            = map (fun s => if String.eqb (sk_id s) (sk_id sharedKey)
                            then sk_usageCount s + 1 else sk_usageCount s) l) as Hcount.
  { intros l. rewrite map_map. apply map_ext. intros s.
    by destruct (String.eqb (sk_id s) (sk_id sharedKey)). }
  assert ((presentable r = true ->
           exists resp, forwarded_response r latency (ak_provider k) sharedKey rateLimitResult
                        = Ok resp
                        /\ handed clock resp r k)
          /\ (presentable r = false ->
              exists msg,
                forwarded_response r latency (ak_provider k) sharedKey rateLimitResult
                = Throw (if is_byte_string (statusText r)
                            && negb ((200 <=? status r mod 65536)
                                     && (status r mod 65536 <=? 599))
                         then RangeError msg else TypeError msg)))
    as [Hin Hout].
  { split.
    - intros Hst. by apply forwarded_response_handed.
    - intros Hst. by apply forwarded_response_refused. }
  assert (exists w' e,
            run = (forwarded_response r latency (ak_provider k) sharedKey rateLimitResult, w')
            /\ usageLogs (db w') = usageLogs (db w) ++ [e]
            /\ ul_statusCode e = status r
            /\ ul_sharedKeyId e = sk_id sharedKey
            /\ ul_apiKeyId e = ak_id k
            /\ ul_latencyMs e = latency
            /\ map sk_usageCount (sharedKeys (db w'))
               = map (fun s => if String.eqb (sk_id s) (sk_id sharedKey)
                               then sk_usageCount s + 1 else sk_usageCount s)
                   (sharedKeys (db w))
            /\ auditLogs (db w') = auditLogs (db w)
            /\ (ok r = false -> redis w' = redis w /\ ul_totalTokens e = None)
            /\ (ok r = true ->
                cached_latency (recordTime clock) (redis w') (ak_provider k)
                = Some (Finite latency)))
    as (w' & e & Hrun & Hlog & Hst & Hsk & Hak & Hlat & Hcnt & Haudit & Hnot & Hyes).
  { subst run. unfold respond. rewrite Hs. fold latency k.
    destruct (ok r) eqn:Hok.
    - destruct Hcase as [?|Hup]; [done|].
      unfold bind at 1, recordLatency, redis_set_ex, redis_cmd. rewrite Hup.
      unfold bind, log_usage, of_outcome. cbn [db redis].
      eexists _, _. split; [reflexivity|].
      cbn [db redis usageLogs sharedKeys auditLogs ul_statusCode ul_sharedKeyId ul_apiKeyId
           ul_latencyMs ul_totalTokens].
      repeat split; try done.
      unfold cached_latency, rlookup, expired, rwrite; cbn [rdata rexpiry].
      rewrite !lookup_insert_eq.
      destruct (Z.leb_spec (recordTime clock + 60 * 1000) (recordTime clock)); [lia|].
      by rewrite read_latency_toString.
    - unfold bind, log_usage, of_outcome, ret.
      eexists _, _. split; [reflexivity|].
      cbn [db redis usageLogs sharedKeys auditLogs ul_statusCode ul_sharedKeyId ul_apiKeyId
           ul_latencyMs ul_totalTokens].
      repeat split; try done. }
  exists e. rewrite Hrun. cbn [fst snd]. repeat split; try done.
  - by apply Hnot.
  - by apply Hnot.
Qed.

(** X16. The rate limiter fails open when the fast store is down, the
    latency cache does not.  For a request that passes every check while
    the store is unreachable, a 2xx answer received from upstream is lost:
    the client is given 500 [Internal proxy error], and neither a usage row
    nor anything else is recorded. *)
Theorem upstream_success_lost_when_store_down
    (tok : string) (sharedKey : SharedKey) (k : ApiKey) (ks : list ApiKey)
    (requestedModel : option string) (st : LoopState) (r : Response) (u : option Usage)
    (w w2 : world) :
  rup (redis w) = false ->
  headers_get "authorization" (req_headers request) = Some ("Bearer " +:+ tok) ->
  startsWith tok "feen_" = true ->
  sharedKey_findByToken tok (db w) = Some sharedKey ->
  token_expired (expiryTime clock) sharedKey = false ->
  usage_exhausted sharedKey = false ->
  ip_rejected sharedKey (clientIP_of request) = false ->
  candidateOrder (routeTime clock) request sharedKey
    (List.find (fun a => String.eqb (ak_id a) (sk_apiKeyId sharedKey)) (apiKeys (db w))) w
  = (Ok (k :: ks, requestedModel), w2) ->
  tryProviders env fetch request path (k :: ks)
    {| proxyResponse := None; selectedApiKey := k; calls := O |} = Ok st ->
  proxyResponse st = Some (r, u) ->
  ok r = true ->
  handleProxy env clock fetch request path w
  = (Ok (error_response 500 "Internal proxy error"), w).
Proof.
  intros Hdown Hauth Hfeen Hfound Hexp Huse Hip Horder Hloop Hs Hok.
  assert (w2 = w) as ->.
  { pose proof (candidateOrder_ro (routeTime clock) request sharedKey
                  (List.find (fun a => String.eqb (ak_id a) (sk_apiKeyId sharedKey))
                     (apiKeys (db w))) w) as Hro.
    by rewrite Horder in Hro. }
  pose proof (authorize_found clock request tok sharedKey w Hauth Hfeen Hfound) as Ha.
  rewrite Hexp, Huse, Hip in Ha. unfold bind, proxyRateLimit in Ha.
  rewrite (checkRateLimit_down _ _ _ _ _ Hdown) in Ha. cbn [rl_allowed negb] in Ha.
  unfold ret in Ha.
  rewrite (handleProxy_admitted env clock fetch request path _ _ _ requestedModel k ks
             st w w w Ha Horder Hloop).
  by rewrite (respond_store_down clock request path _ _ _ _ st w r u Hs Hok Hdown).
Qed.

End Metering.

(** A 500 from upstream is metered like any other answer. *)
Lemma answered_request_is_metered_witness :
  let w := world_with (token_with [] None "key1") [openai_key] in
  let st := {| proxyResponse :=
                 Some ({| status := 500; statusText := ""; res_headers := [];
                          res_body := "upstream" |}, None);
               selectedApiKey := openai_key; calls := 1 |} in
  let run := respond (sample_clock 0 5) (request_from "10.0.1.5" NotJson) ["v1"; "models"]
               (token_with [] None "key1") "10.0.1.5"
               {| rl_allowed := true; remaining := 1; resetAt := 60 |} None st w in
  exists e,
    usageLogs (db run.2) = [e]
    /\ ul_statusCode e = 500
    /\ map sk_usageCount (sharedKeys (db run.2)) = [1].
Proof.
  intros w st run.
  destruct (proj2 (answered_request_is_metered (sample_clock 0 5)
                     (request_from "10.0.1.5" NotJson) ["v1"; "models"]
                     (token_with [] None "key1") "10.0.1.5"
                     {| rl_allowed := true; remaining := 1; resetAt := 60 |} None st w
                     {| status := 500; statusText := ""; res_headers := [];
                        res_body := "upstream" |}
                     None eq_refl) (or_introl eq_refl))
    as (e & Hlog & Hstatus & _ & _ & _ & Hcount & _).
  exists e. repeat split; done.
Defined.

Lemma upstream_success_lost_when_store_down_witness :
  let w := store_down (world_with (token_with [] None "key1") [openai_key]) in
  (fetch_always_200 0
     {| up_url := ""; up_method := "POST"; up_headers := []; up_body := None |}
   = upstream_reply 200)
  /\ handleProxy (H := toy_crypto) sample_env (sample_clock 0 5) fetch_always_200
       (request_from "10.0.1.5" NotJson) ["v1"; "models"] w
     = (Ok (error_response 500 "Internal proxy error"), w).
Proof.
  intros w. split; [reflexivity|].
  eapply (upstream_success_lost_when_store_down (H := toy_crypto) sample_env (sample_clock 0 5)
            fetch_always_200 (request_from "10.0.1.5" NotJson) ["v1"; "models"] "feen_old"
            (token_with [] None "key1") openai_key [] None).
  - reflexivity.
  - reflexivity.
  - reflexivity.
  - reflexivity.
  - reflexivity.
  - reflexivity.
  - reflexivity.
  - vm_compute. reflexivity.
  - vm_compute. reflexivity.
  - reflexivity.
  - reflexivity.
Defined.

(** ** Manual rotation *)

Lemma find_weaken {A} (f g : A -> bool) l x :
  List.find (fun a => f a && g a) l = Some x -> exists y, List.find f l = Some y.
Proof.
  intros Hfind. apply find_some in Hfind as [Hin Hx]. apply andb_prop in Hx as [Hf _].
  destruct (List.find f l) as [y|] eqn:E; [by exists y|].
  by rewrite (find_none _ _ E x Hin) in Hf.
Qed.

Section ManualRotation.
Context `{NodeCrypto}.

(** X17. [requestTokenRotation] rotates a token only for its owner: when
    no row has both the id and the owner it throws [Token not found or
    unauthorized] and changes nothing.  For the owner it returns the new
    access token and writes the audit row with reason [manual_rotation].
    If the fast store is down the call throws after the row has been
    rewritten: the old access token is gone, the new one is never returned,
    and no audit row is written. *)
Theorem requestTokenRotation_owner_only
    (clock : RotationClock) (rnd : list ascii) (tokenId userId : string) (w : world) :
  let new := generateAccessToken "feen" rnd in
  let owned := fun s => String.eqb (sk_id s) tokenId && String.eqb (sk_ownerId s) userId in
  let rows' := map (fun s => if String.eqb (sk_id s) tokenId
                             then rotated_row (updateTime clock) new (hash new) s else s)
                 (sharedKeys (db w)) in
  ((forall s, s ∈ sharedKeys (db w) -> sk_id s = tokenId -> sk_ownerId s <> userId) ->
   requestTokenRotation clock rnd tokenId userId w
   = (Throw (JsError "Token not found or unauthorized"), w))
  /\ (forall row q,
        List.find owned (sharedKeys (db w)) = Some row ->
        rup (redis w) = true ->
        list_at (queueTime clock) (redis w) "notifications:queue" = Some q ->
        exists w' entry,
          requestTokenRotation clock rnd tokenId userId w = (Ok new, w')
          /\ sharedKeys (db w') = rows'
          /\ auditLogs (db w') = auditLogs (db w) ++ [entry]
          /\ al_action entry = "TOKEN_ROTATED"
          /\ al_userId entry = userId
          /\ al_resourceId entry = tokenId
          /\ al_details entry !! 0%nat = Some ("reason", json_string "manual_rotation"))
  /\ (forall row,
        List.find owned (sharedKeys (db w)) = Some row ->
        rup (redis w) = false ->
        exists w',
          requestTokenRotation clock rnd tokenId userId w = (Throw RedisError, w')
          /\ sharedKeys (db w') = rows'
          /\ auditLogs (db w') = auditLogs (db w)).
Proof.
  intros new owned rows'. split; [|split].
  - intros Hnone. unfold requestTokenRotation, bind, get_db. rewrite find_none_of; [done|].
    intros s Hs. destruct (String.eqb_spec (sk_id s) tokenId) as [Hid|]; [|done].
    cbn [andb]. apply String.eqb_neq. by apply Hnone.
  - intros row q Hrow Hup Hq. unfold requestTokenRotation, bind at 1, get_db.
    fold owned. rewrite Hrow.
    destruct (find_weaken _ _ _ _ Hrow) as [old Hold].
    destruct (rotateToken_ok w clock rnd tokenId userId "manual_rotation" old q Hup Hold Hq)
      as (w' & Hrun & Hrows & _ & _ & Haudit & _).
    eexists w', _. split; [exact Hrun|]. split; [exact Hrows|]. split; [exact Haudit|]. done.
  - intros row Hrow Hdown. unfold requestTokenRotation, bind at 1, get_db.
    fold owned. rewrite Hrow.
    destruct (find_weaken _ _ _ _ Hrow) as [old Hold].
    unfold rotateToken. erewrite bind_ok; [|reflexivity].
    unfold bind at 1, sharedKey_update. rewrite (find_existsb _ _ _ Hold).
    unfold bind at 1, redis_keys_prefix. rewrite redis_down by done.
    eexists. split; [reflexivity|]. done.
Qed.

End ManualRotation.

Lemma requestTokenRotation_owner_only_witness :
  requestTokenRotation (H := toy_crypto) sample_rotation_clock sample_random "tok1" "intruder"
    sample_world
  = (Throw (JsError "Token not found or unauthorized"), sample_world)
  /\ (exists w',
        requestTokenRotation (H := toy_crypto) sample_rotation_clock sample_random "tok1"
          "user1" (store_down sample_world) = (Throw RedisError, w')
        /\ map sk_accessToken (sharedKeys (db w')) = ["feen_QUFBQUFBQUFBQUFBQUFBQUFBQUFBQUFB"]).
Proof.
  pose proof (requestTokenRotation_owner_only (H := toy_crypto) sample_rotation_clock
                sample_random "tok1" "intruder" sample_world) as [Hnot _].
  pose proof (requestTokenRotation_owner_only (H := toy_crypto) sample_rotation_clock
                sample_random "tok1" "user1" (store_down sample_world)) as (_ & _ & Hdown).
  split.
  - apply Hnot. intros s Hs _. apply list_elem_of_singleton in Hs. by subst s.
  - destruct (Hdown sample_token eq_refl eq_refl) as (w' & Hrun & Hrows & _).
    exists w'. split; [exact Hrun|]. rewrite Hrows. reflexivity.
Defined.

(** ** The request sent upstream *)

Lemma strip_leading_ws ws l :
  forallb is_http_whitespace ws = true -> strip_leading (ws ++ l) = strip_leading l.
Proof.
  induction ws as [|c ws IH]; [done|]. cbn [forallb app strip_leading].
  intros [-> Hws]%andb_prop. by apply IH.
Qed.

Lemma forallb_rev {A} (f : A -> bool) l : forallb f (rev l) = forallb f l.
Proof.
  induction l as [|x l IH]; [done|]. cbn [rev forallb].
  rewrite forallb_app, IH. cbn [forallb]. destruct (f x), (forallb f l); done.
Qed.

Lemma starts_clean_strip s t :
  starts_clean s = true ->
  strip_leading (list_ascii_of_string s ++ t) = list_ascii_of_string s ++ t.
Proof.
  unfold starts_clean. destruct (list_ascii_of_string s) as [|c l]; [done|].
  cbn [app strip_leading]. by intros ->%negb_true_iff.
Qed.

Lemma ends_clean_strip s t :
  ends_clean s = true ->
  strip_leading (rev (list_ascii_of_string s) ++ t) = rev (list_ascii_of_string s) ++ t.
Proof.
  unfold ends_clean. destruct (rev (list_ascii_of_string s)) as [|c l]; [done|].
  cbn [app strip_leading]. by intros ->%negb_true_iff.
Qed.

(** What normalization keeps and what it drops: between a clean start and
    a clean end everything is kept; whitespace after a clean end is
    dropped. *)
Lemma normalize_between a m b :
  starts_clean a = true -> ends_clean b = true ->
  normalize_header_value (a +:+ m +:+ b) = a +:+ m +:+ b.
Proof.
  intros Ha Hb. unfold normalize_header_value.
  rewrite !list_ascii_of_string_app, (starts_clean_strip a _ Ha).
  rewrite !rev_app_distr, <- !app_assoc, (ends_clean_strip b _ Hb).
  rewrite !rev_app_distr, !rev_involutive, <- !app_assoc, <- !list_ascii_of_string_app.
  apply string_of_list_ascii_of_string.
Qed.

Lemma normalize_trailing a m b ws :
  starts_clean a = true -> ends_clean b = true ->
  forallb is_http_whitespace (list_ascii_of_string ws) = true ->
  normalize_header_value (a +:+ m +:+ b +:+ ws) = a +:+ m +:+ b.
Proof.
  intros Ha Hb Hws. unfold normalize_header_value.
  rewrite !list_ascii_of_string_app, (starts_clean_strip a _ Ha).
  rewrite !rev_app_distr, <- !app_assoc, strip_leading_ws by (by rewrite forallb_rev).
  rewrite (ends_clean_strip b _ Hb).
  rewrite !rev_app_distr, !rev_involutive, <- !app_assoc, <- !list_ascii_of_string_app.
  apply string_of_list_ascii_of_string.
Qed.

Lemma header_safe_ends_clean s : header_safe s = true -> s <> "" -> ends_clean s = true.
Proof.
  unfold header_safe, ends_clean. intros [_ Hend]%andb_prop Hne.
  destruct (rev (list_ascii_of_string s)) as [|c l] eqn:E; [|done].
  exfalso. apply Hne. destruct s as [|c s]; [done|].
  apply (f_equal (@length ascii)) in E. rewrite length_rev in E. done.
Qed.

(** A value with a NUL, a line feed or a carriage return between a clean
    start and a clean end is not taken. *)
Lemma header_refused_inside a c b :
  c ∈ [byte_zero; "010"%char; "013"%char] ->
  starts_clean a = true -> ends_clean b = true ->
  header_accepted (a +:+ String c b) = false.
Proof.
  intros Hc Ha Hb. unfold header_accepted.
  change (a +:+ String c b) with (a +:+ String c "" +:+ b).
  rewrite (normalize_between a (String c "") b Ha Hb).
  apply andb_false_intro2. unfold is_header_value.
  rewrite !list_ascii_of_string_app, !forallb_app. cbn [list_ascii_of_string forallb].
  apply andb_false_intro2, andb_false_intro1.
  apply elem_of_cons in Hc as [->|Hc]; [done|].
  apply elem_of_cons in Hc as [->|Hc]; [done|].
  apply elem_of_cons in Hc as [->|Hc]; [done|]. by apply elem_of_nil in Hc.
Qed.

Section UpstreamRequest.
Variable request : Request.
Variable path : list string.
Variable baseUrl : string.
Variable finalProvider : ApiProvider.
Variable actualApiKey : string.

(** [request.headers.get("content-type") || "application/json"], and the
    [Provider-Key] of the client when the provider is Bytez. *)
Local Abbreviation contentType :=
  (match headers_get "content-type" (req_headers request) with
   | None | Some EmptyString => "application/json"
   | Some ct => ct
   end).
Local Abbreviation providerKey :=
  (match headers_get "provider-key" (req_headers request) with
   | Some (String c pk) =>
       if bool_decide (finalProvider = BYTEZ) then Some (String c pk) else None
   | _ => None
   end).
Local Abbreviation sent :=
  (upstream_request request path baseUrl finalProvider actualApiKey).
Local Abbreviation every_value_taken :=
  (header_accepted ("Bearer " +:+ actualApiKey) && header_accepted contentType
   && (if bool_decide (finalProvider = ANTHROPIC) then header_accepted actualApiKey else true)
   && match providerKey with Some pk => header_accepted pk | None => true end).

(** The request is built exactly when [set] takes every value, and then
    holds the normalized values; otherwise a TypeError leaves the loop. *)
Lemma upstream_request_cases :
  (every_value_taken = true ->
   sent
   = Ok {| up_url := baseUrl +:+ "/" +:+ join "/" path;
           up_method := req_method request;
           up_headers :=
             (let h := headers_put "Content-Type" (normalize_header_value contentType)
                         (headers_put "Authorization"
                            (normalize_header_value ("Bearer " +:+ actualApiKey)) []) in
              let h := if bool_decide (finalProvider = ANTHROPIC)
                       then headers_put "anthropic-version" "2023-06-01"
                              (headers_put "x-api-key" (normalize_header_value actualApiKey) h)
                       else h in
              match providerKey with
              | Some pk => headers_put "Provider-Key" (normalize_header_value pk) h
              | None => h
              end);
           up_body := if negb (String.eqb (req_method request) "GET")
                         && negb (String.eqb (req_method request) "HEAD")
                      then Some (req_text request) else None |})
  /\ (every_value_taken = false -> exists msg, sent = Throw (TypeError msg)).
Proof.
  unfold upstream_request.
  rewrite (headers_set_literal "Authorization") by done.
  destruct (header_accepted ("Bearer " +:+ actualApiKey)); cbn [obind andb];
    [|split; [done|eauto]].
  rewrite (headers_set_literal "Content-Type") by done.
  destruct (header_accepted contentType); cbn [obind andb]; [|split; [done|eauto]].
  destruct (bool_decide (finalProvider = ANTHROPIC)).
  - rewrite (headers_set_literal "x-api-key") by done.
    destruct (header_accepted actualApiKey); cbn [obind andb]; [|split; [done|eauto]].
    rewrite (headers_set_safe "anthropic-version") by done. cbn [obind].
    destruct (headers_get "provider-key" (req_headers request)) as [[|c pk]|];
      destruct (bool_decide (finalProvider = BYTEZ)); cbn [obind]; try (split; [done|done]).
    rewrite (headers_set_literal "Provider-Key") by done.
    destruct (header_accepted (String c pk)); cbn [obind]; split; try done; eauto.
  - cbn [obind].
    destruct (headers_get "provider-key" (req_headers request)) as [[|c pk]|];
      destruct (bool_decide (finalProvider = BYTEZ)); cbn [obind]; try (split; [done|done]).
    rewrite (headers_set_literal "Provider-Key") by done.
    destruct (header_accepted (String c pk)); cbn [obind]; split; try done; eauto.
Qed.

(** X18. What goes upstream.  Every header is put on the request by
    [Headers.set], which takes a value only when all its characters are
    code points up to U+00FF and, once whitespace at its ends is dropped,
    none is a NUL, a line feed or a carriage return; the request is built
    exactly when every value is taken, and otherwise a TypeError is thrown
    (outside the inner [try], so the loop ends).  When it is built, the
    [Authorization] header carries [Bearer ] and the decrypted provider key,
    normalized, never the client's token; apart from it only
    [Content-Type], for Anthropic [x-api-key] and [anthropic-version], and
    for Bytez the client's [Provider-Key] are sent: no other header of the
    client is forwarded.  [x-api-key] is set for Anthropic alone.  The body
    is the text of the request, except for GET and HEAD, which have none.
    A key that starts and ends with a visible character is sent as it is;
    whitespace after it is dropped; a NUL, line feed or carriage return
    inside it makes [set] refuse the value. *)
Theorem upstream_request_headers :
  is_ok sent = every_value_taken
  /\ (forall e, sent = Throw e -> exists msg, e = TypeError msg)
  /\ (forall up,
        sent = Ok up ->
        headers_get "Authorization" (up_headers up)
        = Some (normalize_header_value ("Bearer " +:+ actualApiKey))
        /\ headers_get "Content-Type" (up_headers up)
           = Some (normalize_header_value contentType)
        /\ Forall (fun kv => kv.1 ∈ upstream_header_names) (up_headers up)
        /\ headers_get "x-api-key" (up_headers up)
           = (if bool_decide (finalProvider = ANTHROPIC)
              then Some (normalize_header_value actualApiKey) else None)
        /\ headers_get "Provider-Key" (up_headers up) = normalize_header_value <$> providerKey
        /\ up_url up = baseUrl +:+ "/" +:+ join "/" path
        /\ up_method up = req_method request
        /\ up_body up = (if bool_decide (req_method request ∈ ["GET"; "HEAD"]) then None
                         else Some (req_text request)))
  /\ (forall key ws,
        ends_clean key = true ->
        forallb is_http_whitespace (list_ascii_of_string ws) = true ->
        normalize_header_value ("Bearer " +:+ key +:+ ws) = "Bearer " +:+ key)
  /\ (forall p c q,
        c ∈ [byte_zero; "010"%char; "013"%char] -> ends_clean q = true ->
        header_accepted ("Bearer " +:+ p +:+ String c q) = false)
  /\ (forall key, is_byte_string key = false -> header_accepted ("Bearer " +:+ key) = false).
Proof.
  destruct upstream_request_cases as [Hyes Hno].
  split; [|split; [|split; [|split; [|split]]]].
  - destruct every_value_taken.
    + by rewrite Hyes.
    + by destruct Hno as [msg ->].
  - intros e He. destruct every_value_taken.
    + by rewrite Hyes in He.
    + destruct Hno as [msg Hmsg]; [done|]. rewrite Hmsg in He. injection He as <-. eauto.
  - intros up Hup. destruct every_value_taken; [|by destruct Hno as [msg Hmsg]; [|congruence]].
    rewrite Hyes in Hup by done. injection Hup as <-.
    cbn [up_headers up_method up_body up_url]. unfold upstream_header_names.
    assert ((if negb (String.eqb (req_method request) "GET")
                && negb (String.eqb (req_method request) "HEAD")
             then Some (req_text request) else None)
            = (if bool_decide (req_method request ∈ ["GET"; "HEAD"]) then None
               else Some (req_text request))) as Hbody.
    { destruct (String.eqb_spec (req_method request) "GET") as [->|Hg]; [done|].
      destruct (String.eqb_spec (req_method request) "HEAD") as [->|Hh]; [done|].
      cbn [negb andb]. rewrite bool_decide_eq_false_2; [done|].
      intros Hin. apply elem_of_cons in Hin as [?|Hin]; [done|].
      apply elem_of_cons in Hin as [?|Hin]; [done|]. by apply elem_of_nil in Hin. }
    rewrite Hbody.
    destruct (headers_get "provider-key" (req_headers request)) as [[|c pk]|];
      destruct (bool_decide (finalProvider = ANTHROPIC));
      destruct (bool_decide (finalProvider = BYTEZ)); cbn;
      repeat split; try done; repeat constructor.
  - intros key ws Hkey Hws.
    change ("Bearer " +:+ key +:+ ws) with ("Bearer " +:+ "" +:+ key +:+ ws).
    by rewrite normalize_trailing.
  - intros p c q Hc Hq.
    replace ("Bearer " +:+ p +:+ String c q) with (("Bearer " +:+ p) +:+ String c q)
      by apply string_app_assoc.
    by apply header_refused_inside.
  - intros key Hkey. unfold header_accepted.
    apply andb_false_intro1. unfold is_byte_string in *.
    by rewrite list_ascii_of_string_app, forallb_app, Hkey, andb_false_r.
Qed.

End UpstreamRequest.

(** A key stored with a line feed after it is sent without; a key with a
    line feed inside is refused, and so is a key with a character beyond
    U+00FF (here U+20AC, three bytes in UTF-8). *)
Example upstream_request_ex :
  let req := request_from "10.0.1.5" NotJson in
  let run key := upstream_request req ["v1"; "models"] "https://api.openai.com" OPENAI key in
  outcome_map (fun up => headers_get "Authorization" (up_headers up))
    (run ("sk-test" +:+ String "010" ""))
  = Ok (Some "Bearer sk-test")
  /\ run ("sk" +:+ String "010" "test") = Throw (TypeError "Invalid header value")
  /\ run (String "226" (String "130" (String "172" "")))
     = Throw (TypeError "Cannot convert argument to a ByteString").
Proof. vm_compute. auto. Qed.

(** ** Signed requests through the middleware *)

(** Three values of visible characters are set as they are. *)
Lemma signed_headers_plain (h : SignatureHeaders) (headers : Headers) :
  plain_text (timestamp h) = true -> plain_text (signature h) = true ->
  plain_text (nonce h) = true ->
  signed_headers h headers
  = Ok (headers_put "X-Feen-Nonce" (nonce h)
          (headers_put "X-Feen-Signature" (signature h)
             (headers_put "X-Feen-Timestamp" (timestamp h) headers))).
Proof.
  intros Ht Hs Hn. unfold signed_headers.
  rewrite (headers_set_safe "X-Feen-Timestamp") by (try done; by apply plain_text_safe).
  cbn [obind].
  rewrite (headers_set_safe "X-Feen-Signature") by (try done; by apply plain_text_safe).
  cbn [obind].
  by rewrite (headers_set_safe "X-Feen-Nonce") by (try done; by apply plain_text_safe).
Qed.

Lemma extractSignatureHeaders_signed (h : SignatureHeaders) (headers hs : Headers) :
  plain_text (timestamp h) = true -> plain_text (signature h) = true ->
  plain_text (nonce h) = true ->
  timestamp h <> "" -> signature h <> "" -> nonce h <> "" ->
  signed_headers h headers = Ok hs ->
  extractSignatureHeaders hs = Some h.
Proof.
  intros Hpt Hps Hpn Ht Hs Hn. rewrite signed_headers_plain by done. intros [= <-].
  unfold extractSignatureHeaders.
  rewrite headers_get_put_eq.
  rewrite (headers_get_put_ne "X-Feen-Signature" "X-Feen-Nonce") by discriminate.
  rewrite headers_get_put_eq.
  rewrite (headers_get_put_ne "X-Feen-Timestamp" "X-Feen-Nonce") by discriminate.
  rewrite (headers_get_put_ne "X-Feen-Timestamp" "X-Feen-Signature") by discriminate.
  rewrite headers_get_put_eq.
  by destruct h as [[|t0 t] [|s0 s] [|n0 n]].
Qed.

Section SignedFetch.
Context `{NodeCrypto}.

Lemma generateSignature_method_body ts n method method' path body body' tokenId secret :
  toUpperCase method = toUpperCase method' ->
  or_empty body = or_empty body' ->
  generateSignature {| sp_timestamp := ts; sp_nonce := n; sp_method := method; sp_path := path;
                       sp_body := body; sp_tokenId := tokenId |} secret
  = generateSignature {| sp_timestamp := ts; sp_nonce := n; sp_method := method';
                         sp_path := path; sp_body := body'; sp_tokenId := tokenId |} secret.
Proof.
  intros Hm Hb. unfold generateSignature.
  cbn [sp_timestamp sp_nonce sp_method sp_path sp_body sp_tokenId]. by rewrite Hm, Hb.
Qed.

(** X19. A request sent through the signing SDK passes
    [verifySignedRequest].  The request carries the three headers
    [signRequest] made for its method, path and body, on top of whatever
    headers the caller set ([Headers.set] takes the three values, which are
    digits and hexadecimal text, as they are); it is accepted when the
    server clock is within 300 seconds and the nonce is new, whatever the
    letter case of the method the client signed, and for a request without
    body as well (the client signs no body, the server reads an empty one).
    A request lacking one of the three headers is turned away with
    [Missing signature headers] and leaves the nonce cache untouched. *)
Theorem verifySignedRequest_accepts_sdk
    (cache : gmap string Z) (nowMs nowMs' : Z) (rnd : list ascii)
    (method pathname : string) (body : option string) (tokenId secret : string)
    (callerHeaders : Headers) (request : Request) :
  let h := signRequest nowMs rnd method pathname body tokenId secret in
  (exists hs, signed_headers h callerHeaders = Ok hs)
  /\ (rnd <> [] ->
   signed_headers h callerHeaders = Ok (req_headers request) ->
   toUpperCase (req_method request) = toUpperCase method ->
   (if negb (String.eqb (req_method request) "GET")
       && negb (String.eqb (req_method request) "HEAD")
    then req_text request = or_empty body else or_empty body = "") ->
   Z.abs (unix_seconds nowMs' - unix_seconds nowMs) <= 300 ->
   cache !! (tokenId +:+ ":" +:+ hex rnd) = None ->
   verifySignedRequest cache nowMs' request pathname tokenId secret
   = (Ok {| valid := true; error := None |},
      cleanOldNonces nowMs' (<[tokenId +:+ ":" +:+ hex rnd := unix_seconds nowMs]> cache)))
  /\ (headers_get "X-Feen-Timestamp" (req_headers request) = None
      \/ headers_get "X-Feen-Signature" (req_headers request) = None
      \/ headers_get "X-Feen-Nonce" (req_headers request) = None ->
      verifySignedRequest cache nowMs' request pathname tokenId secret
      = (Ok {| valid := false; error := Some "Missing signature headers" |}, cache)).
Proof.
  intros h.
  assert (plain_text (timestamp h) = true /\ plain_text (signature h) = true
          /\ plain_text (nonce h) = true) as (Hpt & Hps & Hpn).
  { cbn [timestamp signature nonce h signRequest]. unfold generateSignature.
    split; [apply toString_plain|]. split; apply hex_plain. }
  split; [eexists; by apply signed_headers_plain|]. split.
  - intros Hrnd Hheaders Hmethod Hbody Hfresh Hnew.
    unfold verifySignedRequest.
    rewrite (extractSignatureHeaders_signed h callerHeaders _ Hpt Hps Hpn); [| | | |exact Hheaders].
    + unfold verifySignature. cbn [timestamp signature nonce h signRequest].
      rewrite parseInt_toString. unfold SIGNATURE_VALIDITY_SECONDS.
      destruct (Z.gtb_spec (Z.abs (unix_seconds nowMs' - unix_seconds nowMs)) 300); [lia|].
      rewrite Hnew. rewrite bool_decide_eq_false_2 by (by intros [? ?]).
      rewrite (generateSignature_method_body _ _ method (req_method request) _ body
                 (if negb (String.eqb (req_method request) "GET")
                     && negb (String.eqb (req_method request) "HEAD")
                  then Some (req_text request) else None)).
      * unfold timingSafeEqual. rewrite Nat.eqb_refl, bool_decide_eq_true_2 by done. done.
      * done.
      * destruct (negb (String.eqb (req_method request) "GET")
                  && negb (String.eqb (req_method request) "HEAD")); cbn; congruence.
    + apply toString_nonempty.
    + cbn [signature h signRequest]. intros Hempty.
      pose proof (generateSignature_length
                    {| sp_timestamp := unix_seconds nowMs; sp_nonce := hex rnd;
                       sp_method := method; sp_path := pathname; sp_body := body;
                       sp_tokenId := tokenId |} secret) as Hlen.
      by rewrite Hempty in Hlen.
    + cbn [nonce h signRequest]. by destruct rnd.
  - intros Hmissing. unfold verifySignedRequest, extractSignatureHeaders.
    destruct Hmissing as [-> | [-> | ->]]; [done| |].
    + by destruct (headers_get "X-Feen-Timestamp" _) as [[|]|].
    + destruct (headers_get "X-Feen-Timestamp" _) as [[|]|]; [done| |done].
      by destruct (headers_get "X-Feen-Signature" _) as [[|]|].
Qed.

End SignedFetch.

Lemma verifySignedRequest_accepts_sdk_witness :
  let h := signRequest (H := toy_crypto) 1000000 sample_iv "post" "/v1/x" None "tok" "s" in
  let hs := headers_put "X-Feen-Nonce" (nonce h)
              (headers_put "X-Feen-Signature" (signature h)
                 (headers_put "X-Feen-Timestamp" (timestamp h) [("accept", "*/*")])) in
  signed_headers h [("accept", "*/*")] = Ok hs
  /\ (verifySignedRequest (H := toy_crypto) ∅ 1200000
        {| req_method := "POST"; req_headers := hs; req_text := ""; req_json := NotJson |}
        "/v1/x" "tok" "s").1
     = Ok {| valid := true; error := None |}.
Proof.
  intros h hs. split; [vm_compute; reflexivity|].
  rewrite (proj1 (proj2 (verifySignedRequest_accepts_sdk (H := toy_crypto) ∅ 1000000 1200000
                           sample_iv "post" "/v1/x" None "tok" "s" [("accept", "*/*")]
                           {| req_method := "POST"; req_headers := hs; req_text := "";
                              req_json := NotJson |}))
            ltac:(discriminate) ltac:(vm_compute; reflexivity) eq_refl eq_refl
            ltac:(vm_compute; discriminate) ltac:(vm_compute; reflexivity)).
  reflexivity.
Defined.

(** ** Scopes: what is reported missing *)

Lemma findRequiredScopes_entry table n :
  findRequiredScopes table n = [] \/ exists e, e ∈ table /\ findRequiredScopes table n = e.2.
Proof.
  induction table as [|[p sc] table IH]; [by left|]. cbn [findRequiredScopes].
  destruct (startsWith n p || includes n p).
  - right. exists (p, sc). split; [by left|done].
  - destruct IH as [?|(e & He & Heq)]; [by left|]. right. exists e. split; [by right|done].
Qed.

Lemma EndpointScopes_first_not_ALL :
  Forall (fun e => exists s rest, e.2 = s :: rest /\ is_ALL s = false) EndpointScopes.
Proof. unfold EndpointScopes. repeat constructor; by eexists _, _. Qed.

Lemma scope_value_wildcard s : scope_value s = "*" -> s = ALL.
Proof. by destruct s. Qed.

(** X20. What [hasRequiredScope] reports as missing.  The call is allowed
    exactly when nothing is reported missing.  A scope reported missing is
    never the wildcard, is one of the required scopes, and granting it
    alone is enough: with that one scope added the same call is allowed.
    The method of the request plays no part in the decision. *)
Theorem missing_scopes_sufficient (tokenScopes : list string) (endpoint method : string) :
  let r := hasRequiredScope tokenScopes endpoint method in
  (allowed r = true <-> missingScopes r = [])
  /\ Forall (fun s => s <> ALL
                      /\ s ∈ requiredScopes r
                      /\ allowed (hasRequiredScope (scope_value s :: tokenScopes) endpoint
                                    method) = true)
       (missingScopes r)
  /\ (forall method', hasRequiredScope tokenScopes endpoint method' = r).
Proof.
  intros r. subst r. split; [|split; [|done]].
  - unfold hasRequiredScope.
    destruct (findRequiredScopes_entry EndpointScopes (normalizeEndpoint endpoint))
      as [->|(e & He & ->)]; [done|].
    pose proof EndpointScopes_first_not_ALL as Htable.
    rewrite Forall_forall in Htable. destruct (Htable e He) as (s & rest & -> & Hs).
    cbn [length Nat.eqb].
    destruct (arr_includes tokenScopes (scope_value ALL)); [done|].
    destruct (existsb _ (s :: rest)); cbn [allowed missingScopes]; [done|].
    cbn [List.filter]. rewrite Hs. cbn [negb]. split; done.
  - unfold hasRequiredScope.
    set (required := findRequiredScopes EndpointScopes (normalizeEndpoint endpoint)).
    destruct (length required =? 0)%nat eqn:Elen; [constructor|].
    destruct (arr_includes tokenScopes (scope_value ALL)) eqn:Ewild; [constructor|].
    destruct (existsb _ required) eqn:Ematch; cbn [missingScopes requiredScopes]; [constructor|].
    apply Forall_forall. intros s Hs.
    apply list_elem_of_In, filter_In in Hs as [Hin Hnot].
    assert (s <> ALL) as Hne by (by intros ->).
    split; [done|]. split; [by apply list_elem_of_In|].
    assert (arr_includes (scope_value s :: tokenScopes) (scope_value ALL) = false) as ->.
    { unfold arr_includes in *. apply bool_decide_eq_false in Ewild.
      apply bool_decide_eq_false_2. intros Hw. apply elem_of_cons in Hw as [Hw|Hw]; [|done].
      apply Hne, scope_value_wildcard. done. }
    assert (existsb (fun scope => arr_includes (scope_value s :: tokenScopes) (scope_value scope))
              required = true) as ->; [|done].
    apply existsb_exists. exists s. split; [done|].
    unfold arr_includes. apply bool_decide_eq_true_2. by left.
Qed.

(** ** Minting access tokens *)

Lemma unbase64_b64char_url b0 b1 b2 b3 b4 b5 :
  unbase64 (b64char base64url_alphabet (Ascii b0 b1 b2 b3 b4 b5 false false))
  = Some (Ascii b0 b1 b2 b3 b4 b5 false false).
Proof. destruct b0, b1, b2, b3, b4, b5; reflexivity. Qed.

Lemma base64_decode_url_group x y z rest :
  base64_decode_from G0
    (b64char base64url_alphabet (sextet1 x) :: b64char base64url_alphabet (sextet2 x y)
     :: b64char base64url_alphabet (sextet3 y z) :: b64char base64url_alphabet (sextet4 z)
     :: rest)
  = x :: y :: z :: base64_decode_from G0 rest.
Proof.
  destruct x as [x0 x1 x2 x3 x4 x5 x6 x7], y as [y0 y1 y2 y3 y4 y5 y6 y7],
    z as [z0 z1 z2 z3 z4 z5 z6 z7].
  unfold sextet1, sextet2, sextet3, sextet4.
  cbn [base64_decode_from]. rewrite !unbase64_b64char_url. reflexivity.
Qed.

(** Node's decoder reads the unpadded URL-safe text back. *)
Lemma base64_decode_url_encode bs : base64_decode (base64url_encode bs) = bs.
Proof.
  unfold base64_decode.
  induction bs as [bs IH] using (induction_ltof1 _ (@length ascii)); unfold ltof in IH.
  destruct bs as [|x [|y [|z rest]]].
  - reflexivity.
  - destruct x as [x0 x1 x2 x3 x4 x5 x6 x7].
    cbn [base64url_encode base64_decode_from sextet1 sextet2 byte_zero].
    rewrite !unbase64_b64char_url. reflexivity.
  - destruct x as [x0 x1 x2 x3 x4 x5 x6 x7], y as [y0 y1 y2 y3 y4 y5 y6 y7].
    cbn [base64url_encode base64_decode_from sextet1 sextet2 sextet3 byte_zero].
    rewrite !unbase64_b64char_url. reflexivity.
  - cbn [base64url_encode]. rewrite base64_decode_url_group. f_equal. f_equal. f_equal.
    apply IH. cbn [length]. lia.
Qed.

Lemma base64url_encode_length (k : nat) : forall bs,
  length bs = (3 * k)%nat -> length (base64url_encode bs) = (4 * k)%nat.
Proof.
  induction k as [|k IH]; intros bs Hlen.
  - by destruct bs.
  - destruct bs as [|x [|y [|z rest]]]; cbn [length] in Hlen; try lia.
    cbn [base64url_encode length]. rewrite (IH rest) by lia. lia.
Qed.

Lemma sextet_char_url b0 b1 b2 b3 b4 b5 :
  In (b64char base64url_alphabet (Ascii b0 b1 b2 b3 b4 b5 false false)) base64url_alphabet.
Proof.
  unfold b64char. apply nth_In.
  destruct b0, b1, b2, b3, b4, b5; apply Nat.ltb_lt; reflexivity.
Qed.

Lemma base64url_encode_chars bs :
  Forall (fun c => In c base64url_alphabet) (base64url_encode bs).
Proof.
  induction bs as [bs IH] using (induction_ltof1 _ (@length ascii)); unfold ltof in IH.
  destruct bs as [|x [|y [|z rest]]]; cbn [base64url_encode]; [constructor|..].
  - destruct x. unfold sextet1, sextet2, byte_zero.
    repeat (apply Forall_cons_2; [apply sextet_char_url|]). apply Forall_nil_2.
  - destruct x, y. unfold sextet1, sextet2, sextet3, byte_zero.
    repeat (apply Forall_cons_2; [apply sextet_char_url|]). apply Forall_nil_2.
  - destruct x, y, z. unfold sextet1, sextet2, sextet3, sextet4.
    repeat (apply Forall_cons_2; [apply sextet_char_url|]). apply IH. cbn [length]. lia.
Qed.

Lemma string_app_inv_head p a b : p +:+ a = p +:+ b -> a = b.
Proof.
  induction p as [|c p IH]; [done|].
  change (String c (p +:+ a) = String c (p +:+ b) -> a = b). intros [= Heq]. by apply IH.
Qed.

Lemma string_of_list_ascii_inj a b : string_of_list_ascii a = string_of_list_ascii b -> a = b.
Proof.
  intros Heq. rewrite <- (list_ascii_of_string_of_list_ascii a), Heq.
  apply list_ascii_of_string_of_list_ascii.
Qed.

(** X21. Access tokens.  [generateAccessToken] maps different random bytes
    to different tokens.  A token minted from 24 random bytes is the
    prefix, an underscore and 32 characters, all of them letters, digits,
    [-] or [_]: the token needs no escaping in a URL or a header. *)
Theorem generateAccessToken_unique (prefix : string) (rnd rnd' : list ascii) :
  (generateAccessToken prefix rnd = generateAccessToken prefix rnd' -> rnd = rnd')
  /\ (length rnd = 24%nat ->
      String.length (generateAccessToken prefix rnd) = (String.length prefix + 33)%nat)
  /\ (exists body,
        generateAccessToken prefix rnd = prefix +:+ "_" +:+ body
        /\ Forall (fun c => In c base64url_alphabet) (list_ascii_of_string body)).
Proof.
  unfold generateAccessToken. split; [|split].
  - intros Heq. apply string_app_inv_head in Heq. injection Heq as Heq.
    apply string_of_list_ascii_inj in Heq.
    by rewrite <- (base64_decode_url_encode rnd), Heq, base64_decode_url_encode.
  - intros Hlen. rewrite !string_length_app.
    rewrite string_length_of_list, (base64url_encode_length 8) by done.
    cbn [String.length]. lia.
  - eexists. split; [reflexivity|].
    rewrite list_ascii_of_string_of_list_ascii. apply base64url_encode_chars.
Qed.

Lemma generateAccessToken_unique_witness :
  String.length (generateAccessToken "feen" sample_random) = 37%nat.
Proof.
  apply (proj1 (proj2 (generateAccessToken_unique "feen" sample_random sample_random))).
  reflexivity.
Defined.

(** ** Bypass tokens *)

Lemma redis_get_string nowMs k s w :
  rup (redis w) = true -> rlookup nowMs (redis w) k = Some (RString s) ->
  redis_get nowMs k w = (Ok (Some s), w).
Proof.
  intros Hup Hl. unfold redis_get, redis_cmd. by rewrite Hup, Hl, world_eta.
Qed.

Lemma redis_get_none nowMs k w :
  rup (redis w) = true -> rlookup nowMs (redis w) k = None ->
  redis_get nowMs k w = (Ok None, w).
Proof.
  intros Hup Hl. unfold redis_get, redis_cmd. by rewrite Hup, Hl, world_eta.
Qed.

Lemma rlookup_rwrite_expired nowMs r k v d :
  d <= nowMs -> rlookup nowMs (rwrite r k v (Some d)) k = None.
Proof.
  intros Hd. unfold rlookup, expired, rwrite; cbn [rdata rexpiry].
  rewrite lookup_insert_eq. by destruct (Z.leb_spec d nowMs); [|lia].
Qed.

(** X22. A bypass token works once, and only for fifteen minutes.  The
    token [generateBypassToken] hands out gives back the user it was made
    for when it is presented within 900 seconds; it is deleted by that very
    call, so every later presentation gives nothing; presented after 900
    seconds it gives nothing either. *)
Theorem bypass_token_single_use
    (t0 : Z) (rnd : list ascii) (userId : string) (w : world) :
  rup (redis w) = true ->
  userId <> "" ->
  exists w1,
    generateBypassToken t0 rnd userId w = (Ok (hex rnd), w1)
    /\ db w1 = db w
    /\ (forall t, t < t0 + 900000 ->
          exists w2,
            verifyBypassToken t (hex rnd) w1 = (Ok (Some userId), w2)
            /\ forall t', verifyBypassToken t' (hex rnd) w2 = (Ok None, w2))
    /\ (forall t, t0 + 900000 <= t -> verifyBypassToken t (hex rnd) w1 = (Ok None, w1)).
Proof.
  intros Hup Huser. unfold generateBypassToken, bind, redis_set_ex, redis_cmd, ret.
  rewrite Hup. eexists. split; [reflexivity|]. split; [done|]. split.
  - intros t Ht. unfold verifyBypassToken, bind at 1.
    erewrite redis_get_string; [|done|by apply rlookup_rwrite_eq; intros d [= <-]; lia].
    destruct userId as [|c u]; [done|].
    unfold bind, redis_del, redis_cmd, ret. cbn [redis db rup rwrite]. rewrite Hup.
    eexists. split; [reflexivity|].
    intros t'. unfold verifyBypassToken, bind.
    erewrite redis_get_none; [done|done|]. cbn [redis]. rewrite rlookup_deleted.
    rewrite bool_decide_eq_true_2; [done|]. by left.
  - intros t Ht. unfold verifyBypassToken, bind.
    erewrite redis_get_none; [done|done|]. cbn [redis].
    apply rlookup_rwrite_expired. lia.
Qed.

Lemma bypass_token_single_use_witness :
  exists w1 w2,
    generateBypassToken 1000 sample_iv "user1" sample_world = (Ok (hex sample_iv), w1)
    /\ verifyBypassToken 900999 (hex sample_iv) w1 = (Ok (Some "user1"), w2)
    /\ verifyBypassToken 901000 (hex sample_iv) w1 = (Ok None, w1)
    /\ verifyBypassToken 2000 (hex sample_iv) w2 = (Ok None, w2).
Proof.
  destruct (bypass_token_single_use 1000 sample_iv "user1" sample_world eq_refl
              ltac:(discriminate)) as (w1 & Hgen & _ & Hin & Hout).
  destruct (Hin 900999 ltac:(lia)) as (w2 & Huse & Hagain).
  exists w1, w2. split; [exact Hgen|]. split; [exact Huse|]. split; [apply Hout; lia|].
  apply Hagain.
Defined.

(** ** Scheduled rotation *)

Lemma toISOString_nonempty t : toISOString t <> "".
Proof.
  unfold toISOString. destruct (civil_from_days (t / 86400000)) as [[y m] d].
  destruct (iso_year y); discriminate.
Qed.

(** X23. When a scheduled rotation comes due.  [scheduleRotation] stores
    the date as ISO text under [rotation:scheduled:<token id>], a key that
    expires at that very date rounded down to the second, and
    [checkScheduledRotation] reads the date from that key before it reads
    the clock.  So a check reports the rotation due only when it straddles
    the date: the store answered not later than the deadline of the key and
    the clock, read after the answer, shows the date or later; it does
    report it then, if the store answered before the deadline.  A check the
    store answers after the deadline finds no key and says no, and so does
    every check whose clock has not reached the date: a check begun after
    the date never reports the rotation due. *)
Theorem scheduled_rotation_due_window
    (parseDate : string -> option Z) (t0 : Z) (tokenId : string) (rotateAt : Z) (w : world) :
  rup (redis w) = true ->
  parseDate (toISOString rotateAt) = Some rotateAt ->
  let key := "rotation:scheduled:" +:+ tokenId in
  let deadline := rotateAt / 1000 * 1000 in
  exists w',
    scheduleRotation t0 tokenId rotateAt w = (Ok tt, w')
    /\ rdata (redis w') !! key = Some (RString (toISOString rotateAt))
    /\ rexpiry (redis w') !! key = Some deadline
    /\ rotateAt - 1000 < deadline <= rotateAt
    /\ forall getTime nowMs,
         t0 <= getTime ->
         exists due,
           checkScheduledRotation parseDate getTime nowMs tokenId w' = (Ok due, w')
           /\ (due = true -> getTime <= deadline /\ rotateAt <= nowMs)
           /\ (getTime < deadline -> rotateAt <= nowMs -> due = true)
           /\ (deadline < getTime -> due = false)
           /\ (nowMs < rotateAt -> due = false).
Proof.
  intros Hup Hdate key deadline.
  unfold scheduleRotation, bind at 1, redis_set, redis_cmd. rewrite Hup.
  unfold bind, redis_expireat, redis_cmd, ret. cbn [redis db].
  rewrite rlookup_rwrite_eq by done. cbn [rup rwrite]. rewrite Hup.
  fold key. fold deadline.
  eexists. split; [reflexivity|]. cbn [redis]. unfold rwrite at 1 3. cbn [rdata rexpiry].
  split; [by rewrite lookup_insert_eq|]. split; [by rewrite lookup_insert_eq|].
  assert (rotateAt - 1000 < deadline <= rotateAt) as Hdl.
  { subst deadline. pose proof (Z.mul_div_le rotateAt 1000 ltac:(lia)).
    pose proof (Z.mul_succ_div_gt rotateAt 1000 ltac:(lia)). lia. }
  split; [exact Hdl|].
  intros getTime nowMs _. unfold checkScheduledRotation, bind. fold key.
  destruct (Z.leb_spec deadline getTime) as [Hgone|Hlive].
  - erewrite redis_get_none; [|done|by apply rlookup_rwrite_expired].
    exists false. split; [done|]. repeat split; try done. lia.
  - erewrite redis_get_string; [|done|by apply rlookup_rwrite_eq; intros d [= <-]].
    pose proof (toISOString_nonempty rotateAt) as Hne.
    destruct (toISOString rotateAt) as [|c iso] eqn:Eiso; [done|].
    rewrite Hdate. unfold ret. eexists. split; [reflexivity|].
    destruct (Z.geb_spec nowMs rotateAt); repeat split; try done; lia.
Qed.

(** The date of the sample, as [new Date] reads its text. *)
Definition sample_parseDate (text : string) : option Z :=
  if String.eqb text "2023-11-14T22:13:20.500Z" then Some 1700000000500 else None.

(** A rotation scheduled for half a second past a full second: the key is
    gone at the full second.  A check in one instant says no before the
    date and after it; only a check whose answer from the store is older
    than half a second when the clock is read says yes. *)
Lemma scheduled_rotation_due_window_witness :
  exists w',
    scheduleRotation 1000 "tok1" 1700000000500 sample_world = (Ok tt, w')
    /\ rdata (redis w') !! "rotation:scheduled:tok1"
       = Some (RString "2023-11-14T22:13:20.500Z")
    /\ rexpiry (redis w') !! "rotation:scheduled:tok1" = Some 1700000000000
    /\ checkScheduledRotation sample_parseDate 1699999999999 1699999999999 "tok1" w'
       = (Ok false, w')
    /\ checkScheduledRotation sample_parseDate 1700000000600 1700000000600 "tok1" w'
       = (Ok false, w')
    /\ checkScheduledRotation sample_parseDate 1699999999999 1700000000500 "tok1" w'
       = (Ok true, w').
Proof.
  destruct (scheduled_rotation_due_window sample_parseDate 1000 "tok1" 1700000000500
              sample_world eq_refl eq_refl) as (w' & Hrun & Hdata & Hexp & _ & Hcheck).
  exists w'. split; [exact Hrun|]. split; [exact Hdata|]. split; [exact Hexp|].
  split; [|split].
  - destruct (Hcheck 1699999999999 1699999999999 ltac:(lia)) as (due & Hrun1 & _ & _ & _ & Hno).
    rewrite Hrun1. by rewrite (Hno ltac:(lia)).
  - destruct (Hcheck 1700000000600 1700000000600 ltac:(lia)) as (due & Hrun1 & _ & _ & Hno & _).
    rewrite Hrun1. by rewrite (Hno ltac:(vm_compute; reflexivity)).
  - destruct (Hcheck 1699999999999 1700000000500 ltac:(lia)) as (due & Hrun1 & _ & Hyes & _).
    rewrite Hrun1. by rewrite (Hyes ltac:(vm_compute; reflexivity) ltac:(lia)).
Defined.

(** ** Bursts *)

Lemma detectBurstRequests_up w nowMs tokenId windowSeconds threshold c0 :
  rup (redis w) = true ->
  counter_at nowMs (redis w) ("burst:" +:+ tokenId) = Some c0 ->
  detectBurstRequests nowMs tokenId windowSeconds threshold w
  = (Ok (c0 + 1 >? threshold),
     {| db := db w;
        redis := {| rdata := <["burst:" +:+ tokenId := RInt (c0 + 1)]> (rdata (redis w));
                    rexpiry := if c0 + 1 =? 1
                               then <["burst:" +:+ tokenId := nowMs + windowSeconds * 1000]>
                                      (rexpiry (redis w))
                               else rexpiry (redis w);
                    rup := true |} |}).
Proof.
  intros Hup Hc. unfold detectBurstRequests, bind.
  rewrite (redis_incr_ok _ _ _ _ Hup Hc). set (K := "burst:" +:+ tokenId) in *.
  destruct (c0 + 1 =? 1) eqn:E1.
  - unfold redis_expire, redis_cmd, ret; cbn [redis db rup rwrite].
    rewrite Hup, rlookup_rwrite_same. unfold rwrite; cbn [rdata rexpiry rup].
    rewrite insert_insert_eq, Hup.
    do 3 f_equal.
    unfold kept_deadline. destruct (expired nowMs (redis w) K).
    + by rewrite insert_delete_eq.
    + destruct (rexpiry (redis w) !! K); [by rewrite insert_insert_eq|by rewrite insert_delete_eq].
  - unfold ret, rwrite. rewrite Hup. do 3 f_equal.
    unfold counter_at, rlookup, kept_deadline in *.
    destruct (expired nowMs (redis w) K) eqn:Eexp.
    { simplify_eq. }
    destruct (rexpiry (redis w) !! K) eqn:Ed; [by apply insert_id|by apply delete_id].
Qed.

Lemma detectBurstRequests_running tokenId windowSeconds threshold times : forall w (c : nat) D,
  rup (redis w) = true ->
  (1 <= c)%nat ->
  rdata (redis w) !! ("burst:" +:+ tokenId) = Some (RInt (Z.of_nat c)) ->
  rexpiry (redis w) !! ("burst:" +:+ tokenId) = Some D ->
  Forall (fun t => t < D) times ->
  (detectBurstRequests_calls times tokenId windowSeconds threshold w).1
  = Ok (map (fun i : nat => Z.of_nat i >? threshold) (seq (S c) (length times))).
Proof.
  induction times as [|t times IH]; intros w c D Hup Hc Hdata Hdl Hall; [done|].
  apply Forall_cons in Hall as [HtD Hall].
  cbn [detectBurstRequests_calls length seq map].
  assert (counter_at t (redis w) ("burst:" +:+ tokenId) = Some (Z.of_nat c)) as Hcnt.
  { unfold counter_at, rlookup, expired. rewrite Hdl.
    destruct (Z.leb_spec D t); [lia|]. by rewrite Hdata. }
  unfold bind at 1. rewrite (detectBurstRequests_up _ _ _ _ _ _ Hup Hcnt).
  destruct (Z.eqb_spec (Z.of_nat c + 1) 1); [lia|].
  unfold bind at 1.
  match goal with |- context [detectBurstRequests_calls times tokenId windowSeconds threshold ?w1] =>
    specialize (IH w1 (S c) D) end.
  cbn [redis rup rdata rexpiry] in IH.
  rewrite lookup_insert_eq in IH.
  replace (Z.of_nat c + 1) with (Z.of_nat (S c)) in * by lia.
  specialize (IH eq_refl ltac:(lia) eq_refl Hdl Hall).
  destruct (detectBurstRequests_calls times tokenId windowSeconds threshold _) as [[rs|e] w2];
    cbn [fst] in IH; [|done].
  injection IH as ->. unfold ret. cbn [fst]. done.
Qed.

(** X24. [detectBurstRequests] counts from the first request, not by the
    clock: starting with no counter, of the calls made less than
    [windowSeconds] after the first one the [i]-th reports a burst iff
    [i > threshold]. *)
Theorem burst_detected_after_threshold
    (tokenId : string) (windowSeconds threshold : Z) (t1 : Z) (times : list Z) (w : world) :
  rup (redis w) = true ->
  counter_at t1 (redis w) ("burst:" +:+ tokenId) = Some 0 ->
  Forall (fun t => t < t1 + windowSeconds * 1000) times ->
  (detectBurstRequests_calls (t1 :: times) tokenId windowSeconds threshold w).1
  = Ok (map (fun i : nat => Z.of_nat i >? threshold) (seq 1 (S (length times)))).
Proof.
  intros Hup Hcnt Hall. cbn [detectBurstRequests_calls seq map].
  unfold bind at 1. rewrite (detectBurstRequests_up _ _ _ _ _ _ Hup Hcnt).
  change (0 + 1) with 1. change (1 =? 1) with true. cbn iota.
  unfold bind at 1.
  match goal with |- context [detectBurstRequests_calls times tokenId windowSeconds threshold ?w1] =>
    pose proof (detectBurstRequests_running tokenId windowSeconds threshold times w1 1
                  (t1 + windowSeconds * 1000)) as Hrest end.
  cbn [redis rup rdata rexpiry] in Hrest. rewrite !lookup_insert_eq in Hrest.
  specialize (Hrest eq_refl ltac:(lia) eq_refl eq_refl Hall).
  destruct (detectBurstRequests_calls times tokenId windowSeconds threshold _) as [[rs|e] w2];
    cbn [fst] in Hrest; [|done].
  injection Hrest as ->. reflexivity.
Qed.

Lemma burst_detected_after_threshold_witness :
  (detectBurstRequests_calls [1000; 1001; 10999] "tok1" 10 2 sample_world).1
  = Ok [false; false; true].
Proof.
  rewrite (burst_detected_after_threshold "tok1" 10 2 1000 [1001; 10999] sample_world
             eq_refl eq_refl ltac:(repeat constructor; lia)).
  reflexivity.
Defined.

(** ** Two-factor authentication: switching it on and off *)

Section TwoFactorFlow.
Context `{NodeCrypto}.

Lemma isTwoFactorEnabled_stored nowMs userId secret w :
  rup (redis w) = true ->
  rlookup nowMs (redis w) ("2fa:secret:" +:+ userId) = Some (RString secret) ->
  isTwoFactorEnabled nowMs userId w = (Ok true, w).
Proof.
  intros Hup Hl. unfold isTwoFactorEnabled, bind. by erewrite redis_get_string.
Qed.

Lemma disableTwoFactor_verifies nowMs userId code secret w :
  rup (redis w) = true ->
  rlookup nowMs (redis w) ("2fa:secret:" +:+ userId) = Some (RString secret) ->
  secret <> "" ->
  disableTwoFactor nowMs userId code w
  = match verifyTOTP nowMs secret code with
    | Throw e => (Throw e, w)
    | Ok false => (Ok {| valid := false; error := Some "Invalid verification code" |}, w)
    | Ok true =>
        (Ok {| valid := true; error := None |},
         {| db := {| sharedKeys := sharedKeys (db w); apiKeys := apiKeys (db w);
                     auditLogs := auditLogs (db w) ++
                       [ {| al_userId := userId; al_action := "2FA_DISABLED";
                            al_resource := "user"; al_resourceId := userId;
                            al_details := [] |} ];
                     usageLogs := usageLogs (db w) |};
            redis := {| rdata := delete ("2fa:backup:" +:+ userId)
                                   (delete ("2fa:secret:" +:+ userId) (rdata (redis w)));
                        rexpiry := delete ("2fa:backup:" +:+ userId)
                                     (delete ("2fa:secret:" +:+ userId) (rexpiry (redis w)));
                        rup := true |} |})
    end.
Proof.
  intros Hup Hl Hs. unfold disableTwoFactor, bind at 1.
  erewrite redis_get_string by done. destruct secret as [|c s]; [done|].
  unfold bind at 1, of_outcome.
  destruct (verifyTOTP nowMs (String c s) code) as [[|]|e]; [|done|done].
  cbn [negb]. unfold bind, redis_del, redis_cmd, auditLog_create, ret.
  rewrite !Hup. cbn [redis db rup foldr]. done.
Qed.

(** X25. Switching two-factor authentication on and off.  [enableTwoFactor]
    with a code of the current, previous or next step stores the secret:
    from then on [isTwoFactorEnabled] says yes.  [disableTwoFactor] with such
    a code removes it again, and [isTwoFactorEnabled] says no; each of the
    two writes one audit row.  With a six-character code that is none of
    the three, [disableTwoFactor] answers [Invalid verification code]; with
    a code of any other length it throws the RangeError of
    [timingSafeEqual]; in both cases nothing changes. *)
Theorem two_factor_on_and_off
    (t0 t1 : Z) (userId secret : string) (i j : Z) (w : world) :
  rup (redis w) = true ->
  secret <> "" ->
  -1 <= i <= 1 -> -1 <= j <= 1 ->
  exists w1,
    enableTwoFactor t0 userId secret (generateTOTP secret (unix_seconds t0 / 30 + i)) w
    = (Ok {| valid := true; error := None |}, w1)
    /\ auditLogs (db w1)
       = auditLogs (db w) ++ [ {| al_userId := userId; al_action := "2FA_ENABLED";
                                  al_resource := "user"; al_resourceId := userId;
                                  al_details := [] |} ]
    /\ (forall t, isTwoFactorEnabled t userId w1 = (Ok true, w1))
    /\ (exists w2,
          disableTwoFactor t1 userId (generateTOTP secret (unix_seconds t1 / 30 + j)) w1
          = (Ok {| valid := true; error := None |}, w2)
          /\ auditLogs (db w2)
             = auditLogs (db w1) ++ [ {| al_userId := userId; al_action := "2FA_DISABLED";
                                         al_resource := "user"; al_resourceId := userId;
                                         al_details := [] |} ]
          /\ forall t, isTwoFactorEnabled t userId w2 = (Ok false, w2))
    /\ (forall code,
          String.length code = 6%nat ->
          code ∉ [ generateTOTP secret (unix_seconds t1 / 30 - 1);
                   generateTOTP secret (unix_seconds t1 / 30);
                   generateTOTP secret (unix_seconds t1 / 30 + 1) ] ->
          disableTwoFactor t1 userId code w1
          = (Ok {| valid := false; error := Some "Invalid verification code" |}, w1))
    /\ (forall code,
          String.length code <> 6%nat ->
          disableTwoFactor t1 userId code w1
          = (Throw (RangeError "Input buffers must have the same byte length"), w1)).
Proof.
  intros Hup Hs Hi Hj.
  assert (forall t k, -1 <= k <= 1 ->
            verifyTOTP t secret (generateTOTP secret (unix_seconds t / 30 + k)) = Ok true)
    as Hcode.
  { intros t k Hk. rewrite verifyTOTP_six by apply generateTOTP_length.
    f_equal. apply bool_decide_eq_true_2.
    assert (k = -1 \/ k = 0 \/ k = 1) as [->|[->| ->]] by lia.
    - replace (unix_seconds t / 30 + -1) with (unix_seconds t / 30 - 1) by lia. by left.
    - replace (unix_seconds t / 30 + 0) with (unix_seconds t / 30) by lia. right. by left.
    - right. right. by left. }
  unfold enableTwoFactor, bind at 1, of_outcome. rewrite (Hcode t0 i Hi). cbn [negb].
  unfold bind, redis_set, redis_cmd, auditLog_create, ret. rewrite Hup. cbn [redis db].
  eexists. split; [reflexivity|]. cbn [db auditLogs]. split; [done|].
  match goal with |- context [isTwoFactorEnabled _ userId ?w] => set (w1 := w) end.
  assert (rup (redis w1) = true) as Hup1 by done.
  assert (forall t, rlookup t (redis w1) ("2fa:secret:" +:+ userId) = Some (RString secret))
    as Hstored.
  { intros t. subst w1. cbn [redis]. by apply rlookup_rwrite_eq. }
  split; [|split; [|split]].
  - intros t. by eapply isTwoFactorEnabled_stored.
  - rewrite (disableTwoFactor_verifies t1 userId _ secret w1 Hup1 (Hstored t1) Hs).
    rewrite (Hcode t1 j Hj). eexists. split; [reflexivity|]. cbn [db auditLogs].
    split; [done|].
    intros t. unfold isTwoFactorEnabled, bind. erewrite redis_get_none; [|done|].
    + unfold ret. by rewrite bool_decide_eq_false_2 by (by intros ?).
    + cbn [redis]. unfold rlookup, expired. cbn [rdata rexpiry].
      rewrite (lookup_delete_ne _ ("2fa:backup:" +:+ userId)) by discriminate.
      rewrite lookup_delete_eq.
      rewrite (lookup_delete_ne _ ("2fa:backup:" +:+ userId)) by discriminate.
      by rewrite lookup_delete_eq.
  - intros code Hlen Hnot.
    rewrite (disableTwoFactor_verifies t1 userId _ secret w1 Hup1 (Hstored t1) Hs).
    rewrite verifyTOTP_six by done. by rewrite bool_decide_eq_false_2.
  - intros code Hlen.
    rewrite (disableTwoFactor_verifies t1 userId _ secret w1 Hup1 (Hstored t1) Hs).
    by rewrite verifyTOTP_other_length.
Qed.

Variable zod_message : DisableBody -> string.

(** X26. The route that disables two-factor authentication accepts codes of
    6 to 10 characters, and the check behind it compares six bytes.  For a
    signed-in user with 2FA enabled: a six-byte code that is not valid is
    answered 400 [Invalid verification code]; a code the schema lets
    through that is not six bytes long (7 to 10 characters, or six
    characters one of which is not ASCII) is answered 500 [Failed to
    disable 2FA]; in both cases 2FA stays on.  A valid code is answered 200
    and switches it off. *)
Theorem disable_route_answers
    (nowMs : Z) (userId secret code : string) (w : world) :
  rup (redis w) = true ->
  userId <> "" -> secret <> "" ->
  rlookup nowMs (redis w) ("2fa:secret:" +:+ userId) = Some (RString secret) ->
  (6 <= js_length code <= 10)%nat ->
  let valid_codes := [ generateTOTP secret (unix_seconds nowMs / 30 - 1);
                       generateTOTP secret (unix_seconds nowMs / 30);
                       generateTOTP secret (unix_seconds nowMs / 30 + 1) ] in
  (String.length code <> 6%nat ->
   disable_POST zod_message nowMs (Some userId) (BodyCode code) w
   = (Ok (error_response 500 "Failed to disable 2FA"), w))
  /\ (String.length code = 6%nat -> code ∉ valid_codes ->
      disable_POST zod_message nowMs (Some userId) (BodyCode code) w
      = (Ok (error_response 400 "Invalid verification code"), w))
  /\ (String.length code = 6%nat -> code ∈ valid_codes ->
      exists w',
        disable_POST zod_message nowMs (Some userId) (BodyCode code) w
        = (Ok (json_response 200 [ ("message", json_string "2FA disabled successfully");
                                   ("enabled", "false") ] []), w')
        /\ forall t, isTwoFactorEnabled t userId w' = (Ok false, w')).
Proof.
  intros Hup Hu Hs Hstored Hlen valid_codes.
  assert (disableSchema_parse (BodyCode code) = Some code) as Hparse.
  { unfold disableSchema_parse.
    destruct (Nat.leb_spec 6 (js_length code)); [|lia].
    by destruct (Nat.leb_spec (js_length code) 10); [|lia]. }
  destruct userId as [|u0 u]; [done|].
  unfold disable_POST, try_catch. rewrite Hparse. unfold bind.
  rewrite (disableTwoFactor_verifies nowMs _ code secret w Hup Hstored Hs).
  split; [|split].
  - intros Hbytes. by rewrite verifyTOTP_other_length.
  - intros Hbytes Hnot. rewrite verifyTOTP_six by done.
    by rewrite bool_decide_eq_false_2.
  - intros Hbytes Hin. rewrite verifyTOTP_six by done.
    rewrite bool_decide_eq_true_2 by done. cbn [valid negb]. unfold ret.
    eexists. split; [reflexivity|].
    intros t. unfold isTwoFactorEnabled, bind. erewrite redis_get_none; [|done|].
    + unfold ret. by rewrite bool_decide_eq_false_2 by (by intros ?).
    + cbn [redis]. unfold rlookup, expired. cbn [rdata rexpiry].
      set (k := "2fa:secret:" +:+ String u0 u).
      rewrite (lookup_delete_ne _ ("2fa:backup:" +:+ String u0 u)) by discriminate.
      rewrite lookup_delete_eq.
      rewrite (lookup_delete_ne _ ("2fa:backup:" +:+ String u0 u)) by discriminate.
      by rewrite lookup_delete_eq.
Qed.

End TwoFactorFlow.

Lemma two_factor_on_and_off_witness :
  exists w1,
    enableTwoFactor (H := toy_crypto) 90000 "user1" "JBSWY3DP"
      (generateTOTP (H := toy_crypto) "JBSWY3DP" 4) sample_world
    = (Ok {| valid := true; error := None |}, w1)
    /\ isTwoFactorEnabled 95000 "user1" w1 = (Ok true, w1)
    /\ disableTwoFactor (H := toy_crypto) 95000 "user1" "1234567" w1
       = (Throw (RangeError "Input buffers must have the same byte length"), w1).
Proof.
  destruct (two_factor_on_and_off (H := toy_crypto) 90000 95000 "user1" "JBSWY3DP" 1 0
              sample_world eq_refl ltac:(discriminate) ltac:(lia) ltac:(lia))
    as (w1 & Hon & _ & Hyes & _ & _ & Hthrow).
  exists w1. split; [exact Hon|]. split; [apply Hyes|]. apply Hthrow. discriminate.
Defined.

Lemma disable_route_answers_witness :
  let w := {| db := sample_db;
              redis := {| rdata := {[ "2fa:secret:user1" := RString "JBSWY3DP" ]};
                          rexpiry := ∅; rup := true |} |} in
  disable_POST (H := toy_crypto) (fun _ => "Invalid input") 95000 (Some "user1")
    (BodyCode "1234567") w
  = (Ok (error_response 500 "Failed to disable 2FA"), w).
Proof.
  intros w.
  apply (proj1 (disable_route_answers (H := toy_crypto) (fun _ => "Invalid input") 95000
                  "user1" "JBSWY3DP" "1234567" w eq_refl ltac:(discriminate)
                  ltac:(discriminate) ltac:(vm_compute; reflexivity)
                  ltac:(vm_compute; lia))).
  discriminate.
Defined.

(** ** From the vault to the provider *)

Section StoredKey.
Context `{NodeCrypto}.

Lemma decrypt_encrypt_round env key iv plaintext blob :
  getEncryptionKey env = Ok key ->
  length key = 32%nat ->
  length iv = 16%nat ->
  encrypt env iv plaintext = Ok blob ->
  decrypt env blob = Ok plaintext.
Proof.
  intros Hkey Hkl Hiv Henc. rewrite (encrypt_blob env key iv plaintext Hkey Hkl Hiv) in Henc.
  injection Henc as <-.
  set (ct := xor_bytes (list_ascii_of_string plaintext)
               (aes256_ctr key iv (String.length plaintext))).
  assert (length ct = String.length plaintext) as Hct.
  { subst ct. rewrite xor_bytes_length; rewrite ?aes256_ctr_length;
      by rewrite length_list_ascii_of_string. }
  rewrite (decrypt_combined env key iv (gcm_tag key iv ct) ct _ Hkey Hkl);
    [| |done|apply gcm_tag_length].
  - rewrite bool_decide_eq_true_2 by done. f_equal. subst ct. rewrite Hct.
    rewrite xor_bytes_involutive
      by (by rewrite aes256_ctr_length, length_list_ascii_of_string).
    apply string_of_list_ascii_of_string.
  - by rewrite list_ascii_of_string_of_list_ascii, base64_decode_encode.
Qed.

(** X27. A provider key put into the vault is the key the provider is
    called with.  For a key row whose [encryptedKey] is what [encrypt] made
    of the provider key (as the route that creates keys stores it),
    [decrypt] gives the provider key back.  When [Headers.set] takes every
    header value, the fallback loop calls [fetch] with the URL of the
    provider's endpoint followed by the path and with
    [Authorization: Bearer <provider key>] (the value normalized by [set]:
    a key ending in a visible character is sent as it is), and what the
    attempt comes to is what that call returns.  When [set] refuses a value
    (it does when the key is not a byte string) nothing is fetched: the
    TypeError leaves the loop. *)
Theorem stored_key_sent_upstream
    (env : option string) (fetch : nat -> UpstreamRequest -> FetchResult)
    (request : Request) (path : list string)
    (key iv : list ascii) (providerKey blob baseUrl : string) (k : ApiKey) (n : nat) :
  getEncryptionKey env = Ok key ->
  length key = 32%nat ->
  length iv = 16%nat ->
  encrypt env iv providerKey = Ok blob ->
  ak_encryptedKey k = blob ->
  PROVIDER_ENDPOINTS (ak_provider k) = Some baseUrl ->
  let sent := upstream_request request path baseUrl (ak_provider k) providerKey in
  let contentType := match headers_get "content-type" (req_headers request) with
                     | None | Some EmptyString => "application/json"
                     | Some ct => ct
                     end in
  let clientKey := match headers_get "provider-key" (req_headers request) with
                   | Some (String c pk) =>
                       if bool_decide (ak_provider k = BYTEZ) then Some (String c pk) else None
                   | _ => None
                   end in
  decrypt env (ak_encryptedKey k) = Ok providerKey
  /\ (header_accepted ("Bearer " +:+ providerKey) = true ->
      header_accepted contentType = true ->
      (ak_provider k = ANTHROPIC -> header_accepted providerKey = true) ->
      (forall pk, clientKey = Some pk -> header_accepted pk = true) ->
      exists up, sent = Ok up)
  /\ (forall up,
        sent = Ok up ->
        attempt env fetch request path n k
        = match fetch n up with
          | NetworkError => Unreachable
          | Fetched r usage => Answered r usage
          end
        /\ up_url up = baseUrl +:+ "/" +:+ join "/" path
        /\ headers_get "Authorization" (up_headers up)
           = Some (normalize_header_value ("Bearer " +:+ providerKey))
        /\ (ends_clean providerKey = true ->
            headers_get "Authorization" (up_headers up) = Some ("Bearer " +:+ providerKey))
        /\ forall st rest,
             tryProviders env fetch request path (k :: rest) st
             = match fetch (calls st) up with
               | Fetched r usage =>
                   let st' := {| proxyResponse := Some (r, usage); selectedApiKey := k;
                                 calls := S (calls st) |} in
                   if ok r then Ok st' else tryProviders env fetch request path rest st'
               | NetworkError =>
                   tryProviders env fetch request path rest
                     {| proxyResponse := proxyResponse st; selectedApiKey := k;
                        calls := S (calls st) |}
               end)
  /\ (forall e,
        sent = Throw e ->
        (exists msg, e = TypeError msg)
        /\ attempt env fetch request path n k = HeaderRefused e
        /\ forall st rest, tryProviders env fetch request path (k :: rest) st = Throw e)
  /\ (is_byte_string providerKey = false -> exists msg, sent = Throw (TypeError msg)).
Proof.
  intros Hkey Hkl Hiv Henc Hblob Hend sent contentType clientKey.
  pose proof (decrypt_encrypt_round env key iv providerKey blob Hkey Hkl Hiv Henc) as Hdec.
  rewrite <- Hblob in Hdec.
  destruct (upstream_request_cases request path baseUrl (ak_provider k) providerKey)
    as [Hyes Hno].
  change (upstream_request request path baseUrl (ak_provider k) providerKey) with sent
    in Hyes, Hno.
  change (match headers_get "content-type" (req_headers request) with
          | None | Some EmptyString => "application/json"
          | Some ct => ct
          end) with contentType in Hyes, Hno.
  change (match headers_get "provider-key" (req_headers request) with
          | Some (String c pk) =>
              if bool_decide (ak_provider k = BYTEZ) then Some (String c pk) else None
          | _ => None
          end) with clientKey in Hyes, Hno.
  split; [exact Hdec|]. split; [|split; [|split]].
  - intros Hb Hc Ha Hp. eexists. apply Hyes. rewrite Hb, Hc. cbn [andb].
    case_bool_decide as Hprov; [rewrite (Ha Hprov)|]; cbn [andb].
    + destruct clientKey as [pk|]; [by apply Hp|done].
    + destruct clientKey as [pk|]; [by apply Hp|done].
  - intros up Hup.
    assert (headers_get "Authorization" (up_headers up)
            = Some (normalize_header_value ("Bearer " +:+ providerKey))) as Hauth.
    { destruct (header_accepted ("Bearer " +:+ providerKey) && header_accepted contentType
                && (if bool_decide (ak_provider k = ANTHROPIC)
                    then header_accepted providerKey else true)
                && match clientKey with Some pk => header_accepted pk | None => true end) eqn:E.
      - rewrite Hyes in Hup by done. injection Hup as <-.
        cbn [up_headers]. unfold clientKey.
        destruct (headers_get "provider-key" (req_headers request)) as [[|c pk]|];
          destruct (bool_decide (ak_provider k = ANTHROPIC));
          destruct (bool_decide (ak_provider k = BYTEZ)); reflexivity.
      - destruct (Hno eq_refl) as [msg Hmsg]. congruence. }
    pose proof Hup as Hup'. unfold sent in Hup'.
    split; [unfold attempt; by rewrite Hend, Hdec, Hup'|].
    split.
    { unfold sent, upstream_request in Hup.
      repeat match type of Hup with
             | obind ?o _ = Ok _ => destruct o; cbn [obind] in Hup; [|discriminate]
             end.
      by injection Hup as <-. }
    split; [exact Hauth|]. split.
    + intros Hclean. rewrite Hauth. f_equal.
      change ("Bearer " +:+ providerKey) with ("Bearer " +:+ "" +:+ providerKey).
      by apply normalize_between.
    + intros st rest. cbn [tryProviders calls]. by rewrite Hend, Hdec, Hup'.
  - intros e He. pose proof He as He'. unfold sent in He'. split; [|split].
    + destruct (header_accepted ("Bearer " +:+ providerKey) && header_accepted contentType
                && (if bool_decide (ak_provider k = ANTHROPIC)
                    then header_accepted providerKey else true)
                && match clientKey with Some pk => header_accepted pk | None => true end) eqn:E.
      * rewrite Hyes in He by done. discriminate.
      * destruct (Hno eq_refl) as [msg Hmsg]. rewrite Hmsg in He.
        injection He as <-. eauto.
    + unfold attempt. by rewrite Hend, Hdec, He'.
    + intros st rest. cbn [tryProviders calls]. by rewrite Hend, Hdec, He'.
  - intros Hbs. apply Hno. apply andb_false_intro1, andb_false_intro1, andb_false_intro1.
    unfold header_accepted. apply andb_false_intro1. unfold is_byte_string in *.
    rewrite list_ascii_of_string_app, forallb_app. by apply andb_false_intro2.
Qed.

End StoredKey.

Lemma stored_key_sent_upstream_witness :
  exists up,
    upstream_request (request_from "10.0.1.5" NotJson) ["v1"; "models"]
      "https://api.openai.com" OPENAI "sk-test" = Ok up
    /\ attempt (H := toy_crypto) sample_env fetch_always_200 (request_from "10.0.1.5" NotJson)
         ["v1"; "models"] 0 openai_key
       = match fetch_always_200 0 up with
         | NetworkError => Unreachable
         | Fetched r usage => Answered r usage
         end
    /\ up_url up = "https://api.openai.com/v1/models"
    /\ headers_get "Authorization" (up_headers up) = Some "Bearer sk-test".
Proof.
  destruct (stored_key_sent_upstream (H := toy_crypto) sample_env fetch_always_200
              (request_from "10.0.1.5" NotJson) ["v1"; "models"]
              (list_ascii_of_string "0123456789abcdef0123456789abcdef") sample_iv "sk-test"
              sample_blob "https://api.openai.com" openai_key 0
              eq_refl eq_refl eq_refl ltac:(vm_compute; reflexivity) eq_refl eq_refl)
    as (_ & Hsent & Hup & _).
  destruct (Hsent eq_refl ltac:(vm_compute; reflexivity) ltac:(discriminate)
              ltac:(vm_compute; discriminate)) as [up Hok].
  destruct (Hup up Hok) as (Hattempt & Hurl & _ & Hauth & _).
  exists up. split; [exact Hok|]. split; [exact Hattempt|].
  split; [exact Hurl|]. exact (Hauth eq_refl).
Defined.

(** ** Passwords *)

Lemma hex_digit_spec (n : nat) :
  (n < 16)%nat -> hex_digit n <> ":"%char /\ unhex (hex_digit n) = Some n.
Proof.
  intros Hn.
  do 16 (destruct n as [|n]; [split; [discriminate|reflexivity]|]). lia.
Qed.

Lemma hex_decode_hex bs : hex_decode (hex bs) = bs.
Proof.
  induction bs as [|b bs IH]; [done|]. cbn [hex hex_decode].
  pose proof (nat_ascii_bounded b) as Hb.
  destruct (hex_digit_spec (nat_of_ascii b / 16)) as [_ ->];
    [apply Nat.Div0.div_lt_upper_bound; lia|].
  destruct (hex_digit_spec (nat_of_ascii b mod 16)) as [_ ->];
    [apply Nat.mod_upper_bound; lia|].
  rewrite IH. f_equal.
  rewrite <- (Nat.div_mod_eq (nat_of_ascii b) 16). apply ascii_nat_embedding.
Qed.

Lemma hex_no_colon bs : Forall (fun c => c <> ":"%char) (list_ascii_of_string (hex bs)).
Proof.
  induction bs as [|b bs IH]; [constructor|]. cbn [hex list_ascii_of_string].
  pose proof (nat_ascii_bounded b) as Hb.
  constructor; [apply hex_digit_spec, Nat.Div0.div_lt_upper_bound; lia|].
  constructor; [apply hex_digit_spec, Nat.mod_upper_bound; lia|done].
Qed.

Lemma split_on_none sep s :
  Forall (fun c => c <> sep) (list_ascii_of_string s) -> split_on sep s = [s].
Proof.
  induction s as [|c s IH]; [done|]. cbn [list_ascii_of_string split_on].
  intros [Hc Hs]%Forall_cons. rewrite (IH Hs).
  by destruct (Ascii.eqb_spec c sep).
Qed.

Lemma split_on_first sep s t :
  Forall (fun c => c <> sep) (list_ascii_of_string s) ->
  split_on sep (s +:+ String sep t) = s :: split_on sep t.
Proof.
  induction s as [|c s IH].
  - intros _. change ("" +:+ String sep t) with (String sep t). cbn [split_on].
    by rewrite Ascii.eqb_refl.
  - cbn [list_ascii_of_string]. intros [Hc Hs]%Forall_cons.
    change (String c s +:+ String sep t) with (String c (s +:+ String sep t)).
    cbn [split_on]. rewrite (IH Hs). by destruct (Ascii.eqb_spec c sep).
Qed.

Section PasswordFacts.
Variable pbkdf2_sha512 : list ascii -> list ascii -> Z -> nat -> list ascii.
Hypothesis pbkdf2_sha512_length :
  forall password salt iterations keylen,
    length (pbkdf2_sha512 password salt iterations keylen) = keylen.

(** X28. Passwords.  [verifyPassword] accepts the password
    [hashPassword] was given: against the stored text of a password and a
    non-empty salt it answers whether the offered password derives the same
    key, so it is true for the password itself.  A stored text without a
    colon is answered false.  A stored text whose second part does not
    decode to 32 bytes is not answered at all: [timingSafeEqual] throws a
    RangeError. *)
Theorem verifyPassword_hashPassword (salt : list ascii) (password offered : string) :
  salt <> [] ->
  let derive := fun p => pbkdf2_sha512 (list_ascii_of_string p) salt ITERATIONS KEY_LENGTH in
  verifyPassword pbkdf2_sha512 offered (hashPassword pbkdf2_sha512 salt password)
  = Ok (bool_decide (derive password = derive offered))
  /\ verifyPassword pbkdf2_sha512 password (hashPassword pbkdf2_sha512 salt password) = Ok true
  /\ (forall stored,
        Forall (fun c => c <> ":"%char) (list_ascii_of_string stored) ->
        verifyPassword pbkdf2_sha512 offered stored = Ok false)
  /\ (forall hashHex,
        hashHex <> "" ->
        Forall (fun c => c <> ":"%char) (list_ascii_of_string hashHex) ->
        length (hex_decode hashHex) <> 32%nat ->
        verifyPassword pbkdf2_sha512 offered (hex salt +:+ ":" +:+ hashHex)
        = Throw (RangeError "Input buffers must have the same byte length")).
Proof.
  intros Hsalt derive.
  assert (exists s0 s, hex salt = String s0 s) as (s0 & s & Hhex).
  { destruct salt as [|b bs]; [done|]. cbn [hex]. eauto. }
  assert (forall p,
            verifyPassword pbkdf2_sha512 p (hashPassword pbkdf2_sha512 salt password)
            = Ok (bool_decide (derive password = derive p))) as Hgen.
  { intros p. unfold verifyPassword, hashPassword.
    change (hex salt +:+ ":" +:+ ?x) with (hex salt +:+ String ":" x).
    rewrite split_on_first by apply hex_no_colon.
    rewrite split_on_none by apply hex_no_colon.
    rewrite Hhex.
    destruct (hex (pbkdf2_sha512 (list_ascii_of_string password) salt ITERATIONS KEY_LENGTH))
      as [|h0 h] eqn:Ehash.
    { pose proof (hex_length (pbkdf2_sha512 (list_ascii_of_string password) salt ITERATIONS
                                KEY_LENGTH)) as Hlen.
      rewrite Ehash, pbkdf2_sha512_length in Hlen. by cbn in Hlen. }
    rewrite <- Hhex, <- Ehash, !hex_decode_hex.
    unfold timingSafeEqual. by rewrite !pbkdf2_sha512_length, Nat.eqb_refl. }
  split; [apply Hgen|]. split; [|split].
  - rewrite Hgen. by rewrite bool_decide_eq_true_2.
  - intros stored Hno. unfold verifyPassword. rewrite split_on_none by done.
    by destruct stored.
  - intros hashHex Hne Hno Hlen. unfold verifyPassword.
    change (hex salt +:+ ":" +:+ hashHex) with (hex salt +:+ String ":" hashHex).
    rewrite split_on_first by apply hex_no_colon.
    rewrite split_on_none by done. rewrite Hhex.
    destruct hashHex as [|h0 h]; [done|].
    rewrite <- Hhex, hex_decode_hex. unfold timingSafeEqual.
    rewrite pbkdf2_sha512_length.
    by destruct (Nat.eqb_spec (length (hex_decode (String h0 h))) KEY_LENGTH).
Qed.

End PasswordFacts.

Lemma verifyPassword_hashPassword_witness :
  let kdf := fun (pw salt : list ascii) (_ : Z) (n : nat) => pad_to n (pw ++ salt) in
  verifyPassword kdf "hunter2" (hashPassword kdf sample_iv "hunter2") = Ok true
  /\ verifyPassword kdf "hunter2" (hex sample_iv +:+ ":" +:+ "abcd")
     = Throw (RangeError "Input buffers must have the same byte length").
Proof.
  intros kdf.
  destruct (verifyPassword_hashPassword kdf (fun pw salt _ n => pad_to_length n _) sample_iv
              "hunter2" "hunter2" ltac:(discriminate)) as (_ & Hsame & _ & Hthrow).
  split; [exact Hsame|]. apply Hthrow.
  - discriminate.
  - repeat constructor; discriminate.
  - vm_compute. lia.
Defined.

(** ** Base32: what is encoded can be decoded *)

(** Both loops keep [value] in 32 bits; only its low bits are ever read. *)
Lemma to_int32_cong z : exists q, to_int32 z = z + 2 ^ 32 * q.
Proof.
  unfold to_int32. exists (- ((z + 2 ^ 31) / 2 ^ 32)).
  pose proof (Z.div_mod (z + 2 ^ 31) (2 ^ 32) ltac:(lia)). lia.
Qed.

Lemma lor_disjoint a x k :
  0 <= k -> a mod 2 ^ k = 0 -> 0 <= x < 2 ^ k -> Z.lor a x = a + x.
Proof.
  intros Hk Ha Hx.
  assert (Z.land a x = 0) as Hland.
  { apply Z.bits_inj'. intros n Hn. rewrite Z.land_spec, Z.bits_0.
    destruct (Z.lt_ge_cases n k) as [Hlt|Hge].
    - rewrite <- (Z.mod_pow2_bits_low a k n) by lia. rewrite Ha, Z.bits_0. done.
    - assert (Z.testbit x n = false) as ->; [|by rewrite andb_false_r].
      destruct (Z.eq_dec x 0) as [->|Hx0]; [apply Z.bits_0|].
      apply Z.bits_above_log2; [lia|].
      assert (Z.log2 x < k); [|lia]. apply Z.log2_lt_pow2; lia. }
  rewrite <- Z.lxor_lor by done. symmetry. by apply Z.add_nocarry_lxor.
Qed.

Lemma push_bits v k x :
  0 <= k <= 32 -> 0 <= x < 2 ^ k ->
  exists q, to_int32 (Z.lor (to_int32 (Z.shiftl v k)) x) = v * 2 ^ k + x + 2 ^ 32 * q.
Proof.
  intros Hk Hx. rewrite Z.shiftl_mul_pow2 by lia.
  destruct (to_int32_cong (v * 2 ^ k)) as [q1 Hq1].
  assert (to_int32 (v * 2 ^ k) mod 2 ^ k = 0) as Hmod.
  { rewrite Hq1. replace (2 ^ 32) with (2 ^ k * 2 ^ (32 - k))
      by (rewrite <- Z.pow_add_r by lia; f_equal; lia).
    replace (v * 2 ^ k + 2 ^ k * 2 ^ (32 - k) * q1) with ((v + 2 ^ (32 - k) * q1) * 2 ^ k) by lia.
    apply Z.mod_mul. lia. }
  rewrite (lor_disjoint _ x k) by (done || lia).
  destruct (to_int32_cong (to_int32 (v * 2 ^ k) + x)) as [q2 Hq2].
  exists (q1 + q2). lia.
Qed.

Lemma land_shiftr_uint32 v s k :
  0 <= s -> 0 <= k -> s + k <= 32 ->
  Z.land (Z.shiftr (to_uint32 v) s) (Z.ones k) = (v / 2 ^ s) mod 2 ^ k.
Proof.
  intros Hs Hk Hsk. rewrite Z.land_ones by lia. rewrite Z.shiftr_div_pow2 by lia.
  unfold to_uint32.
  apply Z.bits_inj'. intros n Hn.
  destruct (Z.lt_ge_cases n k) as [Hlt|Hge].
  - rewrite !Z.mod_pow2_bits_low by lia.
    rewrite <- !Z.shiftr_div_pow2 by lia. rewrite !Z.shiftr_spec by lia.
    apply Z.mod_pow2_bits_low. lia.
  - rewrite !Z.mod_pow2_bits_high by lia. done.
Qed.

Lemma base32_index_char i : 0 <= i < 32 -> base32_index (base32_char i) = i.
Proof.
  intros Hi. rewrite <- (Z2Nat.id i) at 2 by lia. unfold base32_char.
  assert (Z.to_nat i < 32)%nat as Hn by lia. revert Hn. generalize (Z.to_nat i) as n. intros n Hn.
  do 32 (destruct n as [|n]; [reflexivity|]). lia.
Qed.

Lemma land_31 z : Z.land z 31 = z mod 32.
Proof. change 31 with (Z.ones 5). by rewrite Z.land_ones by lia. Qed.

Lemma base32_loop_step i rest bd vd :
  0 <= i < 32 ->
  base32_loop (String (base32_char i) rest) bd vd
  = let v := to_int32 (Z.lor (to_int32 (Z.shiftl vd 5)) i) in
    if bd + 5 >=? 8
    then ascii_of_nat (Z.to_nat (Z.land (Z.shiftr (to_uint32 v) (bd + 5 - 8)) 255))
         :: base32_loop rest (bd + 5 - 8) v
    else base32_loop rest (bd + 5) v.
Proof.
  intros Hi. cbn [base32_loop]. rewrite base32_index_char by done.
  destruct (Z.eqb_spec i (-1)); [lia|]. done.
Qed.

Lemma byte_of_Z (last : ascii) X :
  X = Z.of_nat (nat_of_ascii last) -> ascii_of_nat (Z.to_nat X) = last.
Proof. intros ->. rewrite Nat2Z.id. apply ascii_nat_embedding. Qed.

Lemma byte_value_range (b : ascii) : 0 <= Z.of_nat (nat_of_ascii b) < 256.
Proof. pose proof (nat_ascii_bounded b). lia. Qed.

Lemma base32_emit_8 v :
  base32_emit (Z.to_nat 8) 8 v
  = (String (base32_char (Z.land (Z.shiftr (to_uint32 v) 3) 31)) EmptyString, 3).
Proof. reflexivity. Qed.
Lemma base32_emit_9 v :
  base32_emit (Z.to_nat 9) 9 v
  = (String (base32_char (Z.land (Z.shiftr (to_uint32 v) 4) 31)) EmptyString, 4).
Proof. reflexivity. Qed.
Lemma base32_emit_10 v :
  base32_emit (Z.to_nat 10) 10 v
  = (String (base32_char (Z.land (Z.shiftr (to_uint32 v) 5) 31))
       (String (base32_char (Z.land (Z.shiftr (to_uint32 v) 0) 31)) EmptyString), 0).
Proof. reflexivity. Qed.
Lemma base32_emit_11 v :
  base32_emit (Z.to_nat 11) 11 v
  = (String (base32_char (Z.land (Z.shiftr (to_uint32 v) 6) 31))
       (String (base32_char (Z.land (Z.shiftr (to_uint32 v) 1) 31)) EmptyString), 1).
Proof. reflexivity. Qed.
Lemma base32_emit_12 v :
  base32_emit (Z.to_nat 12) 12 v
  = (String (base32_char (Z.land (Z.shiftr (to_uint32 v) 7) 31))
       (String (base32_char (Z.land (Z.shiftr (to_uint32 v) 2) 31)) EmptyString), 2).
Proof. reflexivity. Qed.

(** The index of an emitted character, as arithmetic. *)
Lemma idx_arith v s :
  0 <= s <= 27 ->
  let i := Z.land (Z.shiftr (to_uint32 v) s) 31 in
  0 <= i < 32 /\ i = (v / 2 ^ s) mod 32.
Proof.
  intros Hs i. subst i. change 31 with (Z.ones 5).
  rewrite land_shiftr_uint32 by lia. change (2 ^ 5) with 32.
  split; [apply Z.mod_pos_bound; lia|done].
Qed.

Lemma out_arith v s :
  0 <= s <= 24 ->
  Z.land (Z.shiftr (to_uint32 v) s) 255 = (v / 2 ^ s) mod 256.
Proof. intros Hs. change 255 with (Z.ones 8). by rewrite land_shiftr_uint32 by lia. Qed.

Ltac base32_arith :=
  unfold pending_ok;
  change (2 ^ 32) with 4294967296 in *; change (2 ^ 8) with 256 in *;
  change (2 ^ 5) with 32 in *;
  repeat match goal with
         | |- context [2 ^ ?e] =>
             let v := eval vm_compute in (2 ^ e) in change (2 ^ e) with v
         | H : context [2 ^ ?e] |- _ =>
             let v := eval vm_compute in (2 ^ e) in change (2 ^ e) with v in H
         end;
  Z.div_mod_to_equations; lia.

Lemma base32_step_0 b rest ve vd :
  exists v1 vd1,
    base32_loop (base32_encode_loop (b :: rest) 0 ve) 0 vd
    = base32_loop (base32_encode_loop rest 3 v1) 5 vd1
    /\ pending_ok 3 v1 vd1 b.
Proof.
  cbn [base32_encode_loop]. change (0 + 8) with 8. rewrite base32_emit_8.
  pose proof (byte_value_range b) as HB.
  destruct (push_bits ve 8 (Z.of_nat (nat_of_ascii b)) ltac:(lia) ltac:(lia)) as [q Hv1].
  set (v1 := to_int32 (Z.lor (to_int32 (Z.shiftl ve 8)) (Z.of_nat (nat_of_ascii b)))) in *.
  destruct (idx_arith v1 3 ltac:(lia)) as [Hi1 Hi1v].
  set (i1 := Z.land (Z.shiftr (to_uint32 v1) 3) 31) in *.
  change (String (base32_char i1) EmptyString +:+ ?x) with (String (base32_char i1) x).
  rewrite base32_loop_step by done. cbn zeta. change (0 + 5 >=? 8) with false. cbn iota.
  change (0 + 5) with 5.
  destruct (push_bits vd 5 i1 ltac:(lia) ltac:(lia)) as [q2 Hvd1].
  set (vd1 := to_int32 (Z.lor (to_int32 (Z.shiftl vd 5)) i1)) in *.
  exists v1, vd1. split; [done|].
  clearbody v1 vd1 i1. clear -Hv1 Hvd1 Hi1v HB. base32_arith.
Qed.

Lemma land31_int32 z : Z.land (to_int32 z) 31 = z mod 32.
Proof.
  rewrite land_31. destruct (to_int32_cong z) as [q ->].
  change (2 ^ 32) with 4294967296. Z.div_mod_to_equations. lia.
Qed.

Lemma base32_step_1 b rest ve vd last :
  pending_ok 1 ve vd last ->
  exists v1 vd1,
    base32_loop (base32_encode_loop (b :: rest) 1 ve) 7 vd
    = last :: base32_loop (base32_encode_loop rest 4 v1) 4 vd1
    /\ pending_ok 4 v1 vd1 b.
Proof.
  intros Hp. cbn [base32_encode_loop]. change (1 + 8) with 9. rewrite base32_emit_9.
  pose proof (byte_value_range b) as HB. pose proof (byte_value_range last) as HL.
  destruct (push_bits ve 8 (Z.of_nat (nat_of_ascii b)) ltac:(lia) ltac:(lia)) as [q Hv1].
  set (v1 := to_int32 (Z.lor (to_int32 (Z.shiftl ve 8)) (Z.of_nat (nat_of_ascii b)))) in *.
  destruct (idx_arith v1 4 ltac:(lia)) as [Hi1 Hi1v].
  set (i1 := Z.land (Z.shiftr (to_uint32 v1) 4) 31) in *.
  change (String (base32_char i1) EmptyString +:+ ?x) with (String (base32_char i1) x).
  rewrite base32_loop_step by done. cbn zeta. change (7 + 5 >=? 8) with true. cbn iota.
  change (7 + 5 - 8) with 4.
  destruct (push_bits vd 5 i1 ltac:(lia) ltac:(lia)) as [q2 Hvd1].
  set (vd1 := to_int32 (Z.lor (to_int32 (Z.shiftl vd 5)) i1)) in *.
  rewrite out_arith by lia.
  exists v1, vd1. split.
  - f_equal. apply byte_of_Z.
    clearbody v1 vd1 i1. clear -Hv1 Hvd1 Hi1v HB HL Hp. unfold pending_ok in Hp. base32_arith.
  - clearbody v1 vd1 i1. clear -Hv1 Hvd1 Hi1v HB HL Hp. unfold pending_ok in Hp. base32_arith.
Qed.

Lemma base32_step_2 b rest ve vd last :
  pending_ok 2 ve vd last ->
  exists v1 vd2,
    base32_loop (base32_encode_loop (b :: rest) 2 ve) 6 vd
    = last :: b :: base32_loop (base32_encode_loop rest 0 v1) 0 vd2.
Proof.
  intros Hp. cbn [base32_encode_loop]. change (2 + 8) with 10. rewrite base32_emit_10.
  pose proof (byte_value_range b) as HB. pose proof (byte_value_range last) as HL.
  destruct (push_bits ve 8 (Z.of_nat (nat_of_ascii b)) ltac:(lia) ltac:(lia)) as [q Hv1].
  set (v1 := to_int32 (Z.lor (to_int32 (Z.shiftl ve 8)) (Z.of_nat (nat_of_ascii b)))) in *.
  destruct (idx_arith v1 5 ltac:(lia)) as [Hi1 Hi1v].
  set (i1 := Z.land (Z.shiftr (to_uint32 v1) 5) 31) in *.
  destruct (idx_arith v1 0 ltac:(lia)) as [Hi2 Hi2v].
  set (i2 := Z.land (Z.shiftr (to_uint32 v1) 0) 31) in *.
  change (String (base32_char i1) (String (base32_char i2) EmptyString) +:+ ?x)
    with (String (base32_char i1) (String (base32_char i2) x)).
  rewrite base32_loop_step by done. cbn zeta. change (6 + 5 >=? 8) with true. cbn iota.
  change (6 + 5 - 8) with 3.
  destruct (push_bits vd 5 i1 ltac:(lia) ltac:(lia)) as [q2 Hvd1].
  set (vd1 := to_int32 (Z.lor (to_int32 (Z.shiftl vd 5)) i1)) in *.
  rewrite base32_loop_step by done. cbn zeta. change (3 + 5 >=? 8) with true. cbn iota.
  change (3 + 5 - 8) with 0.
  destruct (push_bits vd1 5 i2 ltac:(lia) ltac:(lia)) as [q3 Hvd2].
  set (vd2 := to_int32 (Z.lor (to_int32 (Z.shiftl vd1 5)) i2)) in *.
  rewrite !out_arith by lia.
  exists v1, vd2. f_equal; [|f_equal].
  - apply byte_of_Z.
    clearbody v1 vd1 vd2 i1 i2. clear -Hv1 Hvd1 Hi1v HB HL Hp.
    unfold pending_ok in Hp. base32_arith.
  - apply byte_of_Z.
    clearbody v1 vd1 vd2 i1 i2. clear -Hv1 Hvd1 Hvd2 Hi1v Hi2v HB HL Hp.
    unfold pending_ok in Hp. base32_arith.
Qed.

Lemma base32_step_3 b rest ve vd last :
  pending_ok 3 ve vd last ->
  exists v1 vd2,
    base32_loop (base32_encode_loop (b :: rest) 3 ve) 5 vd
    = last :: base32_loop (base32_encode_loop rest 1 v1) 7 vd2
    /\ pending_ok 1 v1 vd2 b.
Proof.
  intros Hp. cbn [base32_encode_loop]. change (3 + 8) with 11. rewrite base32_emit_11.
  pose proof (byte_value_range b) as HB. pose proof (byte_value_range last) as HL.
  destruct (push_bits ve 8 (Z.of_nat (nat_of_ascii b)) ltac:(lia) ltac:(lia)) as [q Hv1].
  set (v1 := to_int32 (Z.lor (to_int32 (Z.shiftl ve 8)) (Z.of_nat (nat_of_ascii b)))) in *.
  destruct (idx_arith v1 6 ltac:(lia)) as [Hi1 Hi1v].
  set (i1 := Z.land (Z.shiftr (to_uint32 v1) 6) 31) in *.
  destruct (idx_arith v1 1 ltac:(lia)) as [Hi2 Hi2v].
  set (i2 := Z.land (Z.shiftr (to_uint32 v1) 1) 31) in *.
  change (String (base32_char i1) (String (base32_char i2) EmptyString) +:+ ?x)
    with (String (base32_char i1) (String (base32_char i2) x)).
  rewrite base32_loop_step by done. cbn zeta. change (5 + 5 >=? 8) with true. cbn iota.
  change (5 + 5 - 8) with 2.
  destruct (push_bits vd 5 i1 ltac:(lia) ltac:(lia)) as [q2 Hvd1].
  set (vd1 := to_int32 (Z.lor (to_int32 (Z.shiftl vd 5)) i1)) in *.
  rewrite base32_loop_step by done. cbn zeta. change (2 + 5 >=? 8) with false. cbn iota.
  change (2 + 5) with 7.
  destruct (push_bits vd1 5 i2 ltac:(lia) ltac:(lia)) as [q3 Hvd2].
  set (vd2 := to_int32 (Z.lor (to_int32 (Z.shiftl vd1 5)) i2)) in *.
  rewrite !out_arith by lia.
  exists v1, vd2. split.
  - f_equal. apply byte_of_Z.
    clearbody v1 vd1 vd2 i1 i2. clear -Hv1 Hvd1 Hi1v HB HL Hp.
    unfold pending_ok in Hp. base32_arith.
  - clearbody v1 vd1 vd2 i1 i2. clear -Hv1 Hvd1 Hvd2 Hi1v Hi2v HB HL Hp.
    unfold pending_ok in Hp. base32_arith.
Qed.

Lemma base32_step_4 b rest ve vd last :
  pending_ok 4 ve vd last ->
  exists v1 vd2,
    base32_loop (base32_encode_loop (b :: rest) 4 ve) 4 vd
    = last :: base32_loop (base32_encode_loop rest 2 v1) 6 vd2
    /\ pending_ok 2 v1 vd2 b.
Proof.
  intros Hp. cbn [base32_encode_loop]. change (4 + 8) with 12. rewrite base32_emit_12.
  pose proof (byte_value_range b) as HB. pose proof (byte_value_range last) as HL.
  destruct (push_bits ve 8 (Z.of_nat (nat_of_ascii b)) ltac:(lia) ltac:(lia)) as [q Hv1].
  set (v1 := to_int32 (Z.lor (to_int32 (Z.shiftl ve 8)) (Z.of_nat (nat_of_ascii b)))) in *.
  destruct (idx_arith v1 7 ltac:(lia)) as [Hi1 Hi1v].
  set (i1 := Z.land (Z.shiftr (to_uint32 v1) 7) 31) in *.
  destruct (idx_arith v1 2 ltac:(lia)) as [Hi2 Hi2v].
  set (i2 := Z.land (Z.shiftr (to_uint32 v1) 2) 31) in *.
  change (String (base32_char i1) (String (base32_char i2) EmptyString) +:+ ?x)
    with (String (base32_char i1) (String (base32_char i2) x)).
  rewrite base32_loop_step by done. cbn zeta. change (4 + 5 >=? 8) with true. cbn iota.
  change (4 + 5 - 8) with 1.
  destruct (push_bits vd 5 i1 ltac:(lia) ltac:(lia)) as [q2 Hvd1].
  set (vd1 := to_int32 (Z.lor (to_int32 (Z.shiftl vd 5)) i1)) in *.
  rewrite base32_loop_step by done. cbn zeta. change (1 + 5 >=? 8) with false. cbn iota.
  change (1 + 5) with 6.
  destruct (push_bits vd1 5 i2 ltac:(lia) ltac:(lia)) as [q3 Hvd2].
  set (vd2 := to_int32 (Z.lor (to_int32 (Z.shiftl vd1 5)) i2)) in *.
  rewrite !out_arith by lia.
  exists v1, vd2. split.
  - f_equal. apply byte_of_Z.
    clearbody v1 vd1 vd2 i1 i2. clear -Hv1 Hvd1 Hi1v HB HL Hp.
    unfold pending_ok in Hp. base32_arith.
  - clearbody v1 vd1 vd2 i1 i2. clear -Hv1 Hvd1 Hvd2 Hi1v Hi2v HB HL Hp.
    unfold pending_ok in Hp. base32_arith.
Qed.

Lemma base32_last_group be ve vd last :
  1 <= be <= 4 -> pending_ok be ve vd last ->
  base32_loop (base32_encode_loop [] be ve) (8 - be) vd = [last].
Proof.
  intros Hbe Hp. cbn [base32_encode_loop].
  destruct (Z.gtb_spec be 0); [|lia].
  pose proof (byte_value_range last) as HL.
  assert (Z.land (to_int32 (Z.shiftl ve (5 - be))) 31 = (ve * 2 ^ (5 - be)) mod 32) as Hi
    by (by rewrite land31_int32, Z.shiftl_mul_pow2 by lia).
  set (i := Z.land (to_int32 (Z.shiftl ve (5 - be))) 31) in *.
  assert (0 <= i < 32) as Hir by (rewrite Hi; apply Z.mod_pos_bound; lia).
  rewrite base32_loop_step by done. cbn zeta.
  destruct (push_bits vd 5 i ltac:(lia) ltac:(lia)) as [q2 Hvd1].
  set (vd1 := to_int32 (Z.lor (to_int32 (Z.shiftl vd 5)) i)) in *.
  destruct (Z.geb_spec (8 - be + 5) 8); [|lia].
  rewrite out_arith by lia. cbn [base32_loop]. f_equal. apply byte_of_Z.
  clearbody vd1 i. clear -Hvd1 Hi HL Hp Hbe. unfold pending_ok in Hp.
  assert (be = 1 \/ be = 2 \/ be = 3 \/ be = 4) as [->|[->|[->| ->]]] by lia.
  - change (8 - 1) with 7 in *. change (5 - 1) with 4 in *. change (7 + 5 - 8) with 4. base32_arith.
  - change (8 - 2) with 6 in *. change (5 - 2) with 3 in *. change (6 + 5 - 8) with 3. base32_arith.
  - change (8 - 3) with 5 in *. change (5 - 3) with 2 in *. change (5 + 5 - 8) with 2. base32_arith.
  - change (8 - 4) with 4 in *. change (5 - 4) with 1 in *. change (4 + 5 - 8) with 1. base32_arith.
Qed.

Lemma base32_roundtrip_from rest : forall ve vd,
  base32_loop (base32_encode_loop rest 0 ve) 0 vd = rest
  /\ forall be last, 1 <= be <= 4 -> pending_ok be ve vd last ->
       base32_loop (base32_encode_loop rest be ve) (8 - be) vd = last :: rest.
Proof.
  induction rest as [|b rest IH]; intros ve vd.
  - split; [done|]. intros be last Hbe Hp. by apply base32_last_group.
  - split.
    + destruct (base32_step_0 b rest ve vd) as (v1 & vd1 & -> & Hp).
      by apply (proj2 (IH v1 vd1) 3 b).
    + intros be last Hbe Hp.
      assert (be = 1 \/ be = 2 \/ be = 3 \/ be = 4) as [->|[->|[->| ->]]] by lia.
      * destruct (base32_step_1 b rest ve vd last Hp) as (v1 & vd1 & Heq & Hp').
        change (8 - 1) with 7. rewrite Heq. f_equal. by apply (proj2 (IH v1 vd1) 4 b).
      * destruct (base32_step_2 b rest ve vd last Hp) as (v1 & vd1 & Heq).
        change (8 - 2) with 6. rewrite Heq. do 2 f_equal. apply IH.
      * destruct (base32_step_3 b rest ve vd last Hp) as (v1 & vd1 & Heq & Hp').
        change (8 - 3) with 5. rewrite Heq. f_equal. by apply (proj2 (IH v1 vd1) 1 b).
      * destruct (base32_step_4 b rest ve vd last Hp) as (v1 & vd1 & Heq & Hp').
        change (8 - 4) with 4. rewrite Heq. f_equal. by apply (proj2 (IH v1 vd1) 2 b).
Qed.

Lemma base32_char_clean i : 0 <= i < 32 -> base32_clean (base32_char i).
Proof.
  intros Hi. unfold base32_char.
  assert (Z.to_nat i < 32)%nat as Hn by lia. revert Hn. generalize (Z.to_nat i) as n. intros n Hn.
  do 32 (destruct n as [|n]; [by split|]). lia.
Qed.

Lemma clean_text_kept s :
  Forall base32_clean (list_ascii_of_string s) ->
  string_filter is_base32_char (toUpperCase s) = s.
Proof.
  induction s as [|c s IH]; [done|]. cbn [list_ascii_of_string toUpperCase string_filter].
  intros [[Hc Hu] Hs]%Forall_cons. rewrite Hu, Hc. by rewrite (IH Hs).
Qed.

Lemma idx_clean v s :
  0 <= s <= 27 -> base32_clean (base32_char (Z.land (Z.shiftr (to_uint32 v) s) 31)).
Proof. intros Hs. apply base32_char_clean. by apply idx_arith. Qed.

Lemma base32_encode_loop_text rest : forall be ve,
  0 <= be <= 4 ->
  Forall base32_clean (list_ascii_of_string (base32_encode_loop rest be ve))
  /\ Z.of_nat (String.length (base32_encode_loop rest be ve))
     = (8 * Z.of_nat (length rest) + be + 4) / 5.
Proof.
  induction rest as [|b rest IH]; intros be ve Hbe.
  - cbn [base32_encode_loop length]. destruct (Z.gtb_spec be 0).
    + cbn [list_ascii_of_string String.length]. split.
      * apply Forall_cons_2; [|apply Forall_nil_2].
        apply base32_char_clean. rewrite land31_int32. apply Z.mod_pos_bound. lia.
      * assert (be = 1 \/ be = 2 \/ be = 3 \/ be = 4) as [->|[->|[->| ->]]] by lia; reflexivity.
    + assert (be = 0) as -> by lia. split; [apply Forall_nil_2|reflexivity].
  - cbn [base32_encode_loop length].
    assert (be = 0 \/ be = 1 \/ be = 2 \/ be = 3 \/ be = 4) as Hcases by lia.
    destruct Hcases as [->|[->|[->|[->| ->]]]].
    + change (0 + 8) with 8. rewrite base32_emit_8.
      rewrite list_ascii_of_string_app, string_length_app.
      match goal with |- context [base32_encode_loop rest 3 ?v] =>
        destruct (IH 3 v ltac:(lia)) as [Hc Hl] end.
      split.
      * apply Forall_app. split; [|done]. cbn [list_ascii_of_string].
        apply Forall_cons_2; [apply idx_clean; lia|apply Forall_nil_2].
      * cbn [String.length]. rewrite Nat2Z.inj_add, Hl. Z.div_mod_to_equations. lia.
    + change (1 + 8) with 9. rewrite base32_emit_9.
      rewrite list_ascii_of_string_app, string_length_app.
      match goal with |- context [base32_encode_loop rest 4 ?v] =>
        destruct (IH 4 v ltac:(lia)) as [Hc Hl] end.
      split.
      * apply Forall_app. split; [|done]. cbn [list_ascii_of_string].
        apply Forall_cons_2; [apply idx_clean; lia|apply Forall_nil_2].
      * cbn [String.length]. rewrite Nat2Z.inj_add, Hl. Z.div_mod_to_equations. lia.
    + change (2 + 8) with 10. rewrite base32_emit_10.
      rewrite list_ascii_of_string_app, string_length_app.
      match goal with |- context [base32_encode_loop rest 0 ?v] =>
        destruct (IH 0 v ltac:(lia)) as [Hc Hl] end.
      split.
      * apply Forall_app. split; [|done]. cbn [list_ascii_of_string].
        repeat (apply Forall_cons_2; [apply idx_clean; lia|]). apply Forall_nil_2.
      * cbn [String.length]. rewrite Nat2Z.inj_add, Hl. Z.div_mod_to_equations. lia.
    + change (3 + 8) with 11. rewrite base32_emit_11.
      rewrite list_ascii_of_string_app, string_length_app.
      match goal with |- context [base32_encode_loop rest 1 ?v] =>
        destruct (IH 1 v ltac:(lia)) as [Hc Hl] end.
      split.
      * apply Forall_app. split; [|done]. cbn [list_ascii_of_string].
        repeat (apply Forall_cons_2; [apply idx_clean; lia|]). apply Forall_nil_2.
      * cbn [String.length]. rewrite Nat2Z.inj_add, Hl. Z.div_mod_to_equations. lia.
    + change (4 + 8) with 12. rewrite base32_emit_12.
      rewrite list_ascii_of_string_app, string_length_app.
      match goal with |- context [base32_encode_loop rest 2 ?v] =>
        destruct (IH 2 v ltac:(lia)) as [Hc Hl] end.
      split.
      * apply Forall_app. split; [|done]. cbn [list_ascii_of_string].
        repeat (apply Forall_cons_2; [apply idx_clean; lia|]). apply Forall_nil_2.
      * cbn [String.length]. rewrite Nat2Z.inj_add, Hl. Z.div_mod_to_equations. lia.
Qed.

(** X29. A two-factor secret can be read back.  [base32Decode] undoes
    [base32Encode] on every buffer, although both loops let their
    accumulator overflow 32 bits; the text has [ceil(8 n / 5)] characters
    for [n] bytes (32 for the 20 random bytes of a secret), all of them in
    [A-Z2-7], so the cleaning step of the decoder drops nothing. *)
Theorem base32Decode_base32Encode (buffer : list ascii) :
  base32Decode (base32Encode buffer) = buffer
  /\ Z.of_nat (String.length (base32Encode buffer)) = (8 * Z.of_nat (length buffer) + 4) / 5
  /\ Forall (fun c => is_base32_char c = true) (list_ascii_of_string (base32Encode buffer)).
Proof.
  destruct (base32_encode_loop_text buffer 0 0 ltac:(lia)) as [Hclean Hlen].
  unfold base32Decode, base32Encode. split; [|split].
  - rewrite clean_text_kept by done. apply base32_roundtrip_from.
  - rewrite Hlen. f_equal. lia.
  - eapply Forall_impl; [exact Hclean|]. by intros c [? _].
Qed.

(** ** Sessions in the cache *)

Section SessionFacts.
Variable J : Type.
Variable stringify : J -> string.
Variable parse : string -> outcome J.

(** X30. Sessions.  A session stored with a positive time to live is read
    back unchanged until the time is up, and is gone afterwards; after
    [deleteSession] it is gone at once.  None of the three helpers ever
    throws: with the store unreachable a session is silently not stored,
    reads as absent, and deleting does nothing; and text under the key that
    is no JSON reads as absent as well. *)
Theorem session_round_trip
    (t0 : Z) (sessionId : string) (data : J) (ttlSeconds : Z) (w : world) :
  parse (stringify data) = Ok data ->
  stringify data <> "" ->
  0 < ttlSeconds ->
  (rup (redis w) = true ->
   exists w1,
     setSession J stringify t0 sessionId data ttlSeconds w = (Ok tt, w1)
     /\ db w1 = db w
     /\ (forall t, t < t0 + ttlSeconds * 1000 ->
           getSession J parse t sessionId w1 = (Ok (Some data), w1))
     /\ (forall t, t0 + ttlSeconds * 1000 <= t ->
           getSession J parse t sessionId w1 = (Ok None, w1))
     /\ (forall t, exists w2,
           deleteSession t sessionId w1 = (Ok tt, w2)
           /\ forall t', getSession J parse t' sessionId w2 = (Ok None, w2)))
  /\ (rup (redis w) = false ->
      forall t,
        setSession J stringify t sessionId data ttlSeconds w = (Ok tt, w)
        /\ getSession J parse t sessionId w = (Ok None, w)
        /\ deleteSession t sessionId w = (Ok tt, w))
  /\ (forall t text e,
        rup (redis w) = true ->
        rlookup t (redis w) ("session:" +:+ sessionId) = Some (RString text) ->
        parse text = Throw e ->
        getSession J parse t sessionId w = (Ok None, w)).
Proof.
  intros Hparse Hne Httl. split; [|split].
  - intros Hup. unfold setSession, setCache, try_catch, redis_set_ex, redis_cmd. rewrite Hup.
    eexists. split; [reflexivity|]. cbn [db redis]. split; [done|].
    split; [|split].
    + intros t Ht. unfold getSession, getCache, try_catch, bind.
      erewrite redis_get_string; [|done|by apply rlookup_rwrite_eq; intros d [= <-]].
      destruct (stringify data) as [|c s] eqn:E; [done|].
      unfold of_outcome. by rewrite Hparse.
    + intros t Ht. unfold getSession, getCache, try_catch, bind.
      erewrite redis_get_none; [done|done|]. by apply rlookup_rwrite_expired.
    + intros t. unfold deleteSession, deleteCache, try_catch, bind, redis_del, redis_cmd, ret.
      cbn [redis db rup rwrite]. rewrite Hup.
      eexists. split; [reflexivity|].
      intros t'. unfold getSession, getCache, try_catch, bind.
      erewrite redis_get_none; [done|done|]. cbn [redis]. rewrite rlookup_deleted.
      rewrite bool_decide_eq_true_2; [done|]. by left.
  - intros Hdown t.
    unfold setSession, setCache, getSession, getCache, deleteSession, deleteCache, try_catch,
      bind, redis_set_ex, redis_get, redis_del.
    by rewrite !redis_down by done.
  - intros t text e Hup Htext Hthrow. unfold getSession, getCache, try_catch, bind.
    erewrite redis_get_string by done.
    destruct text as [|c s]; [done|]. unfold of_outcome. by rewrite Hthrow.
Qed.

End SessionFacts.

Lemma session_round_trip_witness :
  exists w1,
    setSession Z toString 1000 "abc" 42 60 sample_world = (Ok tt, w1)
    /\ getSession Z (fun s => match parseInt s with
                              | Some n => Ok n
                              | None => Throw (JsError "SyntaxError")
                              end) 60999 "abc" w1 = (Ok (Some 42), w1)
    /\ getSession Z (fun s => match parseInt s with
                              | Some n => Ok n
                              | None => Throw (JsError "SyntaxError")
                              end) 61000 "abc" w1 = (Ok None, w1).
Proof.
  destruct (session_round_trip Z toString
              (fun s => match parseInt s with
                        | Some n => Ok n
                        | None => Throw (JsError "SyntaxError")
                        end) 1000 "abc" 42 60 sample_world eq_refl ltac:(discriminate)
              ltac:(lia)) as [Hup _].
  destruct (Hup eq_refl) as (w1 & Hset & _ & Hin & Hout & _).
  exists w1. split; [exact Hset|]. split; [apply Hin; lia|apply Hout; lia].
Defined.
